(** * quadsphere: sphere tessellation, index arrays and texture coordinates

    A shallow embedding of [src/quadsphere.h] and [src/quadsphere.cpp].

    - [int] values are mathematical integers ([Z]); the theorems carry the
      range in which no signed operation of the constructor overflows.
    - [unsigned int] values are integers reduced modulo 2^32 ([u32]).
    - The index arrays are lists of [Z]; a pointer into the index block is
      an offset in words, and a store outside the block has no result.
    - [double] and [float] values (vertices, texture coordinates) are real
      numbers: rounding is not modelled, and the <cmath> functions are the
      mathematical ones. *)

From Stdlib Require Import ZArith List Lia Bool Reals Lra.
From Stdlib Require PrimFloat.
Import ListNotations.

Local Open Scope Z_scope.

(** ** Machine integers *)

Definition INT_MAX : Z := 2147483647.
Definition INT_MIN : Z := -2147483648.

(** Conversion to [unsigned int]: reduction modulo 2^32. *)
Definition u32 (z : Z) : Z := z mod 4294967296.

(** [sizeof(float)] and [sizeof(unsigned int)]. *)
Definition sizeof_float : Z := 4.
Definition sizeof_uint : Z := 4.

(** Modelled from the spec: [Nprojections] is declared in [pvQtPic.h], which
    is not part of the sources; the specification fixes the number of
    supported projections at seven, and the constructor fetches seven
    coordinate sets (rect, fish, cyli, equi, ster, merc, sphr). *)
Definition Nprojections : Z := 7.

(** ** The constructor's size computations (quadsphere.cpp, 118-149) *)

(** [divs = 2 * ((divs + 1) / 2); if( divs < 1 ) divs = 1;]
    C++ integer division truncates toward zero: [Z.quot]. *)
Definition round_divs (divs : Z) : Z :=
  let d := 2 * Z.quot (divs + 1) 2 in
  if d <? 1 then 1 else d.

Section Sizes.
(** [divs] is the effective resolution, after rounding. *)
Variable divs : Z.

Definition dm1 : Z := divs - 1.
Definition dp1 : Z := divs + 1.
Definition qpf : Z := divs * divs.
Definition ppf : Z := dp1 * dp1.
Definition d2 : Z := Z.quot divs 2.
Definition ntb : Z := d2.
Definition dups : Z := dp1 + 2 * ntb + 4.

Definition vertpnts : Z := u32 (6 * ppf + dups).
Definition linewrds : Z := u32 (24 * qpf).
Definition quadwrds : Z := linewrds.
Definition nwords : Z :=
  u32 ((3 + 2 * Nprojections) * vertpnts + linewrds + quadwrds).

(** Offsets of the sub-arrays inside [words], in words:
    [verts = words], [TCs = verts + 3 * vertpnts],
    [lineidx = TCs + Nprojections * 2 * vertpnts],
    [quadidx = lineidx + linewrds]. *)
Definition verts_off : Z := 0.
Definition TCs_off : Z := verts_off + u32 (3 * vertpnts).
Definition lineidx_off : Z := TCs_off + u32 (Nprojections * 2 * vertpnts).
Definition quadidx_off : Z := lineidx_off + linewrds.

(** *** Accessors of quadsphere.h *)

Definition vertexOffset : Z := 0.
Definition vertexBytes : Z := u32 (3 * vertpnts * sizeof_float).
Definition texCoordSize : Z := u32 (2 * vertpnts * sizeof_float).
Definition lineIndexCount : Z := linewrds.
Definition lineIndexOffset : Z := u32 ((lineidx_off - verts_off) * sizeof_float).
Definition lineIndexSize : Z := u32 (linewrds * sizeof_uint).
Definition quadIndexCount : Z := quadwrds.
Definition quadIndexOffset : Z := u32 ((quadidx_off - verts_off) * sizeof_float).
Definition quadIndexSize : Z := u32 (quadwrds * sizeof_uint).
(** [dataBlockAddr()] is the address of [words]: byte offset 0. *)
Definition dataBlockAddr : Z := 0.
Definition dataBlockSize : Z := u32 (15 * vertpnts * sizeof_float).

(** Byte distance from the start of the vertex array to the end of the
    last texture-coordinate set, which is where [lineidx] starts. *)
Definition data_span_bytes : Z := (lineidx_off - verts_off) * sizeof_float.

End Sizes.

(** Number of quadrilaterals: four index words per quad. *)
Definition quad_count (divs : Z) : Z := quadIndexCount divs / 4.

(** Largest resolution for which no signed operation of the size
    computations overflows ([24 * qpf] is the first to do so). *)
Definition max_divs_int : Z := 9458.
(** Largest resolution for which the block size [nwords] fits an
    [unsigned int], so that the block holds all its sub-arrays. *)
Definition max_divs : Z := 5350.
(** Largest resolution for which the byte size of the block fits an
    [unsigned int], so that every byte offset and size is exact. *)
Definition max_divs_bytes : Z := 2674.

(** ** Texture-coordinate lookup (quadsphere.cpp, 643-665)

    The catalog ([pictureTypes::picTypeIndex], two overloads) and the type
    [pvQtPic::PicType] are external.  A pointer is an offset in floats
    from [words]; [None] is the null pointer. *)
Section Lookup.
Variable divs : Z.
Variable PicType : Type.
Variable picTypeIndex_name : list Byte.byte -> Z.
Variable picTypeIndex_type : PicType -> Z.

Definition texCoords_name (proj : list Byte.byte) : option Z :=
  let i := picTypeIndex_name proj in
  if (i <? 0) || (i >=? Nprojections) then None
  else Some (TCs_off divs + u32 (i * 2 * vertpnts divs)).

Definition texCoordOffset_name (proj : list Byte.byte) : Z :=
  match texCoords_name proj with
  | None => 0
  | Some p => u32 ((p - verts_off) * sizeof_float)
  end.

Definition texCoords_type (proj : PicType) : option Z :=
  let i := picTypeIndex_type proj in
  if (i <? 0) || (i >=? Nprojections) then None
  else Some (TCs_off divs + u32 (i * 2 * vertpnts divs)).

Definition texCoordOffset_type (proj : PicType) : Z :=
  match texCoords_type proj with
  | None => 0
  | Some p => u32 ((p - verts_off) * sizeof_float)
  end.
End Lookup.

Arguments texCoords_type divs {PicType} _ _.
Arguments texCoordOffset_type divs {PicType} _ _.

(** ** Index builder (quadsphere.cpp, 233-318) *)

(** The values [0, 1, ..., n-1] of a loop [for( r = 0; r < n; r++ )]. *)
Definition zrange (n : Z) : list Z := map Z.of_nat (seq 0 (Z.to_nat n)).

(** One CCW quad: the four stores [*pq++ = ...] of the inner loop, where
    [k = r * dp1] is the first index of the row. *)
Definition quad_cell (divs : Z) (k c : Z) : list Z :=
  [ u32 (k + c);
    u32 (dp1 divs + k + c);
    u32 (dp1 divs + k + c + 1);
    u32 (k + c + 1) ].

(** The quads of the front face, row by row. *)
Definition face_quads (divs : Z) : list Z :=
  flat_map (fun r =>
              let k := u32 (r * dp1 divs) in
              flat_map (fun c => quad_cell divs k c) (zrange divs))
           (zrange divs).

(** [for( r = 20 * qpf; r > 0; --r ) *pq++ = *qq++ + ppf;]
    [quadidx] holds what has been written so far, [pq] is its end and
    [qq] the read position, which runs over entries written earlier by
    the same loop. *)
Fixpoint copy_faces (r : nat) (qq : nat) (ppfv : Z) (quadidx : list Z)
  : list Z :=
  match r with
  | O => quadidx
  | S r' =>
      copy_faces r' (S qq) ppfv (quadidx ++ [u32 (nth qq quadidx 0 + ppfv)])
  end.

Definition build_quadidx (divs : Z) : list Z :=
  copy_faces (Z.to_nat (20 * qpf divs)) 0 (ppf divs) (face_quads divs).

(** What the copy loop adds to an entry: [*qq + ppf]. *)
Definition shift (p : Z) (x : Z) : Z := u32 (x + p).

(** The block of face [f] in the quad index array: the front face's
    quads shifted [f] times by [ppf]. *)
Fixpoint face_block (d : Z) (f : nat) : list Z :=
  match f with
  | O => face_quads d
  | S f' => map (shift (ppf d)) (face_block d f')
  end.

(** A line quadruple is read off a quad quadruple: [sel = (a, b, c, d)]
    stands for [pq[0] = qq[a]; pq[1] = qq[b]; pq[2] = qq[c]; pq[3] = qq[d]]. *)
Definition selector : Type := (nat * nat * nat * nat)%type.

Definition sel_front : selector := (0, 1, 0, 3)%nat.
Definition sel_top : selector := (0, 1, 0, 3)%nat.
Definition sel_left : selector := (0, 1, 2, 1)%nat.
Definition sel_back : selector := (0, 1, 2, 1)%nat.
Definition sel_bottom : selector := (0, 3, 2, 3)%nat.
Definition sel_right : selector := (0, 1, 0, 3)%nat.

Definition line_of (sel : selector) (quadidx : list Z) (qq : nat) : list Z :=
  let '(a, b, c, d) := sel in
  [ nth (qq + a) quadidx 0; nth (qq + b) quadidx 0;
    nth (qq + c) quadidx 0; nth (qq + d) quadidx 0 ].

(** [for( r = qpf; r > 0; --r ){ ...; pq += 4; qq += 4; }] *)
Fixpoint line_face (sel : selector) (r : nat) (qq : nat) (quadidx : list Z)
  : list Z :=
  match r with
  | O => []
  | S r' => line_of sel quadidx qq ++ line_face sel r' (qq + 4) quadidx
  end.

(** The six loops in storage order: front, top, left, back, bottom, right;
    [qq] keeps running from one loop to the next. *)
Definition build_lineidx (divs : Z) (quadidx : list Z) : list Z :=
  let n := Z.to_nat (qpf divs) in
  line_face sel_front n 0 quadidx
  ++ line_face sel_top n (4 * n) quadidx
  ++ line_face sel_left n (8 * n) quadidx
  ++ line_face sel_back n (12 * n) quadidx
  ++ line_face sel_bottom n (16 * n) quadidx
  ++ line_face sel_right n (20 * n) quadidx.

(** The index block as it lies in memory: [lineidx] followed by [quadidx]
    ([quadidx = lineidx + linewrds]). *)
Definition index_builder (divs : Z) : list Z :=
  let quadidx := build_quadidx divs in
  build_lineidx divs quadidx ++ quadidx.

(** Pre-repair vertex count: six faces of [ppf] points. *)
Definition base_vertices (divs : Z) : Z := 6 * ppf divs.

(** The quadruple of cell [n] in an index array. *)
Definition quadruple (arr : list Z) (n : nat) : list Z :=
  firstn 4 (skipn (4 * n) arr).

(** The selector of each face, by storage position. *)
Definition face_selector (f : nat) : selector :=
  match f with
  | 0%nat => sel_front
  | 1%nat => sel_top
  | 2%nat => sel_left
  | 3%nat => sel_back
  | 4%nat => sel_bottom
  | _ => sel_right
  end.

Definition apply_selector (sel : selector) (q : list Z) : list Z :=
  line_of sel q 0.

(** The positions at which a line quadruple differs from a quad
    quadruple. *)
Definition changed_positions (q l : list Z) : list nat :=
  filter (fun i => negb (nth i l 0 =? nth i q 0)) [0; 1; 2; 3]%nat.

(** The four edges of a quad and the two segments a line quadruple draws
    ([GL_LINES] takes the indices pairwise). *)
Definition quad_edges (q : list Z) : list (Z * Z) :=
  match q with
  | [a; b; c; e] => [(a, b); (b, c); (c, e); (e, a)]
  | _ => []
  end.

Definition line_segments (l : list Z) : list (Z * Z) :=
  match l with
  | [a; b; c; e] => [(a, b); (c, e)]
  | _ => []
  end.

Definition same_edge (e1 e2 : Z * Z) : bool :=
  ((fst e1 =? fst e2) && (snd e1 =? snd e2))
  || ((fst e1 =? snd e2) && (snd e1 =? fst e2)).

(** The edges of the quad that the line quadruple draws. *)
Definition edges_drawn (q l : list Z) : list (Z * Z) :=
  filter (fun e => existsb (same_edge e) (line_segments l)) (quad_edges q).

(** The position each face overwrites and the position it copies there. *)
Definition overwritten_position (f : nat) : nat :=
  match f with
  | 0%nat | 1%nat => 2%nat
  | 2%nat | 3%nat => 3%nat
  | 4%nat => 1%nat
  | _ => 2%nat
  end.

Definition copied_position (f : nat) : nat :=
  match f with
  | 0%nat | 1%nat => 0%nat
  | 2%nat | 3%nat => 1%nat
  | 4%nat => 3%nat
  | _ => 0%nat
  end.

(** ** Seam repair of the quad indices (quadsphere.cpp, 468-479, 538-636) *)

(** In-place store [blk[i] = v]. *)
Fixpoint upd (i : nat) (v : Z) (blk : list Z) : list Z :=
  match blk, i with
  | [], _ => []
  | _ :: t, O => v :: t
  | h :: t, S i' => h :: upd i' v t
  end.

(** A store through a pointer [p], an offset in words from the start of
    the index block; outside the block there is no defined result. *)
Definition store (blk : list Z) (p : Z) (v : Z) : option (list Z) :=
  if (0 <=? p) && (p <? Z.of_nat (length blk))
  then Some (upd (Z.to_nat p) v blk)
  else None.

Definition bind {A B : Type} (m : option A) (k : A -> option B) : option B :=
  match m with
  | Some a => k a
  | None => None
  end.

Notation "x <- m ;; k" := (bind m (fun x => k))
  (at level 61, m at next level, right associativity).

(** Loop state: the block, the running pointer [pq] and the running
    duplicate index ([idt], [idk] or [idb]). *)
Definition repair_state : Type := (list Z * Z * Z)%type.

(** [for( r = 0; r < qtb; r++ ){ pq[0] = idt++; pq[1] = idt; pq += 4 * divs; }] *)
Fixpoint top_loop (r : nat) (divs : Z) (st : repair_state)
  : option repair_state :=
  match r with
  | O => Some st
  | S r' =>
      let '(blk, pq, idt) := st in
      blk1 <- store blk pq idt ;;
      let idt1 := u32 (idt + 1) in
      blk2 <- store blk1 (pq + 1) idt1 ;;
      top_loop r' divs (blk2, pq + 4 * divs, idt1)
  end.

(** [for( r = 0; r < divs - 1; r++ ){ pq[1] = idk; pq += 4 * divs; pq[0] = idk++; }] *)
Fixpoint back_loop (r : nat) (divs : Z) (st : repair_state)
  : option repair_state :=
  match r with
  | O => Some st
  | S r' =>
      let '(blk, pq, idk) := st in
      blk1 <- store blk (pq + 1) idk ;;
      let pq1 := pq + 4 * divs in
      blk2 <- store blk1 pq1 idk ;;
      back_loop r' divs (blk2, pq1, u32 (idk + 1))
  end.

(** [for( r = 0; r < qtb; r++ ){ pq += 4 * divs; pq[0] = idb++; pq[1] = idb; }] *)
Fixpoint bottom_loop (r : nat) (divs : Z) (st : repair_state)
  : option repair_state :=
  match r with
  | O => Some st
  | S r' =>
      let '(blk, pq, idb) := st in
      let pq1 := pq + 4 * divs in
      blk1 <- store blk pq1 idb ;;
      let idb1 := u32 (idb + 1) in
      blk2 <- store blk1 (pq1 + 1) idb1 ;;
      bottom_loop r' divs (blk2, pq1, idb1)
  end.

(** Point, quad and duplicate indices of the seam (468-479). *)
Section SeamIndices.
Variable divs : Z.

Definition qtb : Z := ntb divs - 1.
Definition ipt : Z := u32 (ppf divs + d2 divs).
Definition iqt : Z := u32 (qpf divs + d2 divs).
Definition ipk : Z := u32 (3 * ppf divs + d2 divs).
Definition iqk : Z := u32 (3 * qpf divs + d2 divs).
Definition ipb : Z :=
  u32 (4 * ppf divs + (dp1 divs - ntb divs) * dp1 divs + d2 divs).
Definition iqb : Z :=
  u32 (4 * qpf divs + (divs - 1 - qtb) * divs + d2 divs).
Definition idt : Z := u32 (6 * ppf divs).
Definition idk : Z := u32 (idt + ntb divs).
Definition idb : Z := u32 (idk + dp1 divs).
Definition idc : Z := u32 (idb + ntb divs).

(** [quadidx], as an offset into the index block. *)
Definition quadidx_base : Z := linewrds divs.

(** Top seam: [pq = quadidx + 4 * iqt; for ...; pq[0] = idt;] *)
Definition repair_top (blk : list Z) : option (list Z) :=
  let pq := quadidx_base + u32 (4 * iqt) in
  st <- top_loop (Z.to_nat qtb) divs (blk, pq, idt) ;;
  let '(blk, pq, idt) := st in
  store blk pq idt.

(** Back seam: [pq = quadidx + 4 * iqk; pq[0] = idk++; for ...;
    pq[1] = idk;] *)
Definition repair_back (blk : list Z) : option (list Z) :=
  let pq := quadidx_base + u32 (4 * iqk) in
  blk <- store blk pq idk ;;
  st <- back_loop (Z.to_nat (divs - 1)) divs (blk, pq, u32 (idk + 1)) ;;
  let '(blk, pq, idk) := st in
  store blk (pq + 1) idk.

(** Bottom seam: [pq = quadidx + 4 * iqb; pq[1] = idb; for ...] *)
Definition repair_bottom (blk : list Z) : option (list Z) :=
  let pq := quadidx_base + u32 (4 * iqb) in
  blk <- store blk (pq + 1) idb ;;
  st <- bottom_loop (Z.to_nat qtb) divs (blk, pq, idb) ;;
  Some (fst (fst st)).

(** Top centre: [jq = divs * (d2 - 1) + d2;
    pq = quadidx + 4 * ( qpf + jq ); pq[-2] = idc; pq[1] = idc + 1;] *)
Definition repair_top_centre (blk : list Z) : option (list Z) :=
  let jq := u32 (divs * (d2 divs - 1) + d2 divs) in
  let pq := quadidx_base + u32 (4 * u32 (qpf divs + jq)) in
  blk <- store blk (pq - 2) idc ;;
  store blk (pq + 1) (u32 (idc + 1)).

(** Bottom centre: [jq = (divs + 1) * d2;
    pq = quadidx + 4 * ( 4 * qpf + jq ); pq[-1] = idc + 2;
    pq[0] = idc + 3;] *)
Definition repair_bottom_centre (blk : list Z) : option (list Z) :=
  let jq := u32 ((divs + 1) * d2 divs) in
  let pq := quadidx_base + u32 (4 * u32 (4 * qpf divs + jq)) in
  blk <- store blk (pq - 1) (u32 (idc + 2)) ;;
  store blk pq (u32 (idc + 3)).

(** The index stores of the seam repair, in source order. *)
Definition seam_repair (blk : list Z) : option (list Z) :=
  blk <- repair_top blk ;;
  blk <- repair_back blk ;;
  blk <- repair_bottom blk ;;
  blk <- repair_top_centre blk ;;
  repair_bottom_centre blk.
End SeamIndices.

(** The index block after construction, from the constructor's argument. *)
Definition quadsphere_indices (divs_arg : Z) : option (list Z) :=
  let divs := round_divs divs_arg in
  seam_repair divs (index_builder divs).

(** The two arrays inside the finished block. *)
Definition lineidx_of (divs : Z) (blk : list Z) : list Z :=
  firstn (Z.to_nat (linewrds divs)) blk.
Definition quadidx_of (divs : Z) (blk : list Z) : list Z :=
  skipn (Z.to_nat (linewrds divs)) blk.

Definition in_range (bound : Z) (v : Z) : Prop := 0 <= v < bound.

(** The effective resolutions: 1, or an even number, up to [max_divs]. *)
Definition valid_divs (d : Z) : Prop :=
  (d = 1 \/ (2 <= d /\ Z.Even d)) /\ d <= max_divs.

(** Length of the index block: [linewrds + quadwrds]. *)
Definition block_len (d : Z) : nat := Z.to_nat (48 * qpf d).

(** A block of [len] words whose entries are all below [bound]. *)
Definition good_block (len : nat) (bound : Z) (blk : list Z) : Prop :=
  length blk = len /\ Forall (in_range bound) blk.

(** *** The stores of the seam repair, listed

    A list of stores, each a pair of an offset into the index block and
    the value stored there, performed in order. *)
Definition apply_writes (ws : list (Z * Z)) (blk : list Z) : list Z :=
  fold_left (fun b w => upd (Z.to_nat (fst w)) (snd w) b) ws blk.

(** The stores of [r] passes of the top loop:
    [pq[0] = idt++; pq[1] = idt; pq += 4 * divs;] *)
Fixpoint top_writes (r : nat) (divs pq idt : Z) : list (Z * Z) :=
  match r with
  | O => []
  | S r' =>
      (pq, idt) :: (pq + 1, idt + 1)
      :: top_writes r' divs (pq + 4 * divs) (idt + 1)
  end.

(** The stores of [r] passes of the back loop:
    [pq[1] = idk; pq += 4 * divs; pq[0] = idk++;] *)
Fixpoint back_writes (r : nat) (divs pq idk : Z) : list (Z * Z) :=
  match r with
  | O => []
  | S r' =>
      (pq + 1, idk) :: (pq + 4 * divs, idk)
      :: back_writes r' divs (pq + 4 * divs) (idk + 1)
  end.

(** The stores of [r] passes of the bottom loop:
    [pq += 4 * divs; pq[0] = idb++; pq[1] = idb;] *)
Fixpoint bottom_writes (r : nat) (divs pq idb : Z) : list (Z * Z) :=
  match r with
  | O => []
  | S r' =>
      (pq + 4 * divs, idb) :: (pq + 4 * divs + 1, idb + 1)
      :: bottom_writes r' divs (pq + 4 * divs) (idb + 1)
  end.

(** The stores of the five parts of the seam repair (542-566, 612, 635). *)
Definition repair_top_writes (divs : Z) : list (Z * Z) :=
  let pq := quadidx_base divs + u32 (4 * iqt divs) in
  let n := Z.to_nat (qtb divs) in
  top_writes n divs pq (idt divs)
  ++ [(pq + 4 * divs * Z.of_nat n, idt divs + Z.of_nat n)].

Definition repair_back_writes (divs : Z) : list (Z * Z) :=
  let pq := quadidx_base divs + u32 (4 * iqk divs) in
  let n := Z.to_nat (divs - 1) in
  (pq, idk divs)
  :: back_writes n divs pq (idk divs + 1)
  ++ [(pq + 4 * divs * Z.of_nat n + 1, idk divs + 1 + Z.of_nat n)].

Definition repair_bottom_writes (divs : Z) : list (Z * Z) :=
  let pq := quadidx_base divs + u32 (4 * iqb divs) in
  (pq + 1, idb divs)
  :: bottom_writes (Z.to_nat (qtb divs)) divs pq (idb divs).

Definition repair_top_centre_writes (divs : Z) : list (Z * Z) :=
  let jq := u32 (divs * (d2 divs - 1) + d2 divs) in
  let pq := quadidx_base divs + u32 (4 * u32 (qpf divs + jq)) in
  [(pq - 2, idc divs); (pq + 1, idc divs + 1)].

Definition repair_bottom_centre_writes (divs : Z) : list (Z * Z) :=
  let jq := u32 ((divs + 1) * d2 divs) in
  let pq := quadidx_base divs + u32 (4 * u32 (4 * qpf divs + jq)) in
  [(pq - 1, idc divs + 2); (pq, idc divs + 3)].

Definition seam_writes (divs : Z) : list (Z * Z) :=
  repair_top_writes divs ++ repair_back_writes divs
  ++ repair_bottom_writes divs ++ repair_top_centre_writes divs
  ++ repair_bottom_centre_writes divs.

(** Corner [k] of the quad whose first corner is the point [x]. *)
Definition corner (divs x : Z) (k : Z) : Z :=
  if k =? 0 then x
  else if k =? 1 then x + dp1 divs
  else if k =? 2 then x + dp1 divs + 1
  else x + 1.

(** Offset in the index block of corner [k] of the quad of cell
    [(r, c)] of face [f]. *)
Definition quad_slot (divs f r c k : Z) : Z :=
  linewrds divs + 4 * (f * qpf divs + r * divs + c) + k.

(** The quad corners the seam repair redirects at an even resolution,
    with the duplicate each one then names; [None] for a corner it
    leaves alone.  With [h = divs / 2], the quads right of the seam are
    those of column [h] in the rear half of the top face (rows below
    [h]), in the back face, and in the rear half of the bottom face
    (rows from [h] on); their corners 0 and 1 lie on the seam.  The two
    quads left of the seam that touch a pole centre are redirected at
    that one corner. *)
Definition repaired (divs f r c k : Z) : option Z :=
  let h := d2 divs in
  if (f =? 1) && (c =? h) && (k =? 0) && (r <? h)
  then Some (idt divs + r)
  else if (f =? 1) && (c =? h) && (k =? 1) && (r <? h - 1)
  then Some (idt divs + r + 1)
  else if (f =? 1) && (c =? h) && (k =? 1) && (r =? h - 1)
  then Some (idc divs + 1)
  else if (f =? 1) && (c =? h - 1) && (k =? 2) && (r =? h - 1)
  then Some (idc divs)
  else if (f =? 3) && (c =? h) && (k =? 0)
  then Some (idk divs + r)
  else if (f =? 3) && (c =? h) && (k =? 1)
  then Some (idk divs + r + 1)
  else if (f =? 4) && (c =? h) && (k =? 1) && (h <=? r)
  then Some (idb divs + (r - h))
  else if (f =? 4) && (c =? h) && (k =? 0) && (h <? r)
  then Some (idb divs + (r - h - 1))
  else if (f =? 4) && (c =? h) && (k =? 0) && (r =? h)
  then Some (idc divs + 3)
  else if (f =? 4) && (c =? h - 1) && (k =? 3) && (r =? h)
  then Some (idc divs + 2)
  else None.

(** ** Vertex generator (quadsphere.cpp, 40-67, 159-230) and the seam
    vertices (480-536, 576-588) *)

Section VertexGenerator.
Local Open Scope R_scope.

Definition vec : Type := (R * R * R)%type.

Definition dotp (a b : vec) : R :=
  let '(a0, a1, a2) := a in
  let '(b0, b1, b2) := b in
  a0 * b0 + a1 * b1 + a2 * b2.

(** [v0 * a + v1 * b], component by component. *)
Definition blend (v0 v1 : vec) (a b : R) : vec :=
  let '(x0, y0, z0) := v0 in
  let '(x1, y1, z1) := v1 in
  (x0 * a + x1 * b, y0 * a + y1 * b, z0 * a + z1 * b).

(** The weights [a] and [b] of sample [i], from the cosine of the angle
    between the ends. *)
Definition slerp_ab (cosom : R) (divs i : Z) : R * R :=
  let som := sqrt (1 - cosom * cosom) in
  let om := asin som in
  let s := 1 / IZR divs in
  let t := IZR i * s in
  (sin (om * (1 - t)) / som, sin (om * t) / som).

(** One pass of the loop of [slerp]: the point stored for [i]. *)
Definition slerp_sample (divs : Z) (v0 v1 : vec) (i : Z) : vec :=
  let '(a, b) := slerp_ab (dotp v0 v1) divs i in
  blend v0 v1 a b.

(** The [divs + 1] points [slerp] stores, for stride 1. *)
Definition slerp (divs : Z) (v0 v1 : vec) : list vec :=
  if (divs <? 1)%Z then []
  else map (slerp_sample divs v0 v1) (zrange (divs + 1)%Z).

(** Cube corner coordinates for the front face. *)
Definition ccc : R := sqrt (1 / 3).
Definition vul : vec := (ccc, ccc, ccc).
Definition vur : vec := (- ccc, ccc, ccc).
Definition vll : vec := (ccc, - ccc, ccc).
Definition vlr : vec := (- ccc, - ccc, ccc).

(** The front face, row by row: the outer slerp, written out in the
    constructor, takes its weights from the angle between [vul] and
    [vll] and gives the two ends [v0] and [v1] of row [i]. *)
Definition front_face (divs : Z) : list vec :=
  flat_map (fun i =>
              let '(a, b) := slerp_ab (dotp vul vll) divs i in
              let v0 := blend vul vll a b in
              let v1 := blend vur vlr a b in
              slerp divs v0 v1)
           (zrange (divs + 1)%Z).

(** The five rotations of the front face. *)
Definition to_top (p : vec) : vec := let '(x, y, z) := p in (x, z, - y).
Definition to_left (p : vec) : vec := let '(x, y, z) := p in (z, y, - x).
Definition to_back (p : vec) : vec := let '(x, y, z) := p in (- x, y, - z).
Definition to_bottom (p : vec) : vec := let '(x, y, z) := p in (x, - z, y).
Definition to_right (p : vec) : vec := let '(x, y, z) := p in (- z, y, x).

(** The rotation that takes the front face to face [f], in storage
    order: front, top, left, back, bottom, right. *)
Definition face_rotation (f : Z) (p : vec) : vec :=
  if (f =? 0)%Z then p
  else if (f =? 1)%Z then to_top p
  else if (f =? 2)%Z then to_left p
  else if (f =? 3)%Z then to_back p
  else if (f =? 4)%Z then to_bottom p
  else to_right p.

(** The six faces in storage order: front, top, left, back, bottom, right. *)
Definition base_verts (divs : Z) : list vec :=
  let front := front_face divs in
  front ++ map to_top front ++ map to_left front ++ map to_back front
  ++ map to_bottom front ++ map to_right front.

(** [verts[i]]. *)
Definition vnth (verts : list vec) (i : Z) : vec :=
  nth (Z.to_nat i) verts (0, 0, 0).

(** The [n] vertices copied from [start] on, [dp1] apart. *)
Definition seam_column (divs : Z) (verts : list vec) (start n : Z)
  : list vec :=
  map (fun r => vnth verts (start + r * dp1 divs)%Z) (zrange n).

(** The duplicates appended after the six faces: top seam, back seam,
    bottom seam, then each pole centre twice. *)
Definition seam_vertices (divs : Z) (verts : list vec) : list vec :=
  let jf := u32 ((dp1 divs + 1) * d2 divs) in
  let ic := u32 (ppf divs + jf) in
  let id := u32 (4 * ppf divs + jf) in
  seam_column divs verts (ipt divs) (ntb divs)
  ++ seam_column divs verts (ipk divs) (dp1 divs)
  ++ seam_column divs verts (ipb divs) (ntb divs)
  ++ [vnth verts ic; vnth verts ic; vnth verts id; vnth verts id].

(** The vertex array after construction. *)
Definition vertices (divs : Z) : list vec :=
  let base := base_verts divs in
  base ++ seam_vertices divs base.

(** Unit length, in exact arithmetic. *)
Definition unit_vec (v : vec) : Prop := dotp v v = 1.

(** Weights that take two unit vectors with cosine [c] to a unit vector. *)
Definition a_b_unit (c : R) (ab : R * R) : Prop :=
  fst ab * fst ab + 2 * fst ab * snd ab * c + snd ab * snd ab = 1
  /\ 0 <= fst ab /\ 0 <= snd ab.

(** The eight corners of the inscribed cube. *)
Definition cube_corners : list vec :=
  [ (ccc, ccc, ccc); (- ccc, ccc, ccc); (ccc, - ccc, ccc);
    (- ccc, - ccc, ccc); (ccc, ccc, - ccc); (- ccc, ccc, - ccc);
    (ccc, - ccc, - ccc); (- ccc, - ccc, - ccc) ].

(** The plane of face [f] of the inscribed cube, faces in storage order:
    front [z = ccc], top [y = ccc], left [x = ccc], back [z = - ccc],
    bottom [y = - ccc], right [x = - ccc]. *)
Definition cube_face (f : Z) (v : vec) : Prop :=
  let '(x, y, z) := v in
  if (f =? 0)%Z then z = ccc
  else if (f =? 1)%Z then y = ccc
  else if (f =? 2)%Z then x = ccc
  else if (f =? 3)%Z then z = (- ccc)%R
  else if (f =? 4)%Z then y = (- ccc)%R
  else x = (- ccc)%R.
End VertexGenerator.

(** ** Projection mapper (quadsphere.cpp, 72-77, 321-452) *)

Section ProjectionMapper.
Local Open Scope R_scope.

(** [#define Pi 3.1415926535897932384626433832795] *)
Definition Pi : R := PI.
Definition DEG2RAD (x : R) : R := x * Pi / 180.0.

Definition ninv : R := -0.01.
Definition pinv : R := 1.01.

(** [#define CLIP( x ) ( x < ninv ? ninv : x > pinv ? pinv : x )] *)
Definition CLIP (x : R) : R :=
  if Rlt_dec x ninv then ninv else if Rgt_dec x pinv then pinv else x.

(** [#define INVAL( t ) (t > 0 ? pinv : ninv )] *)
Definition INVAL (t : R) : R := if Rgt_dec t 0 then pinv else ninv.

(** [#define EVAL( t ) ( t < 0.5 ? t < 0 ? t : 0 : t > 1 ? t : 1 )] *)
Definition EVAL (t : R) : R :=
  if Rlt_dec t 0.5 then (if Rlt_dec t 0 then t else 0)
  else (if Rgt_dec t 1 then t else 1).

(** The two-argument arctangent of <cmath>, on real arguments. *)
Definition atan2 (y x : R) : R :=
  if Rgt_dec x 0 then atan (y / x)
  else if Rlt_dec x 0
       then (if Rge_dec y 0 then atan (y / x) + PI else atan (y / x) - PI)
       else if Rgt_dec y 0 then PI / 2
            else if Rlt_dec y 0 then - (PI / 2) else 0.

(** The catalog's maximum field of view for the rectilinear type
    ([pictypes.maxFov( i ).width()], in degrees) is external. *)
Variable fovw : R.

(** Field-of-view limits (332-344). *)
Definition amaxrect : R := DEG2RAD (0.5 * fovw).
Definition cminrect : R := cos amaxrect.
Definition tmaxrect : R := tan amaxrect.
Definition amaxcyl : R := DEG2RAD 80.
Definition amaxsph : R := DEG2RAD 180.
Definition amaxfish : R := DEG2RAD 180.
Definition amaxmerc : R := DEG2RAD 80.
Definition cminmerc : R := cos amaxmerc.
Definition tmaxmerc : R := ln (tan amaxmerc + 1.0 / cminmerc).
Definition amaxster : R := DEG2RAD 155.
Definition tmaxster : R := tan (0.5 * amaxster).

(** Angles and their sines and cosines for the vertex [(ps0, ps1, ps2)]. *)
Definition xa_of (ps0 ps2 : R) : R := - atan2 ps0 ps2.
Definition ya_of (ps1 : R) : R := acos ps1.
Definition za_of (ps2 : R) : R := acos ps2.
Definition cya_of (ps0 ps2 : R) : R := sqrt (ps0 * ps0 + ps2 * ps2).
Definition sza_of (ps0 ps1 : R) : R := sqrt (ps0 * ps0 + ps1 * ps1).

(** Direction for the radial functions; [(0, 0)] near the axis. *)
Definition sx_of (ps0 ps1 : R) : R :=
  if Rge_dec (sza_of ps0 ps1) 1.0e-4 then (- ps0) / sza_of ps0 ps1 else 0.
Definition sy_of (ps0 ps1 : R) : R :=
  if Rge_dec (sza_of ps0 ps1) 1.0e-4 then (- ps1) / sza_of ps0 ps1 else 0.

(** Each projection returns its coordinate pair and the value the shared
    scratch variable [s] holds afterwards. *)

Definition rect_tc (za sza cza sx sy : R) (s : R) : (R * R) * R :=
  if Rgt_dec za (0.45 * Pi)
  then ((INVAL sx, INVAL sy), s)
  else
    let s := 0.5 * (sza / cza) / tmaxrect in
    ((CLIP (0.5 + s * sx), CLIP (0.5 + s * sy)), s).

Definition fish_tc (xa ya za cza sx sy : R) (s : R) : (R * R) * R :=
  if Rgt_dec za amaxfish
  then ((INVAL xa, INVAL (ya - 0.5 * Pi)), s)
  else
    let s := 0.5 * sqrt (0.5 * (1 - cza)) in
    ((CLIP (0.5 + s * sx), CLIP (0.5 + s * sy)), s).

Definition equi_tc (xa ya : R) : R * R :=
  (CLIP (0.5 + 0.5 * xa / Pi), CLIP (ya / Pi)).

Definition cyli_tc (xa ya sya cya : R) (pe0 : R) : (R * R) * R :=
  let s := ya - 0.5 * Pi in
  if Rgt_dec (Rabs s) amaxcyl
  then ((INVAL xa, INVAL s), s)
  else ((pe0, CLIP (0.5 - 0.5 * (sya / cya) / tmaxrect)), s).

Definition angl_tc (xa ya za sx sy : R) (s : R) : (R * R) * R :=
  if Rgt_dec za amaxsph
  then ((INVAL xa, INVAL (ya - 0.5 * Pi)), s)
  else
    let s := 0.5 * za / Pi in
    ((CLIP (0.5 + s * sx), CLIP (0.5 + s * sy)), s).

Definition merc_tc (sya cya : R) (pe0 : R) (s : R) : (R * R) * R :=
  if Rlt_dec (Rabs cya) cminmerc
  then ((pe0, INVAL s), s)
  else
    let s := ln ((sya + 1) / cya) in
    ((pe0, CLIP (s / tmaxmerc)), s).

Definition ster_tc (za sx sy : R) (s : R) : (R * R) * R :=
  if Rgt_dec za amaxster
  then ((INVAL sx, INVAL sy), s)
  else
    let s := tan (0.5 * za) / tmaxster in
    ((CLIP (0.5 + s * sx), CLIP (0.5 + s * sy)), s).

Record texcoords : Type := mk_texcoords {
  tc_rect : R * R;
  tc_fish : R * R;
  tc_equi : R * R;
  tc_cyli : R * R;
  tc_angl : R * R;
  tc_merc : R * R;
  tc_ster : R * R
}.

(** One iteration of the loop over all vertices: [s] enters with the
    value the previous iteration left in it. *)
Definition vertex_texcoords (ps : R * R * R) (s : R) : texcoords * R :=
  let '(ps0, ps1, ps2) := ps in
  let xa := xa_of ps0 ps2 in
  let ya := ya_of ps1 in
  let za := za_of ps2 in
  let sya := ps1 in
  let cya := cya_of ps0 ps2 in
  let sza := sza_of ps0 ps1 in
  let cza := ps2 in
  let sx := sx_of ps0 ps1 in
  let sy := sy_of ps0 ps1 in
  let '(pr, s) := rect_tc za sza cza sx sy s in
  let '(pf, s) := fish_tc xa ya za cza sx sy s in
  let pe := equi_tc xa ya in
  let '(pc, s) := cyli_tc xa ya sya cya (fst pe) in
  let '(pa, s) := angl_tc xa ya za sx sy s in
  let '(pm, s) := merc_tc sya cya (fst pe) s in
  let '(pt, s) := ster_tc za sx sy s in
  (mk_texcoords pr pf pe pc pa pm pt, s).
End ProjectionMapper.

(** ** The coordinate sets and their seam repair
    (quadsphere.cpp, 79-88, 151-157, 346-452, 482-536, 590-636)

    A coordinate set is an array of [2 * vertpnts] floats; a float that
    has not been stored to since [new float[ nwords ]] has no value
    ([None]).  A read outside the set, or of a float without a value,
    has no result; neither has a store outside the set. *)

Definition cells : Type := list (option R).

Definition rd (a : cells) (i : Z) : option R :=
  if (0 <=? i) && (i <? Z.of_nat (length a))
  then nth (Z.to_nat i) a None
  else None.

Fixpoint upd_cell (i : nat) (v : option R) (a : cells) : cells :=
  match a, i with
  | [], _ => []
  | _ :: t, O => v :: t
  | h :: t, S i' => h :: upd_cell i' v t
  end.

Definition wr (a : cells) (i : Z) (v : R) : option cells :=
  if (0 <=? i) && (i <? Z.of_nat (length a))
  then Some (upd_cell (Z.to_nat i) (Some v) a)
  else None.

(** [base[ic] = EVAL( base[ic - 2] ); base[id] = EVAL( base[ic + 2] );
    base[id + 1] = base[ic + 1];] with [unsigned int ic, id]. *)
Definition setEdgeTCs (base : cells) (ic id : Z) : option cells :=
  x <- rd base (u32 (ic - 2)) ;;
  base <- wr base ic (EVAL x) ;;
  y <- rd base (u32 (ic + 2)) ;;
  base <- wr base id (EVAL y) ;;
  z <- rd base (u32 (ic + 1)) ;;
  wr base (u32 (id + 1)) z.

(** [base[id] = base[ic]; base[id + 1] = base[ic + 1];] *)
Definition copyTCs (base : cells) (ic id : Z) : option cells :=
  x <- rd base ic ;;
  base <- wr base id x ;;
  y <- rd base (u32 (ic + 1)) ;;
  wr base (u32 (id + 1)) y.

(** The seven sets, under the constructor's local names.  Modelled from
    the spec: the catalog gives the seven names seven different indices
    in [0, Nprojections), so that the sets are seven separate arrays. *)
Record tcsets : Type := mk_tcsets {
  rects : cells;
  fishs : cells;
  cylis : cells;
  equis : cells;
  sters : cells;
  mercs : cells;
  angls : cells
}.

(** The loop over all vertices (355-452): the coordinates of each
    vertex in turn, [s] running on from one vertex to the next. *)
Fixpoint texcoord_loop (fovw : R) (vs : list (R * R * R)) (s : R)
  : list texcoords :=
  match vs with
  | [] => []
  | v :: vs' =>
      let r := vertex_texcoords fovw v s in
      fst r :: texcoord_loop fovw vs' (snd r)
  end.

(** One set after that loop: two floats for each of the [6 * ppf]
    vertices it visits, none yet for the duplicates. *)
Definition fill (sel : texcoords -> R * R) (ts : list texcoords)
           (ndups : Z) : cells :=
  flat_map (fun t => [Some (fst (sel t)); Some (snd (sel t))]) ts
  ++ repeat None (Z.to_nat (2 * ndups)).

(** The sets when the loop ends; [s] enters with the step [1.0 / divs]
    the vertex generator left in it (182). *)
Definition texcoord_sets (fovw : R) (divs : Z) : tcsets :=
  let ts := texcoord_loop fovw (base_verts divs) (1 / IZR divs)%R in
  let n := dups divs in
  mk_tcsets (fill tc_rect ts n) (fill tc_fish ts n) (fill tc_cyli ts n)
            (fill tc_equi ts n) (fill tc_ster ts n) (fill tc_merc ts n)
            (fill tc_angl ts n).

(** The five calls of one pass of a seam loop (493-497). *)
Definition seam_step (t : tcsets) (ic id : Z) : option tcsets :=
  a <- copyTCs (angls t) ic id ;;
  r <- setEdgeTCs (rects t) ic id ;;
  f <- copyTCs (fishs t) ic id ;;
  c <- setEdgeTCs (cylis t) ic id ;;
  e <- setEdgeTCs (equis t) ic id ;;
  Some (mk_tcsets r f c e (sters t) (mercs t) a).

(** [for( r = 0; r < n; r++ ){ ...; ic += 2 * dp1; id += 2; }] *)
Fixpoint seam_tc_loop (r : nat) (divs : Z) (t : tcsets) (ic id : Z)
  : option tcsets :=
  match r with
  | O => Some t
  | S r' =>
      t1 <- seam_step t ic id ;;
      seam_tc_loop r' divs t1 (u32 (ic + 2 * dp1 divs)) (u32 (id + 2))
  end.

(** The three seam loops (482-536): top, back, bottom. *)
Definition seam_tcs (divs : Z) (t : tcsets) : option tcsets :=
  t <- seam_tc_loop (Z.to_nat (ntb divs)) divs t
         (u32 (2 * ipt divs)) (u32 (2 * idt divs)) ;;
  t <- seam_tc_loop (Z.to_nat (dp1 divs)) divs t
         (u32 (2 * ipk divs)) (u32 (2 * idk divs)) ;;
  seam_tc_loop (Z.to_nat (ntb divs)) divs t
    (u32 (2 * ipb divs)) (u32 (2 * idb divs)).

(** A read [pq[k]] of the index block. *)
Definition ld (blk : list Z) (p : Z) : option Z :=
  if (0 <=? p) && (p <? Z.of_nat (length blk))
  then Some (nth (Z.to_nat p) blk 0)
  else None.

(** [makeCTCtop( ps, pd, pq )]: [*pd++ = ps[2 * pq[-1]];
    *pd++ = ps[2 * pq[-2] + 1]; *pd++ = ps[2 * pq[0]];
    *pd++ = ps[2 * pq[1] + 1]]; [pd] is an offset into [ps]. *)
Definition makeCTCtop (ps : cells) (pd : Z) (blk : list Z) (pq : Z)
  : option cells :=
  i <- ld blk (pq - 1) ;;
  x <- rd ps (u32 (2 * i)) ;;
  ps <- wr ps pd x ;;
  i <- ld blk (pq - 2) ;;
  x <- rd ps (u32 (2 * i + 1)) ;;
  ps <- wr ps (pd + 1) x ;;
  i <- ld blk pq ;;
  x <- rd ps (u32 (2 * i)) ;;
  ps <- wr ps (pd + 2) x ;;
  i <- ld blk (pq + 1) ;;
  x <- rd ps (u32 (2 * i + 1)) ;;
  wr ps (pd + 3) x.

(** [makeCTCbot( ps, pd, pq )]: [*pd++ = ps[2 * pq[-2]];
    *pd++ = ps[2 * pq[-1] + 1]; *pd++ = ps[2 * pq[1]];
    *pd++ = ps[2 * pq[0] + 1]]. *)
Definition makeCTCbot (ps : cells) (pd : Z) (blk : list Z) (pq : Z)
  : option cells :=
  i <- ld blk (pq - 2) ;;
  x <- rd ps (u32 (2 * i)) ;;
  ps <- wr ps pd x ;;
  i <- ld blk (pq - 1) ;;
  x <- rd ps (u32 (2 * i + 1)) ;;
  ps <- wr ps (pd + 1) x ;;
  i <- ld blk (pq + 1) ;;
  x <- rd ps (u32 (2 * i)) ;;
  ps <- wr ps (pd + 2) x ;;
  i <- ld blk pq ;;
  x <- rd ps (u32 (2 * i + 1)) ;;
  wr ps (pd + 3) x.

(** The coordinates of the two top-centre duplicates (598-610), read
    through the quad indices as they are at that point. *)
Definition centre_tcs_top (divs : Z) (blk : list Z) (t : tcsets)
  : option tcsets :=
  let jq := u32 (divs * (d2 divs - 1) + d2 divs) in
  let pq := quadidx_base divs + u32 (4 * u32 (qpf divs + jq)) in
  let jf := u32 (2 * idc divs) in
  a <- makeCTCtop (angls t) jf blk pq ;;
  r <- makeCTCtop (rects t) jf blk pq ;;
  f <- makeCTCtop (fishs t) jf blk pq ;;
  c <- makeCTCtop (cylis t) jf blk pq ;;
  e <- makeCTCtop (equis t) jf blk pq ;;
  Some (mk_tcsets r f c e (sters t) (mercs t) a).

(** The coordinates of the two bottom-centre duplicates (621-633). *)
Definition centre_tcs_bot (divs : Z) (blk : list Z) (t : tcsets)
  : option tcsets :=
  let jq := u32 ((divs + 1) * d2 divs) in
  let pq := quadidx_base divs + u32 (4 * u32 (4 * qpf divs + jq)) in
  let jf := u32 (2 * idc divs + 4) in
  a <- makeCTCbot (angls t) jf blk pq ;;
  r <- makeCTCbot (rects t) jf blk pq ;;
  f <- makeCTCbot (fishs t) jf blk pq ;;
  c <- makeCTCbot (cylis t) jf blk pq ;;
  e <- makeCTCbot (equis t) jf blk pq ;;
  Some (mk_tcsets r f c e (sters t) (mercs t) a).

(** The coordinate sets after construction: the loop over the vertices,
    the seam loops, then the centres, each reading the index block as
    the repair of the indices has left it by then. *)
Definition quadsphere_texcoords (fovw : R) (divs_arg : Z) : option tcsets :=
  let divs := round_divs divs_arg in
  t <- seam_tcs divs (texcoord_sets fovw divs) ;;
  blk <- repair_top divs (index_builder divs) ;;
  blk <- repair_back divs blk ;;
  blk <- repair_bottom divs blk ;;
  t <- centre_tcs_top divs blk t ;;
  blk <- repair_top_centre divs blk ;;
  centre_tcs_bot divs blk t.

(** *** The repair of one set

    The five sets being separate arrays, the calls the constructor makes
    on one of them form a sequence of their own: [op] is [copyTCs] or
    [setEdgeTCs]. *)

(** A step that acts on each of the five repaired sets by itself. *)
Definition on_sets (fa fr ff fc fe : cells -> option cells) (t : tcsets)
  : option tcsets :=
  a <- fa (angls t) ;;
  r <- fr (rects t) ;;
  f <- ff (fishs t) ;;
  c <- fc (cylis t) ;;
  e <- fe (equis t) ;;
  Some (mk_tcsets r f c e (sters t) (mercs t) a).

(** The calls of one seam loop on one set. *)
Fixpoint set_loop (op : cells -> Z -> Z -> option cells) (r : nat)
         (divs : Z) (a : cells) (ic id : Z) : option cells :=
  match r with
  | O => Some a
  | S r' =>
      a1 <- op a ic id ;;
      set_loop op r' divs a1 (u32 (ic + 2 * dp1 divs)) (u32 (id + 2))
  end.

(** The calls of the three seam loops on one set. *)
Definition seam_set (op : cells -> Z -> Z -> option cells) (divs : Z)
           (a : cells) : option cells :=
  a <- set_loop op (Z.to_nat (ntb divs)) divs a
         (u32 (2 * ipt divs)) (u32 (2 * idt divs)) ;;
  a <- set_loop op (Z.to_nat (dp1 divs)) divs a
         (u32 (2 * ipk divs)) (u32 (2 * idk divs)) ;;
  set_loop op (Z.to_nat (ntb divs)) divs a
    (u32 (2 * ipb divs)) (u32 (2 * idb divs)).

(** The two centre macros on one set. *)
Definition centre_top_set (divs : Z) (blk : list Z) (a : cells)
  : option cells :=
  let jq := u32 (divs * (d2 divs - 1) + d2 divs) in
  let pq := quadidx_base divs + u32 (4 * u32 (qpf divs + jq)) in
  makeCTCtop a (u32 (2 * idc divs)) blk pq.

Definition centre_bot_set (divs : Z) (blk : list Z) (a : cells)
  : option cells :=
  let jq := u32 ((divs + 1) * d2 divs) in
  let pq := quadidx_base divs + u32 (4 * u32 (4 * qpf divs + jq)) in
  makeCTCbot a (u32 (2 * idc divs + 4)) blk pq.

(** Everything the constructor does to one set after the loop over the
    vertices; [blk3] is the index block after the three seam parts of
    the index repair and [blk4] the block after the top-centre part. *)
Definition repair_set (op : cells -> Z -> Z -> option cells) (divs : Z)
           (blk3 blk4 : list Z) (a : cells) : option cells :=
  a <- seam_set op divs a ;;
  a <- centre_top_set divs blk3 a ;;
  centre_bot_set divs blk4 a.

(** The seam points the three loops visit, each with its duplicate:
    the vertex indices that [ic / 2] and [id / 2] run through. *)
Definition seam_pairs (divs : Z) : list (Z * Z) :=
  map (fun j => (ipt divs + j * dp1 divs, idt divs + j)) (zrange (ntb divs))
  ++ map (fun j => (ipk divs + j * dp1 divs, idk divs + j))
         (zrange (dp1 divs))
  ++ map (fun j => (ipb divs + j * dp1 divs, idb divs + j))
         (zrange (ntb divs)).

(** The same limit computed in binary64 arithmetic, as the compiled code
    does: [Pi] is the double nearest to the literal. *)
Module Binary64.
Import PrimFloat.
Definition Pi64 : float := 0x1.921fb54442d18p+1%float.
Definition DEG2RAD64 (x : float) : float := (x * Pi64 / 180.0)%float.
Definition amaxfish64 : float := DEG2RAD64 180%float.
End Binary64.

(** A coordinate component is an out-of-range marker when it is one of the
    two margin values. *)
Definition is_marker (v : R) : Prop := v = ninv \/ v = pinv.

(** * Properties *)

(** ** Arithmetic helpers *)

(** [lia] and [nia] see through division, modulo, [Z.quot] and [Z.rem]. *)
Ltac Zify.zify_post_hook ::= Z.to_euclidean_division_equations.

Lemma u32_small (z : Z) : 0 <= z < 4294967296 -> u32 z = z.
Proof. intros H. unfold u32. apply Z.mod_small. exact H. Qed.

Lemma quot2_nonneg (a : Z) : 0 <= a -> Z.quot a 2 = a / 2.
Proof. intros H. apply Z.quot_div_nonneg; lia. Qed.

Lemma round_divs_pos (a : Z) :
  1 <= a -> round_divs a = 2 * ((a + 1) / 2).
Proof.
  intros H. unfold round_divs. rewrite quot2_nonneg by lia.
  destruct (Z.ltb_spec (2 * ((a + 1) / 2)) 1); lia.
Qed.

Lemma round_divs_nonpos (a : Z) : a <= 0 -> round_divs a = 1.
Proof.
  intros H. unfold round_divs.
  assert (Hq : Z.quot (a + 1) 2 <= 0).
  { destruct (Z.eq_dec a 0) as [->|Hne]; [reflexivity|].
    apply Z.quot_le_upper_bound; lia. }
  destruct (Z.ltb_spec (2 * Z.quot (a + 1) 2) 1); lia.
Qed.

Lemma round_divs_range (a hi : Z) :
  Z.Even hi -> 0 < hi -> a <= hi -> 1 <= round_divs a <= hi.
Proof.
  intros [k Hk] Hhi Ha.
  destruct (Z_le_gt_dec a 0) as [Hle|Hgt].
  - rewrite round_divs_nonpos by exact Hle. lia.
  - rewrite round_divs_pos by lia. lia.
Qed.

Lemma round_divs_shape (a : Z) :
  round_divs a = 1 \/ (2 <= round_divs a /\ Z.Even (round_divs a)).
Proof.
  destruct (Z_le_gt_dec a 0) as [Hle|Hgt].
  - left. apply round_divs_nonpos; exact Hle.
  - right. rewrite round_divs_pos by lia. split; [lia|].
    exists ((a + 1) / 2). reflexivity.
Qed.

Lemma vertpnts_exact (n : Z) :
  1 <= n <= max_divs_int ->
  vertpnts n = 6 * (n + 1) ^ 2 + (n + 1) + 2 * (n / 2) + 4.
Proof.
  unfold max_divs_int. intros H.
  unfold vertpnts, dups, ntb, d2, ppf, dp1.
  rewrite quot2_nonneg by lia.
  rewrite u32_small; [ring|].
  assert (0 <= n / 2 <= n) by (split; [apply Z.div_pos; lia|apply Z.div_le_upper_bound; lia]).
  nia.
Qed.

Lemma linewrds_exact (n : Z) :
  1 <= n <= max_divs_int -> linewrds n = 24 * (n * n).
Proof.
  unfold max_divs_int. intros H. unfold linewrds, qpf.
  apply u32_small. nia.
Qed.

Lemma quad_count_exact (n : Z) :
  1 <= n <= max_divs_int -> quad_count n = 6 * n ^ 2.
Proof.
  intros H. unfold quad_count, quadIndexCount, quadwrds.
  rewrite linewrds_exact by exact H.
  replace (24 * (n * n)) with ((6 * n ^ 2) * 4) by ring.
  apply Z.div_mul. lia.
Qed.

(** ** Lists cut into blocks of equal length *)

Section Blocks.
Context {A B : Type}.
Variable f : A -> list B.
Variable m : nat.
Hypothesis f_length : forall x, length (f x) = m.

Lemma length_flat_map_const (l : list A) :
  length (flat_map f l) = (m * length l)%nat.
Proof.
  induction l as [|x l IH]; simpl.
  - lia.
  - rewrite length_app, f_length, IH. lia.
Qed.

Lemma skipn_flat_map_const (i : nat) (l : list A) :
  skipn (m * i) (flat_map f l) = flat_map f (skipn i l).
Proof.
  revert l. induction i as [|i IH]; intros l.
  - rewrite Nat.mul_0_r. reflexivity.
  - destruct l as [|x l]; simpl flat_map.
    + rewrite !skipn_nil. reflexivity.
    + rewrite skipn_app, f_length.
      rewrite skipn_all2 by (rewrite f_length; lia).
      replace (m * S i - m)%nat with (m * i)%nat by lia.
      simpl. apply IH.
Qed.

Lemma firstn_flat_map_head (x : A) (l : list A) :
  firstn m (flat_map f (x :: l)) = f x.
Proof.
  simpl. rewrite firstn_app, f_length, Nat.sub_diag. simpl.
  rewrite app_nil_r. apply firstn_all2. rewrite f_length. lia.
Qed.
End Blocks.

Lemma length_zrange (n : Z) : length (zrange n) = Z.to_nat n.
Proof. unfold zrange. rewrite length_map, length_seq. reflexivity. Qed.

Lemma in_zrange (n x : Z) : In x (zrange n) <-> 0 <= x < n.
Proof.
  unfold zrange. rewrite in_map_iff. split.
  - intros [k [<- Hk]]. apply in_seq in Hk. lia.
  - intros H. exists (Z.to_nat x). split; [lia|]. apply in_seq. lia.
Qed.

Lemma skipn_zrange (n : Z) (i : nat) :
  (i < Z.to_nat n)%nat ->
  exists rest, skipn i (zrange n) = Z.of_nat i :: rest.
Proof.
  intros H. unfold zrange. rewrite skipn_map, skipn_seq.
  replace (Z.to_nat n - i)%nat with (S (Z.to_nat n - S i)) by lia.
  simpl. eexists. reflexivity.
Qed.

(** ** Shape of the quad index array *)

Lemma length_quad_cell (d k c : Z) : length (quad_cell d k c) = 4%nat.
Proof. reflexivity. Qed.

Lemma length_face_row (d k : Z) :
  length (flat_map (fun c => quad_cell d k c) (zrange d))
  = (4 * Z.to_nat d)%nat.
Proof.
  rewrite (length_flat_map_const _ 4%nat) by (intros; reflexivity).
  rewrite length_zrange. reflexivity.
Qed.

Lemma length_face_quads (d : Z) :
  length (face_quads d) = (4 * Z.to_nat d * Z.to_nat d)%nat.
Proof.
  unfold face_quads.
  rewrite (length_flat_map_const _ (4 * Z.to_nat d)%nat)
    by (intros; apply length_face_row).
  rewrite length_zrange. reflexivity.
Qed.

(** The quadruple of the cell in row [r] and column [c] of the front face. *)
Lemma quadruple_face_quads (d : Z) (r c : nat) :
  (r < Z.to_nat d)%nat -> (c < Z.to_nat d)%nat ->
  quadruple (face_quads d) (r * Z.to_nat d + c)
  = quad_cell d (u32 (Z.of_nat r * dp1 d)) (Z.of_nat c).
Proof.
  intros Hr Hc. unfold quadruple, face_quads.
  replace (4 * (r * Z.to_nat d + c))%nat
    with (4 * c + (4 * Z.to_nat d) * r)%nat by lia.
  rewrite <- skipn_skipn.
  rewrite (skipn_flat_map_const _ (4 * Z.to_nat d)%nat)
    by (intros; apply length_face_row).
  destruct (skipn_zrange d r Hr) as [rest ->].
  simpl flat_map. rewrite skipn_app, length_face_row.
  replace (4 * c - 4 * Z.to_nat d)%nat with 0%nat by lia.
  rewrite (skipn_flat_map_const _ 4%nat) by (intros; reflexivity).
  destruct (skipn_zrange d c Hc) as [rest' ->].
  rewrite firstn_app.
  rewrite (firstn_flat_map_head _ 4%nat) by (intros; reflexivity).
  rewrite (length_flat_map_const _ 4%nat) by (intros; reflexivity).
  simpl length.
  replace (4 - 4 * S (length rest'))%nat with 0%nat by lia.
  simpl. reflexivity.
Qed.


Lemma copy_faces_step (p : Z) (rest done pre : list Z) :
  copy_faces (length rest) (length pre + length done) p
             (pre ++ done ++ rest ++ map (shift p) done)
  = pre ++ done ++ rest ++ map (shift p) (done ++ rest).
Proof.
  revert done. induction rest as [|x rest IH]; intros done.
  - simpl. rewrite app_nil_r. reflexivity.
  - change (length (x :: rest)) with (S (length rest)).
    cbn [copy_faces].
    assert (Hn : nth (length pre + length done)
                     (pre ++ done ++ (x :: rest) ++ map (shift p) done) 0 = x).
    { rewrite app_nth2 by lia.
      replace (length pre + length done - length pre)%nat
        with (length done) by lia.
      rewrite app_nth2 by lia. rewrite Nat.sub_diag. reflexivity. }
    rewrite Hn.
    replace (S (length pre + length done))
      with (length pre + length (done ++ [x]))%nat
      by (rewrite length_app; simpl; lia).
    replace ((pre ++ done ++ (x :: rest) ++ map (shift p) done) ++ [u32 (x + p)])
      with (pre ++ (done ++ [x]) ++ rest ++ map (shift p) (done ++ [x])).
    + rewrite IH. rewrite <- !app_assoc. reflexivity.
    + rewrite map_app. simpl. unfold shift.
      repeat (rewrite <- app_assoc; simpl). reflexivity.
Qed.

Lemma copy_faces_block (p : Z) (pre blk : list Z) :
  copy_faces (length blk) (length pre) p (pre ++ blk)
  = pre ++ blk ++ map (shift p) blk.
Proof.
  pose proof (copy_faces_step p blk [] pre) as H.
  simpl in H. rewrite Nat.add_0_r, app_nil_r in H. exact H.
Qed.

Lemma copy_faces_add (r1 r2 qq : nat) (p : Z) (arr : list Z) :
  copy_faces (r1 + r2) qq p arr
  = copy_faces r2 (qq + r1) p (copy_faces r1 qq p arr).
Proof.
  revert qq arr. induction r1 as [|r1 IH]; intros qq arr; simpl.
  - rewrite Nat.add_0_r. reflexivity.
  - rewrite IH. replace (S qq + r1)%nat with (qq + S r1)%nat by lia.
    reflexivity.
Qed.


Lemma length_face_block (d : Z) (f : nat) :
  length (face_block d f) = (4 * Z.to_nat d * Z.to_nat d)%nat.
Proof.
  induction f as [|f IH]; simpl.
  - apply length_face_quads.
  - rewrite length_map. exact IH.
Qed.

Lemma copy_faces_iter (d : Z) (k : nat) :
  forall (pre : list Z) (f : nat),
    copy_faces (k * (4 * Z.to_nat d * Z.to_nat d)) (length pre) (ppf d)
               (pre ++ face_block d f)
    = pre ++ concat (map (face_block d) (seq f (S k))).
Proof.
  induction k as [|k IH]; intros pre f.
  - simpl. rewrite app_nil_r. reflexivity.
  - replace (S k * (4 * Z.to_nat d * Z.to_nat d))%nat
      with (4 * Z.to_nat d * Z.to_nat d
            + k * (4 * Z.to_nat d * Z.to_nat d))%nat by lia.
    rewrite copy_faces_add.
    pose proof (copy_faces_block (ppf d) pre (face_block d f)) as E.
    rewrite length_face_block in E. rewrite E. clear E.
    change (map (shift (ppf d)) (face_block d f)) with (face_block d (S f)).
    rewrite app_assoc.
    replace (length pre + 4 * Z.to_nat d * Z.to_nat d)%nat
      with (length (pre ++ face_block d f))
      by (rewrite length_app, length_face_block; reflexivity).
    rewrite IH.
    rewrite <- app_assoc. reflexivity.
Qed.

Lemma build_quadidx_blocks (d : Z) :
  0 <= d ->
  build_quadidx d = concat (map (face_block d) (seq 0 6)).
Proof.
  intros Hd. unfold build_quadidx.
  replace (Z.to_nat (20 * qpf d))
    with (5 * (4 * Z.to_nat d * Z.to_nat d))%nat by (unfold qpf; nia).
  apply (copy_faces_iter d 5 [] 0%nat).
Qed.

(** ** Stores into the index block *)

Lemma length_upd (i : nat) (v : Z) (blk : list Z) :
  length (upd i v blk) = length blk.
Proof.
  revert i. induction blk as [|h t IH]; intros [|i]; simpl; auto.
Qed.

Lemma Forall_upd (P : Z -> Prop) (i : nat) (v : Z) (blk : list Z) :
  Forall P blk -> P v -> Forall P (upd i v blk).
Proof.
  intros HF Hv. revert i.
  induction HF as [|h t Hh Ht IH]; intros [|i]; simpl; auto.
Qed.

Lemma store_good (len : nat) (bound : Z) (blk : list Z) (p v : Z) :
  good_block len bound blk ->
  0 <= p < Z.of_nat len ->
  in_range bound v ->
  exists blk', store blk p v = Some blk' /\ good_block len bound blk'.
Proof.
  intros [HL HF] Hp Hv. unfold store. rewrite HL.
  destruct (Z.leb_spec 0 p); [|lia].
  destruct (Z.ltb_spec p (Z.of_nat len)); [|lia].
  simpl. eexists. split; [reflexivity|]. split.
  - rewrite length_upd. exact HL.
  - apply Forall_upd; assumption.
Qed.

Lemma some_triple_eq {A : Type} (a : A) (b b' c c' : Z) :
  b = b' -> c = c' -> Some (a, b, c) = Some (a, b', c').
Proof. intros -> ->. reflexivity. Qed.

(** Runs one store of a loop body or of a repair step. *)
Ltac store_step G blk' :=
  match goal with
  | |- context [store ?b ?p ?v] =>
      let E := fresh "E" in
      let G' := fresh "G" in
      destruct (store_good _ _ b p v G) as [blk' [E G']];
      [ try (unfold in_range; nia) | try (unfold in_range; nia)
      | rewrite E; cbn [bind]; clear E ]
  end.

Section Loops.
Variables (len : nat) (bound d : Z).
Hypothesis d_pos : 1 <= d.
Hypothesis bound_u32 : bound <= 4294967296.

Lemma top_loop_good (r : nat) :
  forall blk pq i,
    good_block len bound blk ->
    0 <= pq -> pq + 4 * d * Z.of_nat r <= Z.of_nat len ->
    0 <= i -> i + Z.of_nat r < bound ->
    exists blk',
      top_loop r d (blk, pq, i)
      = Some (blk', pq + 4 * d * Z.of_nat r, i + Z.of_nat r)
      /\ good_block len bound blk'.
Proof.
  induction r as [|r IH]; intros blk pq i G Hpq Hlen Hi Hb.
  - exists blk. split; [|exact G]. simpl. apply some_triple_eq; lia.
  - rewrite Nat2Z.inj_succ in *. cbn [top_loop].
    store_step G blk1.
    rewrite (u32_small (i + 1)) by lia.
    store_step G0 blk2.
    destruct (IH blk2 (pq + 4 * d) (i + 1) G1) as [blk' [E G']];
      try nia.
    exists blk'. split; [|exact G']. rewrite E.
    apply some_triple_eq; nia.
Qed.

Lemma back_loop_good (r : nat) :
  forall blk pq i,
    good_block len bound blk ->
    0 <= pq -> pq + 4 * d * Z.of_nat r < Z.of_nat len ->
    0 <= i -> i + Z.of_nat r < bound ->
    exists blk',
      back_loop r d (blk, pq, i)
      = Some (blk', pq + 4 * d * Z.of_nat r, i + Z.of_nat r)
      /\ good_block len bound blk'.
Proof.
  induction r as [|r IH]; intros blk pq i G Hpq Hlen Hi Hb.
  - exists blk. split; [|exact G]. simpl. apply some_triple_eq; lia.
  - rewrite Nat2Z.inj_succ in *. cbn [back_loop].
    store_step G blk1.
    store_step G0 blk2.
    rewrite (u32_small (i + 1)) by lia.
    destruct (IH blk2 (pq + 4 * d) (i + 1) G1) as [blk' [E G']];
      try nia.
    exists blk'. split; [|exact G']. rewrite E.
    apply some_triple_eq; nia.
Qed.

Lemma bottom_loop_good (r : nat) :
  forall blk pq i,
    good_block len bound blk ->
    0 <= pq -> pq + 4 * d * Z.of_nat r + 1 < Z.of_nat len ->
    0 <= i -> i + Z.of_nat r < bound ->
    exists blk',
      bottom_loop r d (blk, pq, i)
      = Some (blk', pq + 4 * d * Z.of_nat r, i + Z.of_nat r)
      /\ good_block len bound blk'.
Proof.
  induction r as [|r IH]; intros blk pq i G Hpq Hlen Hi Hb.
  - exists blk. split; [|exact G]. simpl. apply some_triple_eq; lia.
  - rewrite Nat2Z.inj_succ in *. cbn [bottom_loop].
    store_step G blk1.
    rewrite (u32_small (i + 1)) by lia.
    store_step G0 blk2.
    destruct (IH blk2 (pq + 4 * d) (i + 1) G1) as [blk' [E G']];
      try nia.
    exists blk'. split; [|exact G']. rewrite E.
    apply some_triple_eq; nia.
Qed.
End Loops.

(** ** The seam constants in the valid range *)

Lemma u32_add_idemp_r (a b : Z) : u32 (a + u32 b) = u32 (a + b).
Proof. unfold u32. apply Zplus_mod_idemp_r. Qed.

Lemma u32_mul_idemp_r (a b : Z) : u32 (a * u32 b) = u32 (a * b).
Proof. unfold u32. apply Zmult_mod_idemp_r. Qed.

Lemma u32_mul_add_idemp (c a b : Z) :
  u32 (c * (a + u32 b)) = u32 (c * (a + b)).
Proof.
  rewrite !Z.mul_add_distr_l. rewrite <- u32_add_idemp_r.
  rewrite u32_mul_idemp_r. apply u32_add_idemp_r.
Qed.

Lemma valid_divs_half (d : Z) :
  valid_divs d ->
  exists h, d2 d = h /\ ((d = 1 /\ h = 0) \/ (d = 2 * h /\ 1 <= h <= 2675)).
Proof.
  unfold valid_divs, max_divs, d2. intros [[->|[Hge [k ->]]] Hmax].
  - exists 0. split; [reflexivity|]. left. split; reflexivity.
  - exists k. split.
    + rewrite Z.mul_comm. apply Z.quot_mul. lia.
    + right. split; [reflexivity|lia].
Qed.

Lemma round_divs_valid (a : Z) : a <= max_divs -> valid_divs (round_divs a).
Proof.
  intros Ha. split.
  - apply round_divs_shape.
  - apply round_divs_range; [exists 2675; reflexivity|reflexivity|exact Ha].
Qed.

(** Brings the size definitions down to polynomials in [h = divs / 2]. *)
Ltac sizes h Hh Hc :=
  unfold quadidx_base, idc, idb, idk, idt, iqt, iqk, iqb, qtb, vertpnts,
    linewrds, dups, ntb in *;
  rewrite ?Hh in *;
  unfold ppf, qpf, dp1 in *;
  rewrite ?u32_mul_idemp_r, ?u32_add_idemp_r in *.

Section SeamValues.
Variable d : Z.
Hypothesis Hd : valid_divs d.

Lemma linewrds_val : linewrds d = 24 * qpf d.
Proof.
  destruct (valid_divs_half d Hd) as [h [Hh Hc]]. sizes h Hh Hc.
  apply u32_small. destruct Hc as [[-> ->]|[-> Hr]]; nia.
Qed.

Lemma vertpnts_val : vertpnts d = 6 * ppf d + dp1 d + 2 * d2 d + 4.
Proof.
  destruct (valid_divs_half d Hd) as [h [Hh Hc]]. sizes h Hh Hc.
  rewrite u32_small; [ring|].
  destruct Hc as [[-> ->]|[-> Hr]]; nia.
Qed.

Lemma idt_val : idt d = 6 * ppf d.
Proof.
  destruct (valid_divs_half d Hd) as [h [Hh Hc]]. sizes h Hh Hc.
  apply u32_small. destruct Hc as [[-> ->]|[-> Hr]]; nia.
Qed.

Lemma idk_val : idk d = 6 * ppf d + d2 d.
Proof.
  unfold idk. rewrite idt_val.
  destruct (valid_divs_half d Hd) as [h [Hh Hc]]. sizes h Hh Hc.
  apply u32_small. destruct Hc as [[-> ->]|[-> Hr]]; nia.
Qed.

Lemma idb_val : idb d = 6 * ppf d + d2 d + dp1 d.
Proof.
  unfold idb. rewrite idk_val.
  destruct (valid_divs_half d Hd) as [h [Hh Hc]]. sizes h Hh Hc.
  apply u32_small. destruct Hc as [[-> ->]|[-> Hr]]; nia.
Qed.

Lemma idc_val : idc d = 6 * ppf d + 2 * d2 d + dp1 d.
Proof.
  unfold idc. rewrite idb_val.
  destruct (valid_divs_half d Hd) as [h [Hh Hc]]. sizes h Hh Hc.
  rewrite u32_small; [ring|].
  destruct Hc as [[-> ->]|[-> Hr]]; nia.
Qed.

Lemma top_pq_val :
  quadidx_base d + u32 (4 * iqt d) = 24 * qpf d + 4 * (qpf d + d2 d).
Proof.
  unfold quadidx_base. rewrite linewrds_val. f_equal.
  destruct (valid_divs_half d Hd) as [h [Hh Hc]]. sizes h Hh Hc.
  apply u32_small. destruct Hc as [[-> ->]|[-> Hr]]; nia.
Qed.

Lemma back_pq_val :
  quadidx_base d + u32 (4 * iqk d) = 24 * qpf d + 4 * (3 * qpf d + d2 d).
Proof.
  unfold quadidx_base. rewrite linewrds_val. f_equal.
  destruct (valid_divs_half d Hd) as [h [Hh Hc]]. sizes h Hh Hc.
  apply u32_small. destruct Hc as [[-> ->]|[-> Hr]]; nia.
Qed.

Lemma bottom_pq_val :
  quadidx_base d + u32 (4 * iqb d)
  = 24 * qpf d + 4 * (4 * qpf d + (d - d2 d) * d + d2 d).
Proof.
  unfold quadidx_base. rewrite linewrds_val. f_equal.
  destruct (valid_divs_half d Hd) as [h [Hh Hc]]. sizes h Hh Hc.
  rewrite u32_small; [ring|].
  destruct Hc as [[-> ->]|[-> Hr]]; nia.
Qed.

Lemma top_centre_pq_val :
  quadidx_base d + u32 (4 * u32 (qpf d + u32 (d * (d2 d - 1) + d2 d)))
  = 24 * qpf d + 4 * (qpf d + d * (d2 d - 1) + d2 d).
Proof.
  unfold quadidx_base. rewrite linewrds_val. f_equal.
  rewrite u32_mul_idemp_r, u32_mul_add_idemp.
  destruct (valid_divs_half d Hd) as [h [Hh Hc]]. sizes h Hh Hc.
  rewrite u32_small; [ring|].
  destruct Hc as [[-> ->]|[-> Hr]]; nia.
Qed.

Lemma bottom_centre_pq_val :
  quadidx_base d + u32 (4 * u32 (4 * qpf d + u32 ((d + 1) * d2 d)))
  = 24 * qpf d + 4 * (4 * qpf d + (d + 1) * d2 d).
Proof.
  unfold quadidx_base. rewrite linewrds_val. f_equal.
  rewrite u32_mul_idemp_r, u32_mul_add_idemp.
  destruct (valid_divs_half d Hd) as [h [Hh Hc]]. sizes h Hh Hc.
  rewrite u32_small; [ring|].
  destruct Hc as [[-> ->]|[-> Hr]]; nia.
Qed.
End SeamValues.

(** ** Every repair step stays inside the block and below [vertpnts] *)

Lemma valid_divs_pos (d : Z) : valid_divs d -> 1 <= d.
Proof. intros [[->|[H _]] _]; lia. Qed.

Lemma vertpnts_u32 (d : Z) : vertpnts d <= 4294967296.
Proof.
  unfold vertpnts, u32.
  pose proof (Z.mod_pos_bound (6 * ppf d + dups d) 4294967296). lia.
Qed.

(** The facts every step needs, and the arithmetic that uses them. *)
Ltac seam_setup d Hd :=
  pose proof (valid_divs_pos d Hd) as Hpos;
  pose proof (vertpnts_u32 d) as Hu;
  pose proof (vertpnts_val d Hd) as Hv;
  destruct (valid_divs_half d Hd) as [h [Hh Hc]];
  assert (Hr : Z.of_nat (Z.to_nat (qtb d)) = Z.max 0 (h - 1))
    by (unfold qtb, ntb; rewrite Hh; lia);
  assert (Hr' : Z.of_nat (Z.to_nat (d - 1)) = d - 1) by lia;
  assert (Hlen : Z.of_nat (block_len d) = 48 * qpf d)
    by (unfold block_len, qpf; nia).

Ltac seam_nia :=
  match goal with
  | Hr : Z.of_nat (Z.to_nat (qtb _)) = _,
    Hr' : Z.of_nat (Z.to_nat (_ - 1)) = _,
    Hlen : Z.of_nat (block_len _) = _,
    Hv : vertpnts _ = _,
    Hh : d2 _ = _,
    Hc : _ \/ _ |- _ =>
      rewrite ?Hr, ?Hr', ?Hlen, ?Hv, ?Hh;
      unfold in_range, ppf, qpf, dp1;
      destruct Hc as [[-> ->]|[-> Hc]]; nia
  end.

Section Repair.
Variable d : Z.
Hypothesis Hd : valid_divs d.

Lemma repair_top_good (blk : list Z) :
  good_block (block_len d) (vertpnts d) blk ->
  exists blk',
    repair_top d blk = Some blk'
    /\ good_block (block_len d) (vertpnts d) blk'.
Proof.
  intros G. unfold repair_top. rewrite (top_pq_val d Hd), (idt_val d Hd).
  seam_setup d Hd.
  destruct (top_loop_good (block_len d) (vertpnts d) d Hpos Hu
              (Z.to_nat (qtb d)) blk
              (24 * qpf d + 4 * (qpf d + d2 d)) (6 * ppf d) G)
    as [blk1 [E G1]]; try seam_nia.
  rewrite E. cbn [bind]. rewrite Hr.
  apply (store_good _ _ _ _ _ G1); seam_nia.
Qed.

Lemma repair_back_good (blk : list Z) :
  good_block (block_len d) (vertpnts d) blk ->
  exists blk',
    repair_back d blk = Some blk'
    /\ good_block (block_len d) (vertpnts d) blk'.
Proof.
  intros G. unfold repair_back. rewrite (back_pq_val d Hd), (idk_val d Hd).
  seam_setup d Hd.
  destruct (store_good _ _ blk (24 * qpf d + 4 * (3 * qpf d + d2 d))
              (6 * ppf d + d2 d) G) as [blk0 [E0 G0]]; try seam_nia.
  rewrite E0. cbn [bind]. clear E0.
  rewrite (u32_small (6 * ppf d + d2 d + 1)) by seam_nia.
  destruct (back_loop_good (block_len d) (vertpnts d) d Hpos Hu
              (Z.to_nat (d - 1)) blk0
              (24 * qpf d + 4 * (3 * qpf d + d2 d))
              (6 * ppf d + d2 d + 1) G0)
    as [blk1 [E G1]]; try seam_nia.
  rewrite E. cbn [bind]. rewrite Hr'.
  apply (store_good _ _ _ _ _ G1); seam_nia.
Qed.

Lemma repair_bottom_good (blk : list Z) :
  good_block (block_len d) (vertpnts d) blk ->
  exists blk',
    repair_bottom d blk = Some blk'
    /\ good_block (block_len d) (vertpnts d) blk'.
Proof.
  intros G. unfold repair_bottom.
  rewrite (bottom_pq_val d Hd), (idb_val d Hd).
  seam_setup d Hd.
  destruct (store_good _ _ blk
              (24 * qpf d + 4 * (4 * qpf d + (d - d2 d) * d + d2 d) + 1)
              (6 * ppf d + d2 d + dp1 d) G) as [blk0 [E0 G0]];
    try seam_nia.
  rewrite E0. cbn [bind]. clear E0.
  destruct (bottom_loop_good (block_len d) (vertpnts d) d Hpos Hu
              (Z.to_nat (qtb d)) blk0
              (24 * qpf d + 4 * (4 * qpf d + (d - d2 d) * d + d2 d))
              (6 * ppf d + d2 d + dp1 d) G0)
    as [blk1 [E G1]]; try seam_nia.
  rewrite E. cbn [bind]. exists blk1. split; [reflexivity|exact G1].
Qed.

Lemma repair_top_centre_good (blk : list Z) :
  good_block (block_len d) (vertpnts d) blk ->
  exists blk',
    repair_top_centre d blk = Some blk'
    /\ good_block (block_len d) (vertpnts d) blk'.
Proof.
  intros G. unfold repair_top_centre.
  rewrite (top_centre_pq_val d Hd), (idc_val d Hd).
  seam_setup d Hd.
  destruct (store_good _ _ blk
              (24 * qpf d + 4 * (qpf d + d * (d2 d - 1) + d2 d) - 2)
              (6 * ppf d + 2 * d2 d + dp1 d) G) as [blk0 [E0 G0]];
    try seam_nia.
  rewrite E0. cbn [bind]. clear E0.
  rewrite (u32_small (6 * ppf d + 2 * d2 d + dp1 d + 1)) by seam_nia.
  apply (store_good _ _ _ _ _ G0); seam_nia.
Qed.

Lemma repair_bottom_centre_good (blk : list Z) :
  good_block (block_len d) (vertpnts d) blk ->
  exists blk',
    repair_bottom_centre d blk = Some blk'
    /\ good_block (block_len d) (vertpnts d) blk'.
Proof.
  intros G. unfold repair_bottom_centre.
  rewrite (bottom_centre_pq_val d Hd), (idc_val d Hd).
  seam_setup d Hd.
  rewrite (u32_small (6 * ppf d + 2 * d2 d + dp1 d + 2)) by seam_nia.
  rewrite (u32_small (6 * ppf d + 2 * d2 d + dp1 d + 3)) by seam_nia.
  destruct (store_good _ _ blk
              (24 * qpf d + 4 * (4 * qpf d + (d + 1) * d2 d) - 1)
              (6 * ppf d + 2 * d2 d + dp1 d + 2) G) as [blk0 [E0 G0]];
    try seam_nia.
  rewrite E0. cbn [bind]. clear E0.
  apply (store_good _ _ _ _ _ G0); seam_nia.
Qed.

Lemma seam_repair_good (blk : list Z) :
  good_block (block_len d) (vertpnts d) blk ->
  exists blk',
    seam_repair d blk = Some blk'
    /\ good_block (block_len d) (vertpnts d) blk'.
Proof.
  intros G. unfold seam_repair.
  destruct (repair_top_good blk G) as [b1 [E1 G1]].
  rewrite E1. cbn [bind].
  destruct (repair_back_good b1 G1) as [b2 [E2 G2]].
  rewrite E2. cbn [bind].
  destruct (repair_bottom_good b2 G2) as [b3 [E3 G3]].
  rewrite E3. cbn [bind].
  destruct (repair_top_centre_good b3 G3) as [b4 [E4 G4]].
  rewrite E4. cbn [bind].
  apply (repair_bottom_centre_good b4 G4).
Qed.
End Repair.

(** ** What the index builder emits *)

Lemma quad_cell_val (d : Z) (r c : Z) :
  1 <= d <= max_divs -> 0 <= r < d -> 0 <= c < d ->
  quad_cell d (u32 (r * dp1 d)) c
  = [ r * dp1 d + c; dp1 d + r * dp1 d + c;
      dp1 d + r * dp1 d + c + 1; r * dp1 d + c + 1 ].
Proof.
  unfold max_divs. intros Hd Hr Hc. unfold quad_cell.
  rewrite (u32_small (r * dp1 d)) by (unfold dp1; nia).
  rewrite !u32_small by (unfold dp1; nia).
  reflexivity.
Qed.

Lemma quad_cell_range (d : Z) (r c : Z) :
  1 <= d <= max_divs -> 0 <= r < d -> 0 <= c < d ->
  Forall (in_range (ppf d)) (quad_cell d (u32 (r * dp1 d)) c).
Proof.
  intros Hd Hr Hc. rewrite quad_cell_val by assumption.
  unfold in_range, ppf, dp1.
  repeat (apply Forall_cons; [nia|]). apply Forall_nil.
Qed.

Lemma face_quads_range (d : Z) :
  1 <= d <= max_divs -> Forall (in_range (ppf d)) (face_quads d).
Proof.
  intros Hd. unfold face_quads.
  apply Forall_flat_map, Forall_forall. intros r Hr.
  apply Forall_flat_map, Forall_forall. intros c Hc.
  apply in_zrange in Hr. apply in_zrange in Hc.
  apply quad_cell_range; assumption.
Qed.

Lemma face_block_range (d : Z) (f : nat) :
  1 <= d <= max_divs -> (f < 6)%nat ->
  Forall (fun v => Z.of_nat f * ppf d <= v < (Z.of_nat f + 1) * ppf d)
         (face_block d f).
Proof.
  intros Hd. induction f as [|f IH]; intros Hf.
  - cbn [face_block]. change (Z.of_nat 0) with 0.
    eapply Forall_impl; [|apply face_quads_range; exact Hd].
    unfold in_range. intros v Hv. lia.
  - cbn [face_block]. apply Forall_map.
    eapply Forall_impl; [|apply IH; lia].
    intros v Hv. unfold shift. rewrite Nat2Z.inj_succ.
    assert (Hp : 0 < ppf d <= 28633201)
      by (unfold ppf, dp1, max_divs in *; nia).
    set (F := Z.of_nat f) in *.
    assert (HF : 0 <= F <= 4) by lia.
    assert (HFp : 0 <= F * ppf d <= 4 * ppf d) by nia.
    replace ((F + 1) * ppf d) with (F * ppf d + ppf d) in Hv by ring.
    replace ((Z.succ F + 1) * ppf d) with (F * ppf d + ppf d + ppf d) by ring.
    replace (Z.succ F * ppf d) with (F * ppf d + ppf d) by ring.
    rewrite u32_small by lia. lia.
Qed.

Lemma build_quadidx_range (d : Z) :
  1 <= d <= max_divs ->
  Forall (in_range (base_vertices d)) (build_quadidx d).
Proof.
  intros Hd. rewrite build_quadidx_blocks by lia.
  apply Forall_concat, Forall_map, Forall_forall. intros f Hf.
  apply in_seq in Hf.
  eapply Forall_impl; [|apply face_block_range; [exact Hd|lia]].
  unfold in_range, base_vertices. intros v Hv.
  assert (0 < ppf d) by (unfold ppf, dp1; nia). nia.
Qed.

Lemma length_build_quadidx (d : Z) :
  0 <= d -> length (build_quadidx d) = (24 * Z.to_nat d * Z.to_nat d)%nat.
Proof.
  intros Hd. rewrite build_quadidx_blocks by exact Hd.
  simpl. rewrite !length_app, !length_map, length_face_quads. simpl. lia.
Qed.

Lemma nth_in_range (bound : Z) (l : list Z) (i : nat) :
  0 < bound -> Forall (in_range bound) l -> in_range bound (nth i l 0).
Proof.
  intros Hb HF. destruct (Nat.lt_ge_cases i (length l)) as [Hi|Hi].
  - rewrite Forall_forall in HF. apply HF, nth_In, Hi.
  - rewrite nth_overflow by exact Hi. unfold in_range. lia.
Qed.

Lemma line_face_range (bound : Z) (sel : selector) (quadidx : list Z)
      (r : nat) :
  0 < bound -> Forall (in_range bound) quadidx ->
  forall qq, Forall (in_range bound) (line_face sel r qq quadidx).
Proof.
  intros Hb HF. induction r as [|r IH]; intros qq; simpl.
  - constructor.
  - apply Forall_app. split; [|apply IH].
    destruct sel as [[[a b] c] e]. unfold line_of.
    repeat (apply Forall_cons; [apply nth_in_range; assumption|]).
    apply Forall_nil.
Qed.

Lemma length_line_face (sel : selector) (quadidx : list Z) (r : nat) :
  forall qq, length (line_face sel r qq quadidx) = (4 * r)%nat.
Proof.
  induction r as [|r IH]; intros qq; simpl.
  - reflexivity.
  - destruct sel as [[[a b] c] e]. rewrite length_app, IH. simpl. lia.
Qed.

Lemma length_build_lineidx (d : Z) (quadidx : list Z) :
  length (build_lineidx d quadidx) = (24 * Z.to_nat (qpf d))%nat.
Proof.
  unfold build_lineidx. rewrite !length_app, !length_line_face. lia.
Qed.

Lemma build_lineidx_range (bound : Z) (d : Z) (quadidx : list Z) :
  0 < bound -> Forall (in_range bound) quadidx ->
  Forall (in_range bound) (build_lineidx d quadidx).
Proof.
  intros Hb HF. unfold build_lineidx.
  repeat (apply Forall_app; split); apply line_face_range; assumption.
Qed.

Lemma index_builder_good (d : Z) :
  1 <= d <= max_divs ->
  good_block (block_len d) (base_vertices d) (index_builder d).
Proof.
  intros Hd. unfold index_builder. split.
  - rewrite length_app, length_build_lineidx, length_build_quadidx by lia.
    unfold block_len, qpf. nia.
  - assert (Hb : 0 < base_vertices d)
      by (unfold base_vertices, ppf, dp1; nia).
    apply Forall_app. split.
    + apply build_lineidx_range; [exact Hb|].
      apply build_quadidx_range; exact Hd.
    + apply build_quadidx_range; exact Hd.
Qed.

Lemma good_block_weaken (len : nat) (b1 b2 : Z) (blk : list Z) :
  b1 <= b2 -> good_block len b1 blk -> good_block len b2 blk.
Proof.
  intros Hb [HL HF]. split; [exact HL|].
  eapply Forall_impl; [|exact HF]. unfold in_range. intros v Hv. lia.
Qed.

(** ** The vertex array *)

Lemma length_slerp (d : Z) (v0 v1 : vec) :
  1 <= d -> length (slerp d v0 v1) = Z.to_nat (d + 1).
Proof.
  intros Hd. unfold slerp. destruct (Z.ltb_spec d 1); [lia|].
  rewrite length_map. apply length_zrange.
Qed.

Lemma length_front_face (d : Z) :
  1 <= d -> length (front_face d) = (Z.to_nat (d + 1) * Z.to_nat (d + 1))%nat.
Proof.
  intros Hd. unfold front_face.
  rewrite (length_flat_map_const _ (Z.to_nat (d + 1)))
    by (intros; apply length_slerp; exact Hd).
  rewrite length_zrange. reflexivity.
Qed.

Lemma length_base_verts (d : Z) :
  1 <= d -> Z.of_nat (length (base_verts d)) = base_vertices d.
Proof.
  intros Hd. unfold base_verts, base_vertices, ppf, dp1.
  rewrite !length_app, !length_map, length_front_face by exact Hd. nia.
Qed.

Lemma length_seam_column (d : Z) (verts : list vec) (start n : Z) :
  length (seam_column d verts start n) = Z.to_nat n.
Proof. unfold seam_column. rewrite length_map. apply length_zrange. Qed.

Lemma length_vertices (d : Z) :
  valid_divs d -> Z.of_nat (length (vertices d)) = vertpnts d.
Proof.
  intros Hv. pose proof (valid_divs_pos d Hv) as Hd.
  unfold vertices, seam_vertices.
  rewrite !length_app, !length_seam_column, Nat2Z.inj_add.
  rewrite length_base_verts by exact Hd.
  rewrite (vertpnts_val d Hv). unfold base_vertices, ntb, dp1.
  destruct (valid_divs_half d Hv) as [h [-> Hc]]. simpl length. lia.
Qed.

Section Cube.
Local Open Scope R_scope.

Lemma ccc_sqr : ccc * ccc = 1 / 3.
Proof. unfold ccc. apply sqrt_sqrt. lra. Qed.

Lemma ccc_pos : 0 < ccc.
Proof. unfold ccc. apply sqrt_lt_R0. lra. Qed.

Lemma blend_1_0 (v0 v1 : vec) : blend v0 v1 1 0 = v0.
Proof.
  destruct v0 as [[x0 y0] z0], v1 as [[x1 y1] z1]. unfold blend.
  f_equal; [f_equal|]; ring.
Qed.

Lemma blend_0_1 (v0 v1 : vec) : blend v0 v1 0 1 = v1.
Proof.
  destruct v0 as [[x0 y0] z0], v1 as [[x1 y1] z1]. unfold blend.
  f_equal; [f_equal|]; ring.
Qed.

(** The weights of the two ends when there is one interval. *)
Lemma end_weights (c : R) :
  0 < sqrt (1 - c * c) <= 1 ->
  slerp_ab c 1 0 = (1, 0) /\ slerp_ab c 1 1 = (0, 1).
Proof.
  intros Hs. unfold slerp_ab. set (som := sqrt (1 - c * c)) in *.
  replace (asin som * (1 - 0 * (1 / 1))) with (asin som) by field.
  replace (asin som * (0 * (1 / 1))) with 0 by field.
  replace (asin som * (1 - 1 * (1 / 1))) with 0 by field.
  replace (asin som * (1 * (1 / 1))) with (asin som) by field.
  rewrite sin_asin by lra. rewrite sin_0.
  split; f_equal; field; lra.
Qed.

Lemma slerp_one (v0 v1 : vec) :
  0 < sqrt (1 - dotp v0 v1 * dotp v0 v1) <= 1 ->
  slerp 1 v0 v1 = [v0; v1].
Proof.
  intros Hs. unfold slerp. cbn [Z.ltb Z.compare].
  change (zrange (1 + 1)%Z) with [0%Z; 1%Z]. cbn [map].
  unfold slerp_sample.
  destruct (end_weights _ Hs) as [E0 E1].
  rewrite E0, E1, blend_1_0, blend_0_1. reflexivity.
Qed.

Lemma third_som : 0 < sqrt (1 - 1 / 3 * (1 / 3)) <= 1.
Proof.
  split.
  - apply sqrt_lt_R0. lra.
  - assert (H : sqrt (1 - 1 / 3 * (1 / 3)) <= sqrt 1)
      by (apply sqrt_le_1_alt; lra).
    rewrite sqrt_1 in H. exact H.
Qed.

Lemma front_face_cube : front_face 1 = [vul; vur; vll; vlr].
Proof.
  pose proof ccc_sqr as Hc.
  assert (D1 : dotp vul vll = 1 / 3) by (unfold dotp, vul, vll; nra).
  assert (D2 : dotp vul vur = 1 / 3) by (unfold dotp, vul, vur; nra).
  assert (D3 : dotp vll vlr = 1 / 3) by (unfold dotp, vll, vlr; nra).
  unfold front_face. rewrite D1.
  change (zrange (1 + 1)%Z) with [0%Z; 1%Z]. cbn [flat_map].
  destruct (end_weights _ third_som) as [E0 E1].
  rewrite E0, E1, !blend_1_0, !blend_0_1.
  rewrite !slerp_one by (rewrite ?D2, ?D3; exact third_som).
  reflexivity.
Qed.

(** At resolution 1 the 24 stored vertices are the 8 cube corners. *)
Lemma base_verts_cube :
  length (base_verts 1) = 24%nat
  /\ NoDup cube_corners
  /\ forall v, In v (base_verts 1) <-> In v cube_corners.
Proof.
  pose proof ccc_pos as Hp.
  unfold base_verts. rewrite front_face_cube.
  unfold vul, vur, vll, vlr, cube_corners.
  cbn [map app to_top to_left to_back to_bottom to_right].
  rewrite !Ropp_involutive.
  split; [reflexivity|]. split.
  - repeat (apply NoDup_cons;
            [simpl; intros H;
             repeat (destruct H as [H|H]; [injection H; intros; lra|]);
             exact H|]).
    apply NoDup_nil.
  - intros v. split; intros H.
    + repeat (destruct H as [H|H];
              [subst v; simpl;
               repeat (first [left; reflexivity | right]); fail|]).
      destruct H.
    + repeat (destruct H as [H|H];
              [subst v; simpl;
               repeat (first [left; reflexivity | right]); fail|]).
      destruct H.
Qed.

(** The 24 vertices stored at resolution 1, face by face. *)
Lemma base_verts_1 :
  base_verts 1
  = [ (ccc, ccc, ccc); (- ccc, ccc, ccc); (ccc, - ccc, ccc);
      (- ccc, - ccc, ccc);
      (ccc, ccc, - ccc); (- ccc, ccc, - ccc); (ccc, ccc, ccc);
      (- ccc, ccc, ccc);
      (ccc, ccc, - ccc); (ccc, ccc, ccc); (ccc, - ccc, - ccc);
      (ccc, - ccc, ccc);
      (- ccc, ccc, - ccc); (ccc, ccc, - ccc); (- ccc, - ccc, - ccc);
      (ccc, - ccc, - ccc);
      (ccc, - ccc, ccc); (- ccc, - ccc, ccc); (ccc, - ccc, - ccc);
      (- ccc, - ccc, - ccc);
      (- ccc, ccc, ccc); (- ccc, ccc, - ccc); (- ccc, - ccc, ccc);
      (- ccc, - ccc, - ccc) ].
Proof.
  unfold base_verts. rewrite front_face_cube.
  unfold vul, vur, vll, vlr.
  cbn [map app to_top to_left to_back to_bottom to_right].
  rewrite !Ropp_involutive. reflexivity.
Qed.

(** Settles whether stored vertex [i] of the cube is the corner [v]. *)
Ltac stored_here Hp :=
  split; intros H;
  [ first [ lia | exfalso; injection H; intros; lra ]
  | first [ exfalso; lia | reflexivity ] ].

(** Each cube corner is stored three times, in three different faces. *)
Lemma cube_corner_faces (v : vec) :
  In v cube_corners ->
  exists i1 i2 i3,
    (0 <= i1 < 24 /\ 0 <= i2 < 24 /\ 0 <= i3 < 24)%Z
    /\ (i1 / ppf 1 < i2 / ppf 1 < i3 / ppf 1)%Z
    /\ forall i, (0 <= i < 24)%Z ->
         (vnth (base_verts 1) i = v <-> (i = i1 \/ i = i2 \/ i = i3)%Z).
Proof.
  pose proof ccc_pos as Hp. intros Hin.
  assert (Hr : forall (i1 i2 i3 : Z),
            (0 <= i1 < 24 /\ 0 <= i2 < 24 /\ 0 <= i3 < 24)%Z ->
            (i1 / ppf 1 < i2 / ppf 1 < i3 / ppf 1)%Z ->
            (forall n, (n < 24)%nat ->
               (nth n (base_verts 1) (0, 0, 0) = v
                <-> (Z.of_nat n = i1 \/ Z.of_nat n = i2
                     \/ Z.of_nat n = i3)%Z)) ->
            exists i1 i2 i3,
              (0 <= i1 < 24 /\ 0 <= i2 < 24 /\ 0 <= i3 < 24)%Z
              /\ (i1 / ppf 1 < i2 / ppf 1 < i3 / ppf 1)%Z
              /\ forall i, (0 <= i < 24)%Z ->
                   (vnth (base_verts 1) i = v
                    <-> (i = i1 \/ i = i2 \/ i = i3)%Z)).
  { intros i1 i2 i3 H1 H2 H3. exists i1, i2, i3.
    split; [exact H1|]. split; [exact H2|]. intros i Hi.
    unfold vnth. specialize (H3 (Z.to_nat i) ltac:(lia)).
    rewrite Z2Nat.id in H3 by lia. exact H3. }
  unfold cube_corners in Hin. cbn [In] in Hin.
  destruct Hin as [<- | [<- | [<- | [<- | [<- | [<- | [<- | [<- | []]]]]]]]].
  - apply (Hr 0 6 9)%Z; [lia|vm_compute; split; reflexivity|].
    intros n Hn. rewrite base_verts_1.
    do 24 (destruct n as [|n]; [cbn [nth]; stored_here Hp|]).
    lia.
  - apply (Hr 1 7 20)%Z; [lia|vm_compute; split; reflexivity|].
    intros n Hn. rewrite base_verts_1.
    do 24 (destruct n as [|n]; [cbn [nth]; stored_here Hp|]).
    lia.
  - apply (Hr 2 11 16)%Z; [lia|vm_compute; split; reflexivity|].
    intros n Hn. rewrite base_verts_1.
    do 24 (destruct n as [|n]; [cbn [nth]; stored_here Hp|]).
    lia.
  - apply (Hr 3 17 22)%Z; [lia|vm_compute; split; reflexivity|].
    intros n Hn. rewrite base_verts_1.
    do 24 (destruct n as [|n]; [cbn [nth]; stored_here Hp|]).
    lia.
  - apply (Hr 4 8 13)%Z; [lia|vm_compute; split; reflexivity|].
    intros n Hn. rewrite base_verts_1.
    do 24 (destruct n as [|n]; [cbn [nth]; stored_here Hp|]).
    lia.
  - apply (Hr 5 12 21)%Z; [lia|vm_compute; split; reflexivity|].
    intros n Hn. rewrite base_verts_1.
    do 24 (destruct n as [|n]; [cbn [nth]; stored_here Hp|]).
    lia.
  - apply (Hr 10 15 18)%Z; [lia|vm_compute; split; reflexivity|].
    intros n Hn. rewrite base_verts_1.
    do 24 (destruct n as [|n]; [cbn [nth]; stored_here Hp|]).
    lia.
  - apply (Hr 14 19 23)%Z; [lia|vm_compute; split; reflexivity|].
    intros n Hn. rewrite base_verts_1.
    do 24 (destruct n as [|n]; [cbn [nth]; stored_here Hp|]).
    lia.
Qed.

(** The quad the index builder emits for each face of the cube: the four
    vertices of the face, which are the four corners of one face of the
    cube, taken in order round it. *)
Lemma cube_quads (f : Z) :
  (0 <= f < 6)%Z ->
  let q := [4 * f; 4 * f + 2; 4 * f + 3; 4 * f + 1]%Z in
  let p := map (vnth (base_verts 1)) q in
  quadruple (build_quadidx 1) (Z.to_nat f) = q
  /\ NoDup p
  /\ Forall (fun v => In v cube_corners /\ cube_face f v) p
  /\ dotp (nth 0 p (0, 0, 0)) (nth 1 p (0, 0, 0)) = 1 / 3
  /\ dotp (nth 1 p (0, 0, 0)) (nth 2 p (0, 0, 0)) = 1 / 3
  /\ dotp (nth 2 p (0, 0, 0)) (nth 3 p (0, 0, 0)) = 1 / 3
  /\ dotp (nth 3 p (0, 0, 0)) (nth 0 p (0, 0, 0)) = 1 / 3.
Proof.
  pose proof ccc_pos as Hp. pose proof ccc_sqr as Hc. intros Hf.
  assert (Hcase : (f = 0 \/ f = 1 \/ f = 2 \/ f = 3 \/ f = 4 \/ f = 5)%Z)
    by lia.
  cbv zeta. unfold vnth. rewrite base_verts_1.
  destruct Hcase as [-> | [-> | [-> | [-> | [-> | ->]]]]];
    (split; [vm_compute; reflexivity|]);
    simpl map; simpl nth;
    (split;
     [ repeat (apply NoDup_cons;
               [cbn [In]; intros H;
                repeat (destruct H as [H|H]; [injection H; intros; lra|]);
                exact H|]);
       apply NoDup_nil
     | split;
       [ repeat (apply Forall_cons;
                 [split;
                  [unfold cube_corners; cbn [In];
                   repeat (first [left; reflexivity | right])
                  |unfold cube_face; cbn [Z.eqb]; reflexivity]|]);
         apply Forall_nil
       | unfold dotp; repeat split; nra ] ]).
Qed.
End Cube.

(** ** Unit length of the vertices in exact arithmetic *)

Section UnitLength.
Local Open Scope R_scope.

Lemma dotp_blend (v0 v1 : vec) (a b : R) :
  dotp (blend v0 v1 a b) (blend v0 v1 a b)
  = a * a * dotp v0 v0 + 2 * a * b * dotp v0 v1 + b * b * dotp v1 v1.
Proof.
  destruct v0 as [[x0 y0] z0], v1 as [[x1 y1] z1].
  unfold blend, dotp. ring.
Qed.

Lemma sin_sum_identity (A B : R) :
  sin A * sin A + sin B * sin B + 2 * sin A * sin B * cos (A + B)
  = sin (A + B) * sin (A + B).
Proof.
  rewrite sin_plus, cos_plus.
  pose proof (sin2_cos2 A) as HA. pose proof (sin2_cos2 B) as HB.
  unfold Rsqr in HA, HB.
  assert (EA : cos A * cos A = 1 - sin A * sin A) by lra.
  assert (EB : cos B * cos B = 1 - sin B * sin B) by lra.
  replace ((sin A * cos B + cos A * sin B) * (sin A * cos B + cos A * sin B))
    with (sin A * sin A * (cos B * cos B)
          + 2 * sin A * sin B * cos A * cos B
          + cos A * cos A * (sin B * sin B)) by ring.
  rewrite EA, EB. ring.
Qed.

(** The angle [asin (sqrt (1 - c * c))] that [slerp] computes, for a
    cosine [c] in [0, 1). *)
Lemma slerp_angle (c : R) :
  0 <= c < 1 ->
  let som := sqrt (1 - c * c) in
  0 < som <= 1 /\ sin (asin som) = som /\ cos (asin som) = c
  /\ 0 <= asin som <= PI / 2.
Proof.
  intros Hc som.
  assert (Hpos : 0 < 1 - c * c) by nra.
  assert (Hs : 0 < som) by (apply sqrt_lt_R0; exact Hpos).
  assert (Hs1 : som <= 1).
  { assert (H : som <= sqrt 1) by (apply sqrt_le_1_alt; nra).
    rewrite sqrt_1 in H. exact H. }
  assert (Hsq : som * som = 1 - c * c) by (apply sqrt_sqrt; lra).
  assert (Hsin : sin (asin som) = som) by (apply sin_asin; lra).
  split; [lra|]. split; [exact Hsin|]. split.
  - rewrite cos_asin by lra. unfold Rsqr. rewrite Hsq.
    replace (1 - (1 - c * c)) with (c * c) by ring.
    apply sqrt_square. lra.
  - pose proof (asin_bound som) as Hb. pose proof PI_RGT_0 as HP.
    split; [|lra].
    destruct (Rle_or_lt 0 (asin som)) as [H|H]; [exact H|].
    assert (sin (asin som) < 0) by (apply sin_lt_0_var; lra). lra.
Qed.

(** The two weights of a slerp sample. *)
Lemma slerp_weights (c t : R) :
  0 <= c < 1 -> 0 <= t <= 1 ->
  let som := sqrt (1 - c * c) in
  let a := sin (asin som * (1 - t)) / som in
  let b := sin (asin som * t) / som in
  a * a + 2 * a * b * c + b * b = 1 /\ 0 <= a /\ 0 <= b.
Proof.
  intros Hc Ht som a b.
  destruct (slerp_angle c Hc) as [Hs [Hsin [Hcos Hom]]].
  fold som in Hs, Hsin, Hcos, Hom.
  pose proof (sin_sum_identity (asin som * (1 - t)) (asin som * t)) as Hid.
  replace (asin som * (1 - t) + asin som * t) with (asin som) in Hid
    by ring.
  rewrite Hsin, Hcos in Hid.
  pose proof PI_RGT_0 as HP.
  assert (Hi : 0 < / som) by (apply Rinv_0_lt_compat; lra).
  assert (Ha : 0 <= sin (asin som * (1 - t))) by (apply sin_ge_0; nra).
  assert (Hb : 0 <= sin (asin som * t)) by (apply sin_ge_0; nra).
  split; [|split].
  - unfold a, b.
    replace (sin (asin som * (1 - t)) / som * (sin (asin som * (1 - t)) / som)
             + 2 * (sin (asin som * (1 - t)) / som)
               * (sin (asin som * t) / som) * c
             + sin (asin som * t) / som * (sin (asin som * t) / som))
      with ((sin (asin som * (1 - t)) * sin (asin som * (1 - t))
             + sin (asin som * t) * sin (asin som * t)
             + 2 * sin (asin som * (1 - t)) * sin (asin som * t) * c)
            / (som * som)) by (field; lra).
    rewrite Hid. field. lra.
  - unfold a, Rdiv. nra.
  - unfold b, Rdiv. nra.
Qed.

(** The sample parameter [i * (1 / divs)] lies in [0, 1]. *)
Lemma sample_range (d i : Z) :
  (1 <= d)%Z -> In i (zrange (d + 1)%Z) -> 0 <= IZR i * (1 / IZR d) <= 1.
Proof.
  intros Hd Hi. apply in_zrange in Hi.
  assert (H1 : 1 <= IZR d) by (apply IZR_le; exact Hd).
  assert (H2 : 0 <= IZR i) by (apply IZR_le; lia).
  assert (H3 : IZR i <= IZR d) by (apply IZR_le; lia).
  assert (Hi' : 0 < / IZR d) by (apply Rinv_0_lt_compat; lra).
  assert (Hm : IZR d * / IZR d = 1) by (apply Rinv_r; lra).
  unfold Rdiv. split; nra.
Qed.

(** The weights of sample [i] of [d] intervals. *)
Lemma slerp_ab_weights (c : R) (d i : Z) :
  (1 <= d)%Z -> In i (zrange (d + 1)%Z) -> 0 <= c < 1 ->
  a_b_unit c (slerp_ab c d i).
Proof.
  intros Hd Hi Hc. unfold a_b_unit, slerp_ab. cbn [fst snd].
  apply slerp_weights; [exact Hc|apply sample_range; assumption].
Qed.

Lemma blend_unit (v0 v1 : vec) (ab : R * R) :
  unit_vec v0 -> unit_vec v1 -> a_b_unit (dotp v0 v1) ab ->
  unit_vec (blend v0 v1 (fst ab) (snd ab)).
Proof.
  intros H0 H1 [Hw _]. unfold unit_vec in *.
  rewrite dotp_blend, H0, H1. lra.
Qed.

Lemma slerp_unit (d : Z) (v0 v1 : vec) :
  (1 <= d)%Z -> unit_vec v0 -> unit_vec v1 -> 0 <= dotp v0 v1 < 1 ->
  Forall unit_vec (slerp d v0 v1).
Proof.
  intros Hd H0 H1 Hc. unfold slerp. destruct (Z.ltb_spec d 1); [lia|].
  apply Forall_map, Forall_forall. intros i Hi. unfold slerp_sample.
  pose proof (slerp_ab_weights _ d i Hd Hi Hc) as Hab.
  destruct (slerp_ab (dotp v0 v1) d i) as [a b].
  apply (blend_unit v0 v1 (a, b)); assumption.
Qed.

Lemma unit_corners :
  unit_vec vul /\ unit_vec vur /\ unit_vec vll /\ unit_vec vlr
  /\ dotp vul vll = 1 / 3 /\ dotp vur vlr = 1 / 3.
Proof.
  pose proof ccc_sqr as Hc.
  unfold unit_vec, dotp, vul, vur, vll, vlr. repeat split; nra.
Qed.

(** The two ends of a row are unit vectors less than a right angle apart. *)
Lemma row_ends (a b : R) :
  a * a + 2 * a * b * (1 / 3) + b * b = 1 -> 0 <= a -> 0 <= b ->
  let v0 := blend vul vll a b in
  let v1 := blend vur vlr a b in
  unit_vec v0 /\ unit_vec v1 /\ 0 <= dotp v0 v1 < 1.
Proof.
  intros Hw Ha Hb v0 v1. pose proof ccc_sqr as Hc.
  pose proof ccc_pos as Hp.
  destruct unit_corners as [U1 [U2 [U3 [U4 [D1 D2]]]]].
  split; [|split].
  - unfold v0, unit_vec in *. rewrite dotp_blend, U1, U3, D1. lra.
  - unfold v1, unit_vec in *. rewrite dotp_blend, U2, U4, D2. lra.
  - assert (E : dotp v0 v1 = (a - b) * (a - b) / 3).
    { unfold v0, v1, blend, vul, vll, vur, vlr, dotp.
      replace ((ccc * a + ccc * b) * (- ccc * a + - ccc * b)
               + (ccc * a + - ccc * b) * (ccc * a + - ccc * b)
               + (ccc * a + ccc * b) * (ccc * a + ccc * b))
        with (ccc * ccc * ((a - b) * (a - b))) by ring.
      rewrite Hc. field. }
    rewrite E.
    pose proof (Rle_0_sqr (a - b)) as Hsq. unfold Rsqr in Hsq.
    assert (Hab : 0 <= a * b) by (apply Rmult_le_pos; assumption).
    split; [lra|nra].
Qed.

Lemma front_face_unit (d : Z) :
  (1 <= d)%Z -> Forall unit_vec (front_face d).
Proof.
  intros Hd. unfold front_face.
  destruct unit_corners as [_ [_ [_ [_ [D1 _]]]]]. rewrite D1.
  apply Forall_flat_map, Forall_forall. intros i Hi.
  assert (Hthird : 0 <= 1 / 3 < 1) by lra.
  pose proof (slerp_ab_weights _ d i Hd Hi Hthird) as Hab.
  destruct (slerp_ab (1 / 3) d i) as [a b].
  destruct Hab as [Hw [Ha Hb]]. cbn [fst snd] in Hw, Ha, Hb.
  destruct (row_ends _ _ Hw Ha Hb) as [U0 [U1 Hc]].
  apply slerp_unit; assumption.
Qed.

Lemma rotations_unit (v : vec) :
  unit_vec v ->
  unit_vec (to_top v) /\ unit_vec (to_left v) /\ unit_vec (to_back v)
  /\ unit_vec (to_bottom v) /\ unit_vec (to_right v).
Proof.
  destruct v as [[x y] z].
  unfold unit_vec, dotp, to_top, to_left, to_back, to_bottom, to_right.
  intros H. repeat split; lra.
Qed.

Lemma base_verts_unit (d : Z) :
  (1 <= d)%Z -> Forall unit_vec (base_verts d).
Proof.
  intros Hd. pose proof (front_face_unit d Hd) as HF. unfold base_verts.
  repeat (apply Forall_app; split); try exact HF;
    apply Forall_map; (eapply Forall_impl; [|exact HF]);
    intros v Hv; apply rotations_unit; exact Hv.
Qed.
End UnitLength.

(** ** Three vertices of the mesh at resolution 2 *)

Section MeshVertices.
Local Open Scope R_scope.

Lemma first_weights (c : R) (d : Z) :
  0 < sqrt (1 - c * c) <= 1 -> slerp_ab c d 0 = (1, 0).
Proof.
  intros Hs. unfold slerp_ab. set (som := sqrt (1 - c * c)) in *.
  replace (asin som * (1 - 0 * (1 / IZR d))) with (asin som) by ring.
  replace (asin som * (0 * (1 / IZR d))) with 0 by ring.
  rewrite sin_asin by lra. rewrite sin_0.
  f_equal; field; lra.
Qed.

Lemma half_root (y : R) : 0 <= y -> y * y = 1 / 2 -> y = 1 / sqrt 2.
Proof.
  intros Hy Hsq.
  assert (H2 : 0 < sqrt 2) by (apply sqrt_lt_R0; lra).
  assert (Hs : sqrt 2 * sqrt 2 = 2) by (apply sqrt_sqrt; lra).
  assert (Hi : 0 < / sqrt 2) by (apply Rinv_0_lt_compat; exact H2).
  assert (H1 : sqrt 2 * / sqrt 2 = 1) by (apply Rinv_r; lra).
  unfold Rdiv. rewrite Rmult_1_l.
  assert (Hr : / sqrt 2 * / sqrt 2 = 1 / 2) by nra.
  nra.
Qed.

(** The middle sample of two intervals between unit vectors with cosine
    1/3 has equal weights [w], with 2 * ccc * w = 1 / sqrt 2. *)
Lemma mid_weights :
  exists w, slerp_ab (1 / 3) 2 1 = (w, w)
            /\ ccc * w + ccc * w = 1 / sqrt 2.
Proof.
  assert (Hthird : 0 <= 1 / 3 < 1) by lra.
  assert (Hin : In 1%Z (zrange (2 + 1)%Z)) by (apply in_zrange; lia).
  pose proof (slerp_ab_weights _ 2 1 ltac:(lia) Hin Hthird) as Hab.
  assert (E : snd (slerp_ab (1 / 3) 2 1) = fst (slerp_ab (1 / 3) 2 1)).
  { unfold slerp_ab. cbn [fst snd]. do 2 f_equal. field. }
  destruct (slerp_ab (1 / 3) 2 1) as [a b]. cbn [fst snd] in E. subst b.
  destruct Hab as [Hw [Ha _]]. cbn [fst snd] in Hw, Ha.
  exists a. split; [reflexivity|].
  pose proof ccc_sqr as Hc. pose proof ccc_pos as Hp.
  apply half_root; nra.
Qed.

(** The middle sample of two intervals between perpendicular unit
    vectors has both weights 1 / sqrt 2. *)
Lemma right_angle_weights :
  slerp_ab 0 2 1 = (1 / sqrt 2, 1 / sqrt 2).
Proof.
  unfold slerp_ab.
  replace (1 - 0 * 0) with 1 by ring. rewrite sqrt_1, asin_1.
  replace (PI / 2 * (1 - 1 * (1 / 2))) with (PI / 4) by field.
  replace (PI / 2 * (1 * (1 / 2))) with (PI / 4) by field.
  rewrite sin_PI4. f_equal; field;
    apply Rgt_not_eq, sqrt_lt_R0; lra.
Qed.

(** Entry 1 of the front face is the middle of its top edge and entry 4
    its centre. *)
Lemma front_face_2 :
  nth 1 (front_face 2) (0, 0, 0) = (0, 1 / sqrt 2, 1 / sqrt 2)
  /\ nth 4 (front_face 2) (0, 0, 0) = (0, 0, 1).
Proof.
  pose proof ccc_sqr as Hc.
  assert (D1 : dotp vul vll = 1 / 3) by (unfold dotp, vul, vll; nra).
  assert (D2 : dotp vul vur = 1 / 3) by (unfold dotp, vul, vur; nra).
  destruct mid_weights as [w [Ew Hy]].
  assert (Hh : 1 / sqrt 2 * (1 / sqrt 2) = 1 / 2).
  { assert (H2 : 0 < sqrt 2) by (apply sqrt_lt_R0; lra).
    assert (Hs : sqrt 2 * sqrt 2 = 2) by (apply sqrt_sqrt; lra).
    assert (Hi : 0 < / sqrt 2) by (apply Rinv_0_lt_compat; exact H2).
    assert (H1 : sqrt 2 * / sqrt 2 = 1) by (apply Rinv_r; lra).
    unfold Rdiv. nra. }
  unfold front_face. rewrite D1.
  change (zrange (2 + 1)%Z) with [0%Z; 1%Z; 2%Z]. cbn [flat_map].
  rewrite (first_weights _ 2 third_som), Ew, !blend_1_0.
  unfold slerp. change (2 <? 1)%Z with false.
  change (zrange (2 + 1)%Z) with [0%Z; 1%Z; 2%Z]. cbn [map app nth].
  split.
  - unfold slerp_sample. rewrite D2, Ew. unfold blend, vul, vur.
    f_equal; [f_equal|]; lra.
  - unfold slerp_sample.
    assert (D : dotp (blend vul vll w w) (blend vur vlr w w) = 0).
    { unfold blend, vul, vll, vur, vlr, dotp. nra. }
    rewrite D, right_angle_weights. unfold blend, vul, vll, vur, vlr.
    f_equal; [f_equal|]; nra.
Qed.

(** The middle of the front face's top edge and the two poles are
    vertices 1, 13 and 40 of the mesh at resolution 2. *)
Lemma mesh_vertices_2 :
  vnth (base_verts 2) 1 = (0, 1 / sqrt 2, 1 / sqrt 2)
  /\ vnth (base_verts 2) 13 = (0, 1, 0)
  /\ vnth (base_verts 2) 40 = (0, -1, 0).
Proof.
  destruct front_face_2 as [H1 H4].
  assert (HL : length (front_face 2) = 9%nat)
    by (rewrite length_front_face by lia; reflexivity).
  unfold vnth, base_verts.
  change (Z.to_nat 1) with 1%nat. change (Z.to_nat 13) with (9 + 4)%nat.
  change (Z.to_nat 40) with (9 + (9 + (9 + (9 + 4))))%nat.
  assert (Hmap : forall g, nth 4 (map g (front_face 2)) (0, 0, 0)
                           = g (0, 0, 1)).
  { intros g. rewrite (nth_indep _ _ (g (0, 0, 0)))
      by (rewrite length_map, HL; lia).
    rewrite map_nth, H4. reflexivity. }
  split; [|split].
  - rewrite app_nth1 by (rewrite HL; lia). exact H1.
  - rewrite <- HL at 1. rewrite app_nth2_plus.
    rewrite app_nth1 by (rewrite length_map, HL; lia).
    rewrite Hmap. unfold to_top. rewrite Ropp_0. reflexivity.
  - rewrite <- HL at 1. rewrite app_nth2_plus.
    rewrite <- HL at 1. rewrite <- (length_map to_top).
    rewrite app_nth2_plus.
    rewrite <- HL at 1. rewrite <- (length_map to_left).
    rewrite app_nth2_plus.
    rewrite <- HL at 1. rewrite <- (length_map to_back).
    rewrite app_nth2_plus.
    rewrite app_nth1 by (rewrite length_map, HL; lia).
    rewrite Hmap. unfold to_bottom. reflexivity.
Qed.
End MeshVertices.

(** The seam repair copies vertices of the six faces only. *)
Lemma seam_reads_in_range (d : Z) :
  valid_divs d ->
  (forall r, 0 <= r < ntb d ->
             0 <= ipt d + r * dp1 d < base_vertices d)
  /\ (forall r, 0 <= r < dp1 d ->
                0 <= ipk d + r * dp1 d < base_vertices d)
  /\ (forall r, 0 <= r < ntb d ->
                0 <= ipb d + r * dp1 d < base_vertices d)
  /\ 0 <= u32 (ppf d + u32 ((dp1 d + 1) * d2 d)) < base_vertices d
  /\ 0 <= u32 (4 * ppf d + u32 ((dp1 d + 1) * d2 d)) < base_vertices d.
Proof.
  intros Hd. destruct (valid_divs_half d Hd) as [h [Hh Hc]].
  unfold ipt, ipk, ipb, base_vertices, ntb. rewrite !u32_add_idemp_r.
  rewrite Hh. unfold ppf, dp1.
  destruct Hc as [[-> ->]|[-> Hc]].
  - repeat split; intros; try lia; rewrite ?u32_small; lia.
  - rewrite !u32_small by nia.
    repeat split; intros; nia.
Qed.

Section SeamVertices.
Local Open Scope R_scope.

Lemma vnth_unit (d i : Z) :
  (1 <= d)%Z -> (0 <= i < base_vertices d)%Z ->
  unit_vec (vnth (base_verts d) i).
Proof.
  intros Hd Hi. pose proof (base_verts_unit d Hd) as HF.
  rewrite Forall_forall in HF. apply HF. unfold vnth. apply nth_In.
  pose proof (length_base_verts d Hd). lia.
Qed.

Lemma seam_column_unit (d start n : Z) :
  (1 <= d)%Z ->
  (forall r, 0 <= r < n -> 0 <= start + r * dp1 d < base_vertices d)%Z ->
  Forall unit_vec (seam_column d (base_verts d) start n).
Proof.
  intros Hd Hr. unfold seam_column.
  apply Forall_map, Forall_forall. intros r Hin.
  apply in_zrange in Hin. apply vnth_unit; [exact Hd|apply Hr; exact Hin].
Qed.

(** In exact arithmetic every vertex of the finished array, duplicates
    included, has length 1. *)
Lemma vertices_unit_exact (d : Z) :
  valid_divs d -> Forall unit_vec (vertices d).
Proof.
  intros Hv. pose proof (valid_divs_pos d Hv) as Hd.
  destruct (seam_reads_in_range d Hv) as [Ht [Hk [Hb [Hic Hid]]]].
  unfold vertices, seam_vertices.
  apply Forall_app. split; [apply base_verts_unit; exact Hd|].
  apply Forall_app. split; [apply seam_column_unit; assumption|].
  apply Forall_app. split; [apply seam_column_unit; assumption|].
  apply Forall_app. split; [apply seam_column_unit; assumption|].
  repeat (apply Forall_cons; [apply vnth_unit; assumption|]).
  apply Forall_nil.
Qed.
End SeamVertices.

(** ** Sizes and rounding *)

Lemma vertpnts_bytes_bound (d : Z) :
  1 <= d <= max_divs_bytes -> 0 < vertpnts d /\ 68 * vertpnts d < 4294967296.
Proof.
  unfold max_divs_bytes. intros H.
  rewrite vertpnts_exact by (unfold max_divs_int; lia).
  rewrite Z.pow_2_r. nia.
Qed.

(** The three resolution limits are sharp: the next even resolution
    overflows [int], wraps [nwords], or wraps the byte size. *)
Lemma resolution_limits :
  24 * qpf max_divs_int <= INT_MAX < 24 * qpf (max_divs_int + 2)
  /\ (3 + 2 * Nprojections) * vertpnts max_divs + 2 * linewrds max_divs
     < 4294967296
     <= (3 + 2 * Nprojections) * vertpnts (max_divs + 2)
        + 2 * linewrds (max_divs + 2)
  /\ 4 * nwords max_divs_bytes < 4294967296
     <= 4 * ((3 + 2 * Nprojections) * vertpnts (max_divs_bytes + 2)
             + 2 * linewrds (max_divs_bytes + 2)).
Proof. vm_compute. repeat split; intros H; discriminate H. Qed.

(** C1: for every resolution the constructor can build, with [n] the
    effective (rounded) resolution, the vertex count, which is also the
    number of vertices constructed, is
    6(n+1)^2 + (n+1) + 2*floor(n/2) + 4, and the number of quads is 6n^2
    (the quad index array holds four words for each of them); for n = 2
    that is 54 base vertices and 9 duplicates, 63 in all, and 24 quads. *)
Theorem C1_vertex_and_quad_counts (divs_arg : Z) :
  INT_MIN <= divs_arg <= max_divs ->
  let n := round_divs divs_arg in
  vertpnts n = 6 * (n + 1) ^ 2 + (n + 1) + 2 * (n / 2) + 4
  /\ Z.of_nat (length (vertices n)) = vertpnts n
  /\ quad_count n = 6 * n ^ 2
  /\ Z.of_nat (length (build_quadidx n)) = 4 * (6 * n ^ 2)
  /\ round_divs 2 = 2
  /\ base_vertices 2 = 54 /\ dups 2 = 9 /\ vertpnts 2 = 63
  /\ quad_count 2 = 24.
Proof.
  intros [_ Hhi] n.
  assert (Hv : valid_divs n) by (apply round_divs_valid; exact Hhi).
  assert (Hn : 1 <= n <= max_divs_int).
  { split; [apply valid_divs_pos; exact Hv|].
    destruct Hv as [_ Hv]. unfold max_divs in Hv. unfold max_divs_int. lia. }
  split; [apply vertpnts_exact; exact Hn|].
  split; [apply length_vertices; exact Hv|].
  split; [apply quad_count_exact; exact Hn|].
  split.
  - rewrite length_build_quadidx by lia. rewrite Z.pow_2_r. nia.
  - repeat split; reflexivity.
Qed.

Lemma C1_witness :
  INT_MIN <= 3 <= max_divs
  /\ vertpnts (round_divs 3) = 163 /\ quad_count (round_divs 3) = 96.
Proof.
  assert (H : INT_MIN <= 3 <= max_divs)
    by (unfold INT_MIN, max_divs; lia).
  split; [exact H|].
  destruct (C1_vertex_and_quad_counts 3 H) as [Hv [_ [Hq _]]].
  split; [rewrite Hv|rewrite Hq]; reflexivity.
Defined.

(** C2: with seven coordinate sets in the block, [dataBlockSize()] covers
    the vertex array and six of them only: at resolution 2 it returns
    15 * 63 * 4 = 3780 bytes, while the range from the start of the vertex
    array to the end of the last coordinate set, where the line indices
    begin, is (3 + 2*7) * 63 * 4 = 4284 bytes long. *)
Theorem C2_dataBlockSize_at_2 :
  vertpnts 2 = 63
  /\ dataBlockSize 2 = 3780
  /\ data_span_bytes 2 = (3 + 2 * 7) * vertpnts 2 * sizeof_float
  /\ data_span_bytes 2 = 4284
  /\ lineIndexOffset 2 = 4284
  /\ dataBlockSize 2 <> data_span_bytes 2.
Proof. repeat split; try reflexivity. discriminate. Qed.

(** At every resolution whose byte sizes fit, [dataBlockSize()] is one
    coordinate set short of the vertices and coordinate sets. *)
Lemma dataBlockSize_one_set_short (d : Z) :
  1 <= d <= max_divs_bytes ->
  data_span_bytes d = (3 + 2 * Nprojections) * vertpnts d * sizeof_float
  /\ dataBlockSize d = data_span_bytes d - texCoordSize d
  /\ 0 < texCoordSize d.
Proof.
  intros H. destruct (vertpnts_bytes_bound d H) as [Hp Hb].
  unfold data_span_bytes, lineidx_off, TCs_off, verts_off, dataBlockSize,
    texCoordSize, Nprojections, sizeof_float.
  rewrite !u32_small by lia. lia.
Qed.

(** The claim as worded fails at input 1: it is rounded to 2, which gives
    24 quads over 54 base vertices, not the bare cube. *)
Lemma C3_counterexample :
  round_divs 1 = 2
  /\ quad_count (round_divs 1) = 24
  /\ base_vertices (round_divs 1) = 54
  /\ quad_count (round_divs 1) <> 6.
Proof. repeat split; try reflexivity. discriminate. Qed.

(** C3, amended: an odd resolution n >= 1 is rounded up to n+1 (so 1
    becomes 2), an even n >= 2 is kept, and every n <= 0 gives the minimum
    effective resolution 1.  At resolution 1 the vertex generator and the
    index builder produce the bare cube.  The 24 stored face vertices
    are the 8 cube corners, each stored three times, in three different
    faces.  The index builder emits 6 quads, the quad of face [f] over
    the vertices [4f], [4f + 2], [4f + 3], [4f + 1] of that face: four
    different cube corners in the plane of one face of the cube, each
    joined to the next, and the last to the first, by an edge of the
    cube (two corners with dot product 1/3). *)
Theorem C3_rounding (n : Z) :
  INT_MIN <= n < INT_MAX ->
  (1 <= n -> Z.Odd n -> round_divs n = n + 1)
  /\ (2 <= n -> Z.Even n -> round_divs n = n)
  /\ (n <= 0 -> round_divs n = 1)
  /\ 1 <= round_divs n
  /\ quad_count 1 = 6
  /\ length (build_quadidx 1) = 24%nat
  /\ base_vertices 1 = 24
  /\ length (base_verts 1) = 24%nat
  /\ length cube_corners = 8%nat
  /\ NoDup cube_corners
  /\ (forall v, In v (base_verts 1) <-> In v cube_corners)
  /\ (forall v, In v cube_corners ->
        exists i1 i2 i3,
          (0 <= i1 < 24 /\ 0 <= i2 < 24 /\ 0 <= i3 < 24)
          /\ i1 / ppf 1 < i2 / ppf 1 < i3 / ppf 1
          /\ forall i, 0 <= i < 24 ->
               (vnth (base_verts 1) i = v <-> i = i1 \/ i = i2 \/ i = i3))
  /\ (forall f, 0 <= f < 6 ->
        let q := [4 * f; 4 * f + 2; 4 * f + 3; 4 * f + 1] in
        let p := map (vnth (base_verts 1)) q in
        quadruple (build_quadidx 1) (Z.to_nat f) = q
        /\ NoDup p
        /\ Forall (fun v => In v cube_corners /\ cube_face f v) p
        /\ dotp (nth 0 p (0, 0, 0)%R) (nth 1 p (0, 0, 0)%R) = (1 / 3)%R
        /\ dotp (nth 1 p (0, 0, 0)%R) (nth 2 p (0, 0, 0)%R) = (1 / 3)%R
        /\ dotp (nth 2 p (0, 0, 0)%R) (nth 3 p (0, 0, 0)%R) = (1 / 3)%R
        /\ dotp (nth 3 p (0, 0, 0)%R) (nth 0 p (0, 0, 0)%R) = (1 / 3)%R).
Proof.
  intros _.
  split; [intros H [k ->]; rewrite round_divs_pos by exact H; lia|].
  split; [intros H [k ->]; rewrite round_divs_pos by lia; lia|].
  split; [apply round_divs_nonpos|].
  split; [destruct (round_divs_shape n) as [->|[H _]]; lia|].
  destruct base_verts_cube as [HL [HN HI]].
  do 7 (split; [first [assumption | reflexivity]|]).
  split; [exact cube_corner_faces|exact cube_quads].
Qed.

Lemma C3_witness :
  INT_MIN <= 5 < INT_MAX /\ round_divs 5 = 6 /\ round_divs (-4) = 1.
Proof.
  assert (H : INT_MIN <= 5 < INT_MAX) by (unfold INT_MIN, INT_MAX; lia).
  split; [exact H|].
  destruct (C3_rounding 5 H) as [Hodd _].
  split; [apply Hodd; [lia|exists 2; reflexivity]|reflexivity].
Defined.

(** ** Index ranges *)

(** C7: every index the index builder emits is below the pre-repair vertex
    count 6(divs+1)^2, the seam repair's stores all fall inside the index
    block, and afterwards every line and quad index is below the vertex
    count. *)
Theorem C7_indices_in_range (divs_arg : Z) :
  INT_MIN <= divs_arg <= max_divs ->
  let divs := round_divs divs_arg in
  Forall (in_range (6 * (divs + 1) ^ 2)) (index_builder divs)
  /\ exists blk,
       quadsphere_indices divs_arg = Some blk
       /\ length blk = block_len divs
       /\ Forall (in_range (vertpnts divs)) (lineidx_of divs blk)
       /\ Forall (in_range (vertpnts divs)) (quadidx_of divs blk).
Proof.
  intros [_ Hhi] divs.
  assert (Hv : valid_divs divs) by (apply round_divs_valid; exact Hhi).
  assert (Hd : 1 <= divs <= max_divs)
    by (split; [apply valid_divs_pos; exact Hv|apply Hv]).
  pose proof (index_builder_good divs Hd) as G.
  split.
  - replace (6 * (divs + 1) ^ 2) with (base_vertices divs)
      by (unfold base_vertices, ppf, dp1; ring).
    apply G.
  - assert (G' : good_block (block_len divs) (vertpnts divs)
                            (index_builder divs)).
    { apply (good_block_weaken _ (base_vertices divs)); [|exact G].
      rewrite (vertpnts_val divs Hv). unfold base_vertices, dp1.
      destruct (valid_divs_half divs Hv) as [h [-> Hc]]. lia. }
    destruct (seam_repair_good divs Hv _ G') as [blk [E [HL HF]]].
    exists blk. split; [exact E|]. split; [exact HL|].
    unfold lineidx_of, quadidx_of.
    rewrite <- (firstn_skipn (Z.to_nat (linewrds divs)) blk) in HF.
    apply Forall_app in HF. exact HF.
Qed.

Lemma C7_witness :
  INT_MIN <= 2 <= max_divs
  /\ exists blk, quadsphere_indices 2 = Some blk
                 /\ Forall (in_range 63) (quadidx_of 2 blk).
Proof.
  assert (H : INT_MIN <= 2 <= max_divs) by (unfold INT_MIN, max_divs; lia).
  split; [exact H|].
  destruct (C7_indices_in_range 2 H) as [_ [blk [E [_ [_ HQ]]]]].
  exists blk. split; [exact E|exact HQ].
Defined.

(** ** Texture-coordinate lookup *)

(** The body the four lookup functions share, from the catalog index. *)
Lemma lookup_by_index (d i : Z) :
  1 <= d <= max_divs_bytes ->
  let ptr := if (i <? 0) || (i >=? Nprojections) then None
             else Some (TCs_off d + u32 (i * 2 * vertpnts d)) in
  let off := match ptr with
             | None => 0
             | Some p => u32 ((p - verts_off) * sizeof_float)
             end in
  (i < 0 \/ Nprojections <= i -> ptr = None /\ off = 0)
  /\ (0 <= i < Nprojections ->
      ptr = Some (TCs_off d + i * (2 * vertpnts d))
      /\ off = (TCs_off d + i * (2 * vertpnts d)) * sizeof_float
      /\ off <> 0).
Proof.
  intros H ptr off. destruct (vertpnts_bytes_bound d H) as [Hp Hb].
  subst ptr off. unfold Nprojections. split.
  - intros Hi.
    destruct (Z.ltb_spec i 0); destruct (Z.geb_spec i 7); simpl;
      try (split; reflexivity); lia.
  - intros Hi.
    destruct (Z.ltb_spec i 0); [lia|].
    destruct (Z.geb_spec i 7); [lia|]. cbn [orb].
    unfold TCs_off, verts_off, sizeof_float.
    rewrite (u32_small (3 * vertpnts d)) by lia.
    rewrite (u32_small (i * 2 * vertpnts d)) by nia.
    replace (i * 2 * vertpnts d) with (i * (2 * vertpnts d)) by ring.
    assert (Hi' : 0 <= i * (2 * vertpnts d) <= 12 * vertpnts d) by nia.
    rewrite u32_small by lia.
    split; [reflexivity|]. split; lia.
Qed.

(** C9: for either lookup key, when the catalog index is outside
    [0, Nprojections) the pointer lookup returns the null pointer and the
    offset lookup returns 0; when it is an index i inside, the pointer is
    the start of the i-th coordinate set, i * 2 * vertpnts floats into the
    coordinate block, and the offset is its byte distance from the
    vertices, which is never 0. *)
Theorem C9_texcoord_lookup (d : Z) (PicType : Type)
        (picTypeIndex_name : list Byte.byte -> Z)
        (picTypeIndex_type : PicType -> Z)
        (name : list Byte.byte) (type : PicType) :
  1 <= d <= max_divs_bytes ->
  let found i (ptr : option Z) (off : Z) :=
    (i < 0 \/ Nprojections <= i -> ptr = None /\ off = 0)
    /\ (0 <= i < Nprojections ->
        ptr = Some (TCs_off d + i * (2 * vertpnts d))
        /\ off = (TCs_off d + i * (2 * vertpnts d)) * sizeof_float
        /\ off <> 0) in
  TCs_off d = 3 * vertpnts d
  /\ found (picTypeIndex_name name)
           (texCoords_name d picTypeIndex_name name)
           (texCoordOffset_name d picTypeIndex_name name)
  /\ found (picTypeIndex_type type)
           (texCoords_type d picTypeIndex_type type)
           (texCoordOffset_type d picTypeIndex_type type).
Proof.
  intros H found. split; [|split].
  - destruct (vertpnts_bytes_bound d H) as [Hp Hb].
    unfold TCs_off, verts_off. rewrite u32_small by lia. reflexivity.
  - apply (lookup_by_index d (picTypeIndex_name name) H).
  - apply (lookup_by_index d (picTypeIndex_type type) H).
Qed.

Lemma C9_witness :
  1 <= 2 <= max_divs_bytes
  /\ texCoords_name 2 (fun _ => 6) [] = Some (189 + 6 * 126)
  /\ texCoordOffset_type 2 (fun b : bool => if b then 3 else -1) false = 0.
Proof.
  assert (H : 1 <= 2 <= max_divs_bytes) by (unfold max_divs_bytes; lia).
  split; [exact H|].
  destruct (C9_texcoord_lookup 2 bool (fun _ => 6)
              (fun b : bool => if b then 3 else -1) [] false H)
    as [_ [[_ Hn] [Ht _]]].
  split.
  - apply Hn. unfold Nprojections. lia.
  - apply Ht. left. lia.
Defined.

(** ** Line quadruples against quad quadruples *)

Lemma quadruple_map (g : Z -> Z) (l : list Z) (n : nat) :
  quadruple (map g l) n = map g (quadruple l n).
Proof. unfold quadruple. rewrite skipn_map, firstn_map. reflexivity. Qed.

Lemma quadruple_concat (N : nat) (blocks : list (list Z)) :
  Forall (fun b => length b = (4 * N)%nat) blocks ->
  forall f j, (f < length blocks)%nat -> (j < N)%nat ->
    quadruple (concat blocks) (f * N + j) = quadruple (nth f blocks []) j.
Proof.
  intros HF. induction HF as [|b blocks Hb HF IH]; intros f j Hf Hj.
  - simpl in Hf. lia.
  - unfold quadruple in *. destruct f as [|f]; simpl concat; simpl nth.
    + simpl Nat.add. rewrite skipn_app, firstn_app.
      rewrite length_skipn, Hb.
      replace (4 - (4 * N - 4 * j))%nat with 0%nat by lia.
      rewrite firstn_O, app_nil_r. reflexivity.
    + replace (4 * (S f * N + j))%nat
        with (4 * (f * N + j) + length b)%nat by (rewrite Hb; lia).
      rewrite skipn_app.
      rewrite skipn_all2 by lia.
      replace (4 * (f * N + j) + length b - length b)%nat
        with (4 * (f * N + j))%nat by lia.
      simpl app. apply IH; [simpl in Hf; lia|exact Hj].
Qed.

Lemma quadruple_line_face (sel : selector) (quadidx : list Z) (r : nat) :
  forall qq j, (j < r)%nat ->
    quadruple (line_face sel r qq quadidx) j
    = line_of sel quadidx (qq + 4 * j).
Proof.
  unfold quadruple.
  induction r as [|r IH]; intros qq j Hj; [lia|].
  cbn [line_face].
  assert (HL : length (line_of sel quadidx qq) = 4%nat)
    by (destruct sel as [[[a b] c] e]; reflexivity).
  destruct j as [|j].
  - rewrite Nat.mul_0_r, Nat.add_0_r. simpl skipn.
    rewrite firstn_app, HL. simpl firstn at 2. rewrite app_nil_r.
    apply firstn_all2. lia.
  - rewrite skipn_app, HL. rewrite skipn_all2 by lia.
    replace (4 * S j - 4)%nat with (4 * j)%nat by lia.
    rewrite app_nil_l. rewrite IH by lia. f_equal. lia.
Qed.

Lemma line_of_quadruple (sel : selector) (quadidx : list Z) (n : nat) :
  (let '(a, b, c, e) := sel in a < 4 /\ b < 4 /\ c < 4 /\ e < 4)%nat ->
  line_of sel quadidx (4 * n) = apply_selector sel (quadruple quadidx n).
Proof.
  destruct sel as [[[a b] c] e]. intros [Ha [Hb [Hc He]]].
  unfold apply_selector, line_of, quadruple.
  rewrite !nth_firstn, !nth_skipn. simpl Nat.add.
  destruct (Nat.ltb_spec a 4); [|lia].
  destruct (Nat.ltb_spec b 4); [|lia].
  destruct (Nat.ltb_spec c 4); [|lia].
  destruct (Nat.ltb_spec e 4); [|lia].
  reflexivity.
Qed.

Lemma face_selector_lt (f : nat) :
  (let '(a, b, c, e) := face_selector f in a < 4 /\ b < 4 /\ c < 4 /\ e < 4)%nat.
Proof.
  destruct f as [|[|[|[|[|f]]]]]; simpl; lia.
Qed.

Lemma build_lineidx_concat (d : Z) (quadidx : list Z) :
  build_lineidx d quadidx
  = concat (map (fun f => line_face (face_selector f) (Z.to_nat (qpf d))
                                    (4 * (f * Z.to_nat (qpf d))) quadidx)
                (seq 0 6)).
Proof.
  unfold build_lineidx. cbn [seq map concat face_selector].
  rewrite app_nil_r.
  replace (4 * (0 * Z.to_nat (qpf d)))%nat with 0%nat by lia.
  replace (4 * (1 * Z.to_nat (qpf d)))%nat
    with (4 * Z.to_nat (qpf d))%nat by lia.
  replace (4 * (2 * Z.to_nat (qpf d)))%nat
    with (8 * Z.to_nat (qpf d))%nat by lia.
  replace (4 * (3 * Z.to_nat (qpf d)))%nat
    with (12 * Z.to_nat (qpf d))%nat by lia.
  replace (4 * (4 * Z.to_nat (qpf d)))%nat
    with (16 * Z.to_nat (qpf d))%nat by lia.
  replace (4 * (5 * Z.to_nat (qpf d)))%nat
    with (20 * Z.to_nat (qpf d))%nat by lia.
  reflexivity.
Qed.

(** Every line quadruple is its face's selection from the quad quadruple
    of the same cell. *)
Lemma quadruple_build_lineidx (d : Z) (quadidx : list Z) (f j : nat) :
  (f < 6)%nat -> (j < Z.to_nat (qpf d))%nat ->
  quadruple (build_lineidx d quadidx) (f * Z.to_nat (qpf d) + j)
  = apply_selector (face_selector f)
                   (quadruple quadidx (f * Z.to_nat (qpf d) + j)).
Proof.
  intros Hf Hj. rewrite build_lineidx_concat.
  set (g := fun f => line_face (face_selector f) (Z.to_nat (qpf d))
                               (4 * (f * Z.to_nat (qpf d))) quadidx).
  rewrite (quadruple_concat (Z.to_nat (qpf d))).
  - rewrite (nth_indep _ _ (g 0%nat))
      by (rewrite length_map, length_seq; exact Hf).
    rewrite (map_nth g (seq 0 6) 0%nat f).
    rewrite seq_nth by exact Hf. simpl Nat.add. unfold g.
    rewrite quadruple_line_face by exact Hj.
    replace (4 * (f * Z.to_nat (qpf d)) + 4 * j)%nat
      with (4 * (f * Z.to_nat (qpf d) + j))%nat by lia.
    apply line_of_quadruple, face_selector_lt.
  - apply Forall_map, Forall_forall. intros k _. apply length_line_face.
  - rewrite length_map, length_seq. exact Hf.
  - exact Hj.
Qed.

Lemma list4_eq (a b c e a' b' c' e' : Z) :
  a = a' -> b = b' -> c = c' -> e = e' -> [a; b; c; e] = [a'; b'; c'; e'].
Proof. intros -> -> -> ->. reflexivity. Qed.

(** The quad quadruple of the cell in row [r], column [c] of face [f]. *)
Lemma quadruple_face_block (d : Z) (f r c : nat) :
  1 <= d <= max_divs ->
  (f < 6)%nat -> (r < Z.to_nat d)%nat -> (c < Z.to_nat d)%nat ->
  let x := Z.of_nat r * dp1 d + Z.of_nat c + Z.of_nat f * ppf d in
  quadruple (face_block d f) (r * Z.to_nat d + c)
  = [x; x + dp1 d; x + dp1 d + 1; x + 1].
Proof.
  intros Hd Hf Hr Hc.
  assert (HR : 0 <= Z.of_nat r < d) by lia.
  assert (HC : 0 <= Z.of_nat c < d) by lia.
  assert (Hcell : 0 <= Z.of_nat r * dp1 d + Z.of_nat c
                  /\ Z.of_nat r * dp1 d + Z.of_nat c + dp1 d + 1 < ppf d).
  { unfold ppf, dp1.
    assert (0 <= Z.of_nat r * (d + 1)) by (apply Z.mul_nonneg_nonneg; lia).
    assert ((Z.of_nat r + 1) * (d + 1) <= d * (d + 1))
      by (apply Z.mul_le_mono_nonneg_r; lia).
    lia. }
  assert (Hp : 0 < ppf d <= 28633201)
    by (unfold ppf, dp1, max_divs in *; nia).
  induction f as [|f IH]; intros x; subst x.
  - cbn [face_block]. rewrite quadruple_face_quads by assumption.
    rewrite quad_cell_val by lia.
    change (Z.of_nat 0) with 0. apply list4_eq; lia.
  - cbn [face_block]. rewrite quadruple_map, IH by lia.
    rewrite Nat2Z.inj_succ.
    set (F := Z.of_nat f) in *.
    assert (HF : 0 <= F * ppf d <= 4 * ppf d) by nia.
    replace (Z.succ F * ppf d) with (F * ppf d + ppf d) by ring.
    assert (Hw : 2 <= dp1 d) by (unfold dp1; lia).
    cbn [map]. unfold shift. rewrite !u32_small by lia.
    apply list4_eq; lia.
Qed.

Lemma quadruple_build_quadidx (d : Z) (f r c : nat) :
  1 <= d <= max_divs ->
  (f < 6)%nat -> (r < Z.to_nat d)%nat -> (c < Z.to_nat d)%nat ->
  let x := Z.of_nat r * dp1 d + Z.of_nat c + Z.of_nat f * ppf d in
  quadruple (build_quadidx d)
            (f * Z.to_nat (qpf d) + (r * Z.to_nat d + c))
  = [x; x + dp1 d; x + dp1 d + 1; x + 1].
Proof.
  intros Hd Hf Hr Hc x.
  rewrite build_quadidx_blocks by lia.
  rewrite (quadruple_concat (Z.to_nat (qpf d))).
  - rewrite (nth_indep _ _ (face_block d 0))
      by (rewrite length_map, length_seq; exact Hf).
    rewrite (map_nth (face_block d) (seq 0 6) 0%nat f).
    rewrite seq_nth by exact Hf. simpl Nat.add.
    apply quadruple_face_block; assumption.
  - apply Forall_map, Forall_forall. intros g _.
    rewrite length_face_block. unfold qpf. nia.
  - rewrite length_map, length_seq. exact Hf.
  - unfold qpf. nia.
Qed.

(** Decides the comparisons of corner indices met while filtering. *)
Ltac decide_eqb :=
  repeat match goal with
         | |- context [Z.eqb ?a ?b] =>
             first [ rewrite (proj2 (Z.eqb_eq a b)) by lia
                   | rewrite (proj2 (Z.eqb_neq a b)) by lia ]
         end.

Lemma NoDup_corners (x w : Z) :
  2 <= w -> NoDup [x; x + w; x + w + 1; x + 1].
Proof.
  intros Hw.
  repeat (apply NoDup_cons; [simpl; intros H; intuition lia|]).
  apply NoDup_nil.
Qed.

(** The claim as worded fails on the first cell of the front face at
    resolution 2: the line quadruple differs from the quad quadruple at
    one position only, so no two positions were overwritten. *)
Lemma C6_counterexample :
  let q := quadruple (build_quadidx 2) 0 in
  let l := quadruple (build_lineidx 2 (build_quadidx 2)) 0 in
  q = [0; 3; 4; 1] /\ l = [0; 3; 0; 1]
  /\ changed_positions q l = [2%nat]
  /\ ~ (exists i j : nat,
          i <> j /\ nth i l 0 <> nth i q 0 /\ nth j l 0 <> nth j q 0).
Proof.
  cbv zeta.
  assert (Hq : quadruple (build_quadidx 2) 0 = [0; 3; 4; 1])
    by reflexivity.
  assert (Hl : quadruple (build_lineidx 2 (build_quadidx 2)) 0
               = [0; 3; 0; 1]) by reflexivity.
  rewrite Hq, Hl.
  split; [reflexivity|]. split; [reflexivity|]. split; [reflexivity|].
  intros [i [j [Hij [Hi Hj]]]].
  destruct i as [|[|[|[|i]]]]; simpl in Hi; try congruence;
    destruct j as [|[|[|[|j]]]]; simpl in Hj; congruence.
Qed.

(** C6, amended: for every face and grid cell, the line quadruple is the
    quad quadruple the index builder emitted for the cell with one of the
    four positions overwritten by a copy of one other (front, top, right:
    corner 0 into position 2; left, back: corner 1 into position 3;
    bottom: corner 3 into position 1); the four corners being distinct,
    the two segments drawn are two different edges of the quad. *)
Theorem C6_line_quadruples (d : Z) (f r c : nat) :
  1 <= d <= max_divs ->
  (f < 6)%nat -> (r < Z.to_nat d)%nat -> (c < Z.to_nat d)%nat ->
  let n := (f * Z.to_nat (qpf d) + (r * Z.to_nat d + c))%nat in
  let q := quadruple (build_quadidx d) n in
  let l := quadruple (build_lineidx d (build_quadidx d)) n in
  length q = 4%nat /\ NoDup q
  /\ l = apply_selector (face_selector f) q
  /\ changed_positions q l = [overwritten_position f]
  /\ nth (overwritten_position f) l 0 = nth (copied_position f) q 0
  /\ length (edges_drawn q l) = 2%nat
  /\ forallb (fun s => existsb (same_edge s) (quad_edges q))
             (line_segments l) = true.
Proof.
  intros Hd Hf Hr Hc n q l.
  assert (Hl : l = apply_selector (face_selector f) q).
  { subst l q n. apply quadruple_build_lineidx; [exact Hf|].
    unfold qpf. nia. }
  assert (Hq : q = quadruple (build_quadidx d) n) by reflexivity.
  subst n. rewrite quadruple_build_quadidx in Hq by assumption.
  cbv zeta in Hq.
  set (x := Z.of_nat r * dp1 d + Z.of_nat c + Z.of_nat f * ppf d) in Hq.
  assert (Hw : 2 <= dp1 d) by (unfold dp1; lia).
  set (w := dp1 d) in *.
  clearbody q l x w. subst q l.
  split; [reflexivity|].
  split; [apply NoDup_corners; exact Hw|].
  split; [reflexivity|].
  destruct f as [|[|[|[|[|[|f]]]]]]; try lia;
    cbn [face_selector sel_front sel_top sel_left sel_back sel_bottom
         sel_right apply_selector line_of Nat.add nth
         overwritten_position copied_position];
    unfold changed_positions, edges_drawn, same_edge;
    cbn [filter nth quad_edges line_segments existsb forallb fst snd];
    decide_eqb; repeat split; reflexivity.
Qed.

Lemma C6_witness :
  1 <= 2 <= max_divs
  /\ quadruple (build_lineidx 2 (build_quadidx 2)) (4 * 4 + (1 * 2 + 1))
     = apply_selector sel_bottom
         (quadruple (build_quadidx 2) (4 * 4 + (1 * 2 + 1))).
Proof.
  assert (H : 1 <= 2 <= max_divs) by (unfold max_divs; lia).
  split; [exact H|].
  assert (H2 : (1 < Z.to_nat 2)%nat) by (simpl; lia).
  destruct (C6_line_quadruples 2 4 1 1 H ltac:(lia) H2 H2)
    as [_ [_ [Hl _]]].
  exact Hl.
Defined.

(** ** The projection mapper *)

Local Open Scope R_scope.

(** The seven coordinate pairs of a vertex, and the value of [s] each
    projection finds. *)
Lemma vertex_texcoords_fields (fovw ps0 ps1 ps2 s : R) :
  let xa := xa_of ps0 ps2 in
  let ya := ya_of ps1 in
  let za := za_of ps2 in
  let cya := cya_of ps0 ps2 in
  let sza := sza_of ps0 ps1 in
  let sx := sx_of ps0 ps1 in
  let sy := sy_of ps0 ps1 in
  let t := fst (vertex_texcoords fovw (ps0, ps1, ps2) s) in
  let s1 := snd (rect_tc fovw za sza ps2 sx sy s) in
  let s2 := snd (fish_tc xa ya za ps2 sx sy s1) in
  let pe0 := fst (equi_tc xa ya) in
  let s3 := snd (cyli_tc fovw xa ya ps1 cya pe0) in
  let s4 := snd (angl_tc xa ya za sx sy s3) in
  let s5 := snd (merc_tc ps1 cya pe0 s4) in
  tc_rect t = fst (rect_tc fovw za sza ps2 sx sy s)
  /\ tc_fish t = fst (fish_tc xa ya za ps2 sx sy s1)
  /\ tc_equi t = equi_tc xa ya
  /\ tc_cyli t = fst (cyli_tc fovw xa ya ps1 cya pe0)
  /\ tc_angl t = fst (angl_tc xa ya za sx sy s3)
  /\ tc_merc t = fst (merc_tc ps1 cya pe0 s4)
  /\ tc_ster t = fst (ster_tc za sx sy s5).
Proof.
  cbv zeta. unfold vertex_texcoords.
  destruct (rect_tc fovw (za_of ps2) (sza_of ps0 ps1) ps2
                    (sx_of ps0 ps1) (sy_of ps0 ps1) s) as [pr s1].
  cbn [fst snd].
  destruct (fish_tc (xa_of ps0 ps2) (ya_of ps1) (za_of ps2) ps2
                    (sx_of ps0 ps1) (sy_of ps0 ps1) s1) as [pf s2].
  cbn [fst snd].
  destruct (cyli_tc fovw (xa_of ps0 ps2) (ya_of ps1) ps1 (cya_of ps0 ps2)
                    (fst (equi_tc (xa_of ps0 ps2) (ya_of ps1))))
    as [pc s3].
  cbn [fst snd].
  destruct (angl_tc (xa_of ps0 ps2) (ya_of ps1) (za_of ps2)
                    (sx_of ps0 ps1) (sy_of ps0 ps1) s3) as [pa s4].
  cbn [fst snd].
  destruct (merc_tc ps1 (cya_of ps0 ps2)
                    (fst (equi_tc (xa_of ps0 ps2) (ya_of ps1))) s4)
    as [pm s5].
  cbn [fst snd].
  destruct (ster_tc (za_of ps2) (sx_of ps0 ps1) (sy_of ps0 ps1) s5)
    as [pt s6].
  cbn [fst snd tc_rect tc_fish tc_equi tc_cyli tc_angl tc_merc tc_ster].
  repeat split; reflexivity.
Qed.

(** *** Markers and clipping *)

Lemma marker_outside (v : R) :
  is_marker v -> (v < 0 \/ 1 < v) /\ -0.01 <= v <= 1.01.
Proof. unfold is_marker, ninv, pinv. intros [->| ->]; lra. Qed.

Lemma INVAL_marker (t : R) : is_marker (INVAL t).
Proof. unfold INVAL, is_marker. destruct (Rgt_dec t 0); auto. Qed.

Lemma INVAL_sign (t : R) :
  (t > 0 -> INVAL t = pinv) /\ (t <= 0 -> INVAL t = ninv).
Proof. unfold INVAL. destruct (Rgt_dec t 0); split; intros; lra || reflexivity. Qed.

Lemma CLIP_unit (v : R) : 0 <= v <= 1 -> CLIP v = v.
Proof.
  intros H. unfold CLIP, ninv, pinv.
  destruct (Rlt_dec v (-0.01)); [lra|].
  destruct (Rgt_dec v 1.01); [lra|reflexivity].
Qed.

Lemma CLIP_range (v : R) : ninv <= CLIP v <= pinv.
Proof.
  unfold CLIP, ninv, pinv.
  destruct (Rlt_dec v (-0.01)); [lra|].
  destruct (Rgt_dec v 1.01); lra.
Qed.

(** *** The direction [(sx, sy)] *)

Lemma abs_le_sqrt_sum (a b : R) :
  - sqrt (a * a + b * b) <= a <= sqrt (a * a + b * b).
Proof.
  assert (Hn : 0 <= a * a + b * b) by nra.
  pose proof (sqrt_pos (a * a + b * b)) as Hp.
  pose proof (sqrt_sqrt _ Hn) as Hs.
  set (S := sqrt (a * a + b * b)) in *.
  split; nra.
Qed.

Lemma ratio_bound (a S : R) : 0 < S -> - S <= a <= S -> -1 <= (- a) / S <= 1.
Proof.
  intros HS Ha.
  assert (Hi : 0 < / S) by (apply Rinv_0_lt_compat; exact HS).
  assert (H1 : S * / S = 1) by (apply Rinv_r; lra).
  unfold Rdiv. split; nra.
Qed.

Lemma sx_of_bound (ps0 ps1 : R) : -1 <= sx_of ps0 ps1 <= 1.
Proof.
  unfold sx_of, sza_of.
  destruct (Rge_dec (sqrt (ps0 * ps0 + ps1 * ps1)) 1.0e-4) as [H|H]; [|lra].
  apply ratio_bound; [lra|apply abs_le_sqrt_sum].
Qed.

Lemma sy_of_bound (ps0 ps1 : R) : -1 <= sy_of ps0 ps1 <= 1.
Proof.
  unfold sy_of, sza_of.
  destruct (Rge_dec (sqrt (ps0 * ps0 + ps1 * ps1)) 1.0e-4) as [H|H]; [|lra].
  apply ratio_bound; [lra|].
  rewrite (Rplus_comm (ps0 * ps0)). apply abs_le_sqrt_sum.
Qed.

Lemma sx_of_0 (ps1 : R) : sx_of 0 ps1 = 0.
Proof.
  unfold sx_of. destruct (Rge_dec (sza_of 0 ps1) 1.0e-4); [|reflexivity].
  unfold Rdiv. rewrite Ropp_0. apply Rmult_0_l.
Qed.

Lemma unit_z_range (ps0 ps1 ps2 : R) :
  unit_vec (ps0, ps1, ps2) -> -1 <= ps2 <= 1.
Proof. unfold unit_vec, dotp. intros H. split; nra. Qed.

Lemma centred_unit (s d : R) :
  0 <= s <= 0.5 -> -1 <= d <= 1 -> 0 <= 0.5 + s * d <= 1.
Proof. intros Hs Hd. split; nra. Qed.

(** *** Field-of-view limits *)

Lemma amaxfish_PI : amaxfish = PI.
Proof. unfold amaxfish, DEG2RAD, Pi. lra. Qed.

Lemma amaxsph_PI : amaxsph = PI.
Proof. unfold amaxsph, DEG2RAD, Pi. lra. Qed.

Lemma fish_scale_bound (ps2 : R) :
  -1 <= ps2 <= 1 -> 0 <= 0.5 * sqrt (0.5 * (1 - ps2)) <= 0.5.
Proof.
  intros H.
  pose proof (sqrt_pos (0.5 * (1 - ps2))) as Hp.
  assert (Hle : sqrt (0.5 * (1 - ps2)) <= sqrt 1)
    by (apply sqrt_le_1_alt; lra).
  rewrite sqrt_1 in Hle. lra.
Qed.

Lemma angl_scale_bound (za : R) :
  0 <= za <= PI -> 0 <= 0.5 * za / Pi <= 0.5.
Proof.
  intros H. unfold Pi.
  pose proof PI_RGT_0 as HP.
  assert (Hi : 0 < / PI) by (apply Rinv_0_lt_compat; lra).
  assert (H1 : PI * / PI = 1) by (apply Rinv_r; lra).
  unfold Rdiv. split; nra.
Qed.

(** *** Fisheye and equiangular *)

(** Rounding does not move the limit: in binary64, [DEG2RAD( 180 )] is
    the double nearest to PI, the largest angle [acos] returns. *)
Lemma amaxfish_binary64 :
  PrimFloat.eqb Binary64.amaxfish64 Binary64.Pi64 = true.
Proof. reflexivity. Qed.

(** For a unit vertex neither out-of-range branch is taken, and the
    fisheye and equiangular coordinates lie in [0, 1]. *)
Lemma fisheye_equiangular_unit (fovw ps0 ps1 ps2 s : R) :
  unit_vec (ps0, ps1, ps2) ->
  let za := za_of ps2 in
  let sx := sx_of ps0 ps1 in
  let sy := sy_of ps0 ps1 in
  let t := fst (vertex_texcoords fovw (ps0, ps1, ps2) s) in
  let sf := 0.5 * sqrt (0.5 * (1 - ps2)) in
  let sa := 0.5 * za / Pi in
  0 <= za <= PI
  /\ amaxfish = PI /\ amaxsph = PI
  /\ ~ za > amaxfish /\ ~ za > amaxsph
  /\ tc_fish t = (0.5 + sf * sx, 0.5 + sf * sy)
  /\ tc_angl t = (0.5 + sa * sx, 0.5 + sa * sy)
  /\ 0 <= fst (tc_fish t) <= 1 /\ 0 <= snd (tc_fish t) <= 1
  /\ 0 <= fst (tc_angl t) <= 1 /\ 0 <= snd (tc_angl t) <= 1.
Proof.
  intros Hunit za sx sy t sf sa.
  pose proof (unit_z_range _ _ _ Hunit) as Hz.
  pose proof (acos_bound ps2) as Hza. fold (za_of ps2) in Hza. fold za in Hza.
  pose proof (sx_of_bound ps0 ps1) as Hsx. fold sx in Hsx.
  pose proof (sy_of_bound ps0 ps1) as Hsy. fold sy in Hsy.
  pose proof (fish_scale_bound ps2 Hz) as Hsf. fold sf in Hsf.
  pose proof (angl_scale_bound za Hza) as Hsa. fold sa in Hsa.
  pose proof (centred_unit sf sx Hsf Hsx) as Hfx.
  pose proof (centred_unit sf sy Hsf Hsy) as Hfy.
  pose proof (centred_unit sa sx Hsa Hsx) as Hax.
  pose proof (centred_unit sa sy Hsa Hsy) as Hay.
  assert (Hnf : ~ za > amaxfish) by (rewrite amaxfish_PI; lra).
  assert (Hna : ~ za > amaxsph) by (rewrite amaxsph_PI; lra).
  destruct (vertex_texcoords_fields fovw ps0 ps1 ps2 s)
    as [_ [Hfish [_ [_ [Hangl _]]]]].
  fold t in Hfish, Hangl.
  assert (Ef : tc_fish t = (0.5 + sf * sx, 0.5 + sf * sy)).
  { rewrite Hfish. unfold fish_tc. fold za.
    destruct (Rgt_dec za amaxfish) as [H|_]; [contradiction|].
    cbn [fst]. fold sx sy sf. rewrite !CLIP_unit by assumption.
    reflexivity. }
  assert (Ea : tc_angl t = (0.5 + sa * sx, 0.5 + sa * sy)).
  { rewrite Hangl. unfold angl_tc. fold za.
    destruct (Rgt_dec za amaxsph) as [H|_]; [contradiction|].
    cbn [fst]. fold sx sy sa. rewrite !CLIP_unit by assumption.
    reflexivity. }
  split; [exact Hza|].
  split; [apply amaxfish_PI|]. split; [apply amaxsph_PI|].
  split; [exact Hnf|]. split; [exact Hna|].
  split; [exact Ef|]. split; [exact Ea|].
  rewrite Ef, Ea. cbn [fst snd]. tauto.
Qed.

(** C10: for every vertex the generator produces, za = acos(z) lies in
    [0, PI] and both limits equal PI, so neither out-of-range branch is
    taken: the fisheye and equiangular coordinates are the valid-branch
    formulas, and they lie in [0, 1]. *)
Theorem C10_fisheye_equiangular_valid (d : Z) (fovw ps0 ps1 ps2 s : R) :
  valid_divs d -> In (ps0, ps1, ps2) (base_verts d) ->
  let za := za_of ps2 in
  let sx := sx_of ps0 ps1 in
  let sy := sy_of ps0 ps1 in
  let t := fst (vertex_texcoords fovw (ps0, ps1, ps2) s) in
  let sf := 0.5 * sqrt (0.5 * (1 - ps2)) in
  let sa := 0.5 * za / Pi in
  0 <= za <= PI
  /\ amaxfish = PI /\ amaxsph = PI
  /\ ~ za > amaxfish /\ ~ za > amaxsph
  /\ tc_fish t = (0.5 + sf * sx, 0.5 + sf * sy)
  /\ tc_angl t = (0.5 + sa * sx, 0.5 + sa * sy)
  /\ 0 <= fst (tc_fish t) <= 1 /\ 0 <= snd (tc_fish t) <= 1
  /\ 0 <= fst (tc_angl t) <= 1 /\ 0 <= snd (tc_angl t) <= 1.
Proof.
  intros Hv Hin. apply fisheye_equiangular_unit.
  pose proof (base_verts_unit d (valid_divs_pos d Hv)) as HF.
  rewrite Forall_forall in HF. apply HF. exact Hin.
Qed.

Lemma C10_witness :
  valid_divs 2 /\ In (0, 1, 0) (base_verts 2)
  /\ 0 <= fst (tc_fish (fst (vertex_texcoords 60 (0, 1, 0) 0))) <= 1.
Proof.
  assert (Hv : valid_divs 2).
  { split; [right; split; [lia|exists 1%Z; reflexivity]|].
    unfold max_divs. lia. }
  assert (Hin : In (0, 1, 0) (base_verts 2)).
  { destruct mesh_vertices_2 as [_ [<- _]]. unfold vnth. apply nth_In.
    pose proof (length_base_verts 2 ltac:(lia)) as HL.
    change (base_vertices 2) with 54%Z in HL. lia. }
  split; [exact Hv|]. split; [exact Hin|].
  destruct (C10_fisheye_equiangular_valid 2 60 0 1 0 0 Hv Hin)
    as [_ [_ [_ [_ [_ [_ [_ [Hf _]]]]]]]].
  exact Hf.
Defined.

(** *** Rectilinear *)

Lemma za_quarter : za_of (1 / sqrt 2) = PI / 4.
Proof.
  unfold za_of. rewrite <- cos_PI4. apply acos_cos.
  pose proof PI_RGT_0. lra.
Qed.

(** The claim as worded fails on vertex 1 of the mesh at resolution 2,
    (0, 1/sqrt 2, 1/sqrt 2), the middle of the front face's top edge, with
    a catalog field of view of 60 degrees: its off-axis angle PI/4 exceeds
    the half field of view PI/6, yet its first rectilinear coordinate is
    0.5, not a marker. *)
Lemma C4_counterexample :
  let v := vnth (base_verts 2) 1 in
  let t := fst (vertex_texcoords 60 v 0) in
  v = (0, 1 / sqrt 2, 1 / sqrt 2)
  /\ za_of (1 / sqrt 2) = PI / 4
  /\ amaxrect 60 = PI / 6
  /\ za_of (1 / sqrt 2) > amaxrect 60
  /\ fst (tc_rect t) = 0.5
  /\ ~ is_marker (fst (tc_rect t)).
Proof.
  intros v t. pose proof PI_RGT_0 as HP.
  assert (Ev : v = (0, 1 / sqrt 2, 1 / sqrt 2)) by apply mesh_vertices_2.
  assert (Ha : amaxrect 60 = PI / 6)
    by (unfold amaxrect, DEG2RAD, Pi; lra).
  assert (Hx : fst (tc_rect t) = 0.5).
  { subst t. rewrite Ev.
    destruct (vertex_texcoords_fields 60 0 (1 / sqrt 2) (1 / sqrt 2) 0)
      as [Hr _].
    rewrite Hr. unfold rect_tc. rewrite za_quarter.
    destruct (Rgt_dec (PI / 4) (0.45 * Pi)) as [H|_];
      [unfold Pi in H; lra|].
    cbn [fst]. rewrite sx_of_0, Rmult_0_r, Rplus_0_r.
    apply CLIP_unit. lra. }
  split; [exact Ev|].
  split; [apply za_quarter|]. split; [exact Ha|].
  split; [rewrite za_quarter, Ha; lra|].
  split; [exact Hx|].
  rewrite Hx. unfold is_marker, ninv, pinv. lra.
Qed.

Lemma unit_sza (ps0 ps1 ps2 : R) :
  unit_vec (ps0, ps1, ps2) ->
  sza_of ps0 ps1 = sin (za_of ps2) /\ ps2 = cos (za_of ps2).
Proof.
  intros H. pose proof (unit_z_range _ _ _ H) as Hz.
  unfold unit_vec, dotp in H.
  unfold za_of, sza_of. rewrite sin_acos, cos_acos by exact Hz.
  split; [|reflexivity]. f_equal. unfold Rsqr. lra.
Qed.

(** C4, amended: the rectilinear valid region is za <= 0.45 PI (81
    degrees), whatever the catalog says: a vertex with za > 0.45 PI gets
    the out-of-range marker in both components, and a vertex with
    za <= 0.45 PI gets the clipped coordinates
    CLIP(0.5 + 0.5 (sin za / cos za) / tan(maxHalfFov) (sx, sy));
    for a unit vertex within a configured half field of view of at most
    0.45 PI nothing is clipped and the coordinates are
    0.5 + 0.5 (tan za / tan maxHalfFov) (sx, sy). *)
Theorem C4_rectilinear (fovw ps0 ps1 ps2 s : R) :
  unit_vec (ps0, ps1, ps2) ->
  let za := za_of ps2 in
  let sx := sx_of ps0 ps1 in
  let sy := sy_of ps0 ps1 in
  let t := fst (vertex_texcoords fovw (ps0, ps1, ps2) s) in
  let k := 0.5 * (sza_of ps0 ps1 / ps2) / tan (amaxrect fovw) in
  let m := 0.5 * (tan za / tan (amaxrect fovw)) in
  (za > 0.45 * PI ->
   tc_rect t = (INVAL sx, INVAL sy)
   /\ is_marker (fst (tc_rect t)) /\ is_marker (snd (tc_rect t)))
  /\ (za <= 0.45 * PI ->
      tc_rect t = (CLIP (0.5 + k * sx), CLIP (0.5 + k * sy)))
  /\ (0 < amaxrect fovw <= 0.45 * PI -> za <= amaxrect fovw ->
      tc_rect t = (0.5 + m * sx, 0.5 + m * sy)).
Proof.
  intros Hunit za sx sy t k m.
  destruct (vertex_texcoords_fields fovw ps0 ps1 ps2 s) as [Hr _].
  fold t za sx sy in Hr.
  assert (Hvalid : za <= 0.45 * PI ->
                   tc_rect t = (CLIP (0.5 + k * sx), CLIP (0.5 + k * sy))).
  { intros Hle. rewrite Hr. unfold rect_tc, tmaxrect, Pi.
    destruct (Rgt_dec za (0.45 * PI)) as [H|_]; [lra|]. reflexivity. }
  split; [|split].
  - intros Hgt. rewrite Hr. unfold rect_tc, Pi.
    destruct (Rgt_dec za (0.45 * PI)) as [_|H]; [|contradiction].
    cbn [fst snd]. split; [reflexivity|]. split; apply INVAL_marker.
  - exact Hvalid.
  - intros Hmax Hle. rewrite Hvalid by lra.
    pose proof PI_RGT_0 as HP.
    pose proof (acos_bound ps2) as Hza. fold (za_of ps2) in Hza.
    fold za in Hza.
    destruct (unit_sza _ _ _ Hunit) as [Hs Hc]. fold za in Hs, Hc.
    assert (Hk : k = m).
    { unfold k, m. rewrite Hs, Hc at 1. unfold tan, Rdiv. ring. }
    rewrite Hk.
    assert (Htm : 0 < tan (amaxrect fovw)) by (apply tan_gt_0; lra).
    assert (Htz : 0 <= tan za <= tan (amaxrect fovw)).
    { split.
      - destruct (Req_dec za 0) as [->|Hne]; [rewrite tan_0; lra|].
        left. apply tan_gt_0; lra.
      - destruct (Req_dec za (amaxrect fovw)) as [->|Hne]; [lra|].
        left. apply tan_increasing; lra. }
    assert (Hm : 0 <= m <= 0.5).
    { unfold m.
      assert (Hi : 0 < / tan (amaxrect fovw))
        by (apply Rinv_0_lt_compat; exact Htm).
      assert (H1 : tan (amaxrect fovw) * / tan (amaxrect fovw) = 1)
        by (apply Rinv_r; lra).
      unfold Rdiv. split; nra. }
    rewrite !CLIP_unit
      by (apply centred_unit;
          [exact Hm|apply sx_of_bound || apply sy_of_bound]).
    reflexivity.
Qed.

Lemma C4_witness :
  unit_vec (0, 1, 0)
  /\ za_of 0 > 0.45 * PI
  /\ is_marker (fst (tc_rect (fst (vertex_texcoords 60 (0, 1, 0) 0)))).
Proof.
  assert (H : unit_vec (0, 1, 0)) by (unfold unit_vec, dotp; lra).
  assert (Hz : za_of 0 > 0.45 * PI)
    by (unfold za_of; rewrite acos_0; pose proof PI_RGT_0; lra).
  split; [exact H|]. split; [exact Hz|].
  destruct (C4_rectilinear 60 0 1 0 0 H) as [Hm _].
  destruct (Hm Hz) as [_ [Hf _]]. exact Hf.
Defined.

(** *** Equirectangular and mercator *)

Lemma atan2_bound (y x : R) : - PI <= atan2 y x <= PI.
Proof.
  pose proof PI_RGT_0 as HP. unfold atan2.
  pose proof (atan_bound (y / x)) as Hb.
  destruct (Rgt_dec x 0) as [Hx|Hx]; [lra|].
  destruct (Rlt_dec x 0) as [Hx'|Hx'].
  - assert (Hi : / x < 0) by (apply Rinv_lt_0_compat; exact Hx').
    destruct (Rge_dec y 0) as [Hy|Hy].
    + assert (Hq : y / x <= 0) by (unfold Rdiv; nra).
      assert (Ha : atan (y / x) <= 0).
      { destruct (Req_dec (y / x) 0) as [->|Hne]; [rewrite atan_0; lra|].
        left. rewrite <- atan_0. apply atan_increasing. lra. }
      lra.
    + assert (Hq : 0 < y / x) by (unfold Rdiv; nra).
      assert (Ha : 0 < atan (y / x))
        by (rewrite <- atan_0; apply atan_increasing; exact Hq).
      lra.
  - destruct (Rgt_dec y 0); [lra|]. destruct (Rlt_dec y 0); lra.
Qed.

Lemma equi_s_unit (ps0 ps1 ps2 : R) :
  0 <= fst (equi_tc (xa_of ps0 ps2) (ya_of ps1)) <= 1.
Proof.
  pose proof PI_RGT_0 as HP. unfold equi_tc, xa_of, Pi. cbn [fst].
  pose proof (atan2_bound ps0 ps2) as Hb.
  assert (Hi : 0 < / PI) by (apply Rinv_0_lt_compat; lra).
  assert (H1 : PI * / PI = 1) by (apply Rinv_r; lra).
  assert (Hu : 0 <= 0.5 + 0.5 * - atan2 ps0 ps2 / PI <= 1)
    by (unfold Rdiv; split; nra).
  rewrite CLIP_unit by exact Hu. exact Hu.
Qed.

Lemma cminmerc_pos : 0 < cminmerc.
Proof.
  pose proof PI_RGT_0 as HP. unfold cminmerc, amaxmerc, DEG2RAD, Pi.
  apply cos_gt_0; lra.
Qed.

Lemma cya_pole : cya_of 0 0 = 0.
Proof. unfold cya_of. rewrite Rmult_0_l, Rplus_0_l. apply sqrt_0. Qed.

(** Beyond the mercator limit the second component is the marker chosen
    by the value the equiangular mapping left in [s], 0.5 za / Pi, and
    the first component is the equirectangular one. *)
Lemma merc_beyond (fovw ps0 ps1 ps2 s : R) :
  let t := fst (vertex_texcoords fovw (ps0, ps1, ps2) s) in
  Rabs (cya_of ps0 ps2) < cminmerc ->
  fst (tc_merc t) = fst (tc_equi t)
  /\ snd (tc_merc t) = INVAL (0.5 * za_of ps2 / Pi).
Proof.
  intros t Hb.
  destruct (vertex_texcoords_fields fovw ps0 ps1 ps2 s)
    as [_ [_ [He [_ [_ [Hm _]]]]]].
  fold t in He, Hm. rewrite Hm, He. unfold merc_tc.
  destruct (Rlt_dec (Rabs (cya_of ps0 ps2)) cminmerc) as [_|H];
    [|contradiction].
  cbn [fst snd]. split; [reflexivity|].
  unfold angl_tc.
  destruct (Rgt_dec (za_of ps2) amaxsph) as [H|_].
  - exfalso. rewrite amaxsph_PI in H.
    pose proof (acos_bound ps2) as Hz. unfold za_of in H. lra.
  - reflexivity.
Qed.

(** At both poles, vertices 13 and 40 of the mesh at resolution 2, the
    mercator marker is 1.01: its sign does not tell the top from the
    bottom. *)
Lemma merc_poles_same_marker :
  vnth (base_verts 2) 13 = (0, 1, 0)
  /\ vnth (base_verts 2) 40 = (0, -1, 0)
  /\ snd (tc_merc (fst (vertex_texcoords 60 (0, 1, 0) 0))) = pinv
  /\ snd (tc_merc (fst (vertex_texcoords 60 (0, -1, 0) 0))) = pinv.
Proof.
  pose proof cminmerc_pos as Hc. pose proof PI_RGT_0 as HP.
  assert (Hb : Rabs (cya_of 0 0) < cminmerc)
    by (rewrite cya_pole, Rabs_R0; exact Hc).
  assert (Hs : INVAL (0.5 * za_of 0 / Pi) = pinv).
  { apply INVAL_sign. unfold za_of, Pi. rewrite acos_0.
    assert (Hi : 0 < / PI) by (apply Rinv_0_lt_compat; lra).
    unfold Rdiv. nra. }
  split; [apply mesh_vertices_2|]. split; [apply mesh_vertices_2|].
  split.
  - destruct (merc_beyond 60 0 1 0 0 Hb) as [_ ->]. exact Hs.
  - destruct (merc_beyond 60 0 (-1) 0 0 Hb) as [_ ->]. exact Hs.
Qed.

(** The claim as worded fails for mercator on vertex 13 of the mesh at
    resolution 2, the top pole (0, 1, 0): it lies beyond the 80 degree
    latitude limit, yet its first mercator coordinate is the
    equirectangular one, inside [0, 1]. *)
Lemma C5_counterexample :
  let v := vnth (base_verts 2) 13 in
  let t := fst (vertex_texcoords 60 v 0) in
  v = (0, 1, 0)
  /\ Rabs (cya_of 0 0) < cminmerc
  /\ fst (tc_merc t) = fst (tc_equi t)
  /\ 0 <= fst (tc_merc t) <= 1
  /\ ~ (fst (tc_merc t) < 0 \/ 1 < fst (tc_merc t)).
Proof.
  intros v t. pose proof cminmerc_pos as Hc.
  assert (Ev : v = (0, 1, 0)) by apply mesh_vertices_2.
  assert (Hb : Rabs (cya_of 0 0) < cminmerc)
    by (rewrite cya_pole, Rabs_R0; exact Hc).
  subst t. rewrite Ev.
  destruct (merc_beyond 60 0 1 0 0 Hb) as [Hf _].
  assert (Hu : 0 <= fst (tc_merc (fst (vertex_texcoords 60 (0, 1, 0) 0)))
               <= 1).
  { rewrite Hf.
    destruct (vertex_texcoords_fields 60 0 1 0 0) as [_ [_ [He _]]].
    rewrite He. apply equi_s_unit. }
  split; [reflexivity|].
  split; [exact Hb|]. split; [exact Hf|]. split; [exact Hu|]. lra.
Qed.

(** C5, amended: a marker is -0.01 or 1.01, outside [0, 1] and within
    [-0.01, 1.01], and [INVAL] picks 1.01 exactly for a positive argument.
    A vertex in the out-of-range branch of the rectilinear (za > 0.45 PI),
    cylindrical (|ya - PI/2| > 80 degrees) or stereographic (za > 155
    degrees) mapping gets a marker in both components, signed by (sx, sy),
    (xa, ya - PI/2) and (sx, sy).  Beyond the mercator limit only the
    second component is a marker; the first stays the equirectangular
    one, inside [0, 1].  No vertex is beyond the fisheye or equiangular
    limit. *)
Theorem C5_out_of_range_markers (fovw ps0 ps1 ps2 s : R) :
  unit_vec (ps0, ps1, ps2) ->
  let xa := xa_of ps0 ps2 in
  let ya := ya_of ps1 in
  let za := za_of ps2 in
  let sx := sx_of ps0 ps1 in
  let sy := sy_of ps0 ps1 in
  let t := fst (vertex_texcoords fovw (ps0, ps1, ps2) s) in
  (forall v, is_marker v -> (v < 0 \/ 1 < v) /\ -0.01 <= v <= 1.01)
  /\ (forall q, is_marker (INVAL q)
                /\ (q > 0 -> INVAL q = 1.01) /\ (q <= 0 -> INVAL q = -0.01))
  /\ (za > 0.45 * PI -> tc_rect t = (INVAL sx, INVAL sy))
  /\ (Rabs (ya - 0.5 * PI) > amaxcyl ->
      tc_cyli t = (INVAL xa, INVAL (ya - 0.5 * PI)))
  /\ (za > amaxster -> tc_ster t = (INVAL sx, INVAL sy))
  /\ (Rabs (cya_of ps0 ps2) < cminmerc ->
      fst (tc_merc t) = fst (tc_equi t)
      /\ 0 <= fst (tc_merc t) <= 1
      /\ is_marker (snd (tc_merc t)))
  /\ ~ za > amaxfish /\ ~ za > amaxsph.
Proof.
  intros _ xa ya za sx sy t.
  destruct (vertex_texcoords_fields fovw ps0 ps1 ps2 s)
    as [Hr [_ [He [Hc [_ [_ Ht]]]]]].
  fold t xa ya za sx sy in Hr, He, Hc, Ht.
  pose proof (acos_bound ps2) as Hza. fold (za_of ps2) in Hza.
  fold za in Hza.
  split; [exact marker_outside|].
  split; [intros q; split; [apply INVAL_marker|apply INVAL_sign]|].
  split.
  { intros Hgt. rewrite Hr. unfold rect_tc, Pi.
    destruct (Rgt_dec za (0.45 * PI)) as [_|H]; [|contradiction].
    reflexivity. }
  split.
  { intros Hgt. rewrite Hc. unfold cyli_tc, Pi.
    destruct (Rgt_dec (Rabs (ya - 0.5 * PI)) amaxcyl) as [_|H];
      [|contradiction].
    reflexivity. }
  split.
  { intros Hgt. rewrite Ht. unfold ster_tc.
    destruct (Rgt_dec za amaxster) as [_|H]; [|contradiction].
    reflexivity. }
  split.
  { intros Hb. destruct (merc_beyond fovw ps0 ps1 ps2 s Hb) as [Hf Hs].
    fold t in Hf, Hs. split; [exact Hf|]. split.
    - rewrite Hf, He. apply equi_s_unit.
    - rewrite Hs. apply INVAL_marker. }
  rewrite amaxfish_PI, amaxsph_PI. split; lra.
Qed.

Lemma C5_witness :
  unit_vec (0, 1, 0)
  /\ Rabs (cya_of 0 0) < cminmerc
  /\ is_marker (snd (tc_merc (fst (vertex_texcoords 60 (0, 1, 0) 0)))).
Proof.
  assert (Hu : unit_vec (0, 1, 0)) by (unfold unit_vec, dotp; lra).
  assert (Hb : Rabs (cya_of 0 0) < cminmerc)
    by (rewrite cya_pole, Rabs_R0; exact cminmerc_pos).
  split; [exact Hu|]. split; [exact Hb|].
  destruct (C5_out_of_range_markers 60 0 1 0 0 Hu)
    as [_ [_ [_ [_ [_ [Hm _]]]]]].
  destruct (Hm Hb) as [_ [_ Hk]]. exact Hk.
Defined.

(** * Further properties of the code *)

(** ** The block layout seen through the accessors (quadsphere.h, 74-97) *)

Section Layout.
Local Open Scope Z_scope.

Lemma block_bytes_bound (d : Z) :
  1 <= d <= max_divs_bytes ->
  vertpnts d = 6 * ppf d + dups d
  /\ linewrds d = 24 * qpf d
  /\ 0 < vertpnts d
  /\ 0 < qpf d
  /\ 4 * (17 * vertpnts d + 48 * qpf d) < 4294967296.
Proof.
  unfold max_divs_bytes. intros H.
  assert (Hq : 0 < qpf d /\ qpf d <= 2674 * 2674) by (unfold qpf; nia).
  assert (Hp : 0 < ppf d /\ ppf d <= 2675 * 2675) by (unfold ppf, dp1; nia).
  assert (Hdup : 0 < dups d /\ dups d <= 2675 + 2674 + 4).
  { unfold dups, ntb, d2, dp1. lia. }
  unfold vertpnts, linewrds. rewrite !u32_small by lia. lia.
Qed.

(** X1: The sub-arrays tile the block in the order vertices, the
    [Nprojections] coordinate sets, line indices, quad indices: each one
    starts at the byte where the one before it ends, and the quad indices
    end at the last byte of the [nwords] words allocated. *)
Theorem layout_contiguous (d : Z) (picTypeIndex_name : list Byte.byte -> Z)
        (name : list Byte.byte) :
  1 <= d <= max_divs_bytes ->
  0 <= picTypeIndex_name name < Nprojections ->
  let i := picTypeIndex_name name in
  texCoordOffset_name d picTypeIndex_name name
  = vertexOffset + vertexBytes d + i * texCoordSize d
  /\ lineIndexOffset d
     = vertexOffset + vertexBytes d + Nprojections * texCoordSize d
  /\ lineIndexSize d = sizeof_uint * lineIndexCount d
  /\ quadIndexOffset d = lineIndexOffset d + lineIndexSize d
  /\ quadIndexSize d = sizeof_uint * quadIndexCount d
  /\ quadIndexOffset d + quadIndexSize d = sizeof_float * nwords d.
Proof.
  intros H Hi i.
  destruct (block_bytes_bound d H) as [Hv [Hl [Hvp [Hq Hb]]]].
  assert (Hw : linewrds d = 24 * qpf d) by exact Hl.
  unfold texCoordOffset_name, texCoords_name. fold i.
  unfold Nprojections in *.
  destruct (Z.ltb_spec i 0); [lia|].
  destruct (Z.geb_spec i 7); [lia|]. cbn [orb].
  unfold lineIndexOffset, quadIndexOffset, quadIndexSize, lineIndexSize,
    lineIndexCount, quadIndexCount, nwords, quadidx_off, lineidx_off,
    TCs_off, verts_off, vertexOffset, vertexBytes, texCoordSize, quadwrds,
    Nprojections, sizeof_float, sizeof_uint.
  rewrite !Hw.
  set (V := vertpnts d) in *. set (Q := qpf d) in *.
  assert (Hi' : 0 <= i * 2 * V <= 12 * V) by nia.
  rewrite (u32_small (3 * V)) by lia.
  rewrite (u32_small (i * 2 * V)) by lia.
  rewrite (u32_small (7 * 2 * V)) by lia.
  rewrite (u32_small (3 * V * 4)) by lia.
  rewrite (u32_small (2 * V * 4)) by lia.
  rewrite (u32_small (24 * Q * 4)) by lia.
  rewrite (u32_small ((3 + 2 * 7) * V + 24 * Q + 24 * Q)) by lia.
  rewrite !u32_small by lia.
  repeat split; lia.
Qed.

Lemma layout_contiguous_witness :
  1 <= 2 <= max_divs_bytes
  /\ 0 <= 3 < Nprojections
  /\ texCoordOffset_name 2 (fun _ => 3) [] = 0 + vertexBytes 2 + 3 * texCoordSize 2
  /\ quadIndexOffset 2 + quadIndexSize 2 = sizeof_float * nwords 2.
Proof.
  assert (H : 1 <= 2 <= max_divs_bytes) by (unfold max_divs_bytes; lia).
  assert (Hi : 0 <= (fun _ : list Byte.byte => 3) [] < Nprojections)
    by (unfold Nprojections; lia).
  split; [exact H|]. split; [exact Hi|].
  destruct (layout_contiguous 2 (fun _ => 3) [] H Hi)
    as [H1 [_ [_ [_ [_ H6]]]]].
  split; [exact H1|exact H6].
Defined.

End Layout.

(** ** Range of the texture coordinates (quadsphere.cpp, 355-452) *)

Lemma INVAL_range (t : R) : ninv <= INVAL t <= pinv.
Proof. unfold INVAL, ninv, pinv. destruct (Rgt_dec t 0); lra. Qed.

Lemma rect_tc_margin (fovw za sza cza sx sy s : R) :
  let p := fst (rect_tc fovw za sza cza sx sy s) in
  ninv <= fst p <= pinv /\ ninv <= snd p <= pinv.
Proof.
  unfold rect_tc. destruct (Rgt_dec za (0.45 * Pi)); cbn [fst snd];
    split; apply INVAL_range || apply CLIP_range.
Qed.

Lemma fish_tc_margin (xa ya za cza sx sy s : R) :
  let p := fst (fish_tc xa ya za cza sx sy s) in
  ninv <= fst p <= pinv /\ ninv <= snd p <= pinv.
Proof.
  unfold fish_tc. destruct (Rgt_dec za amaxfish); cbn [fst snd];
    split; apply INVAL_range || apply CLIP_range.
Qed.

Lemma equi_tc_margin (xa ya : R) :
  let p := equi_tc xa ya in
  ninv <= fst p <= pinv /\ ninv <= snd p <= pinv.
Proof. unfold equi_tc. cbn [fst snd]. split; apply CLIP_range. Qed.

Lemma cyli_tc_margin (fovw xa ya sya cya pe0 : R) :
  ninv <= pe0 <= pinv ->
  let p := fst (cyli_tc fovw xa ya sya cya pe0) in
  ninv <= fst p <= pinv /\ ninv <= snd p <= pinv.
Proof.
  intros H. unfold cyli_tc.
  destruct (Rgt_dec (Rabs (ya - 0.5 * Pi)) amaxcyl); cbn [fst snd];
    split; try exact H; apply INVAL_range || apply CLIP_range.
Qed.

Lemma angl_tc_margin (xa ya za sx sy s : R) :
  let p := fst (angl_tc xa ya za sx sy s) in
  ninv <= fst p <= pinv /\ ninv <= snd p <= pinv.
Proof.
  unfold angl_tc. destruct (Rgt_dec za amaxsph); cbn [fst snd];
    split; apply INVAL_range || apply CLIP_range.
Qed.

Lemma merc_tc_margin (sya cya pe0 s : R) :
  ninv <= pe0 <= pinv ->
  let p := fst (merc_tc sya cya pe0 s) in
  ninv <= fst p <= pinv /\ ninv <= snd p <= pinv.
Proof.
  intros H. unfold merc_tc.
  destruct (Rlt_dec (Rabs cya) cminmerc); cbn [fst snd];
    split; try exact H; apply INVAL_range || apply CLIP_range.
Qed.

Lemma ster_tc_margin (za sx sy s : R) :
  let p := fst (ster_tc za sx sy s) in
  ninv <= fst p <= pinv /\ ninv <= snd p <= pinv.
Proof.
  unfold ster_tc. destruct (Rgt_dec za amaxster); cbn [fst snd];
    split; apply INVAL_range || apply CLIP_range.
Qed.

(** X2: Whatever branch each projection takes, every one of the fourteen
    coordinates written for a vertex lies in [-0.01, 1.01]: a clipped
    value or one of the two markers.  (The vertex is a unit vector and
    the catalog's field of view lies strictly between 0 and 180 degrees,
    so that every <cmath> call has an argument in its domain.) *)
Theorem texcoords_within_margin (fovw ps0 ps1 ps2 s : R) :
  unit_vec (ps0, ps1, ps2) -> 0 < fovw < 180 ->
  let t := fst (vertex_texcoords fovw (ps0, ps1, ps2) s) in
  Forall (fun p : R * R =>
            -0.01 <= fst p <= 1.01 /\ -0.01 <= snd p <= 1.01)
         [ tc_rect t; tc_fish t; tc_equi t; tc_cyli t; tc_angl t;
           tc_merc t; tc_ster t ].
Proof.
  intros _ _ t.
  destruct (vertex_texcoords_fields fovw ps0 ps1 ps2 s)
    as [Hr [Hf [He [Hc [Ha [Hm Ht]]]]]].
  fold t in Hr, Hf, He, Hc, Ha, Hm, Ht.
  rewrite Hr, Hf, He, Hc, Ha, Hm, Ht.
  pose proof (equi_tc_margin (xa_of ps0 ps2) (ya_of ps1)) as [E _].
  change ninv with (-0.01) in *. change pinv with 1.01 in *.
  repeat (apply Forall_cons; [|]); try apply Forall_nil.
  - apply rect_tc_margin.
  - apply fish_tc_margin.
  - apply equi_tc_margin.
  - apply cyli_tc_margin. exact E.
  - apply angl_tc_margin.
  - apply merc_tc_margin. exact E.
  - apply ster_tc_margin.
Qed.

Lemma texcoords_within_margin_witness :
  unit_vec (0, 1, 0) /\ 0 < 60 < 180
  /\ -0.01 <= snd (tc_ster (fst (vertex_texcoords 60 (0, 1, 0) 0))) <= 1.01.
Proof.
  assert (Hu : unit_vec (0, 1, 0)) by (unfold unit_vec, dotp; lra).
  assert (Hf : 0 < 60 < 180) by lra.
  split; [exact Hu|]. split; [exact Hf|].
  pose proof (texcoords_within_margin 60 0 1 0 0 Hu Hf) as H.
  cbv zeta in H.
  do 6 (apply Forall_inv_tail in H). apply Forall_inv in H.
  apply H.
Defined.

(** ** Equirectangular coordinates (quadsphere.cpp, 405-407) *)

(** X3: The equirectangular mapping has no out-of-range branch and its clip
    never acts: for every unit vertex the pair is
    (0.5 + 0.5 xa / Pi, ya / Pi), inside the unit square. *)
Theorem equirect_unclipped (fovw ps0 ps1 ps2 s : R) :
  unit_vec (ps0, ps1, ps2) ->
  let t := fst (vertex_texcoords fovw (ps0, ps1, ps2) s) in
  tc_equi t = (0.5 + 0.5 * xa_of ps0 ps2 / PI, ya_of ps1 / PI)
  /\ 0 <= fst (tc_equi t) <= 1 /\ 0 <= snd (tc_equi t) <= 1.
Proof.
  intros _ t. pose proof PI_RGT_0 as HP.
  destruct (vertex_texcoords_fields fovw ps0 ps1 ps2 s)
    as [_ [_ [He _]]].
  fold t in He. rewrite He. unfold equi_tc, Pi.
  assert (Hi : 0 < / PI) by (apply Rinv_0_lt_compat; lra).
  assert (H1 : PI * / PI = 1) by (apply Rinv_r; lra).
  pose proof (atan2_bound ps0 ps2) as Hb.
  pose proof (acos_bound ps1) as Hy.
  assert (Hs : 0 <= 0.5 + 0.5 * xa_of ps0 ps2 / PI <= 1)
    by (unfold xa_of, Rdiv; split; nra).
  assert (Ht : 0 <= ya_of ps1 / PI <= 1)
    by (unfold ya_of, Rdiv; split; nra).
  rewrite !CLIP_unit by assumption. cbn [fst snd].
  split; [reflexivity|]. split; assumption.
Qed.

Lemma equirect_unclipped_witness :
  unit_vec (0, 0, 1)
  /\ 0 <= fst (tc_equi (fst (vertex_texcoords 60 (0, 0, 1) 0))) <= 1.
Proof.
  assert (Hu : unit_vec (0, 0, 1)) by (unfold unit_vec, dotp; lra).
  split; [exact Hu|].
  destruct (equirect_unclipped 60 0 0 1 0 Hu) as [_ [H _]]. exact H.
Defined.

(** ** Vertices on the view axis (quadsphere.cpp, 376-445) *)

Lemma cos_81_degrees : cos (0.45 * PI) < 0.2.
Proof.
  pose proof PI_RGT_0 as HP. pose proof PI_4 as H4.
  replace (0.45 * PI) with (PI / 2 - 0.05 * PI) by lra.
  rewrite cos_shift.
  assert (H : sin (0.05 * PI) < 0.05 * PI) by (apply sin_lt_x; lra).
  lra.
Qed.

Lemma inv_sqrt2_bound : 0 < 1 / sqrt 2 < 0.71.
Proof.
  assert (H2 : 0 <= 2) by lra.
  pose proof (sqrt_sqrt 2 H2) as Hs.
  assert (Hp : 0 < sqrt 2) by (apply sqrt_lt_R0; lra).
  assert (Hi : 0 < / sqrt 2) by (apply Rinv_0_lt_compat; exact Hp).
  assert (H1 : sqrt 2 * / sqrt 2 = 1) by (apply Rinv_r; lra).
  unfold Rdiv. rewrite Rmult_1_l. split; [exact Hi|].
  set (q := / sqrt 2) in *. set (r := sqrt 2) in *.
  destruct (Rlt_dec q 0.71) as [H|H]; [exact H|exfalso].
  assert (Hq : 0.71 <= q) by lra.
  assert (Hr : 1.41 < r) by nra.
  nra.
Qed.

Lemma cos_155_degrees : -0.99 < cos (DEG2RAD 155).
Proof.
  pose proof PI_RGT_0 as HP. unfold DEG2RAD, Pi.
  replace (155 * PI / 180.0) with (- (25 * PI / 180) + PI) by lra.
  rewrite neg_cos, cos_neg.
  set (y := 25 * PI / 180).
  assert (Hy : 0 <= cos y) by (apply cos_ge_0; unfold y; lra).
  assert (H2 : cos (2 * y) < cos (PI / 4))
    by (apply cos_decreasing_1; unfold y; lra).
  rewrite cos_PI4 in H2. rewrite cos_2a_cos in H2.
  pose proof inv_sqrt2_bound as Hq.
  destruct (Rlt_dec (cos y) 0.99) as [H|H]; [lra|exfalso].
  assert (Hc : 0.99 <= cos y) by lra.
  nra.
Qed.

Lemma near_axis_z (ps0 ps1 ps2 : R) :
  unit_vec (ps0, ps1, ps2) -> sza_of ps0 ps1 < 1.0e-4 ->
  (0 < ps2 -> 0.99 < ps2) /\ (ps2 < 0 -> ps2 < -0.99).
Proof.
  unfold unit_vec, dotp, sza_of. intros Hu Hs.
  assert (Hn : 0 <= ps0 * ps0 + ps1 * ps1) by nra.
  pose proof (sqrt_sqrt _ Hn) as Hq.
  pose proof (sqrt_pos (ps0 * ps0 + ps1 * ps1)) as Hp.
  set (r := sqrt (ps0 * ps0 + ps1 * ps1)) in *.
  assert (Hr : r * r < 0.01) by nra.
  split; intros Hz.
  - destruct (Rlt_dec 0.99 ps2) as [H|H]; [exact H|exfalso]. nra.
  - destruct (Rlt_dec ps2 (-0.99)) as [H|H]; [exact H|exfalso]. nra.
Qed.

Lemma CLIP_half_plus_zero (k : R) : CLIP (0.5 + k * 0) = 0.5.
Proof. rewrite Rmult_0_r, Rplus_0_r. apply CLIP_unit. lra. Qed.

Lemma INVAL_zero : INVAL 0 = ninv.
Proof. apply INVAL_sign. lra. Qed.

(** X4: A vertex closer than 1.0e-4 to the view axis has no radial direction:
    [sx] and [sy] stay 0.  Fisheye and equiangular then give the image
    centre (0.5, 0.5) for the forward and for the backward direction
    alike; rectilinear and stereographic give the centre in front and the
    low marker in both components behind. *)
Theorem on_axis_centre (fovw ps0 ps1 ps2 s : R) :
  unit_vec (ps0, ps1, ps2) -> 0 < fovw < 180 ->
  sza_of ps0 ps1 < 1.0e-4 ->
  let t := fst (vertex_texcoords fovw (ps0, ps1, ps2) s) in
  tc_fish t = (0.5, 0.5) /\ tc_angl t = (0.5, 0.5)
  /\ (0 < ps2 -> tc_rect t = (0.5, 0.5) /\ tc_ster t = (0.5, 0.5))
  /\ (ps2 < 0 -> tc_rect t = (-0.01, -0.01) /\ tc_ster t = (-0.01, -0.01)).
Proof.
  intros Hu _ Hs t. pose proof PI_RGT_0 as HP.
  destruct (vertex_texcoords_fields fovw ps0 ps1 ps2 s)
    as [Hr [Hf [_ [_ [Ha [_ Ht]]]]]].
  fold t in Hr, Hf, Ha, Ht. rewrite Hr, Hf, Ha, Ht.
  assert (Hsx : sx_of ps0 ps1 = 0).
  { unfold sx_of. destruct (Rge_dec (sza_of ps0 ps1) 1.0e-4); [lra|reflexivity]. }
  assert (Hsy : sy_of ps0 ps1 = 0).
  { unfold sy_of. destruct (Rge_dec (sza_of ps0 ps1) 1.0e-4); [lra|reflexivity]. }
  rewrite Hsx, Hsy.
  pose proof (acos_bound ps2) as Hz. fold (za_of ps2) in Hz.
  destruct (unit_sza _ _ _ Hu) as [_ Hcos].
  destruct (near_axis_z _ _ _ Hu Hs) as [Hfront Hback].
  assert (H81 : 0.45 * PI < DEG2RAD 155) by (unfold DEG2RAD, Pi; lra).
  assert (H155 : DEG2RAD 155 < PI) by (unfold DEG2RAD, Pi; lra).
  split; [|split; [|split]].
  - unfold fish_tc. rewrite amaxfish_PI.
    destruct (Rgt_dec (za_of ps2) PI); [lra|].
    cbn [fst]. rewrite !CLIP_half_plus_zero. reflexivity.
  - unfold angl_tc. rewrite amaxsph_PI.
    destruct (Rgt_dec (za_of ps2) PI); [lra|].
    cbn [fst]. rewrite !CLIP_half_plus_zero. reflexivity.
  - intros Hpos. specialize (Hfront Hpos).
    assert (Hza : za_of ps2 <= 0.45 * PI).
    { destruct (Rle_dec (za_of ps2) (0.45 * PI)) as [H|H]; [exact H|exfalso].
      assert (Hlt : cos (za_of ps2) < cos (0.45 * PI))
        by (apply cos_decreasing_1; lra).
      pose proof cos_81_degrees. lra. }
    unfold rect_tc, ster_tc, amaxster, Pi.
    destruct (Rgt_dec (za_of ps2) (0.45 * PI)); [lra|].
    destruct (Rgt_dec (za_of ps2) (DEG2RAD 155)); [lra|].
    cbn [fst]. rewrite !CLIP_half_plus_zero. split; reflexivity.
  - intros Hneg. specialize (Hback Hneg).
    assert (Hza : DEG2RAD 155 < za_of ps2).
    { destruct (Rlt_dec (DEG2RAD 155) (za_of ps2)) as [H|H];
        [exact H|exfalso].
      assert (Hle : cos (DEG2RAD 155) <= cos (za_of ps2))
        by (apply cos_decr_1; lra).
      pose proof cos_155_degrees. lra. }
    unfold rect_tc, ster_tc, amaxster, Pi.
    destruct (Rgt_dec (za_of ps2) (0.45 * PI)); [|lra].
    destruct (Rgt_dec (za_of ps2) (DEG2RAD 155)); [|lra].
    cbn [fst]. rewrite INVAL_zero. unfold ninv. split; reflexivity.
Qed.

Lemma on_axis_centre_witness :
  unit_vec (0, 0, -1) /\ 0 < 60 < 180 /\ sza_of 0 0 < 1.0e-4
  /\ tc_fish (fst (vertex_texcoords 60 (0, 0, -1) 0)) = (0.5, 0.5)
  /\ tc_rect (fst (vertex_texcoords 60 (0, 0, -1) 0)) = (-0.01, -0.01).
Proof.
  assert (Hu : unit_vec (0, 0, -1)) by (unfold unit_vec, dotp; lra).
  assert (Hf : 0 < 60 < 180) by lra.
  assert (Hs : sza_of 0 0 < 1.0e-4).
  { unfold sza_of. rewrite Rmult_0_l, Rplus_0_l, sqrt_0. lra. }
  split; [exact Hu|]. split; [exact Hf|]. split; [exact Hs|].
  destruct (on_axis_centre 60 0 0 (-1) 0 Hu Hf Hs) as [H1 [_ [_ H4]]].
  split; [exact H1|]. apply H4. lra.
Defined.

(** ** Mercator (quadsphere.cpp, 429-435) *)

Lemma tmaxmerc_pos :
  0 < sin amaxmerc /\ 0 < cminmerc <= 1
  /\ tan amaxmerc + 1.0 / cminmerc = (sin amaxmerc + 1) / cminmerc
  /\ 0 < tmaxmerc.
Proof.
  pose proof PI_RGT_0 as HP. pose proof cminmerc_pos as Hc.
  assert (Ha : 0 < amaxmerc < PI / 2)
    by (unfold amaxmerc, DEG2RAD, Pi; lra).
  assert (Hs : 0 < sin amaxmerc) by (apply sin_gt_0; lra).
  pose proof (COS_bound amaxmerc) as Hb. fold cminmerc in Hb.
  assert (Hi : 0 < / cminmerc) by (apply Rinv_0_lt_compat; exact Hc).
  assert (H1 : cminmerc * / cminmerc = 1) by (apply Rinv_r; lra).
  assert (He : tan amaxmerc + 1.0 / cminmerc
               = (sin amaxmerc + 1) / cminmerc).
  { unfold tan. fold cminmerc. unfold Rdiv. lra. }
  split; [exact Hs|]. split; [lra|]. split; [exact He|].
  unfold tmaxmerc. rewrite He. rewrite <- ln_1.
  apply ln_increasing; [lra|]. unfold Rdiv.
  set (i := / cminmerc) in *. nra.
Qed.

(** X5: Within the mercator limit the second coordinate is
    ln((sin + 1) / cos) / tmaxmerc with no offset: the equator maps to 0,
    a vertex above it into (0, 1], unclipped, and a vertex below it to a
    negative value, raised by the clip to no less than -0.01. *)
Theorem mercator_hemispheres (fovw ps0 ps1 ps2 s : R) :
  unit_vec (ps0, ps1, ps2) -> cminmerc <= cya_of ps0 ps2 ->
  let t := fst (vertex_texcoords fovw (ps0, ps1, ps2) s) in
  let m := snd (tc_merc t) in
  (ps1 = 0 -> m = 0)
  /\ (0 < ps1 ->
      m = ln ((ps1 + 1) / cya_of ps0 ps2) / tmaxmerc /\ 0 < m <= 1)
  /\ (ps1 < 0 -> -0.01 <= m < 0).
Proof.
  intros Hu Hc t m.
  destruct (vertex_texcoords_fields fovw ps0 ps1 ps2 s)
    as [_ [_ [_ [_ [_ [Hm _]]]]]].
  fold t in Hm. subst m. rewrite Hm. clear Hm.
  destruct tmaxmerc_pos as [Hsin [[Hcp Hc1] [HM HT]]].
  unfold unit_vec, dotp in Hu.
  assert (Hn : 0 <= ps0 * ps0 + ps2 * ps2) by nra.
  pose proof (sqrt_sqrt _ Hn) as Hq. fold (cya_of ps0 ps2) in Hq.
  set (c := cya_of ps0 ps2) in *.
  assert (Hcpos : 0 < c) by lra.
  unfold merc_tc.
  destruct (Rlt_dec (Rabs c) cminmerc) as [H|_].
  { exfalso. rewrite Rabs_pos_eq in H by lra. lra. }
  cbn [fst snd].
  assert (Hic : 0 < / c) by (apply Rinv_0_lt_compat; exact Hcpos).
  assert (H1 : c * / c = 1) by (apply Rinv_r; lra).
  assert (HiT : 0 < / tmaxmerc) by (apply Rinv_0_lt_compat; exact HT).
  assert (HT1 : tmaxmerc * / tmaxmerc = 1) by (apply Rinv_r; lra).
  assert (Hy : -1 < ps1) by nra.
  assert (Hu0 : 0 < (ps1 + 1) / c) by (unfold Rdiv; nra).
  split; [|split].
  - intros H0. subst ps1.
    assert (Hc1' : c = 1) by nra.
    rewrite Hc1'. replace ((0 + 1) / 1) with 1 by lra.
    rewrite ln_1. unfold Rdiv. rewrite Rmult_0_l. apply CLIP_unit. lra.
  - intros Hpos.
    assert (Hgt : 1 < (ps1 + 1) / c).
    { unfold Rdiv. set (i := / c) in *. nra. }
    assert (Hl0 : 0 < ln ((ps1 + 1) / c))
      by (rewrite <- ln_1; apply ln_increasing; lra).
    assert (Hle : ln ((ps1 + 1) / c) <= tmaxmerc).
    { unfold tmaxmerc. rewrite HM.
      pose proof (sin2_cos2 amaxmerc) as Hsc. unfold Rsqr in Hsc.
      fold cminmerc in Hsc.
      assert (Hps : ps1 <= sin amaxmerc) by nra.
      assert (Hia : 0 < / cminmerc) by (apply Rinv_0_lt_compat; exact Hcp).
      assert (Hinv : / c <= / cminmerc)
        by (apply Rinv_le_contravar; lra).
      assert (Hule : (ps1 + 1) / c <= (sin amaxmerc + 1) / cminmerc).
      { unfold Rdiv. set (i := / c) in *. set (j := / cminmerc) in *. nra. }
      destruct Hule as [Hlt|Heq].
      - left. apply ln_increasing; assumption.
      - rewrite Heq. right. reflexivity. }
    assert (Hr : 0 < ln ((ps1 + 1) / c) / tmaxmerc <= 1).
    { unfold Rdiv. set (l := ln ((ps1 + 1) * / c)) in *.
      unfold Rdiv in Hl0, Hle. fold l in Hl0, Hle.
      set (i := / tmaxmerc) in *. split; nra. }
    rewrite CLIP_unit by lra. split; [reflexivity|exact Hr].
  - intros Hneg.
    assert (Hlt : (ps1 + 1) / c < 1).
    { unfold Rdiv. set (i := / c) in *.
      assert (Hcc : ps1 + 1 < c) by nra. nra. }
    assert (Hl0 : ln ((ps1 + 1) / c) < 0)
      by (rewrite <- ln_1; apply ln_increasing; lra).
    assert (Hr : ln ((ps1 + 1) / c) / tmaxmerc < 0).
    { unfold Rdiv. set (l := ln ((ps1 + 1) * / c)) in *.
      unfold Rdiv in Hl0. fold l in Hl0.
      set (i := / tmaxmerc) in *. nra. }
    unfold CLIP, ninv, pinv.
    destruct (Rlt_dec (ln ((ps1 + 1) / c) / tmaxmerc) (-0.01)); [lra|].
    destruct (Rgt_dec (ln ((ps1 + 1) / c) / tmaxmerc) 1.01); lra.
Qed.

Lemma mercator_hemispheres_witness :
  unit_vec (1, 0, 0) /\ cminmerc <= cya_of 1 0
  /\ snd (tc_merc (fst (vertex_texcoords 60 (1, 0, 0) 0))) = 0.
Proof.
  assert (Hu : unit_vec (1, 0, 0)) by (unfold unit_vec, dotp; lra).
  assert (Hc : cminmerc <= cya_of 1 0).
  { unfold cya_of. rewrite Rmult_0_l, Rplus_0_r, Rmult_1_r, sqrt_1.
    unfold cminmerc. apply COS_bound. }
  split; [exact Hu|]. split; [exact Hc|].
  destruct (mercator_hemispheres 60 1 0 0 0 Hu Hc) as [H _].
  apply H. reflexivity.
Defined.

(** ** The stores of the seam repair (quadsphere.cpp, 538-566, 612, 635) *)

Section RepairWrites.
Local Open Scope Z_scope.

Lemma nth_upd_same (i : nat) (v : Z) (blk : list Z) :
  (i < length blk)%nat -> nth i (upd i v blk) 0 = v.
Proof.
  revert i. induction blk as [|h t IH]; intros i H.
  - simpl in H. lia.
  - destruct i; simpl in *; [reflexivity|apply IH; lia].
Qed.

Lemma nth_upd_other (i j : nat) (v : Z) (blk : list Z) :
  i <> j -> nth j (upd i v blk) 0 = nth j blk 0.
Proof.
  revert i j. induction blk as [|h t IH]; intros i j H.
  - destruct i; reflexivity.
  - destruct i, j; simpl; try reflexivity; try congruence.
    apply IH. congruence.
Qed.

Lemma apply_writes_app (ws1 ws2 : list (Z * Z)) (blk : list Z) :
  apply_writes (ws1 ++ ws2) blk = apply_writes ws2 (apply_writes ws1 blk).
Proof. unfold apply_writes. apply fold_left_app. Qed.

Lemma apply_writes_cons (w : Z * Z) (ws : list (Z * Z)) (blk : list Z) :
  apply_writes (w :: ws) blk
  = apply_writes ws (upd (Z.to_nat (fst w)) (snd w) blk).
Proof. reflexivity. Qed.

Lemma length_apply_writes (ws : list (Z * Z)) :
  forall blk, length (apply_writes ws blk) = length blk.
Proof.
  induction ws as [|w ws IH]; intros blk; [reflexivity|].
  rewrite apply_writes_cons, IH. apply length_upd.
Qed.

Lemma store_write (blk : list Z) (p v : Z) :
  0 <= p < Z.of_nat (length blk) ->
  store blk p v = Some (upd (Z.to_nat p) v blk).
Proof.
  intros H. unfold store.
  destruct (Z.leb_spec 0 p); [|lia].
  destruct (Z.ltb_spec p (Z.of_nat (length blk))); [|lia].
  reflexivity.
Qed.

(** A property of every stored pair and of every entry of the block
    holds of every entry afterwards. *)
Lemma apply_writes_inv (Q : Z -> Z -> Prop) (ws : list (Z * Z)) :
  Forall (fun w => 0 <= fst w /\ Q (fst w) (snd w)) ws ->
  forall blk,
    (forall p, 0 <= p < Z.of_nat (length blk) ->
               Q p (nth (Z.to_nat p) blk 0)) ->
    forall p, 0 <= p < Z.of_nat (length blk) ->
              Q p (nth (Z.to_nat p) (apply_writes ws blk) 0).
Proof.
  induction 1 as [|[q v] ws [Hq Hw] _ IH]; intros blk Hblk; [exact Hblk|].
  rewrite apply_writes_cons. cbn [fst snd] in *.
  intros p Hp.
  rewrite <- (length_upd (Z.to_nat q) v blk) in Hp.
  revert p Hp. apply IH. rewrite length_upd. intros p Hp.
  destruct (Z.eq_dec q p) as [E|E].
  - subst q. rewrite nth_upd_same by lia. exact Hw.
  - rewrite nth_upd_other by lia. apply Hblk. exact Hp.
Qed.

Section LoopWrites.
Variable d : Z.
Hypothesis d_pos : 1 <= d.

Lemma top_loop_writes (r : nat) :
  forall blk pq i,
    0 <= pq -> pq + 4 * d * Z.of_nat r <= Z.of_nat (length blk) ->
    0 <= i -> i + Z.of_nat r < 4294967296 ->
    top_loop r d (blk, pq, i)
    = Some (apply_writes (top_writes r d pq i) blk,
            pq + 4 * d * Z.of_nat r, i + Z.of_nat r).
Proof.
  induction r as [|r IH]; intros blk pq i Hpq Hlen Hi Hb.
  - simpl. f_equal. f_equal; [f_equal|]; lia.
  - rewrite Nat2Z.inj_succ in *. cbn [top_loop top_writes].
    rewrite store_write by nia. cbn [bind].
    rewrite (u32_small (i + 1)) by lia.
    rewrite store_write by (rewrite length_upd; nia). cbn [bind].
    rewrite IH by (rewrite ?length_upd; nia).
    rewrite !apply_writes_cons. cbn [fst snd].
    f_equal. f_equal; [f_equal|]; lia.
Qed.

Lemma back_loop_writes (r : nat) :
  forall blk pq i,
    0 <= pq -> pq + 4 * d * Z.of_nat r < Z.of_nat (length blk) ->
    0 <= i -> i + Z.of_nat r < 4294967296 ->
    back_loop r d (blk, pq, i)
    = Some (apply_writes (back_writes r d pq i) blk,
            pq + 4 * d * Z.of_nat r, i + Z.of_nat r).
Proof.
  induction r as [|r IH]; intros blk pq i Hpq Hlen Hi Hb.
  - simpl. f_equal. f_equal; [f_equal|]; lia.
  - rewrite Nat2Z.inj_succ in *. cbn [back_loop back_writes].
    rewrite store_write by nia. cbn [bind].
    rewrite store_write by (rewrite length_upd; nia). cbn [bind].
    rewrite (u32_small (i + 1)) by lia.
    rewrite IH by (rewrite ?length_upd; nia).
    rewrite !apply_writes_cons. cbn [fst snd].
    f_equal. f_equal; [f_equal|]; lia.
Qed.

Lemma bottom_loop_writes (r : nat) :
  forall blk pq i,
    0 <= pq -> pq + 4 * d * Z.of_nat r + 1 < Z.of_nat (length blk) ->
    0 <= i -> i + Z.of_nat r < 4294967296 ->
    bottom_loop r d (blk, pq, i)
    = Some (apply_writes (bottom_writes r d pq i) blk,
            pq + 4 * d * Z.of_nat r, i + Z.of_nat r).
Proof.
  induction r as [|r IH]; intros blk pq i Hpq Hlen Hi Hb.
  - simpl. f_equal. f_equal; [f_equal|]; lia.
  - rewrite Nat2Z.inj_succ in *. cbn [bottom_loop bottom_writes].
    rewrite store_write by nia. cbn [bind].
    rewrite (u32_small (i + 1)) by lia.
    rewrite store_write by (rewrite length_upd; nia). cbn [bind].
    rewrite IH by (rewrite ?length_upd; nia).
    rewrite !apply_writes_cons. cbn [fst snd].
    f_equal. f_equal; [f_equal|]; lia.
Qed.

(** The stores of the loops in closed form. *)
Lemma in_top_writes (r : nat) :
  forall pq i p v,
    In (p, v) (top_writes r d pq i) ->
    exists j, 0 <= j < Z.of_nat r
              /\ ((p = pq + 4 * d * j /\ v = i + j)
                  \/ (p = pq + 4 * d * j + 1 /\ v = i + j + 1)).
Proof.
  induction r as [|r IH]; intros pq i p v H; [destruct H|].
  rewrite Nat2Z.inj_succ. cbn [top_writes] in H.
  destruct H as [H|[H|H]].
  - apply pair_equal_spec in H; destruct H; subst p v. exists 0. split; [lia|]. left. split; lia.
  - apply pair_equal_spec in H; destruct H; subst p v. exists 0. split; [lia|]. right. split; lia.
  - destruct (IH _ _ _ _ H) as [j [Hj Hc]]. exists (j + 1).
    split; [lia|]. destruct Hc as [[-> ->]|[-> ->]]; [left|right];
      split; lia.
Qed.

Lemma in_back_writes (r : nat) :
  forall pq i p v,
    In (p, v) (back_writes r d pq i) ->
    exists j, 0 <= j < Z.of_nat r
              /\ ((p = pq + 4 * d * j + 1 /\ v = i + j)
                  \/ (p = pq + 4 * d * (j + 1) /\ v = i + j)).
Proof.
  induction r as [|r IH]; intros pq i p v H; [destruct H|].
  rewrite Nat2Z.inj_succ. cbn [back_writes] in H.
  destruct H as [H|[H|H]].
  - apply pair_equal_spec in H; destruct H; subst p v. exists 0. split; [lia|]. left. split; lia.
  - apply pair_equal_spec in H; destruct H; subst p v. exists 0. split; [lia|]. right. split; lia.
  - destruct (IH _ _ _ _ H) as [j [Hj Hc]]. exists (j + 1).
    split; [lia|]. destruct Hc as [[-> ->]|[-> ->]]; [left|right];
      split; lia.
Qed.

Lemma in_bottom_writes (r : nat) :
  forall pq i p v,
    In (p, v) (bottom_writes r d pq i) ->
    exists j, 0 <= j < Z.of_nat r
              /\ ((p = pq + 4 * d * (j + 1) /\ v = i + j)
                  \/ (p = pq + 4 * d * (j + 1) + 1 /\ v = i + j + 1)).
Proof.
  induction r as [|r IH]; intros pq i p v H; [destruct H|].
  rewrite Nat2Z.inj_succ. cbn [bottom_writes] in H.
  destruct H as [H|[H|H]].
  - apply pair_equal_spec in H; destruct H; subst p v. exists 0. split; [lia|]. left. split; lia.
  - apply pair_equal_spec in H; destruct H; subst p v. exists 0. split; [lia|]. right. split; lia.
  - destruct (IH _ _ _ _ H) as [j [Hj Hc]]. exists (j + 1).
    split; [lia|]. destruct Hc as [[-> ->]|[-> ->]]; [left|right];
      split; lia.
Qed.
End LoopWrites.

Section RepairExact.
Variable d : Z.
Hypothesis Hd : valid_divs d.

Lemma repair_top_exact (blk : list Z) :
  length blk = block_len d ->
  repair_top d blk = Some (apply_writes (repair_top_writes d) blk).
Proof.
  intros HL. unfold repair_top, repair_top_writes.
  rewrite (top_pq_val d Hd), (idt_val d Hd). seam_setup d Hd.
  rewrite (top_loop_writes d Hpos) by (rewrite ?HL; seam_nia).
  cbn [bind].
  rewrite store_write by (rewrite length_apply_writes, HL; seam_nia).
  rewrite apply_writes_app. reflexivity.
Qed.

Lemma repair_back_exact (blk : list Z) :
  length blk = block_len d ->
  repair_back d blk = Some (apply_writes (repair_back_writes d) blk).
Proof.
  intros HL. unfold repair_back, repair_back_writes.
  rewrite (back_pq_val d Hd), (idk_val d Hd). seam_setup d Hd.
  rewrite store_write by (rewrite HL; seam_nia). cbn [bind].
  rewrite (u32_small (6 * ppf d + d2 d + 1)) by seam_nia.
  rewrite (back_loop_writes d Hpos) by (rewrite ?length_upd, ?HL; seam_nia).
  cbn [bind].
  rewrite store_write
    by (rewrite length_apply_writes, length_upd, HL; seam_nia).
  rewrite apply_writes_cons, apply_writes_app. reflexivity.
Qed.

Lemma repair_bottom_exact (blk : list Z) :
  length blk = block_len d ->
  repair_bottom d blk = Some (apply_writes (repair_bottom_writes d) blk).
Proof.
  intros HL. unfold repair_bottom, repair_bottom_writes.
  rewrite (bottom_pq_val d Hd), (idb_val d Hd). seam_setup d Hd.
  rewrite store_write by (rewrite HL; seam_nia). cbn [bind].
  rewrite (bottom_loop_writes d Hpos)
    by (rewrite ?length_upd, ?HL; seam_nia).
  cbn [bind fst]. rewrite apply_writes_cons. reflexivity.
Qed.

Lemma repair_top_centre_exact (blk : list Z) :
  length blk = block_len d ->
  repair_top_centre d blk
  = Some (apply_writes (repair_top_centre_writes d) blk).
Proof.
  intros HL. unfold repair_top_centre, repair_top_centre_writes.
  rewrite (top_centre_pq_val d Hd), (idc_val d Hd). seam_setup d Hd.
  rewrite store_write by (rewrite HL; seam_nia). cbn [bind].
  rewrite (u32_small (6 * ppf d + 2 * d2 d + dp1 d + 1)) by seam_nia.
  rewrite store_write by (rewrite length_upd, HL; seam_nia).
  reflexivity.
Qed.

Lemma repair_bottom_centre_exact (blk : list Z) :
  length blk = block_len d ->
  repair_bottom_centre d blk
  = Some (apply_writes (repair_bottom_centre_writes d) blk).
Proof.
  intros HL. unfold repair_bottom_centre, repair_bottom_centre_writes.
  rewrite (bottom_centre_pq_val d Hd), (idc_val d Hd). seam_setup d Hd.
  rewrite (u32_small (6 * ppf d + 2 * d2 d + dp1 d + 2)) by seam_nia.
  rewrite (u32_small (6 * ppf d + 2 * d2 d + dp1 d + 3)) by seam_nia.
  rewrite store_write by (rewrite HL; seam_nia). cbn [bind].
  rewrite store_write by (rewrite length_upd, HL; seam_nia).
  reflexivity.
Qed.

(** The seam repair performs exactly the stores of [seam_writes], all of
    them inside the block. *)
Lemma seam_repair_exact (blk : list Z) :
  length blk = block_len d ->
  seam_repair d blk = Some (apply_writes (seam_writes d) blk).
Proof.
  intros HL. unfold seam_repair, seam_writes.
  rewrite repair_top_exact by exact HL. cbn [bind].
  rewrite repair_back_exact by (rewrite length_apply_writes; exact HL).
  cbn [bind].
  rewrite repair_bottom_exact by (rewrite !length_apply_writes; exact HL).
  cbn [bind].
  rewrite repair_top_centre_exact
    by (rewrite !length_apply_writes; exact HL).
  cbn [bind].
  rewrite repair_bottom_centre_exact
    by (rewrite !length_apply_writes; exact HL).
  rewrite !apply_writes_app. reflexivity.
Qed.
End RepairExact.

(** *** What the builder left at a quad corner *)

Lemma nth_quadruple (arr : list Z) (n k : nat) :
  (k < 4)%nat -> nth k (quadruple arr n) 0 = nth (4 * n + k) arr 0.
Proof.
  intros Hk. unfold quadruple. rewrite nth_firstn.
  destruct (Nat.ltb_spec k 4); [|lia]. apply nth_skipn.
Qed.

Lemma build_quadidx_entry (d f r c k : Z) :
  1 <= d <= max_divs ->
  0 <= f < 6 -> 0 <= r < d -> 0 <= c < d -> 0 <= k < 4 ->
  nth (Z.to_nat (4 * (f * qpf d + r * d + c) + k)) (build_quadidx d) 0
  = corner d (r * dp1 d + c + f * ppf d) k.
Proof.
  intros Hd Hf Hr Hc Hk.
  assert (Hq : Z.to_nat (qpf d) = (Z.to_nat d * Z.to_nat d)%nat)
    by (unfold qpf; apply Z2Nat.inj_mul; lia).
  replace (Z.to_nat (4 * (f * qpf d + r * d + c) + k))
    with (4 * (Z.to_nat f * Z.to_nat (qpf d)
               + (Z.to_nat r * Z.to_nat d + Z.to_nat c))
          + Z.to_nat k)%nat
    by (rewrite Hq; unfold qpf; nia).
  rewrite <- nth_quadruple by lia.
  rewrite quadruple_build_quadidx by (try exact Hd; lia).
  cbv zeta. rewrite !Z2Nat.id by lia. unfold corner.
  assert (Hk' : k = 0 \/ k = 1 \/ k = 2 \/ k = 3) by lia.
  destruct Hk' as [-> | [-> | [-> | ->]]]; reflexivity.
Qed.

Lemma index_builder_entry (d f r c k : Z) :
  1 <= d <= max_divs ->
  0 <= f < 6 -> 0 <= r < d -> 0 <= c < d -> 0 <= k < 4 ->
  nth (Z.to_nat (quad_slot d f r c k)) (index_builder d) 0
  = corner d (r * dp1 d + c + f * ppf d) k.
Proof.
  intros Hd Hf Hr Hc Hk. unfold index_builder, quad_slot.
  rewrite linewrds_exact by (unfold max_divs, max_divs_int in *; lia).
  assert (Hq : 0 < qpf d) by (unfold qpf; nia).
  assert (Hn : 0 <= f * qpf d + r * d + c) by nia.
  rewrite app_nth2; rewrite length_build_lineidx; [|fold (qpf d); lia].
  fold (qpf d).
  replace (Z.to_nat (24 * qpf d + 4 * (f * qpf d + r * d + c) + k)
           - 24 * Z.to_nat (qpf d))%nat
    with (Z.to_nat (4 * (f * qpf d + r * d + c) + k)) by lia.
  apply build_quadidx_entry; assumption.
Qed.

Lemma index_builder_line_part (d : Z) (p : Z) :
  1 <= d <= max_divs -> 0 <= p < linewrds d ->
  nth (Z.to_nat p) (index_builder d) 0
  = nth (Z.to_nat p) (build_lineidx d (build_quadidx d)) 0.
Proof.
  intros Hd Hp. unfold index_builder.
  rewrite linewrds_exact in Hp
    by (unfold max_divs, max_divs_int in *; lia).
  apply app_nth1. rewrite length_build_lineidx. fold (qpf d) in Hp. lia.
Qed.

(** *** The duplicates in the vertex array (quadsphere.cpp, 482-536, 582-588) *)

Lemma nth_zrange (n : Z) (k : nat) :
  (k < Z.to_nat n)%nat -> nth k (zrange n) 0 = Z.of_nat k.
Proof.
  intros H. unfold zrange. change 0 with (Z.of_nat 0).
  rewrite map_nth. rewrite seq_nth by exact H. reflexivity.
Qed.

Lemma vnth_seam_column (d : Z) (verts : list vec) (start n j : Z) :
  0 <= j < n ->
  vnth (seam_column d verts start n) j = vnth verts (start + j * dp1 d).
Proof.
  intros H. unfold vnth at 1. unfold seam_column.
  set (g := fun r => vnth verts (start + r * dp1 d)).
  rewrite (nth_indep _ _ (g 0)) by (rewrite length_map, length_zrange; lia).
  rewrite map_nth. rewrite nth_zrange by lia. unfold g.
  rewrite Z2Nat.id by lia. reflexivity.
Qed.

Lemma vnth_app_l (l1 l2 : list vec) (i : Z) :
  0 <= i < Z.of_nat (length l1) -> vnth (l1 ++ l2) i = vnth l1 i.
Proof. intros H. unfold vnth. apply app_nth1. lia. Qed.

Lemma vnth_app_r (l1 l2 : list vec) (i : Z) :
  Z.of_nat (length l1) <= i ->
  vnth (l1 ++ l2) i = vnth l2 (i - Z.of_nat (length l1)).
Proof.
  intros H. unfold vnth. rewrite app_nth2 by lia. f_equal. lia.
Qed.

Section Duplicates.
Variable d : Z.
Hypothesis Hd : valid_divs d.

Lemma vnth_base (i : Z) :
  0 <= i < 6 * ppf d -> vnth (vertices d) i = vnth (base_verts d) i.
Proof.
  intros H. unfold vertices. apply vnth_app_l.
  rewrite length_base_verts by (apply valid_divs_pos; exact Hd).
  exact H.
Qed.

Lemma vnth_duplicate (j : Z) :
  0 <= j ->
  vnth (vertices d) (6 * ppf d + j)
  = vnth (seam_vertices d (base_verts d)) j.
Proof.
  intros H. unfold vertices. rewrite vnth_app_r;
    rewrite length_base_verts by (apply valid_divs_pos; exact Hd);
    unfold base_vertices; [|lia].
  f_equal. lia.
Qed.

Lemma ntb_nonneg : 0 <= ntb d.
Proof.
  destruct (valid_divs_half d Hd) as [h [Hh Hc]].
  unfold ntb. rewrite Hh. lia.
Qed.

Lemma vnth_dup_top (j : Z) :
  0 <= j < ntb d ->
  vnth (vertices d) (6 * ppf d + j)
  = vnth (base_verts d) (ipt d + j * dp1 d).
Proof.
  intros H. rewrite vnth_duplicate by lia. unfold seam_vertices.
  rewrite vnth_app_l by (rewrite length_seam_column; lia).
  apply vnth_seam_column. exact H.
Qed.

Lemma vnth_dup_back (j : Z) :
  0 <= j < dp1 d ->
  vnth (vertices d) (6 * ppf d + ntb d + j)
  = vnth (base_verts d) (ipk d + j * dp1 d).
Proof.
  intros H. pose proof ntb_nonneg as Hn.
  rewrite <- Z.add_assoc. rewrite vnth_duplicate by lia.
  unfold seam_vertices.
  rewrite vnth_app_r by (rewrite length_seam_column; lia).
  rewrite length_seam_column.
  rewrite vnth_app_l by (rewrite length_seam_column; lia).
  replace (ntb d + j - Z.of_nat (Z.to_nat (ntb d))) with j by lia.
  apply vnth_seam_column. exact H.
Qed.

Lemma vnth_dup_bottom (j : Z) :
  0 <= j < ntb d ->
  vnth (vertices d) (6 * ppf d + ntb d + dp1 d + j)
  = vnth (base_verts d) (ipb d + j * dp1 d).
Proof.
  intros H. pose proof ntb_nonneg as Hn.
  pose proof (valid_divs_pos d Hd) as Hpos.
  assert (Hp : 0 <= dp1 d) by (unfold dp1; lia).
  replace (6 * ppf d + ntb d + dp1 d + j)
    with (6 * ppf d + (ntb d + dp1 d + j)) by lia.
  rewrite vnth_duplicate by lia. unfold seam_vertices.
  rewrite vnth_app_r by (rewrite length_seam_column; lia).
  rewrite length_seam_column.
  rewrite vnth_app_r by (rewrite length_seam_column; lia).
  rewrite length_seam_column.
  rewrite vnth_app_l by (rewrite length_seam_column; lia).
  replace (ntb d + dp1 d + j - Z.of_nat (Z.to_nat (ntb d))
           - Z.of_nat (Z.to_nat (dp1 d))) with j by lia.
  apply vnth_seam_column. exact H.
Qed.

Lemma vnth_dup_centre :
  let c0 := 6 * ppf d + ntb d + dp1 d + ntb d in
  let ic := u32 (ppf d + u32 ((dp1 d + 1) * d2 d)) in
  let id := u32 (4 * ppf d + u32 ((dp1 d + 1) * d2 d)) in
  vnth (vertices d) c0 = vnth (base_verts d) ic
  /\ vnth (vertices d) (c0 + 1) = vnth (base_verts d) ic
  /\ vnth (vertices d) (c0 + 2) = vnth (base_verts d) id
  /\ vnth (vertices d) (c0 + 3) = vnth (base_verts d) id.
Proof.
  intros c0 ic id. pose proof ntb_nonneg as Hn.
  pose proof (valid_divs_pos d Hd) as Hpos.
  assert (Hp : 0 <= dp1 d) by (unfold dp1; lia).
  assert (H : forall j, 0 <= j < 4 ->
            vnth (vertices d) (c0 + j)
            = vnth [vnth (base_verts d) ic; vnth (base_verts d) ic;
                    vnth (base_verts d) id; vnth (base_verts d) id] j).
  { intros j Hj. unfold c0.
    replace (6 * ppf d + ntb d + dp1 d + ntb d + j)
      with (6 * ppf d + (ntb d + dp1 d + ntb d + j)) by lia.
    rewrite vnth_duplicate by lia. unfold seam_vertices.
    rewrite vnth_app_r by (rewrite length_seam_column; lia).
    rewrite length_seam_column.
    rewrite vnth_app_r by (rewrite length_seam_column; lia).
    rewrite length_seam_column.
    rewrite vnth_app_r by (rewrite length_seam_column; lia).
    rewrite length_seam_column.
    f_equal. lia. }
  split; [rewrite <- (Z.add_0_r c0); apply (H 0); lia|].
  split; [apply (H 1); lia|].
  split; [apply (H 2); lia|apply (H 3); lia].
Qed.
End Duplicates.

(** *** Where the stores go and what they store *)

Lemma seam_points_val (d : Z) :
  valid_divs d ->
  ipt d = ppf d + d2 d
  /\ ipk d = 3 * ppf d + d2 d
  /\ ipb d = 4 * ppf d + (dp1 d - d2 d) * dp1 d + d2 d
  /\ u32 (ppf d + u32 ((dp1 d + 1) * d2 d)) = ppf d + (dp1 d + 1) * d2 d
  /\ u32 (4 * ppf d + u32 ((dp1 d + 1) * d2 d))
     = 4 * ppf d + (dp1 d + 1) * d2 d.
Proof.
  intros Hd. destruct (valid_divs_half d Hd) as [h [Hh Hc]].
  unfold ipt, ipk, ipb, ntb. rewrite !u32_add_idemp_r. rewrite Hh.
  unfold ppf, dp1.
  destruct Hc as [[-> ->]|[-> Hc]]; rewrite !u32_small by nia;
    repeat split; ring.
Qed.

Lemma corner_0 (d x : Z) : corner d x 0 = x.
Proof. reflexivity. Qed.

Lemma corner_1 (d x : Z) : corner d x 1 = x + dp1 d.
Proof. reflexivity. Qed.

Lemma corner_2 (d x : Z) : corner d x 2 = x + dp1 d + 1.
Proof. reflexivity. Qed.

Lemma corner_3 (d x : Z) : corner d x 3 = x + 1.
Proof. reflexivity. Qed.

(** The four corners of a cell are points of its face. *)
Lemma corner_range (d f r c k : Z) :
  1 <= d -> 0 <= f < 6 -> 0 <= r < d -> 0 <= c < d -> 0 <= k < 4 ->
  f * ppf d <= corner d (r * dp1 d + c + f * ppf d) k < (f + 1) * ppf d.
Proof.
  intros Hd Hf Hr Hc Hk.
  assert (Hk' : k = 0 \/ k = 1 \/ k = 2 \/ k = 3) by lia.
  assert (Hrc : 0 <= r * (d + 1) /\ r * (d + 1) <= (d - 1) * (d + 1)) by nia.
  destruct Hk' as [-> | [-> | [-> | ->]]];
    rewrite ?corner_0, ?corner_1, ?corner_2, ?corner_3;
    unfold ppf, dp1; nia.
Qed.

(** Closes a goal [vnth (vertices d) v = vnth (base_verts d) w] with an
    instance of one of the lemmas on duplicates. *)
Ltac vertex_eq E :=
  match type of E with
  | vnth _ ?a = vnth _ ?b =>
      match goal with
      | |- vnth (vertices _) ?v = vnth _ ?w =>
          replace v with a by ring; replace w with b by ring; exact E
      end
  end.

(** Settles the comparisons of a goal by linear arithmetic. *)
Ltac decide_cmp :=
  repeat match goal with
  | |- context [(?a =? ?b)] =>
      first [ replace (a =? b) with true by (symmetry; apply Z.eqb_eq; lia)
            | replace (a =? b) with false
                by (symmetry; apply Z.eqb_neq; lia) ]
  | |- context [(?a <? ?b)] =>
      first [ replace (a <? b) with true by (symmetry; apply Z.ltb_lt; lia)
            | replace (a <? b) with false
                by (symmetry; apply Z.ltb_ge; lia) ]
  | |- context [(?a <=? ?b)] =>
      first [ replace (a <=? b) with true by (symmetry; apply Z.leb_le; lia)
            | replace (a <=? b) with false
                by (symmetry; apply Z.leb_gt; lia) ]
  end.

(** Names the cell and the corner a store goes to. *)
Ltac cell F R C K V :=
  exists F, R, C, K; cbn [fst snd];
  split; [lia|]; split; [ring|]; split; [lia|];
  split;
  [ rewrite ?corner_0, ?corner_1, ?corner_2, ?corner_3; unfold dp1;
    let E := fresh "E" in
    (assert (E := V) || idtac);
    first [ vertex_eq E
          | (let E' := fresh "E" in
             match type of E with
             | ?A -> _ =>
                 assert (E' : A) by lia; specialize (E E'); vertex_eq E
             end) ]
  | unfold repaired;
    match goal with
    | It : idt _ = _, Ik : idk _ = _, Ib : idb _ = _, Ic : idc _ = _,
      Hh : d2 _ = _ |- _ => rewrite It, Ik, Ib, Ic, Hh
    end;
    cbv zeta; decide_cmp; cbn [andb]; f_equal; unfold dp1; lia ].

(** At an even resolution every store of the seam repair goes to a
    corner of a quad, and stores there the index of a duplicate of the
    point the builder had put at that corner: the one [repaired] names. *)
Lemma seam_writes_cells (d : Z) :
  valid_divs d -> 2 <= d ->
  Forall (fun w => exists f r c k,
            (0 <= f < 6 /\ 0 <= r < d /\ 0 <= c < d /\ 0 <= k < 4)
            /\ fst w = quad_slot d f r c k
            /\ 6 * ppf d <= snd w < vertpnts d
            /\ vnth (vertices d) (snd w)
               = vnth (base_verts d)
                      (corner d (r * dp1 d + c + f * ppf d) k)
            /\ repaired d f r c k = Some (snd w))
         (seam_writes d).
Proof.
  intros Hd He.
  destruct (valid_divs_half d Hd) as [h [Hh [[H1 _]|[Hdh Hhr]]]]; [lia|].
  pose proof (idt_val d Hd) as It. pose proof (idk_val d Hd) as Ik.
  pose proof (idb_val d Hd) as Ib. pose proof (idc_val d Hd) as Ic.
  pose proof (vnth_dup_top d Hd) as Vt.
  pose proof (vnth_dup_back d Hd) as Vk.
  pose proof (vnth_dup_bottom d Hd) as Vb.
  destruct (vnth_dup_centre d Hd) as [Vc0 [Vc1 [Vc2 Vc3]]].
  destruct (seam_points_val d Hd) as [Ept [Epk [Epb [Eic Eid]]]].
  rewrite Ept in Vt. rewrite Epk in Vk. rewrite Epb in Vb.
  rewrite Eic in Vc0, Vc1. rewrite Eid in Vc2, Vc3.
  assert (Hr : Z.of_nat (Z.to_nat (qtb d)) = h - 1)
    by (unfold qtb, ntb; rewrite Hh; lia).
  assert (Hr' : Z.of_nat (Z.to_nat (d - 1)) = d - 1) by lia.
  unfold seam_writes, repair_top_writes, repair_back_writes,
    repair_bottom_writes, repair_top_centre_writes,
    repair_bottom_centre_writes.
  rewrite (top_pq_val d Hd), (back_pq_val d Hd), (bottom_pq_val d Hd),
    (top_centre_pq_val d Hd), (bottom_centre_pq_val d Hd),
    (idt_val d Hd), (idk_val d Hd), (idb_val d Hd), (idc_val d Hd).
  rewrite Hr, Hr'. unfold quad_slot. rewrite (linewrds_val d Hd), (vertpnts_val d Hd).
  unfold ntb in *. rewrite Hh in *.
  unfold qtb, ntb. rewrite Hh.
  subst d. unfold dp1 in *.
  repeat (apply Forall_app; split).
  - apply Forall_forall. intros [p v] Hin.
    apply in_top_writes in Hin.
    destruct Hin as [j [Hj [[-> ->]|[-> ->]]]]; cbn [fst snd].
    + cell 1 j h 0 (Vt j).
    + cell 1 j h 1 (Vt (j + 1)).
  - apply Forall_cons; [|apply Forall_nil]. cell 1 (h - 1) h 0 (Vt (h - 1)).
  - apply Forall_cons.
    { cell 3 0 h 0 (Vk 0). }
    apply Forall_app; split.
    + apply Forall_forall. intros [p v] Hin.
      apply in_back_writes in Hin.
      destruct Hin as [j [Hj [[-> ->]|[-> ->]]]]; cbn [fst snd].
      * cell 3 j h 1 (Vk (j + 1)).
      * cell 3 (j + 1) h 0 (Vk (j + 1)).
    + apply Forall_cons; [|apply Forall_nil].
      cell 3 (2 * h - 1) h 1 (Vk (2 * h)).
  - apply Forall_cons.
    { cell 4 h h 1 (Vb 0). }
    apply Forall_forall. intros [p v] Hin.
    apply in_bottom_writes in Hin.
    destruct Hin as [j [Hj [[-> ->]|[-> ->]]]]; cbn [fst snd].
    + cell 4 (h + j + 1) h 0 (Vb j).
    + cell 4 (h + j + 1) h 1 (Vb (j + 1)).
  - apply Forall_cons; [|apply Forall_cons; [|apply Forall_nil]].
    + cell 1 (h - 1) (h - 1) 2 Vc0.
    + cell 1 (h - 1) h 1 Vc1.
  - apply Forall_cons; [|apply Forall_cons; [|apply Forall_nil]].
    + cell 4 h (h - 1) 3 Vc2.
    + cell 4 h h 0 Vc3.
Qed.

(** *** The finished index block *)

(** The finished block against the builder's, entry by entry. *)
Lemma seam_repair_entries (d : Z) :
  valid_divs d -> 2 <= d ->
  exists blk,
    seam_repair d (index_builder d) = Some blk
    /\ length blk = block_len d
    /\ forall p, 0 <= p < Z.of_nat (block_len d) ->
         let old := nth (Z.to_nat p) (index_builder d) 0 in
         let new := nth (Z.to_nat p) blk 0 in
         (new = old \/ (linewrds d <= p /\ 6 * ppf d <= new < vertpnts d))
         /\ vnth (vertices d) new = vnth (vertices d) old.
Proof.
  intros Hd He.
  assert (Hm : 1 <= d <= max_divs) by (destruct Hd; lia).
  destruct (index_builder_good d Hm) as [HL _].
  exists (apply_writes (seam_writes d) (index_builder d)).
  split; [apply seam_repair_exact; assumption|].
  split; [rewrite length_apply_writes; exact HL|].
  rewrite <- HL.
  apply (apply_writes_inv
           (fun p v =>
              (v = nth (Z.to_nat p) (index_builder d) 0
               \/ (linewrds d <= p /\ 6 * ppf d <= v < vertpnts d))
              /\ vnth (vertices d) v
                 = vnth (vertices d) (nth (Z.to_nat p) (index_builder d) 0))).
  - eapply Forall_impl; [|apply (seam_writes_cells d Hd He)].
    intros [p v] [f [r [c [k [[Hf [Hr [Hc Hk]]] [Hp [Hv [Hg _]]]]]]]].
    cbn [fst snd] in *. subst p.
    pose proof (linewrds_val d Hd) as Hlw.
    assert (Hq : 0 <= qpf d) by (unfold qpf; nia).
    assert (Hcell : 0 <= 4 * (f * qpf d + r * d + c) + k) by nia.
    split; [unfold quad_slot; lia|].
    split; [right; split; [unfold quad_slot; lia|exact Hv]|].
    rewrite index_builder_entry by assumption.
    rewrite Hg. symmetry. apply vnth_base; [exact Hd|].
    pose proof (corner_range d f r c k) as Hcr.
    assert (Hppf : 0 < ppf d) by (unfold ppf, dp1; nia).
    specialize (Hcr ltac:(lia) Hf Hr Hc Hk). nia.
  - intros p Hp. split; [left; reflexivity|reflexivity].
Qed.

(** X6: For every argument from 1 up the seam repair succeeds and moves no
    corner: each entry of the finished index block is the builder's
    entry or the index of a duplicate vertex, and in either case the
    vertex it names lies where the vertex the builder named lies. *)
Theorem seam_repair_keeps_geometry (divs_arg : Z) :
  1 <= divs_arg <= max_divs ->
  let d := round_divs divs_arg in
  exists blk,
    quadsphere_indices divs_arg = Some blk
    /\ length blk = length (index_builder d)
    /\ forall p, 0 <= p < Z.of_nat (length blk) ->
         let old := nth (Z.to_nat p) (index_builder d) 0 in
         let new := nth (Z.to_nat p) blk 0 in
         (new = old \/ 6 * ppf d <= new < vertpnts d)
         /\ vnth (vertices d) new = vnth (vertices d) old.
Proof.
  intros Ha d.
  assert (Hd : valid_divs d) by (apply round_divs_valid; lia).
  assert (He : 2 <= d).
  { unfold d. rewrite round_divs_pos by lia. lia. }
  assert (Hm : 1 <= d <= max_divs) by (destruct Hd; lia).
  destruct (index_builder_good d Hm) as [HL _].
  destruct (seam_repair_entries d Hd He) as [blk [E [L H]]].
  exists blk. split; [exact E|]. split; [congruence|].
  intros p Hp. rewrite L in Hp. destruct (H p Hp) as [[H1|[_ H1]] H2].
  - split; [left; exact H1|exact H2].
  - split; [right; exact H1|exact H2].
Qed.

Lemma seam_repair_keeps_geometry_witness :
  1 <= 2 <= max_divs
  /\ exists blk,
       quadsphere_indices 2 = Some blk
       /\ vnth (vertices 2) (nth 116 blk 0)
          = vnth (vertices 2) (nth 116 (index_builder 2) 0).
Proof.
  assert (H : 1 <= 2 <= max_divs) by (unfold max_divs; lia).
  split; [exact H|].
  destruct (seam_repair_keeps_geometry 2 H) as [blk [E [L G]]].
  exists blk. split; [exact E|].
  apply (G 116). rewrite L. vm_compute. split; [discriminate|reflexivity].
Defined.

(** X7: For every argument from 1 up the seam repair leaves the line indices
    as the builder made them: the lines never use a duplicate vertex. *)
Theorem line_indices_not_repaired (divs_arg : Z) :
  1 <= divs_arg <= max_divs ->
  let d := round_divs divs_arg in
  exists blk,
    quadsphere_indices divs_arg = Some blk
    /\ lineidx_of d blk = build_lineidx d (build_quadidx d)
    /\ Forall (in_range (6 * ppf d)) (lineidx_of d blk).
Proof.
  intros Ha d.
  assert (Hd : valid_divs d) by (apply round_divs_valid; lia).
  assert (He : 2 <= d).
  { unfold d. rewrite round_divs_pos by lia. lia. }
  assert (Hm : 1 <= d <= max_divs) by (destruct Hd; lia).
  destruct (seam_repair_entries d Hd He) as [blk [E [L H]]].
  exists blk. split; [exact E|].
  pose proof (linewrds_val d Hd) as Hlw.
  assert (Hq : 0 < qpf d) by (unfold qpf; nia).
  assert (Hbl : Z.of_nat (block_len d) = 48 * qpf d)
    by (unfold block_len; lia).
  assert (Heq : lineidx_of d blk = build_lineidx d (build_quadidx d)).
  { unfold lineidx_of. apply (nth_ext _ _ 0 0).
    - rewrite length_firstn, L, length_build_lineidx. lia.
    - intros n Hn. rewrite length_firstn in Hn.
      rewrite nth_firstn.
      destruct (Nat.ltb_spec n (Z.to_nat (linewrds d))); [|lia].
      destruct (H (Z.of_nat n)) as [[H1|[H1 _]] _]; [lia| |lia].
      rewrite Nat2Z.id in H1. rewrite H1.
      rewrite <- (Nat2Z.id n) at 1.
      rewrite index_builder_line_part by lia.
      rewrite Nat2Z.id. reflexivity. }
  split; [exact Heq|]. rewrite Heq.
  apply build_lineidx_range; [unfold ppf, dp1; nia|].
  apply build_quadidx_range. exact Hm.
Qed.

Lemma line_indices_not_repaired_witness :
  1 <= 3 <= max_divs
  /\ exists blk,
       quadsphere_indices 3 = Some blk
       /\ lineidx_of 4 blk = build_lineidx 4 (build_quadidx 4).
Proof.
  assert (H : 1 <= 3 <= max_divs) by (unfold max_divs; lia).
  split; [exact H|].
  destruct (line_indices_not_repaired 3 H) as [blk [E [L _]]].
  exists blk. split; [exact E|exact L].
Defined.

Lemma valid_divs_1 : valid_divs 1.
Proof. split; [left; reflexivity|unfold max_divs; lia]. Qed.

(** *** The bare cube *)

Lemma cube_vertices :
  vnth (vertices 1) 4 = to_top vul
  /\ vnth (vertices 1) 20 = to_right vul
  /\ vnth (vertices 1) 24 = to_back vul
  /\ vnth (vertices 1) 26 = to_top vul.
Proof.
  assert (Hb : base_verts 1
               = [vul; vur; vll; vlr] ++ map to_top [vul; vur; vll; vlr]
                 ++ map to_left [vul; vur; vll; vlr]
                 ++ map to_back [vul; vur; vll; vlr]
                 ++ map to_bottom [vul; vur; vll; vlr]
                 ++ map to_right [vul; vur; vll; vlr]).
  { unfold base_verts. rewrite front_face_cube. reflexivity. }
  pose proof (vnth_base 1 valid_divs_1) as Vb.
  pose proof (vnth_dup_back 1 valid_divs_1 0) as Vk.
  destruct (vnth_dup_centre 1 valid_divs_1) as [Vc _].
  change (6 * ppf 1 + ntb 1 + 0) with 24 in Vk.
  change (ipk 1 + 0 * dp1 1) with 12 in Vk.
  change (6 * ppf 1 + ntb 1 + dp1 1 + ntb 1) with 26 in Vc.
  change (u32 (ppf 1 + u32 ((dp1 1 + 1) * d2 1))) with 4 in Vc.
  rewrite Vk by (vm_compute; split; [discriminate|reflexivity]).
  rewrite Vc.
  rewrite !Vb by (vm_compute; split; [discriminate|reflexivity]).
  rewrite Hb. repeat split; reflexivity.
Qed.

(** X8: For every argument below 1 the effective resolution is 1, no seam
    point exists, and the repair still stores: corner 0 of the top quad
    (entry 28 of the block) goes from vertex 4 to vertex 24, a copy of
    back vertex 12, which lies elsewhere; the top-centre store
    [pq[-2] = idc] falls before the quad array, on line index 22, and
    moves that line end from vertex 20 to a copy of vertex 4. *)
Theorem cube_repair_moves_corners (divs_arg : Z) :
  INT_MIN <= divs_arg <= 0 ->
  round_divs divs_arg = 1
  /\ exists blk,
       quadsphere_indices divs_arg = Some blk
       /\ nth 28 (index_builder 1) 0 = 4 /\ nth 28 blk 0 = 24
       /\ nth 22 (index_builder 1) 0 = 20 /\ nth 22 blk 0 = 26
       /\ vnth (vertices 1) 24 <> vnth (vertices 1) 4
       /\ vnth (vertices 1) 26 <> vnth (vertices 1) 20.
Proof.
  intros Ha.
  assert (Hr : round_divs divs_arg = 1) by (apply round_divs_nonpos; lia).
  split; [exact Hr|].
  unfold quadsphere_indices. rewrite Hr.
  eexists. split; [vm_compute; reflexivity|].
  destruct cube_vertices as [V4 [V20 [V24 V26]]].
  rewrite V4, V20, V24, V26.
  pose proof ccc_pos as Hc.
  repeat split; try reflexivity.
  - unfold to_back, to_top, vul. intros H.
    apply pair_equal_spec in H. destruct H as [H _].
    apply pair_equal_spec in H. destruct H as [H _]. lra.
  - unfold to_right, to_top, vul. intros H.
    apply pair_equal_spec in H. destruct H as [H _].
    apply pair_equal_spec in H. destruct H as [H _]. lra.
Qed.

Lemma cube_repair_moves_corners_witness :
  INT_MIN <= -3 <= 0 /\ round_divs (-3) = 1.
Proof.
  assert (H : INT_MIN <= -3 <= 0) by (unfold INT_MIN; lia).
  split; [exact H|]. apply (cube_repair_moves_corners (-3) H).
Defined.

End RepairWrites.

(** ** The vertex array as a grid on each face (quadsphere.cpp, 176-230) *)

Local Open Scope Z_scope.

Section BlockEntries.
Context {A B : Type}.
Variable f : A -> list B.
Variable m : nat.
Hypothesis f_length : forall x, length (f x) = m.

Lemma nth_flat_map_const (l : list A) (i j : nat) (dA : A) (dB : B) :
  (i < length l)%nat -> (j < m)%nat ->
  nth (m * i + j) (flat_map f l) dB = nth j (f (nth i l dA)) dB.
Proof.
  intros Hi Hj. rewrite <- nth_skipn.
  rewrite (skipn_flat_map_const f m f_length).
  assert (E : exists rest, skipn i l = nth i l dA :: rest).
  { clear Hj. revert i Hi. induction l as [|x l IH]; intros i Hi.
    - simpl in Hi. lia.
    - destruct i as [|i]; [eexists; reflexivity|].
      simpl in Hi. apply IH. lia. }
  destruct E as [rest ->]. cbn [flat_map].
  apply app_nth1. rewrite f_length. exact Hj.
Qed.
End BlockEntries.

Section FaceGrid.

Lemma vnth_slerp (d : Z) (v0 v1 : vec) (c : Z) :
  (1 <= d)%Z -> (0 <= c <= d)%Z ->
  nth (Z.to_nat c) (slerp d v0 v1) (0, 0, 0)%R = slerp_sample d v0 v1 c.
Proof.
  intros Hd Hc. unfold slerp.
  destruct (Z.ltb_spec d 1); [lia|].
  rewrite (nth_indep _ _ (slerp_sample d v0 v1 0))
    by (rewrite length_map, length_zrange; lia).
  rewrite map_nth, nth_zrange by lia. rewrite Z2Nat.id by lia.
  reflexivity.
Qed.

Lemma vnth_front_face (d r c : Z) :
  (1 <= d)%Z -> (0 <= r <= d)%Z -> (0 <= c <= d)%Z ->
  vnth (front_face d) (r * dp1 d + c)
  = let ab := slerp_ab (dotp vul vll) d r in
    slerp_sample d (blend vul vll (fst ab) (snd ab))
                   (blend vur vlr (fst ab) (snd ab)) c.
Proof.
  intros Hd Hr Hc. unfold vnth, front_face.
  set (F := fun i : Z =>
              let '(a, b) := slerp_ab (dotp vul vll) d i in
              slerp d (blend vul vll a b) (blend vur vlr a b)).
  assert (HF : forall x, length (F x) = Z.to_nat (d + 1)).
  { intros x. unfold F. destruct (slerp_ab (dotp vul vll) d x).
    apply length_slerp. exact Hd. }
  replace (Z.to_nat (r * dp1 d + c))
    with (Z.to_nat (d + 1) * Z.to_nat r + Z.to_nat c)%nat
    by (unfold dp1; nia).
  rewrite (nth_flat_map_const F _ HF _ _ _ 0%Z)
    by (rewrite ?length_zrange; lia).
  rewrite nth_zrange by lia. rewrite Z2Nat.id by lia.
  unfold F. cbv zeta. destruct (slerp_ab (dotp vul vll) d r) as [a b].
  cbn [fst snd]. apply vnth_slerp; assumption.
Qed.

Lemma length_front_face_Z (d : Z) :
  (1 <= d)%Z -> Z.of_nat (length (front_face d)) = ppf d.
Proof.
  intros Hd. rewrite length_front_face by exact Hd. unfold ppf, dp1. nia.
Qed.

Lemma vnth_map (g : vec -> vec) (l : list vec) (k : Z) :
  (0 <= k < Z.of_nat (length l))%Z ->
  vnth (map g l) k = g (vnth l k).
Proof.
  intros H. unfold vnth.
  rewrite (nth_indep _ _ (g (0, 0, 0)%R)) by (rewrite length_map; lia).
  apply map_nth.
Qed.

Lemma vnth_base_face (d f k : Z) :
  (1 <= d)%Z -> (0 <= f < 6)%Z -> (0 <= k < ppf d)%Z ->
  vnth (base_verts d) (f * ppf d + k)
  = face_rotation f (vnth (front_face d) k).
Proof.
  intros Hd Hf Hk. pose proof (length_front_face_Z d Hd) as HL.
  unfold base_verts.
  assert (Hf' : (f = 0 \/ f = 1 \/ f = 2 \/ f = 3 \/ f = 4 \/ f = 5)%Z) by lia.
  assert (peel : forall (l1 l2 : list vec) (i : Z),
             Z.of_nat (length l1) = ppf d -> (ppf d <= i)%Z ->
             vnth (l1 ++ l2) i = vnth l2 (i - ppf d)).
  { intros l1 l2 i E Hi. rewrite vnth_app_r by lia. rewrite E. reflexivity. }
  assert (Hm : forall g : vec -> vec, Z.of_nat (length (map g (front_face d))) = ppf d)
    by (intros g; rewrite length_map; exact HL).
  assert (fin : forall (g : vec -> vec) i,
             i = k -> vnth (map g (front_face d)) i
                      = g (vnth (front_face d) k)).
  { intros g i ->. apply vnth_map. lia. }
  destruct Hf' as [-> | [-> | [-> | [-> | [-> | ->]]]]].
  - change (face_rotation 0) with (fun p : vec => p). cbv beta.
    rewrite vnth_app_l by lia. f_equal; lia.
  - change (face_rotation 1) with to_top.
    rewrite peel by (trivial; lia).
    rewrite vnth_app_l by (rewrite Hm; lia). apply fin. lia.
  - change (face_rotation 2) with to_left.
    do 2 (rewrite peel by (trivial; lia)).
    rewrite vnth_app_l by (rewrite Hm; lia). apply fin. lia.
  - change (face_rotation 3) with to_back.
    do 3 (rewrite peel by (trivial; lia)).
    rewrite vnth_app_l by (rewrite Hm; lia). apply fin. lia.
  - change (face_rotation 4) with to_bottom.
    do 4 (rewrite peel by (trivial; lia)).
    rewrite vnth_app_l by (rewrite Hm; lia). apply fin. lia.
  - change (face_rotation 5) with to_right.
    do 5 (rewrite peel by (trivial; lia)).
    apply fin. lia.
Qed.
End FaceGrid.

(** ** The seam column and the face centres (quadsphere.cpp, 176-230, 482-588) *)

Section SeamPlane.
Local Open Scope R_scope.

Lemma half_weights (c : R) (h : Z) :
  (1 <= h)%Z -> snd (slerp_ab c (2 * h) h) = fst (slerp_ab c (2 * h) h).
Proof.
  intros Hh. unfold slerp_ab. cbn [fst snd].
  assert (Hz : IZR h <> 0) by (apply not_0_IZR; lia).
  rewrite mult_IZR. do 2 f_equal. field. exact Hz.
Qed.

Lemma last_weights (c : R) (d : Z) :
  (1 <= d)%Z -> 0 < sqrt (1 - c * c) <= 1 -> slerp_ab c d d = (0, 1).
Proof.
  intros Hd Hs. unfold slerp_ab. set (som := sqrt (1 - c * c)) in *.
  assert (Hz : IZR d <> 0) by (apply not_0_IZR; lia).
  replace (asin som * (1 - IZR d * (1 / IZR d))) with 0 by (field; exact Hz).
  replace (asin som * (IZR d * (1 / IZR d))) with (asin som)
    by (field; exact Hz).
  rewrite sin_asin by lra. rewrite sin_0.
  f_equal; field; lra.
Qed.

(** The middle column of the front face lies in the plane x = 0. *)
Lemma middle_column_x (h r : Z) :
  (1 <= h)%Z -> (0 <= r <= 2 * h)%Z ->
  fst (fst (vnth (front_face (2 * h)) (r * dp1 (2 * h) + h))) = 0.
Proof.
  intros Hh Hr. rewrite vnth_front_face by lia. cbv zeta.
  destruct (slerp_ab (dotp vul vll) (2 * h) r) as [a b]. cbn [fst snd].
  unfold slerp_sample.
  pose proof (half_weights
                (dotp (blend vul vll a b) (blend vur vlr a b)) h Hh) as E.
  destruct (slerp_ab (dotp (blend vul vll a b) (blend vur vlr a b))
                     (2 * h) h) as [w w'].
  cbn [fst snd] in E. subst w'.
  unfold blend, vul, vll, vur, vlr. cbn [fst snd]. ring.
Qed.

(** The centre of the front face is the view direction. *)
Lemma centre_point (h : Z) :
  (1 <= h)%Z ->
  vnth (front_face (2 * h)) (h * dp1 (2 * h) + h) = (0, 0, 1).
Proof.
  intros Hh. rewrite vnth_front_face by lia. cbv zeta.
  pose proof ccc_sqr as Hc. pose proof ccc_pos as Hp.
  assert (D1 : dotp vul vll = 1 / 3) by (unfold dotp, vul, vll; nra).
  rewrite D1.
  assert (Hin : In h (zrange (2 * h + 1)%Z)) by (apply in_zrange; lia).
  pose proof (slerp_ab_weights (1 / 3) (2 * h) h ltac:(lia) Hin ltac:(lra))
    as [Hw [Ha _]].
  pose proof (half_weights (1 / 3) h Hh) as E.
  destruct (slerp_ab (1 / 3) (2 * h) h) as [w w'].
  cbn [fst snd] in *. subst w'.
  set (v0 := blend vul vll w w). set (v1 := blend vur vlr w w).
  assert (D : dotp v0 v1 = 0).
  { unfold v0, v1, blend, vul, vll, vur, vlr, dotp. nra. }
  unfold slerp_sample. rewrite D.
  pose proof (slerp_ab_weights 0 (2 * h) h ltac:(lia) Hin ltac:(lra))
    as [Hw2 [Ha2 _]].
  pose proof (half_weights 0 h Hh) as E2.
  destruct (slerp_ab 0 (2 * h) h) as [u u'].
  cbn [fst snd] in *. subst u'.
  unfold v0, v1, blend, vul, vll, vur, vlr.
  assert (Hz : ccc * w * u + ccc * w * u + (ccc * w * u + ccc * w * u) = 1).
  { assert (Hww : w * w = 3 / 8) by lra.
    assert (Huu : u * u = 1 / 2) by lra.
    assert (Hsq : (ccc * w * u) * (ccc * w * u) = 1 / 16).
    { replace (ccc * w * u * (ccc * w * u))
        with ((ccc * ccc) * (w * w) * (u * u)) by ring.
      rewrite Hc, Hww, Huu. lra. }
    assert (Hpos : 0 <= ccc * w * u).
    { apply Rmult_le_pos; [apply Rmult_le_pos|]; lra. }
    nra. }
  f_equal; [f_equal|]; nra.
Qed.

Lemma rotation_x (f : Z) (p : vec) :
  fst (fst p) = 0 -> (f = 1 \/ f = 3 \/ f = 4)%Z ->
  fst (fst (face_rotation f p)) = 0.
Proof.
  intros Hp Hf. destruct p as [[x y] z]. cbn [fst] in Hp. subst x.
  destruct Hf as [-> | [-> | ->]]; cbn; lra.
Qed.

(** A point of the middle column of the top, back or bottom face. *)
Lemma seam_point_x (h f r : Z) :
  (1 <= h)%Z -> (2 * h <= max_divs)%Z -> (f = 1 \/ f = 3 \/ f = 4)%Z ->
  (0 <= r <= 2 * h)%Z ->
  fst (fst (vnth (base_verts (2 * h))
                 (f * ppf (2 * h) + (r * dp1 (2 * h) + h)))) = 0.
Proof.
  intros Hh Hm Hf Hr.
  rewrite vnth_base_face by (unfold ppf, dp1; nia).
  apply rotation_x; [apply middle_column_x; assumption|exact Hf].
Qed.

Lemma seam_duplicates_x (d k : Z) :
  valid_divs d -> (2 <= d)%Z ->
  (6 * ppf d <= k < vertpnts d)%Z ->
  fst (fst (vnth (vertices d) k)) = 0.
Proof.
  intros Hd He Hk.
  destruct (valid_divs_half d Hd) as [h [Hh [[H1 _]|[Hdh Hhr]]]]; [lia|].
  pose proof (vnth_dup_top d Hd) as Vt.
  pose proof (vnth_dup_back d Hd) as Vk.
  pose proof (vnth_dup_bottom d Hd) as Vb.
  destruct (vnth_dup_centre d Hd) as [Vc0 [Vc1 [Vc2 Vc3]]].
  destruct (seam_points_val d Hd) as [Ept [Epk [Epb [Eic Eid]]]].
  rewrite Ept in Vt. rewrite Epk in Vk. rewrite Epb in Vb.
  rewrite Eic in Vc0, Vc1. rewrite Eid in Vc2, Vc3.
  rewrite (vertpnts_val d Hd) in Hk.
  assert (Hmax : (2 * h <= max_divs)%Z) by (destruct Hd; lia).
  unfold ntb in *. rewrite Hh in *. subst d. unfold dp1 in *.
  pose proof (seam_point_x h) as X. unfold dp1 in X.
  assert (Hj : (0 <= k - 6 * ppf (2 * h) < h
                \/ 0 <= k - 6 * ppf (2 * h) - h < 2 * h + 1
                \/ 0 <= k - 6 * ppf (2 * h) - h - (2 * h + 1) < h
                \/ k = 6 * ppf (2 * h) + h + (2 * h + 1) + h
                \/ k = 6 * ppf (2 * h) + h + (2 * h + 1) + h + 1
                \/ k = 6 * ppf (2 * h) + h + (2 * h + 1) + h + 2
                \/ k = 6 * ppf (2 * h) + h + (2 * h + 1) + h + 3)%Z) by lia.
  destruct Hj as [Hj | [Hj | [Hj | [-> | [-> | [-> | ->]]]]]].
  - replace k with (6 * ppf (2 * h) + (k - 6 * ppf (2 * h)))%Z by ring.
    rewrite Vt by exact Hj.
    replace (ppf (2 * h) + h + (k - 6 * ppf (2 * h)) * (2 * h + 1))%Z
      with (1 * ppf (2 * h) + ((k - 6 * ppf (2 * h)) * (2 * h + 1) + h))%Z
      by ring.
    apply X; lia.
  - replace k with (6 * ppf (2 * h) + h + (k - 6 * ppf (2 * h) - h))%Z
      by ring.
    rewrite Vk by exact Hj.
    replace (3 * ppf (2 * h) + h
             + (k - 6 * ppf (2 * h) - h) * (2 * h + 1))%Z
      with (3 * ppf (2 * h)
            + ((k - 6 * ppf (2 * h) - h) * (2 * h + 1) + h))%Z by ring.
    apply X; lia.
  - replace k with (6 * ppf (2 * h) + h + (2 * h + 1)
                    + (k - 6 * ppf (2 * h) - h - (2 * h + 1)))%Z by ring.
    rewrite Vb by exact Hj.
    replace (4 * ppf (2 * h) + (2 * h + 1 - h) * (2 * h + 1) + h
             + (k - 6 * ppf (2 * h) - h - (2 * h + 1)) * (2 * h + 1))%Z
      with (4 * ppf (2 * h)
            + ((h + 1 + (k - 6 * ppf (2 * h) - h - (2 * h + 1)))
               * (2 * h + 1) + h))%Z by ring.
    apply X; lia.
  - rewrite Vc0.
    replace (ppf (2 * h) + (2 * h + 1 + 1) * h)%Z
      with (1 * ppf (2 * h) + (h * (2 * h + 1) + h))%Z by ring.
    apply X; lia.
  - rewrite Vc1.
    replace (ppf (2 * h) + (2 * h + 1 + 1) * h)%Z
      with (1 * ppf (2 * h) + (h * (2 * h + 1) + h))%Z by ring.
    apply X; lia.
  - rewrite Vc2.
    replace (4 * ppf (2 * h) + (2 * h + 1 + 1) * h)%Z
      with (4 * ppf (2 * h) + (h * (2 * h + 1) + h))%Z by ring.
    apply X; lia.
  - rewrite Vc3.
    replace (4 * ppf (2 * h) + (2 * h + 1 + 1) * h)%Z
      with (4 * ppf (2 * h) + (h * (2 * h + 1) + h))%Z by ring.
    apply X; lia.
Qed.

(** X9: For every argument from 1 up, each vertex in the duplicates area (the
    copies of the seam points of the top, back and bottom faces and of
    the two pole centres) has first coordinate 0: the seam lies in the
    YZ plane. *)
Theorem seam_in_yz_plane (divs_arg k : Z) :
  (1 <= divs_arg <= max_divs)%Z ->
  let d := round_divs divs_arg in
  (6 * ppf d <= k < vertpnts d)%Z ->
  fst (fst (vnth (vertices d) k)) = 0.
Proof.
  intros Ha d Hk.
  assert (Hd : valid_divs d) by (apply round_divs_valid; lia).
  assert (He : (2 <= d)%Z).
  { unfold d. rewrite round_divs_pos by lia. lia. }
  apply seam_duplicates_x; assumption.
Qed.

Lemma seam_in_yz_plane_witness :
  (1 <= 2 <= max_divs)%Z /\ (6 * ppf 2 <= 57 < vertpnts 2)%Z
  /\ fst (fst (vnth (vertices 2) 57)) = 0.
Proof.
  assert (H : (1 <= 2 <= max_divs)%Z) by (unfold max_divs; lia).
  assert (Hk : (6 * ppf (round_divs 2) <= 57 < vertpnts (round_divs 2))%Z)
    by (vm_compute; split; [discriminate|reflexivity]).
  split; [exact H|]. split; [exact Hk|].
  apply (seam_in_yz_plane 2 57 H Hk).
Defined.

(** X10: For every argument from 1 up, the centre of the front face is the
    view direction (0, 0, 1), the centres of the top and bottom faces are
    the poles (0, 1, 0) and (0, -1, 0), and the four centre duplicates
    are two copies of each pole. *)
Theorem poles_and_centre (divs_arg : Z) :
  (1 <= divs_arg <= max_divs)%Z ->
  let d := round_divs divs_arg in
  let jf := ((dp1 d + 1) * d2 d)%Z in
  vnth (vertices d) jf = (0, 0, 1)
  /\ vnth (vertices d) (ppf d + jf) = (0, 1, 0)
  /\ vnth (vertices d) (4 * ppf d + jf) = (0, -1, 0)
  /\ vnth (vertices d) (idc d) = (0, 1, 0)
  /\ vnth (vertices d) (idc d + 1) = (0, 1, 0)
  /\ vnth (vertices d) (idc d + 2) = (0, -1, 0)
  /\ vnth (vertices d) (idc d + 3) = (0, -1, 0).
Proof.
  intros Ha d jf.
  assert (Hd : valid_divs d) by (apply round_divs_valid; lia).
  assert (He : (2 <= d)%Z).
  { unfold d. rewrite round_divs_pos by lia. lia. }
  destruct (valid_divs_half d Hd) as [h [Hh [[H1 _]|[Hdh Hhr]]]]; [lia|].
  destruct (vnth_dup_centre d Hd) as [Vc0 [Vc1 [Vc2 Vc3]]].
  destruct (seam_points_val d Hd) as [_ [_ [_ [Eic Eid]]]].
  rewrite Eic in Vc0, Vc1. rewrite Eid in Vc2, Vc3.
  rewrite (idc_val d Hd).
  pose proof (vnth_base d Hd) as Vb.
  assert (Hmax : (2 * h <= max_divs)%Z) by (destruct Hd; lia).
  unfold ntb in *. subst jf. rewrite Hh in *. clearbody d. subst d.
  pose proof (centre_point h ltac:(lia)) as C.
  assert (Hp : (0 < ppf (2 * h))%Z) by (unfold ppf, dp1; nia).
  assert (Hjf : ((dp1 (2 * h) + 1) * h = h * dp1 (2 * h) + h)%Z) by ring.
  assert (Hlt : (0 <= h * dp1 (2 * h) + h < ppf (2 * h))%Z)
    by (unfold ppf, dp1; nia).
  assert (F : forall f, (0 <= f < 6)%Z ->
            vnth (base_verts (2 * h))
                 (f * ppf (2 * h) + (dp1 (2 * h) + 1) * h)
            = face_rotation f (0, 0, 1)).
  { intros f Hf. rewrite Hjf. rewrite vnth_base_face by lia.
    rewrite C. reflexivity. }
  assert (T : vnth (base_verts (2 * h))
                   (ppf (2 * h) + (dp1 (2 * h) + 1) * h) = (0, 1, 0)).
  { rewrite <- (Z.mul_1_l (ppf (2 * h))). rewrite F by lia.
    cbn. f_equal. lra. }
  assert (B : vnth (base_verts (2 * h))
                   (4 * ppf (2 * h) + (dp1 (2 * h) + 1) * h) = (0, -1, 0)).
  { rewrite F by lia. reflexivity. }
  split.
  { rewrite Vb by lia.
    replace ((dp1 (2 * h) + 1) * h)%Z
      with (0 * ppf (2 * h) + (dp1 (2 * h) + 1) * h)%Z by ring.
    rewrite F by lia. reflexivity. }
  split; [rewrite Vb by lia; exact T|].
  split; [rewrite Vb by lia; exact B|].
  replace (6 * ppf (2 * h) + 2 * h + dp1 (2 * h))%Z
    with (6 * ppf (2 * h) + h + dp1 (2 * h) + h)%Z by ring.
  rewrite Vc0, Vc1, Vc2, Vc3. repeat split; assumption.
Qed.

Lemma poles_and_centre_witness :
  (1 <= 4 <= max_divs)%Z /\ vnth (vertices 4) 12 = (0, 0, 1).
Proof.
  assert (H : (1 <= 4 <= max_divs)%Z) by (unfold max_divs; lia).
  split; [exact H|]. apply (poles_and_centre 4 H).
Defined.
End SeamPlane.

(** ** The edges of the faces (quadsphere.cpp, 50-67, 176-230) *)

Section FaceEdges.
Local Open Scope R_scope.

Lemma vec_eq (x y z x' y' z' : R) :
  x = x' -> y = y' -> z = z' -> (x, y, z) = (x', y', z').
Proof. intros -> -> ->. reflexivity. Qed.

Lemma rotation_blend (f : Z) (P Q : vec) (a b : R) :
  face_rotation f (blend P Q a b)
  = blend (face_rotation f P) (face_rotation f Q) a b.
Proof.
  destruct P as [[x0 y0] z0], Q as [[x1 y1] z1]. unfold face_rotation.
  destruct (f =? 0)%Z; [reflexivity|].
  destruct (f =? 1)%Z; [cbn; apply vec_eq; ring|].
  destruct (f =? 2)%Z; [cbn; apply vec_eq; ring|].
  destruct (f =? 3)%Z; [cbn; apply vec_eq; ring|].
  destruct (f =? 4)%Z; cbn; apply vec_eq; ring.
Qed.

Lemma corner_dots :
  dotp vul vll = 1 / 3 /\ dotp vul vur = 1 / 3 /\ dotp vll vlr = 1 / 3
  /\ dotp vur vlr = 1 / 3.
Proof.
  pose proof ccc_sqr as Hc. unfold dotp, vul, vll, vur, vlr.
  repeat split; nra.
Qed.

(** The four edges of the front face are the arcs between its corners,
    sampled with the weights of the outer slerp. *)
Lemma front_edges (d i : Z) :
  (1 <= d)%Z -> (0 <= i <= d)%Z ->
  let ab := slerp_ab (1 / 3) d i in
  vnth (front_face d) i = blend vul vur (fst ab) (snd ab)
  /\ vnth (front_face d) (d * dp1 d + i) = blend vll vlr (fst ab) (snd ab)
  /\ vnth (front_face d) (i * dp1 d) = blend vul vll (fst ab) (snd ab)
  /\ vnth (front_face d) (i * dp1 d + d) = blend vur vlr (fst ab) (snd ab).
Proof.
  intros Hd Hi ab.
  destruct corner_dots as [D1 [D2 [D3 D4]]].
  pose proof third_som as Hs.
  assert (Hin : forall j, (0 <= j <= d)%Z -> In j (zrange (d + 1)%Z))
    by (intros j Hj; apply in_zrange; lia).
  split; [|split; [|split]].
  - replace i with (0 * dp1 d + i)%Z at 1 by ring.
    rewrite vnth_front_face by lia. cbv zeta. rewrite D1.
    rewrite (first_weights _ d Hs). cbn [fst snd]. rewrite !blend_1_0.
    unfold slerp_sample. rewrite D2. fold ab.
    destruct ab as [a b]. reflexivity.
  - rewrite vnth_front_face by lia. cbv zeta. rewrite D1.
    rewrite (last_weights _ d Hd Hs). cbn [fst snd]. rewrite !blend_0_1.
    unfold slerp_sample. rewrite D3. fold ab.
    destruct ab as [a b]. reflexivity.
  - replace (i * dp1 d)%Z with (i * dp1 d + 0)%Z by ring.
    rewrite vnth_front_face by lia. cbv zeta. rewrite D1. fold ab.
    pose proof (slerp_ab_weights (1 / 3) d i Hd (Hin i Hi) ltac:(lra))
      as [Hw [Ha Hb]]. fold ab in Hw, Ha, Hb.
    destruct (row_ends (fst ab) (snd ab) Hw Ha Hb) as [_ [_ Hdot]].
    destruct (slerp_angle _ Hdot) as [Hsom _].
    unfold slerp_sample. rewrite (first_weights _ d Hsom).
    apply blend_1_0.
  - rewrite vnth_front_face by lia. cbv zeta. rewrite D1. fold ab.
    pose proof (slerp_ab_weights (1 / 3) d i Hd (Hin i Hi) ltac:(lra))
      as [Hw [Ha Hb]]. fold ab in Hw, Ha, Hb.
    destruct (row_ends (fst ab) (snd ab) Hw Ha Hb) as [_ [_ Hdot]].
    destruct (slerp_angle _ Hdot) as [Hsom _].
    unfold slerp_sample. rewrite (last_weights _ d Hd Hsom).
    apply blend_0_1.
Qed.

(** Weights of the sample counted from the other end. *)
Lemma reversed_weights (c : R) (d i : Z) :
  (1 <= d)%Z ->
  slerp_ab c d (d - i) = (snd (slerp_ab c d i), fst (slerp_ab c d i)).
Proof.
  intros Hd. unfold slerp_ab. cbn [fst snd].
  assert (Hz : IZR d <> 0) by (apply not_0_IZR; lia).
  rewrite minus_IZR.
  f_equal; do 2 f_equal; field; exact Hz.
Qed.

(** X11: At every resolution each of the four border rows and columns of each
    face is the arc between two rotated cube corners, sampled with
    weights that depend on the position along the edge alone; the
    weights at [d - i] are those at [i] exchanged.  Two faces that meet
    in a cube edge therefore store the same points along it. *)
Theorem face_edges_are_arcs (divs_arg f i : Z) :
  (INT_MIN <= divs_arg <= max_divs)%Z -> (0 <= f < 6)%Z ->
  let d := round_divs divs_arg in
  (0 <= i <= d)%Z ->
  let a := fst (slerp_ab (1 / 3) d i) in
  let b := snd (slerp_ab (1 / 3) d i) in
  let ul := face_rotation f vul in
  let ur := face_rotation f vur in
  let ll := face_rotation f vll in
  let lr := face_rotation f vlr in
  vnth (vertices d) (f * ppf d + i) = blend ul ur a b
  /\ vnth (vertices d) (f * ppf d + (d * dp1 d + i)) = blend ll lr a b
  /\ vnth (vertices d) (f * ppf d + i * dp1 d) = blend ul ll a b
  /\ vnth (vertices d) (f * ppf d + (i * dp1 d + d)) = blend ur lr a b
  /\ slerp_ab (1 / 3) d (d - i) = (b, a).
Proof.
  intros Ha Hf d Hi a b ul ur ll lr.
  assert (Hd : valid_divs d) by (apply round_divs_valid; lia).
  pose proof (valid_divs_pos d Hd) as Hpos.
  destruct (front_edges d i Hpos Hi) as [E1 [E2 [E3 E4]]].
  cbv zeta in E1, E2, E3, E4. fold a b in E1, E2, E3, E4.
  assert (Hp : (0 < ppf d)%Z) by (unfold ppf, dp1; nia).
  assert (V : forall k, (0 <= k < ppf d)%Z ->
            vnth (vertices d) (f * ppf d + k)
            = face_rotation f (vnth (front_face d) k)).
  { intros k Hk. rewrite (vnth_base d Hd) by nia.
    apply vnth_base_face; assumption. }
  split; [rewrite V by (unfold ppf, dp1; nia); rewrite E1;
          apply rotation_blend|].
  split; [rewrite V by (unfold ppf, dp1; nia); rewrite E2;
          apply rotation_blend|].
  split; [rewrite V by (unfold ppf, dp1; nia); rewrite E3;
          apply rotation_blend|].
  split; [rewrite V by (unfold ppf, dp1; nia); rewrite E4;
          apply rotation_blend|].
  apply reversed_weights. exact Hpos.
Qed.

Lemma face_edges_are_arcs_witness :
  (INT_MIN <= 2 <= max_divs)%Z /\ (0 <= 3 < 6)%Z /\ (0 <= 1 <= round_divs 2)%Z
  /\ vnth (vertices 2) (3 * ppf 2 + 1)
     = blend (to_back vul) (to_back vur)
             (fst (slerp_ab (1 / 3) 2 1)) (snd (slerp_ab (1 / 3) 2 1)).
Proof.
  assert (H : (INT_MIN <= 2 <= max_divs)%Z)
    by (unfold INT_MIN, max_divs; lia).
  assert (Hf : (0 <= 3 < 6)%Z) by lia.
  assert (Hi : (0 <= 1 <= round_divs 2)%Z)
    by (vm_compute; split; discriminate).
  split; [exact H|]. split; [exact Hf|]. split; [exact Hi|].
  apply (face_edges_are_arcs 2 3 1 H Hf Hi).
Defined.

(** X12: In exact arithmetic every vertex of the finished array, duplicates
    included, lies on the unit sphere, whatever the argument. *)
Theorem vertices_on_unit_sphere (divs_arg : Z) (v : vec) :
  (INT_MIN <= divs_arg <= max_divs)%Z ->
  In v (vertices (round_divs divs_arg)) ->
  let '(x, y, z) := v in x * x + y * y + z * z = 1.
Proof.
  intros Ha Hin.
  assert (Hd : valid_divs (round_divs divs_arg))
    by (apply round_divs_valid; lia).
  pose proof (vertices_unit_exact _ Hd) as HF.
  rewrite Forall_forall in HF. specialize (HF v Hin).
  destruct v as [[x y] z]. exact HF.
Qed.

Lemma vertices_on_unit_sphere_witness :
  (INT_MIN <= 0 <= max_divs)%Z /\ In vul (vertices (round_divs 0))
  /\ ccc * ccc + ccc * ccc + ccc * ccc = 1.
Proof.
  assert (H : (INT_MIN <= 0 <= max_divs)%Z)
    by (unfold INT_MIN, max_divs; lia).
  assert (Hin : In vul (vertices (round_divs 0))).
  { change (round_divs 0) with 1%Z. unfold vertices, base_verts.
    rewrite front_face_cube. left. reflexivity. }
  split; [exact H|]. split; [exact Hin|].
  apply (vertices_on_unit_sphere 0 vul H Hin).
Defined.
End FaceEdges.

(** ** The repaired quad array, corner by corner (quadsphere.cpp, 538-566, 612, 635) *)

Section RepairResult.

(** An offset no store names keeps its entry. *)
Lemma apply_writes_notin (ws : list (Z * Z)) :
  Forall (fun w => 0 <= fst w) ws ->
  forall blk p,
    0 <= p -> (forall v, ~ In (p, v) ws) ->
    nth (Z.to_nat p) (apply_writes ws blk) 0 = nth (Z.to_nat p) blk 0.
Proof.
  induction 1 as [|[q u] ws Hq _ IH]; intros blk p Hp Hn; [reflexivity|].
  rewrite apply_writes_cons. cbn [fst snd] in *.
  rewrite IH; [|exact Hp|intros v Hv; apply (Hn v); right; exact Hv].
  apply nth_upd_other. intros E.
  assert (q = p) by lia. subst q. apply (Hn u). left. reflexivity.
Qed.

(** An offset that every store naming it gives the same value ends with
    that value. *)
Lemma apply_writes_value (ws : list (Z * Z)) :
  Forall (fun w => 0 <= fst w) ws ->
  forall blk p v,
    In (p, v) ws -> (forall v', In (p, v') ws -> v' = v) ->
    0 <= p < Z.of_nat (length blk) ->
    nth (Z.to_nat p) (apply_writes ws blk) 0 = v.
Proof.
  induction 1 as [|[q u] ws Hq HF IH]; intros blk p v Hin Hc Hp;
    [destruct Hin|].
  rewrite apply_writes_cons. cbn [fst snd] in *.
  destruct (in_dec Z.eq_dec p (map fst ws)) as [Hm|Hm].
  - apply in_map_iff in Hm. destruct Hm as [[p' v'] [E Hv']].
    cbn [fst] in E. subst p'.
    assert (v' = v) by (apply Hc; right; exact Hv'). subst v'.
    apply IH; [exact Hv'| |rewrite length_upd; exact Hp].
    intros v'' Hv''. apply Hc. right. exact Hv''.
  - rewrite (apply_writes_notin ws HF); [|lia|].
    + destruct Hin as [E|Hin].
      * apply pair_equal_spec in E. destruct E as [-> ->].
        apply nth_upd_same. lia.
      * exfalso. apply Hm. apply in_map_iff. exists (p, v).
        split; [reflexivity|exact Hin].
    + intros v' Hv'. apply Hm. apply in_map_iff. exists (p, v').
      split; [reflexivity|exact Hv'].
Qed.

Lemma quad_slot_inj (d f r c k f' r' c' k' : Z) :
  1 <= d ->
  0 <= r < d -> 0 <= c < d -> 0 <= k < 4 ->
  0 <= r' < d -> 0 <= c' < d -> 0 <= k' < 4 ->
  quad_slot d f r c k = quad_slot d f' r' c' k' ->
  f = f' /\ r = r' /\ c = c' /\ k = k'.
Proof.
  intros Hd Hr Hc Hk Hr' Hc' Hk' E. unfold quad_slot, qpf in E.
  assert (E1 : 4 * (f * (d * d) + r * d + c) + k
               = 4 * (f' * (d * d) + r' * d + c') + k') by lia.
  destruct (Z.div_mod_unique 4 _ _ k k' ltac:(lia) ltac:(lia) E1)
    as [E2 ->].
  assert (E3 : d * (f * d + r) + c = d * (f' * d + r') + c') by lia.
  destruct (Z.div_mod_unique d _ _ c c' ltac:(lia) ltac:(lia) E3)
    as [E4 ->].
  assert (E5 : d * f + r = d * f' + r') by lia.
  destruct (Z.div_mod_unique d _ _ r r' ltac:(lia) ltac:(lia) E5)
    as [-> ->].
  repeat split; reflexivity.
Qed.

Section LoopMembers.
Variable d : Z.

Lemma top_writes_in (r : nat) :
  forall pq i j,
    0 <= j < Z.of_nat r ->
    In (pq + 4 * d * j, i + j) (top_writes r d pq i)
    /\ In (pq + 4 * d * j + 1, i + j + 1) (top_writes r d pq i).
Proof.
  induction r as [|r IH]; intros pq i j Hj; [lia|].
  rewrite Nat2Z.inj_succ in Hj. cbn [top_writes].
  destruct (Z.eq_dec j 0) as [->|Hn].
  - split; [left|right; left]; f_equal; lia.
  - destruct (IH (pq + 4 * d) (i + 1) (j - 1) ltac:(lia)) as [H1 H2].
    replace (pq + 4 * d + 4 * d * (j - 1)) with (pq + 4 * d * j) in H1, H2
      by ring.
    replace (i + 1 + (j - 1)) with (i + j) in H1, H2 by ring.
    split; right; right; assumption.
Qed.

Lemma back_writes_in (r : nat) :
  forall pq i j,
    0 <= j < Z.of_nat r ->
    In (pq + 4 * d * j + 1, i + j) (back_writes r d pq i)
    /\ In (pq + 4 * d * (j + 1), i + j) (back_writes r d pq i).
Proof.
  induction r as [|r IH]; intros pq i j Hj; [lia|].
  rewrite Nat2Z.inj_succ in Hj. cbn [back_writes].
  destruct (Z.eq_dec j 0) as [->|Hn].
  - split; [left|right; left]; f_equal; lia.
  - destruct (IH (pq + 4 * d) (i + 1) (j - 1) ltac:(lia)) as [H1 H2].
    replace (pq + 4 * d + 4 * d * (j - 1) + 1)
      with (pq + 4 * d * j + 1) in H1 by ring.
    replace (pq + 4 * d + 4 * d * (j - 1 + 1))
      with (pq + 4 * d * (j + 1)) in H2 by ring.
    replace (i + 1 + (j - 1)) with (i + j) in H1, H2 by ring.
    split; right; right; assumption.
Qed.

Lemma bottom_writes_in (r : nat) :
  forall pq i j,
    0 <= j < Z.of_nat r ->
    In (pq + 4 * d * (j + 1), i + j) (bottom_writes r d pq i)
    /\ In (pq + 4 * d * (j + 1) + 1, i + j + 1) (bottom_writes r d pq i).
Proof.
  induction r as [|r IH]; intros pq i j Hj; [lia|].
  rewrite Nat2Z.inj_succ in Hj. cbn [bottom_writes].
  destruct (Z.eq_dec j 0) as [->|Hn].
  - split; [left|right; left]; f_equal; lia.
  - destruct (IH (pq + 4 * d) (i + 1) (j - 1) ltac:(lia)) as [H1 H2].
    replace (pq + 4 * d + 4 * d * (j - 1 + 1))
      with (pq + 4 * d * (j + 1)) in H1, H2 by ring.
    replace (i + 1 + (j - 1)) with (i + j) in H1 by ring.
    replace (i + 1 + (j - 1) + 1) with (i + j + 1) in H2 by ring.
    split; right; right; assumption.
Qed.
End LoopMembers.


Lemma seam_writes_parts (d : Z) (w : Z * Z) :
  In w (repair_top_writes d) \/ In w (repair_back_writes d)
  \/ In w (repair_bottom_writes d) \/ In w (repair_top_centre_writes d)
  \/ In w (repair_bottom_centre_writes d) ->
  In w (seam_writes d).
Proof. unfold seam_writes. rewrite !in_app_iff. tauto. Qed.

(** Splits on the condition of the leading [if] of a hypothesis. *)
Ltac cond H :=
  match type of H with
  | (if ?b then _ else _) = _ => destruct b eqn:?
  end.

(** Closes a membership goal with a membership in the same list of a
    pair equal to the goal's up to ring identities. *)
Ltac in_by T :=
  match type of T with
  | In (?p', ?v') _ =>
      match goal with
      | |- In (?p, ?v) _ =>
          replace p with p' by ring; replace v with v' by ring; exact T
      end
  end.

Ltac decode :=
  repeat match goal with
  | H : (_ && _) = true |- _ => apply andb_prop in H; destruct H
  | H : (_ =? _) = true |- _ => apply Z.eqb_eq in H
  | H : (_ <? _) = true |- _ => apply Z.ltb_lt in H
  | H : (_ <=? _) = true |- _ => apply Z.leb_le in H
  end.

Lemma some_inj (a b : Z) : Some a = Some b -> a = b.
Proof. congruence. Qed.

Ltac pair_ring := apply pair_equal_spec; split; ring.

(** Every corner [repaired] names is stored to. *)
Lemma repaired_written (d f r c k v : Z) :
  valid_divs d -> 2 <= d ->
  0 <= f < 6 -> 0 <= r < d -> 0 <= c < d -> 0 <= k < 4 ->
  repaired d f r c k = Some v ->
  In (quad_slot d f r c k, v) (seam_writes d).
Proof.
  intros Hd He Hf Hr Hc Hk H.
  destruct (valid_divs_half d Hd) as [h [Hh [[H1 _]|[Hdh Hhr]]]]; [lia|].
  assert (Hq : Z.of_nat (Z.to_nat (qtb d)) = h - 1)
    by (unfold qtb, ntb; rewrite Hh; lia).
  assert (Hq' : Z.of_nat (Z.to_nat (d - 1)) = d - 1) by lia.
  apply seam_writes_parts.
  unfold repair_top_writes, repair_back_writes,
    repair_bottom_writes, repair_top_centre_writes,
    repair_bottom_centre_writes.
  rewrite (top_pq_val d Hd), (back_pq_val d Hd), (bottom_pq_val d Hd),
    (top_centre_pq_val d Hd), (bottom_centre_pq_val d Hd).
  unfold repaired in H. cbv zeta in H.
  rewrite (idt_val d Hd), (idk_val d Hd), (idb_val d Hd), (idc_val d Hd)
    in *.
  rewrite Hq, Hq'. unfold quad_slot. rewrite (linewrds_val d Hd).
  rewrite Hh in *. subst d.
  pose proof (top_writes_in (2 * h) (Z.to_nat (qtb (2 * h)))) as Tw.
  pose proof (back_writes_in (2 * h) (Z.to_nat (2 * h - 1))) as Kw.
  pose proof (bottom_writes_in (2 * h) (Z.to_nat (qtb (2 * h)))) as Bw.
  rewrite Hq in Tw, Bw. rewrite Hq' in Kw.
  set (T := 24 * qpf (2 * h) + 4 * (qpf (2 * h) + h)) in *.
  set (K := 24 * qpf (2 * h) + 4 * (3 * qpf (2 * h) + h)) in *.
  set (B := 24 * qpf (2 * h)
            + 4 * (4 * qpf (2 * h) + (2 * h - h) * (2 * h) + h)) in *.
  set (P := 6 * ppf (2 * h)) in *.
  cond H.
  { decode. apply some_inj in H. subst v. subst f c k. left.
    apply in_or_app. destruct (Z.eq_dec r (h - 1)) as [->|Hn].
    - right. left. unfold T. pair_ring.
    - left. destruct (Tw T P r ltac:(lia)) as [T1 _].
      unfold T in *. in_by T1. }
  cond H.
  { decode. apply some_inj in H. subst v. subst f c k. left.
    apply in_or_app. left. destruct (Tw T P r ltac:(lia)) as [_ T1].
    unfold T in *. in_by T1. }
  cond H.
  { decode. apply some_inj in H. subst v. subst f c k r.
    right. right. right. left. right. left. pair_ring. }
  cond H.
  { decode. apply some_inj in H. subst v. subst f c k r.
    right. right. right. left. left. pair_ring. }
  cond H.
  { decode. apply some_inj in H. subst v. subst f c k. right. left.
    destruct (Z.eq_dec r 0) as [->|Hn].
    - left. unfold K. pair_ring.
    - right. apply in_or_app. left.
      destruct (Kw K (P + h + 1) (r - 1) ltac:(lia)) as [_ K1].
      unfold K in *. in_by K1. }
  cond H.
  { decode. apply some_inj in H. subst v. subst f c k. right. left.
    right. apply in_or_app.
    destruct (Z.eq_dec r (2 * h - 1)) as [->|Hn].
    - right. left. unfold K. pair_ring.
    - left. destruct (Kw K (P + h + 1) r ltac:(lia)) as [K1 _].
      unfold K in *. in_by K1. }
  cond H.
  { decode. apply some_inj in H. subst v. subst f c k. right. right. left.
    destruct (Z.eq_dec r h) as [->|Hn].
    - left. unfold B. pair_ring.
    - right.
      destruct (Bw B (P + h + dp1 (2 * h)) (r - h - 1) ltac:(lia))
        as [_ B1].
      unfold B in *. in_by B1. }
  cond H.
  { decode. apply some_inj in H. subst v. subst f c k. right. right. left. right.
    destruct (Bw B (P + h + dp1 (2 * h)) (r - h - 1) ltac:(lia))
      as [B1 _].
    unfold B in *. in_by B1. }
  cond H.
  { decode. apply some_inj in H. subst v. subst f c k r.
    right. right. right. right. right. left. pair_ring. }
  cond H.
  { decode. apply some_inj in H. subst v. subst f c k r.
    right. right. right. right. left. pair_ring. }
  discriminate H.
Qed.

(** The finished block, corner by corner. *)
Lemma seam_repair_quads (d f r c k : Z) :
  valid_divs d -> 2 <= d ->
  0 <= f < 6 -> 0 <= r < d -> 0 <= c < d -> 0 <= k < 4 ->
  exists blk,
    seam_repair d (index_builder d) = Some blk
    /\ nth (Z.to_nat (quad_slot d f r c k)) blk 0
       = match repaired d f r c k with
         | Some v => v
         | None => corner d (r * dp1 d + c + f * ppf d) k
         end.
Proof.
  intros Hd He Hf Hr Hc Hk.
  assert (Hm : 1 <= d <= max_divs) by (destruct Hd; lia).
  destruct (index_builder_good d Hm) as [HL _].
  exists (apply_writes (seam_writes d) (index_builder d)).
  split; [apply seam_repair_exact; assumption|].
  pose proof (seam_writes_cells d Hd He) as HC.
  rewrite Forall_forall in HC.
  pose proof (linewrds_val d Hd) as Hlw.
  assert (Hq : 0 < qpf d) by (unfold qpf; nia).
  assert (Hslot : forall f r c k,
             0 <= f < 6 -> 0 <= r < d -> 0 <= c < d -> 0 <= k < 4 ->
             0 <= quad_slot d f r c k < Z.of_nat (block_len d)).
  { intros f0 r0 c0 k0 Hf0 Hr0 Hc0 Hk0. unfold quad_slot, block_len.
    rewrite Hlw. unfold qpf in *. nia. }
  assert (Hpos : Forall (fun w => 0 <= fst w) (seam_writes d)).
  { apply Forall_forall. intros w Hw.
    destruct (HC w Hw) as [f0 [r0 [c0 [k0 [[? [? [? ?]]] [-> _]]]]]].
    apply Hslot; assumption. }
  assert (Huniq : forall v, In (quad_slot d f r c k, v) (seam_writes d) ->
                            repaired d f r c k = Some v).
  { intros v Hv.
    destruct (HC _ Hv)
      as [f0 [r0 [c0 [k0 [[Hf0 [Hr0 [Hc0 Hk0]]] [E [_ [_ R]]]]]]]].
    cbn [fst snd] in E, R.
    destruct (quad_slot_inj d f r c k f0 r0 c0 k0) as [-> [-> [-> ->]]];
      try assumption; lia. }
  destruct (repaired d f r c k) as [v|] eqn:R.
  - apply apply_writes_value; [exact Hpos| | |rewrite HL; apply Hslot;
                                               assumption].
    + apply repaired_written; assumption.
    + intros v' Hv'. specialize (Huniq v' Hv'). congruence.
  - rewrite (apply_writes_notin _ Hpos).
    + apply index_builder_entry; assumption.
    + apply Hslot; assumption.
    + intros v Hv. specialize (Huniq v Hv). discriminate Huniq.
Qed.

(** X13: For every argument from 1 up the repaired quad array is known corner
    by corner: corner [k] of the quad of cell [(r, c)] of face [f] holds
    the duplicate [repaired] names, and where it names none, the point
    the builder put there.  So the quads of column [d / 2] behind the
    poles and across the back face have their corners 0 and 1 on
    duplicates, the two quads left of the seam at the pole centres have
    that one corner on a centre duplicate, and nothing else changes. *)
Theorem seam_repair_result (divs_arg f r c k : Z) :
  1 <= divs_arg <= max_divs ->
  let d := round_divs divs_arg in
  0 <= f < 6 -> 0 <= r < d -> 0 <= c < d -> 0 <= k < 4 ->
  exists blk,
    quadsphere_indices divs_arg = Some blk
    /\ nth (Z.to_nat (4 * (f * qpf d + r * d + c) + k)) (quadidx_of d blk) 0
       = match repaired d f r c k with
         | Some v => v
         | None => corner d (r * dp1 d + c + f * ppf d) k
         end.
Proof.
  intros Ha d Hf Hr Hc Hk.
  assert (Hd : valid_divs d) by (apply round_divs_valid; lia).
  assert (He : 2 <= d).
  { unfold d. rewrite round_divs_pos by lia. lia. }
  destruct (seam_repair_quads d f r c k Hd He Hf Hr Hc Hk) as [blk [E H]].
  exists blk. split; [exact E|].
  unfold quadidx_of. rewrite nth_skipn. rewrite <- H. f_equal.
  unfold quad_slot. assert (Hq : 0 < qpf d) by (unfold qpf; nia).
  pose proof (linewrds_val d Hd). nia.
Qed.

Lemma seam_repair_result_witness :
  1 <= 2 <= max_divs
  /\ exists blk,
       quadsphere_indices 2 = Some blk
       /\ nth 52 (quadidx_of 2 blk) 0 = 55.
Proof.
  assert (H : 1 <= 2 <= max_divs) by (unfold max_divs; lia).
  split; [exact H|].
  destruct (seam_repair_result 2 3 0 1 0 H) as [blk [E R]];
    try (vm_compute; split; [discriminate|reflexivity]).
  exists blk. split; [exact E|exact R].
Defined.
End RepairResult.

(** ** The seam repair of the coordinate sets (quadsphere.cpp, 79-88, 482-536, 590-636) *)

(** *** Each set is repaired by itself *)

Section SetsApart.

Ltac split_options :=
  repeat match goal with
  | |- context [match ?x with Some _ => _ | None => _ end] =>
      destruct x; cbn [bind angls rects fishs cylis equis sters mercs]
  end.

Lemma on_sets_compose (fa fr ff fc fe ga gr gf gc ge : cells -> option cells)
      (t : tcsets) :
  bind (on_sets fa fr ff fc fe t) (on_sets ga gr gf gc ge)
  = on_sets (fun a => bind (fa a) ga) (fun a => bind (fr a) gr)
            (fun a => bind (ff a) gf) (fun a => bind (fc a) gc)
            (fun a => bind (fe a) ge) t.
Proof.
  unfold on_sets, bind.
  destruct (fa (angls t)) as [a|], (fr (rects t)) as [r|],
    (ff (fishs t)) as [f|], (fc (cylis t)) as [c|],
    (fe (equis t)) as [e|];
    cbn [angls rects fishs cylis equis sters mercs];
    split_options; reflexivity.
Qed.

Lemma on_sets_ext (fa fr ff fc fe ga gr gf gc ge : cells -> option cells)
      (t : tcsets) :
  (forall a, fa a = ga a) -> (forall a, fr a = gr a) ->
  (forall a, ff a = gf a) -> (forall a, fc a = gc a) ->
  (forall a, fe a = ge a) ->
  on_sets fa fr ff fc fe t = on_sets ga gr gf gc ge t.
Proof.
  intros Ha Hr Hf Hc He. unfold on_sets. rewrite Ha, Hr, Hf, Hc, He.
  reflexivity.
Qed.

Lemma on_sets_id (t : tcsets) :
  on_sets (fun a => Some a) (fun a => Some a) (fun a => Some a)
          (fun a => Some a) (fun a => Some a) t = Some t.
Proof. destruct t. reflexivity. Qed.

Lemma seam_tc_loop_sets (r : nat) (d : Z) :
  forall t ic id,
    seam_tc_loop r d t ic id
    = on_sets (fun a => set_loop copyTCs r d a ic id)
              (fun a => set_loop setEdgeTCs r d a ic id)
              (fun a => set_loop copyTCs r d a ic id)
              (fun a => set_loop setEdgeTCs r d a ic id)
              (fun a => set_loop setEdgeTCs r d a ic id) t.
Proof.
  induction r as [|r IH]; intros t ic id.
  - cbn [seam_tc_loop set_loop]. symmetry. apply on_sets_id.
  - cbn [seam_tc_loop set_loop].
    change (seam_step t ic id)
      with (on_sets (fun a => copyTCs a ic id) (fun a => setEdgeTCs a ic id)
                    (fun a => copyTCs a ic id) (fun a => setEdgeTCs a ic id)
                    (fun a => setEdgeTCs a ic id) t).
    rewrite <- on_sets_compose. unfold bind at 1.
    destruct (on_sets _ _ _ _ _ t) as [t1|]; [|reflexivity].
    cbn [bind]. apply IH.
Qed.

Lemma seam_tcs_sets (d : Z) (t : tcsets) :
  seam_tcs d t
  = on_sets (seam_set copyTCs d) (seam_set setEdgeTCs d)
            (seam_set copyTCs d) (seam_set setEdgeTCs d)
            (seam_set setEdgeTCs d) t.
Proof.
  unfold seam_tcs, seam_set.
  etransitivity; [|apply on_sets_compose].
  rewrite seam_tc_loop_sets.
  destruct (on_sets _ _ _ _ _ t) as [t1|]; [|reflexivity]. cbn [bind].
  etransitivity; [|apply on_sets_compose].
  rewrite seam_tc_loop_sets.
  destruct (on_sets _ _ _ _ _ t1) as [t2|]; [|reflexivity]. cbn [bind].
  apply seam_tc_loop_sets.
Qed.

(** The coordinate sets after construction, each set by itself. *)
Lemma quadsphere_texcoords_sets (fovw : R) (divs_arg : Z) (blk3 blk4 : list Z) :
  let d := round_divs divs_arg in
  (b <- repair_top d (index_builder d) ;; b <- repair_back d b ;;
   repair_bottom d b) = Some blk3 ->
  repair_top_centre d blk3 = Some blk4 ->
  quadsphere_texcoords fovw divs_arg
  = on_sets (repair_set copyTCs d blk3 blk4)
            (repair_set setEdgeTCs d blk3 blk4)
            (repair_set copyTCs d blk3 blk4)
            (repair_set setEdgeTCs d blk3 blk4)
            (repair_set setEdgeTCs d blk3 blk4)
            (texcoord_sets fovw d).
Proof.
  intros d H3 H4. unfold quadsphere_texcoords. fold d.
  unfold repair_set.
  etransitivity; [|apply on_sets_compose].
  rewrite seam_tcs_sets.
  destruct (on_sets _ _ _ _ _ (texcoord_sets fovw d)) as [t1|];
    [|reflexivity].
  cbn [bind].
  destruct (repair_top d (index_builder d)) as [b1|]; [|discriminate H3].
  cbn [bind] in *.
  destruct (repair_back d b1) as [b2|]; [|discriminate H3].
  cbn [bind] in *. rewrite H3. cbn [bind].
  etransitivity; [|apply on_sets_compose].
  change (centre_tcs_top d blk3 t1)
    with (on_sets (centre_top_set d blk3) (centre_top_set d blk3)
                  (centre_top_set d blk3) (centre_top_set d blk3)
                  (centre_top_set d blk3) t1).
  destruct (on_sets _ _ _ _ _ t1) as [t2|]; [|reflexivity].
  cbn [bind]. rewrite H4. cbn [bind]. reflexivity.
Qed.
End SetsApart.

(** *** Reads and stores of one set *)

Lemma length_upd_cell (i : nat) (v : option R) (a : cells) :
  length (upd_cell i v a) = length a.
Proof.
  revert i. induction a as [|h t IH]; intros [|i]; simpl; auto.
Qed.

Lemma nth_upd_cell_same (i : nat) (v : option R) (a : cells) :
  (i < length a)%nat -> nth i (upd_cell i v a) None = v.
Proof.
  revert i. induction a as [|h t IH]; intros i H.
  - simpl in H. lia.
  - destruct i; simpl in *; [reflexivity|apply IH; lia].
Qed.

Lemma nth_upd_cell_other (i j : nat) (v : option R) (a : cells) :
  i <> j -> nth j (upd_cell i v a) None = nth j a None.
Proof.
  revert i j. induction a as [|h t IH]; intros i j H.
  - destruct i; reflexivity.
  - destruct i, j; simpl; try reflexivity; try congruence.
    apply IH. congruence.
Qed.

Lemma rd_in_range (a : cells) (i : Z) :
  rd a i <> None -> 0 <= i < Z.of_nat (length a).
Proof.
  unfold rd.
  destruct (Z.leb_spec 0 i);
    destruct (Z.ltb_spec i (Z.of_nat (length a)));
    cbn [andb]; intros Hn; try lia; congruence.
Qed.

Lemma wr_spec (a : cells) (i : Z) (v : R) :
  0 <= i < Z.of_nat (length a) ->
  exists a',
    wr a i v = Some a' /\ length a' = length a
    /\ rd a' i = Some v
    /\ forall j, j <> i -> rd a' j = rd a j.
Proof.
  intros H. unfold wr.
  destruct (Z.leb_spec 0 i); [|lia].
  destruct (Z.ltb_spec i (Z.of_nat (length a))); [|lia]. cbn [andb].
  eexists. split; [reflexivity|]. split; [apply length_upd_cell|].
  split.
  - unfold rd. rewrite length_upd_cell.
    destruct (Z.leb_spec 0 i); [|lia].
    destruct (Z.ltb_spec i (Z.of_nat (length a))); [|lia]. cbn [andb].
    apply nth_upd_cell_same. lia.
  - intros j Hj. unfold rd. rewrite length_upd_cell.
    destruct ((0 <=? j) && (j <? Z.of_nat (length a))) eqn:E;
      [|reflexivity].
    apply andb_prop in E. destruct E as [E1 E2].
    apply Z.leb_le in E1. apply Z.ltb_lt in E2.
    apply nth_upd_cell_other. lia.
Qed.

(** Runs one store of a call on a coordinate set; [tac] shows that the
    store is inside the set. *)
Ltac wr_step tac a' L S F :=
  match goal with
  | |- context [wr ?a ?i ?v] =>
      let E := fresh "E" in
      destruct (wr_spec a i v) as [a' [E [L [S F]]]];
      [ tac | rewrite E; cbn [bind]; clear E ]
  end.

Lemma copyTCs_spec (a : cells) (ic id : Z) (x y : R) :
  0 <= ic -> ic + 1 < id -> id + 1 < Z.of_nat (length a) ->
  id + 1 < 4294967296 ->
  rd a ic = Some x -> rd a (ic + 1) = Some y ->
  exists a',
    copyTCs a ic id = Some a' /\ length a' = length a
    /\ rd a' id = Some x /\ rd a' (id + 1) = Some y
    /\ forall p, p <> id -> p <> id + 1 -> rd a' p = rd a p.
Proof.
  intros Hic Hid Hlen Hu Hx Hy. unfold copyTCs.
  rewrite Hx. cbn [bind].
  rewrite !u32_small by lia.
  wr_step ltac:(lia) a1 L1 S1 F1.
  rewrite F1 by lia. rewrite Hy. cbn [bind].
  wr_step ltac:(rewrite L1; lia) a2 L2 S2 F2.
  exists a2. split; [reflexivity|]. split; [congruence|].
  split; [rewrite F2 by lia; exact S1|]. split; [exact S2|].
  intros p H1 H2. rewrite F2, F1 by lia. reflexivity.
Qed.

Lemma setEdgeTCs_spec (a : cells) (ic id : Z) (x y z : R) :
  2 <= ic -> ic + 2 < id -> id + 1 < Z.of_nat (length a) ->
  id + 1 < 4294967296 ->
  rd a (ic - 2) = Some x -> rd a (ic + 2) = Some y ->
  rd a (ic + 1) = Some z ->
  exists a',
    setEdgeTCs a ic id = Some a' /\ length a' = length a
    /\ rd a' ic = Some (EVAL x) /\ rd a' id = Some (EVAL y)
    /\ rd a' (id + 1) = Some z
    /\ forall p, p <> ic -> p <> id -> p <> id + 1 -> rd a' p = rd a p.
Proof.
  intros Hic Hid Hlen Hu Hx Hy Hz. unfold setEdgeTCs.
  rewrite !u32_small by lia.
  rewrite Hx. cbn [bind].
  wr_step ltac:(lia) a1 L1 S1 F1.
  rewrite F1 by lia. rewrite Hy. cbn [bind].
  wr_step ltac:(rewrite L1; lia) a2 L2 S2 F2.
  rewrite F2, F1 by lia. rewrite Hz. cbn [bind].
  wr_step ltac:(rewrite L2, L1; lia) a3 L3 S3 F3.
  exists a3. split; [reflexivity|]. split; [congruence|].
  split; [rewrite F3, F2 by lia; exact S1|].
  split; [rewrite F3 by lia; exact S2|]. split; [exact S3|].
  intros p H1 H2 H3. rewrite F3, F2, F1 by lia. reflexivity.
Qed.

Lemma rd_some (a : cells) (p : Z) :
  rd a p <> None -> exists x, rd a p = Some x.
Proof. destruct (rd a p) as [x|]; [eauto|congruence]. Qed.

Section SetLoops.
Variable d : Z.
Hypothesis d_pos : 1 <= d.
Variable N : Z.

Lemma copy_loop_spec (r : nat) :
  forall a ic id,
    0 <= ic -> N <= id ->
    (forall j, 0 <= j < Z.of_nat r -> ic + 2 * dp1 d * j + 2 < N) ->
    ic + 2 * dp1 d * Z.of_nat r < 4294967296 ->
    id + 2 * Z.of_nat r <= Z.of_nat (length a) ->
    id + 2 * Z.of_nat r < 4294967296 ->
    (forall p, 0 <= p < N -> rd a p <> None) ->
    exists a',
      set_loop copyTCs r d a ic id = Some a' /\ length a' = length a
      /\ (forall j, 0 <= j < Z.of_nat r ->
                    rd a' (id + 2 * j) = rd a (ic + 2 * dp1 d * j)
                    /\ rd a' (id + 2 * j + 1)
                       = rd a (ic + 2 * dp1 d * j + 1))
      /\ (forall p, ~ id <= p < id + 2 * Z.of_nat r -> rd a' p = rd a p)
      /\ (forall p, 0 <= p < N -> rd a' p <> None).
Proof.
  induction r as [|r IH]; intros a ic id Hic Hid Hrd Hu Hlen Hu' Hinit.
  - exists a. split; [reflexivity|]. split; [reflexivity|].
    split; [intros j Hj; lia|]. split; [intros; reflexivity|exact Hinit].
  - rewrite Nat2Z.inj_succ in *. cbn [set_loop].
    assert (Hd1 : 2 <= dp1 d) by (unfold dp1; lia).
    pose proof (Hrd 0 ltac:(lia)) as H0.
    destruct (rd_some a ic (Hinit ic ltac:(lia))) as [x Hx].
    destruct (rd_some a (ic + 1) (Hinit (ic + 1) ltac:(lia))) as [y Hy].
    destruct (copyTCs_spec a ic id x y) as [a1 [E [L1 [Sx [Sy F1]]]]];
      try assumption; try lia.
    rewrite E. cbn [bind]. clear E.
    rewrite (u32_small (ic + 2 * dp1 d)) by nia.
    rewrite (u32_small (id + 2)) by lia.
    assert (P1 : forall j, 0 <= j < Z.of_nat r ->
                           ic + 2 * dp1 d + 2 * dp1 d * j + 2 < N).
    { intros j Hj. specialize (Hrd (j + 1) ltac:(lia)). nia. }
    assert (P2 : ic + 2 * dp1 d + 2 * dp1 d * Z.of_nat r < 4294967296)
      by nia.
    assert (P3 : id + 2 + 2 * Z.of_nat r <= Z.of_nat (length a1))
      by (rewrite L1; lia).
    assert (P4 : forall p, 0 <= p < N -> rd a1 p <> None).
    { intros p Hp. rewrite F1 by lia. apply Hinit. exact Hp. }
    destruct (IH a1 (ic + 2 * dp1 d) (id + 2) ltac:(lia) ltac:(lia) P1 P2
                 P3 ltac:(lia) P4) as [a' [E [L' [C [F' I']]]]].
    exists a'. split; [exact E|]. split; [congruence|].
    split; [|split; [|exact I']].
    + intros j Hj. destruct (Z.eq_dec j 0) as [->|Hn].
      * rewrite !F' by lia.
        replace (id + 2 * 0) with id by ring.
        replace (ic + 2 * dp1 d * 0) with ic by ring.
        rewrite Sx, Sy, Hx, Hy. split; reflexivity.
      * destruct (C (j - 1) ltac:(lia)) as [C1 C2].
        specialize (Hrd j ltac:(lia)).
        replace (id + 2 + 2 * (j - 1)) with (id + 2 * j) in C1, C2
          by ring.
        replace (ic + 2 * dp1 d + 2 * dp1 d * (j - 1))
          with (ic + 2 * dp1 d * j) in C1, C2 by ring.
        rewrite C1, C2. rewrite !F1 by nia. split; reflexivity.
    + intros p Hp. rewrite F' by lia. apply F1; lia.
Qed.

Lemma edge_loop_spec (r : nat) :
  forall a ic id,
    2 <= ic -> N <= id ->
    (forall j, 0 <= j < Z.of_nat r -> ic + 2 * dp1 d * j + 2 < N) ->
    ic + 2 * dp1 d * Z.of_nat r < 4294967296 ->
    id + 2 * Z.of_nat r <= Z.of_nat (length a) ->
    id + 2 * Z.of_nat r < 4294967296 ->
    (forall p, 0 <= p < N -> rd a p <> None) ->
    exists a',
      set_loop setEdgeTCs r d a ic id = Some a' /\ length a' = length a
      /\ (forall j, 0 <= j < Z.of_nat r ->
                    rd a' (ic + 2 * dp1 d * j)
                    = option_map EVAL (rd a (ic + 2 * dp1 d * j - 2))
                    /\ rd a' (id + 2 * j)
                       = option_map EVAL (rd a (ic + 2 * dp1 d * j + 2))
                    /\ rd a' (id + 2 * j + 1)
                       = rd a (ic + 2 * dp1 d * j + 1))
      /\ (forall p, (forall j, 0 <= j < Z.of_nat r ->
                               p <> ic + 2 * dp1 d * j) ->
                    ~ id <= p < id + 2 * Z.of_nat r -> rd a' p = rd a p)
      /\ (forall p, 0 <= p < N -> rd a' p <> None).
Proof.
  induction r as [|r IH]; intros a ic id Hic Hid Hrd Hu Hlen Hu' Hinit.
  - exists a. split; [reflexivity|]. split; [reflexivity|].
    split; [intros j Hj; lia|]. split; [intros; reflexivity|exact Hinit].
  - rewrite Nat2Z.inj_succ in *. cbn [set_loop].
    assert (Hd1 : 2 <= dp1 d) by (unfold dp1; lia).
    pose proof (Hrd 0 ltac:(lia)) as H0.
    destruct (rd_some a (ic - 2) (Hinit (ic - 2) ltac:(lia))) as [x Hx].
    destruct (rd_some a (ic + 2) (Hinit (ic + 2) ltac:(lia))) as [y Hy].
    destruct (rd_some a (ic + 1) (Hinit (ic + 1) ltac:(lia))) as [z Hz].
    destruct (setEdgeTCs_spec a ic id x y z)
      as [a1 [E [L1 [Sx [Sy [Sz F1]]]]]]; try assumption; try lia.
    rewrite E. cbn [bind]. clear E.
    rewrite (u32_small (ic + 2 * dp1 d)) by nia.
    rewrite (u32_small (id + 2)) by lia.
    assert (Hinit1 : forall p, 0 <= p < N -> rd a1 p <> None).
    { intros p Hp. destruct (Z.eq_dec p ic) as [->|Hn].
      - rewrite Sx. discriminate.
      - rewrite F1 by lia. apply Hinit. exact Hp. }
    assert (P1 : forall j, 0 <= j < Z.of_nat r ->
                           ic + 2 * dp1 d + 2 * dp1 d * j + 2 < N).
    { intros j Hj. specialize (Hrd (j + 1) ltac:(lia)). nia. }
    assert (P2 : ic + 2 * dp1 d + 2 * dp1 d * Z.of_nat r < 4294967296)
      by nia.
    assert (P3 : id + 2 + 2 * Z.of_nat r <= Z.of_nat (length a1))
      by (rewrite L1; lia).
    destruct (IH a1 (ic + 2 * dp1 d) (id + 2) ltac:(lia) ltac:(lia) P1 P2
                 P3 ltac:(lia) Hinit1) as [a' [E [L' [C [F' I']]]]].
    exists a'. split; [exact E|]. split; [congruence|].
    split; [|split; [|exact I']].
    + intros j Hj. destruct (Z.eq_dec j 0) as [->|Hn].
      * replace (id + 2 * 0) with id by ring.
        replace (ic + 2 * dp1 d * 0) with ic by ring.
        assert (F0 : forall p, p = ic \/ p = id \/ p = id + 1 ->
                               rd a' p = rd a1 p).
        { intros p Hp. apply F'; [|lia].
          intros j' Hj'. specialize (P1 j' Hj'). nia. }
        rewrite !F0 by lia.
        rewrite Sx, Sy, Sz, Hx, Hy, Hz. repeat split; reflexivity.
      * destruct (C (j - 1) ltac:(lia)) as [C1 [C2 C3]].
        specialize (Hrd j ltac:(lia)).
        replace (id + 2 + 2 * (j - 1)) with (id + 2 * j) in C2 by ring.
        replace (id + 2 + 2 * (j - 1)) with (id + 2 * j) in C3 by ring.
        replace (ic + 2 * dp1 d + 2 * dp1 d * (j - 1))
          with (ic + 2 * dp1 d * j) in C1 by ring.
        replace (ic + 2 * dp1 d + 2 * dp1 d * (j - 1))
          with (ic + 2 * dp1 d * j) in C2 by ring.
        replace (ic + 2 * dp1 d + 2 * dp1 d * (j - 1))
          with (ic + 2 * dp1 d * j) in C3 by ring.
        rewrite C1, C2, C3. rewrite !F1 by nia.
        repeat split; reflexivity.
    + intros p Hp1 Hp2. rewrite F'.
      * apply F1; try lia. specialize (Hp1 0 ltac:(lia)). lia.
      * intros j Hj. specialize (Hp1 (j + 1) ltac:(lia)). nia.
      * lia.
Qed.
End SetLoops.

(** *** The three seam loops on one set *)

Section SeamSets.

Lemma in_seam_pairs (d i k : Z) :
  In (i, k) (seam_pairs d) ->
  (exists j, 0 <= j < ntb d /\ i = ipt d + j * dp1 d /\ k = idt d + j)
  \/ (exists j, 0 <= j < dp1 d /\ i = ipk d + j * dp1 d /\ k = idk d + j)
  \/ (exists j, 0 <= j < ntb d /\ i = ipb d + j * dp1 d /\ k = idb d + j).
Proof.
  unfold seam_pairs. rewrite !in_app_iff, !in_map_iff.
  intros [[j [E Hj]]|[[j [E Hj]]|[j [E Hj]]]];
    apply in_zrange in Hj; apply pair_equal_spec in E; destruct E;
    [left|right; left|right; right]; exists j; repeat split; lia.
Qed.

Lemma seam_pairs_in (d j : Z) :
  (0 <= j < ntb d -> In (ipt d + j * dp1 d, idt d + j) (seam_pairs d))
  /\ (0 <= j < dp1 d -> In (ipk d + j * dp1 d, idk d + j) (seam_pairs d))
  /\ (0 <= j < ntb d -> In (ipb d + j * dp1 d, idb d + j) (seam_pairs d)).
Proof.
  unfold seam_pairs. rewrite !in_app_iff, !in_map_iff.
  repeat split; intros Hj;
    [left|right; left|right; right]; exists j;
    (split; [reflexivity|apply in_zrange; exact Hj]).
Qed.

(** The sizes and seam constants of an even resolution, in terms of
    [h = d / 2]. *)
Lemma even_resolution (d : Z) :
  valid_divs d -> 2 <= d ->
  exists h,
    1 <= h <= 2675 /\ d = 2 * h /\ ntb d = h /\ dp1 d = 2 * h + 1
    /\ ppf d = dp1 d * dp1 d
    /\ vertpnts d = 6 * ppf d + dp1 d + 2 * h + 4
    /\ ipt d = ppf d + h /\ ipk d = 3 * ppf d + h
    /\ ipb d = 4 * ppf d + (h + 1) * dp1 d + h
    /\ idt d = 6 * ppf d /\ idk d = 6 * ppf d + h
    /\ idb d = 6 * ppf d + h + dp1 d
    /\ idc d = 6 * ppf d + 2 * h + dp1 d.
Proof.
  intros Hd He.
  destruct (valid_divs_half d Hd) as [h [Hh [[H1 _]|[Hdh Hhr]]]]; [lia|].
  destruct (seam_points_val d Hd) as [Ept [Epk [Epb _]]].
  exists h. unfold ntb in *. rewrite Hh in *.
  rewrite Ept, Epk, Epb, (idt_val d Hd), (idk_val d Hd), (idb_val d Hd),
    (idc_val d Hd), (vertpnts_val d Hd), Hh.
  assert (HD : dp1 d = 2 * h + 1) by (unfold dp1; lia).
  repeat split; try lia; reflexivity.
Qed.

(** The three seam loops on a set repaired with [setEdgeTCs]: each seam
    point takes [EVAL] of its left neighbour's first coordinate, its
    duplicate [EVAL] of the right neighbour's and the seam point's
    second coordinate; no other float below the centre duplicates
    changes. *)
Lemma seam_edge_spec (d : Z) (a : cells) :
  valid_divs d -> 2 <= d ->
  Z.of_nat (length a) = 2 * vertpnts d ->
  (forall p, 0 <= p < 12 * ppf d -> rd a p <> None) ->
  exists a',
    seam_set setEdgeTCs d a = Some a' /\ length a' = length a
    /\ (forall i k, In (i, k) (seam_pairs d) ->
          rd a' (2 * i) = option_map EVAL (rd a (2 * i - 2))
          /\ rd a' (2 * k) = option_map EVAL (rd a (2 * i + 2))
          /\ rd a' (2 * k + 1) = rd a (2 * i + 1))
    /\ (forall p, 0 <= p < 12 * ppf d ->
          (forall i k, In (i, k) (seam_pairs d) -> p <> 2 * i) ->
          rd a' p = rd a p)
    /\ (forall p, 2 * idc d <= p -> rd a' p = rd a p)
    /\ (forall p, 0 <= p < 12 * ppf d -> rd a' p <> None).
Proof.
  intros Hd He HL Hinit.
  pose proof (valid_divs_pos d Hd) as Hpos.
  destruct (even_resolution d Hd He)
    as [h [Hh [Hdh [Hn [HD [HP [HV [Ept [Epk [Epb [It [Ik [Ib Ic]]]]]]]]]]]]].
  unfold seam_set. rewrite Hn, Ept, Epk, Epb, It, Ik, Ib.
  set (P := ppf d) in *. set (D := dp1 d) in *.
  assert (HPpos : 9 <= P) by nia.
  rewrite !u32_small by nia.
  assert (Hh' : Z.of_nat (Z.to_nat h) = h) by lia.
  assert (HD' : Z.of_nat (Z.to_nat D) = D) by lia.
  assert (A1 : forall j, 0 <= j < Z.of_nat (Z.to_nat h) ->
                         2 * (P + h) + 2 * dp1 d * j + 2 < 12 * P)
    by (intros j Hj; fold D; nia).
  assert (A2 : forall j, 0 <= j < Z.of_nat (Z.to_nat D) ->
                         2 * (3 * P + h) + 2 * dp1 d * j + 2 < 12 * P)
    by (intros j Hj; fold D; nia).
  assert (A3 : forall j, 0 <= j < Z.of_nat (Z.to_nat h) ->
                         2 * (4 * P + (h + 1) * D + h) + 2 * dp1 d * j + 2
                         < 12 * P)
    by (intros j Hj; fold D; nia).
  destruct (edge_loop_spec d Hpos (12 * P) (Z.to_nat h) a
              (2 * (P + h)) (2 * (6 * P)) ltac:(nia) ltac:(nia) A1
              ltac:(fold D; nia) ltac:(nia) ltac:(nia) Hinit)
    as [a1 [E1 [L1 [C1 [F1 I1]]]]].
  rewrite E1. cbn [bind]. clear E1.
  destruct (edge_loop_spec d Hpos (12 * P) (Z.to_nat D) a1
              (2 * (3 * P + h)) (2 * (6 * P + h)) ltac:(nia) ltac:(nia) A2
              ltac:(fold D; nia) ltac:(nia) ltac:(nia) I1)
    as [a2 [E2 [L2 [C2 [F2 I2]]]]].
  rewrite E2. cbn [bind]. clear E2.
  destruct (edge_loop_spec d Hpos (12 * P) (Z.to_nat h) a2
              (2 * (4 * P + (h + 1) * D + h)) (2 * (6 * P + h + D))
              ltac:(nia) ltac:(nia) A3
              ltac:(fold D; nia) ltac:(nia) ltac:(nia) I2)
    as [a3 [E3 [L3 [C3 [F3 I3]]]]].
  rewrite E3. clear E3 A1 A2 A3.
  rewrite Hh' in C1, F1, C3, F3. rewrite HD' in C2, F2.
  fold D in C1, F1, C2, F2, C3, F3.
  exists a3. split; [reflexivity|]. split; [congruence|].
  (* frames in a usable form *)
  assert (G1 : forall p, 0 <= p < 4 * P \/ 12 * P + 2 * h <= p ->
                         (forall j, 0 <= j < h -> p <> 2 * (P + h) + 2 * D * j) ->
                         rd a1 p = rd a p).
  { intros p Hp Hj. apply F1; [exact Hj|lia]. }
  assert (G1' : forall p, 4 * P <= p < 12 * P -> rd a1 p = rd a p).
  { intros p Hp. apply F1; [|lia]. intros j Hj. nia. }
  assert (G2 : forall p, 0 <= p < 6 * P \/ 8 * P <= p < 12 * P + 2 * h
                         \/ 12 * P + 2 * h + 2 * D <= p ->
                         rd a2 p = rd a1 p).
  { intros p Hp. apply F2; [|lia]. intros j Hj. nia. }
  assert (G3 : forall p, 0 <= p < 8 * P \/ 10 * P <= p < 12 * P + 2 * h + 2 * D
                         \/ 12 * P + 2 * h + 2 * D + 2 * h <= p ->
                         rd a3 p = rd a2 p).
  { intros p Hp. apply F3; [|lia]. intros j Hj. nia. }
  split; [|split; [|split]].
  - intros i k Hin. apply in_seam_pairs in Hin.
    rewrite Hn, Ept, Epk, Epb, It, Ik, Ib in Hin. fold P D in Hin.
    destruct Hin as [[j [Hj [-> ->]]]|[[j [Hj [-> ->]]]|[j [Hj [-> ->]]]]].
    + destruct (C1 j Hj) as [X1 [X2 X3]].
      replace (2 * (P + h + j * D)) with (2 * (P + h) + 2 * D * j) by ring.
      replace (2 * (6 * P + j)) with (2 * (6 * P) + 2 * j) by ring.
      rewrite !G3 by nia. rewrite !G2 by nia.
      rewrite X1, X2, X3. repeat split; reflexivity.
    + destruct (C2 j Hj) as [X1 [X2 X3]].
      replace (2 * (3 * P + h + j * D))
        with (2 * (3 * P + h) + 2 * D * j) by ring.
      replace (2 * (6 * P + h + j)) with (2 * (6 * P + h) + 2 * j) by ring.
      rewrite !G3 by nia.
      rewrite X1, X2, X3. rewrite !G1' by nia. repeat split; reflexivity.
    + destruct (C3 j Hj) as [X1 [X2 X3]].
      replace (2 * (4 * P + (h + 1) * D + h + j * D))
        with (2 * (4 * P + (h + 1) * D + h) + 2 * D * j) by ring.
      replace (2 * (6 * P + h + D + j))
        with (2 * (6 * P + h + D) + 2 * j) by ring.
      rewrite X1, X2, X3. rewrite !G2 by nia. rewrite !G1' by nia.
      repeat split; reflexivity.
  - intros p Hp Hne.
    assert (Q1 : forall j, 0 <= j < h -> p <> 2 * (P + h) + 2 * D * j).
    { intros j Hj. destruct (seam_pairs_in d j) as [M _].
      rewrite Hn, Ept, It in M. fold P D in M.
      specialize (Hne _ _ (M Hj)). lia. }
    assert (Q2 : forall j, 0 <= j < D -> p <> 2 * (3 * P + h) + 2 * D * j).
    { intros j Hj. destruct (seam_pairs_in d j) as [_ [M _]].
      rewrite Epk, Ik in M. fold P D in M.
      specialize (Hne _ _ (M Hj)). lia. }
    assert (Q3 : forall j, 0 <= j < h ->
                           p <> 2 * (4 * P + (h + 1) * D + h) + 2 * D * j).
    { intros j Hj. destruct (seam_pairs_in d j) as [_ [_ M]].
      rewrite Hn, Epb, Ib in M. fold P D in M.
      specialize (Hne _ _ (M Hj)). lia. }
    rewrite F3 by (try exact Q3; lia).
    rewrite F2 by (try exact Q2; lia).
    apply F1; [exact Q1|lia].
  - intros p Hp. rewrite Ic in Hp. fold D in Hp.
    rewrite G3 by lia. rewrite G2 by lia. apply G1; [lia|].
    intros j Hj. nia.
  - exact I3.
Qed.
End SeamSets.

Section SeamCopies.

(** The three seam loops on a set repaired with [copyTCs]: each
    duplicate takes both coordinates of its seam point, and nothing else
    changes. *)
Lemma seam_copy_spec (d : Z) (a : cells) :
  valid_divs d -> 2 <= d ->
  Z.of_nat (length a) = 2 * vertpnts d ->
  (forall p, 0 <= p < 12 * ppf d -> rd a p <> None) ->
  exists a',
    seam_set copyTCs d a = Some a' /\ length a' = length a
    /\ (forall i k, In (i, k) (seam_pairs d) ->
          rd a' (2 * k) = rd a (2 * i)
          /\ rd a' (2 * k + 1) = rd a (2 * i + 1))
    /\ (forall p, 0 <= p < 12 * ppf d -> rd a' p = rd a p)
    /\ (forall p, 2 * idc d <= p -> rd a' p = rd a p)
    /\ (forall p, 0 <= p < 12 * ppf d -> rd a' p <> None).
Proof.
  intros Hd He HL Hinit.
  pose proof (valid_divs_pos d Hd) as Hpos.
  destruct (even_resolution d Hd He)
    as [h [Hh [Hdh [Hn [HD [HP [HV [Ept [Epk [Epb [It [Ik [Ib Ic]]]]]]]]]]]]].
  unfold seam_set. rewrite Hn, Ept, Epk, Epb, It, Ik, Ib.
  set (P := ppf d) in *. set (D := dp1 d) in *.
  assert (HPpos : 9 <= P) by nia.
  rewrite !u32_small by nia.
  assert (Hh' : Z.of_nat (Z.to_nat h) = h) by lia.
  assert (HD' : Z.of_nat (Z.to_nat D) = D) by lia.
  assert (A1 : forall j, 0 <= j < Z.of_nat (Z.to_nat h) ->
                         2 * (P + h) + 2 * dp1 d * j + 2 < 12 * P)
    by (intros j Hj; fold D; nia).
  assert (A2 : forall j, 0 <= j < Z.of_nat (Z.to_nat D) ->
                         2 * (3 * P + h) + 2 * dp1 d * j + 2 < 12 * P)
    by (intros j Hj; fold D; nia).
  assert (A3 : forall j, 0 <= j < Z.of_nat (Z.to_nat h) ->
                         2 * (4 * P + (h + 1) * D + h) + 2 * dp1 d * j + 2
                         < 12 * P)
    by (intros j Hj; fold D; nia).
  destruct (copy_loop_spec d Hpos (12 * P) (Z.to_nat h) a
              (2 * (P + h)) (2 * (6 * P)) ltac:(nia) ltac:(nia) A1
              ltac:(fold D; nia) ltac:(nia) ltac:(nia) Hinit)
    as [a1 [E1 [L1 [C1 [F1 I1]]]]].
  rewrite E1. cbn [bind]. clear E1.
  destruct (copy_loop_spec d Hpos (12 * P) (Z.to_nat D) a1
              (2 * (3 * P + h)) (2 * (6 * P + h)) ltac:(nia) ltac:(nia) A2
              ltac:(fold D; nia) ltac:(nia) ltac:(nia) I1)
    as [a2 [E2 [L2 [C2 [F2 I2]]]]].
  rewrite E2. cbn [bind]. clear E2.
  destruct (copy_loop_spec d Hpos (12 * P) (Z.to_nat h) a2
              (2 * (4 * P + (h + 1) * D + h)) (2 * (6 * P + h + D))
              ltac:(nia) ltac:(nia) A3
              ltac:(fold D; nia) ltac:(nia) ltac:(nia) I2)
    as [a3 [E3 [L3 [C3 [F3 I3]]]]].
  rewrite E3. clear E3 A1 A2 A3.
  rewrite Hh' in C1, F1, C3, F3. rewrite HD' in C2, F2.
  fold D in C1, F1, C2, F2, C3, F3.
  exists a3. split; [reflexivity|]. split; [congruence|].
  assert (G1 : forall p, 0 <= p < 12 * P \/ 12 * P + 2 * h <= p ->
                         rd a1 p = rd a p).
  { intros p Hp. apply F1. lia. }
  assert (G2 : forall p, 0 <= p < 12 * P + 2 * h
                         \/ 12 * P + 2 * h + 2 * D <= p ->
                         rd a2 p = rd a1 p).
  { intros p Hp. apply F2. lia. }
  assert (G3 : forall p, 0 <= p < 12 * P + 2 * h + 2 * D
                         \/ 12 * P + 2 * h + 2 * D + 2 * h <= p ->
                         rd a3 p = rd a2 p).
  { intros p Hp. apply F3. lia. }
  split; [|split; [|split]].
  - intros i k Hin. apply in_seam_pairs in Hin.
    rewrite Hn, Ept, Epk, Epb, It, Ik, Ib in Hin. fold P D in Hin.
    destruct Hin as [[j [Hj [-> ->]]]|[[j [Hj [-> ->]]]|[j [Hj [-> ->]]]]].
    + destruct (C1 j Hj) as [X1 X2].
      replace (2 * (P + h + j * D)) with (2 * (P + h) + 2 * D * j) by ring.
      replace (2 * (6 * P + j)) with (2 * (6 * P) + 2 * j) by ring.
      rewrite !G3 by nia. rewrite !G2 by nia.
      rewrite X1, X2. split; reflexivity.
    + destruct (C2 j Hj) as [X1 X2].
      replace (2 * (3 * P + h + j * D))
        with (2 * (3 * P + h) + 2 * D * j) by ring.
      replace (2 * (6 * P + h + j)) with (2 * (6 * P + h) + 2 * j) by ring.
      rewrite !G3 by nia.
      rewrite X1, X2. rewrite !G1 by nia. split; reflexivity.
    + destruct (C3 j Hj) as [X1 X2].
      replace (2 * (4 * P + (h + 1) * D + h + j * D))
        with (2 * (4 * P + (h + 1) * D + h) + 2 * D * j) by ring.
      replace (2 * (6 * P + h + D + j))
        with (2 * (6 * P + h + D) + 2 * j) by ring.
      rewrite X1, X2. rewrite !G2 by nia. rewrite !G1 by nia.
      split; reflexivity.
  - intros p Hp. rewrite G3, G2, G1 by lia. reflexivity.
  - intros p Hp. rewrite Ic in Hp. fold D in Hp.
    rewrite G3, G2, G1 by lia. reflexivity.
  - exact I3.
Qed.

(** Every pair joins a point inside a face row with a duplicate, and
    every duplicate below the centre ones is in a pair. *)
Lemma seam_pairs_range (d i k : Z) :
  valid_divs d -> 2 <= d -> In (i, k) (seam_pairs d) ->
  1 <= i /\ i + 1 < 6 * ppf d /\ idt d <= k < idc d.
Proof.
  intros Hd He Hin.
  destruct (even_resolution d Hd He)
    as [h [Hh [Hdh [Hn [HD [HP [HV [Ept [Epk [Epb [It [Ik [Ib Ic]]]]]]]]]]]]].
  apply in_seam_pairs in Hin.
  rewrite Hn, Ept, Epk, Epb, It, Ik, Ib in Hin. rewrite It, Ic.
  set (P := ppf d) in *. set (D := dp1 d) in *.
  destruct Hin as [[j [Hj [-> ->]]]|[[j [Hj [-> ->]]]|[j [Hj [-> ->]]]]];
    nia.
Qed.

Lemma seam_pairs_cover (d k : Z) :
  valid_divs d -> 2 <= d -> idt d <= k < idc d ->
  exists i, In (i, k) (seam_pairs d).
Proof.
  intros Hd He Hk.
  destruct (even_resolution d Hd He)
    as [h [Hh [Hdh [Hn [HD [HP [HV [Ept [Epk [Epb [It [Ik [Ib Ic]]]]]]]]]]]]].
  rewrite It, Ic in Hk.
  assert (Hc : 0 <= k - idt d < ntb d \/ 0 <= k - idk d < dp1 d
               \/ 0 <= k - idb d < ntb d) by lia.
  destruct Hc as [Hc|[Hc|Hc]].
  - destruct (seam_pairs_in d (k - idt d)) as [M _]. specialize (M Hc).
    replace (idt d + (k - idt d)) with k in M by ring. eauto.
  - destruct (seam_pairs_in d (k - idk d)) as [_ [M _]]. specialize (M Hc).
    replace (idk d + (k - idk d)) with k in M by ring. eauto.
  - destruct (seam_pairs_in d (k - idb d)) as [_ [_ M]]. specialize (M Hc).
    replace (idb d + (k - idb d)) with k in M by ring. eauto.
Qed.
End SeamCopies.

(** *** The centre macros on one set *)

Section Centres.

Lemma ld_spec (blk : list Z) (p : Z) :
  0 <= p < Z.of_nat (length blk) ->
  ld blk p = Some (nth (Z.to_nat p) blk 0).
Proof.
  intros H. unfold ld.
  destruct (Z.leb_spec 0 p); [|lia].
  destruct (Z.ltb_spec p (Z.of_nat (length blk))); [|lia]. reflexivity.
Qed.

(** Four stores at [pd] on, each of a float read below [pd] through an
    index: the shape of both centre macros. *)
Lemma centre_stores (ps : cells) (pd c1 c2 c3 c4 : Z) :
  0 <= c1 < pd -> 0 <= c2 < pd -> 0 <= c3 < pd -> 0 <= c4 < pd ->
  pd + 3 < Z.of_nat (length ps) ->
  (forall p, 0 <= p < pd -> rd ps p <> None) ->
  exists ps',
    (x <- rd ps c1 ;; ps1 <- wr ps pd x ;;
     x <- rd ps1 c2 ;; ps2 <- wr ps1 (pd + 1) x ;;
     x <- rd ps2 c3 ;; ps3 <- wr ps2 (pd + 2) x ;;
     x <- rd ps3 c4 ;; wr ps3 (pd + 3) x) = Some ps'
    /\ length ps' = length ps
    /\ rd ps' pd = rd ps c1 /\ rd ps' (pd + 1) = rd ps c2
    /\ rd ps' (pd + 2) = rd ps c3 /\ rd ps' (pd + 3) = rd ps c4
    /\ forall p, ~ pd <= p < pd + 4 -> rd ps' p = rd ps p.
Proof.
  intros H1 H2 H3 H4 HL Hinit.
  destruct (rd_some ps c1 (Hinit c1 H1)) as [x1 X1].
  destruct (rd_some ps c2 (Hinit c2 H2)) as [x2 X2].
  destruct (rd_some ps c3 (Hinit c3 H3)) as [x3 X3].
  destruct (rd_some ps c4 (Hinit c4 H4)) as [x4 X4].
  rewrite X1. cbn [bind].
  wr_step ltac:(lia) a1 L1 S1 F1.
  rewrite F1 by lia. rewrite X2. cbn [bind].
  wr_step ltac:(rewrite L1; lia) a2 L2 S2 F2.
  rewrite F2, F1 by lia. rewrite X3. cbn [bind].
  wr_step ltac:(rewrite L2, L1; lia) a3 L3 S3 F3.
  rewrite F3, F2, F1 by lia. rewrite X4. cbn [bind].
  wr_step ltac:(rewrite L3, L2, L1; lia) a4 L4 S4 F4.
  exists a4. split; [reflexivity|]. split; [congruence|].
  split; [rewrite F4, F3, F2 by lia; congruence|].
  split; [rewrite F4, F3 by lia; congruence|].
  split; [rewrite F4 by lia; congruence|].
  split; [congruence|].
  intros p Hp. rewrite F4, F3, F2, F1 by lia. reflexivity.
Qed.

Lemma makeCTCtop_spec (ps : cells) (pd : Z) (blk : list Z)
      (pq i1 i2 i3 i4 : Z) :
  ld blk (pq - 1) = Some i1 -> ld blk (pq - 2) = Some i2 ->
  ld blk pq = Some i3 -> ld blk (pq + 1) = Some i4 ->
  0 <= i1 -> 0 <= i2 -> 0 <= i3 -> 0 <= i4 ->
  2 * i1 + 1 < pd -> 2 * i2 + 1 < pd -> 2 * i3 + 1 < pd ->
  2 * i4 + 1 < pd ->
  pd + 3 < Z.of_nat (length ps) -> pd < 4294967296 ->
  (forall p, 0 <= p < pd -> rd ps p <> None) ->
  exists ps',
    makeCTCtop ps pd blk pq = Some ps' /\ length ps' = length ps
    /\ rd ps' pd = rd ps (2 * i1) /\ rd ps' (pd + 1) = rd ps (2 * i2 + 1)
    /\ rd ps' (pd + 2) = rd ps (2 * i3)
    /\ rd ps' (pd + 3) = rd ps (2 * i4 + 1)
    /\ forall p, ~ pd <= p < pd + 4 -> rd ps' p = rd ps p.
Proof.
  intros L1 L2 L3 L4 P1 P2 P3 P4 B1 B2 B3 B4 HL Hu Hinit.
  unfold makeCTCtop. rewrite L1, L2, L3, L4. cbn [bind].
  rewrite !u32_small by lia.
  apply centre_stores; try assumption; lia.
Qed.

Lemma makeCTCbot_spec (ps : cells) (pd : Z) (blk : list Z)
      (pq i1 i2 i3 i4 : Z) :
  ld blk (pq - 2) = Some i1 -> ld blk (pq - 1) = Some i2 ->
  ld blk (pq + 1) = Some i3 -> ld blk pq = Some i4 ->
  0 <= i1 -> 0 <= i2 -> 0 <= i3 -> 0 <= i4 ->
  2 * i1 + 1 < pd -> 2 * i2 + 1 < pd -> 2 * i3 + 1 < pd ->
  2 * i4 + 1 < pd ->
  pd + 3 < Z.of_nat (length ps) -> pd < 4294967296 ->
  (forall p, 0 <= p < pd -> rd ps p <> None) ->
  exists ps',
    makeCTCbot ps pd blk pq = Some ps' /\ length ps' = length ps
    /\ rd ps' pd = rd ps (2 * i1) /\ rd ps' (pd + 1) = rd ps (2 * i2 + 1)
    /\ rd ps' (pd + 2) = rd ps (2 * i3)
    /\ rd ps' (pd + 3) = rd ps (2 * i4 + 1)
    /\ forall p, ~ pd <= p < pd + 4 -> rd ps' p = rd ps p.
Proof.
  intros L1 L2 L3 L4 P1 P2 P3 P4 B1 B2 B3 B4 HL Hu Hinit.
  unfold makeCTCbot. rewrite L1, L2, L3, L4. cbn [bind].
  rewrite !u32_small by lia.
  apply centre_stores; try assumption; lia.
Qed.
End Centres.

Section CentreIndices.

(** Settles the comparisons of a goal by linear arithmetic. *)
Ltac settle_cmp :=
  repeat match goal with
  | |- context [(?a =? ?b)] =>
      first [ replace (a =? b) with true by (symmetry; apply Z.eqb_eq; lia)
            | replace (a =? b) with false
                by (symmetry; apply Z.eqb_neq; lia) ]
  | |- context [(?a <? ?b)] =>
      first [ replace (a <? b) with true by (symmetry; apply Z.ltb_lt; lia)
            | replace (a <? b) with false
                by (symmetry; apply Z.ltb_ge; lia) ]
  | |- context [(?a <=? ?b)] =>
      first [ replace (a <=? b) with true by (symmetry; apply Z.leb_le; lia)
            | replace (a <=? b) with false
                by (symmetry; apply Z.leb_gt; lia) ]
  end.

(** What [repaired] says of the eight corners the centre macros read. *)
Lemma repaired_centre_cells (d h : Z) :
  1 <= h -> d2 d = h ->
  repaired d 1 (h - 1) (h - 1) 3 = None
  /\ repaired d 1 (h - 1) (h - 1) 2 = Some (idc d)
  /\ repaired d 1 (h - 1) h 0 = Some (idt d + (h - 1))
  /\ repaired d 1 (h - 1) h 1 = Some (idc d + 1)
  /\ repaired d 4 h (h - 1) 2 = None
  /\ repaired d 4 h (h - 1) 3 = Some (idc d + 2)
  /\ repaired d 4 h h 1 = Some (idb d + (h - h))
  /\ repaired d 4 h h 0 = Some (idc d + 3).
Proof.
  intros Hh Hd2. unfold repaired. rewrite Hd2. cbv zeta.
  repeat split; settle_cmp; reflexivity.
Qed.

(** The stores of the three seam parts are stores of the repair, and
    store no centre duplicate. *)
Lemma seam_part_writes (d : Z) :
  valid_divs d -> 2 <= d ->
  let ws := repair_top_writes d ++ repair_back_writes d
            ++ repair_bottom_writes d in
  incl ws (seam_writes d) /\ Forall (fun w => snd w < idc d) ws.
Proof.
  intros Hd He ws. split.
  - intros w Hw. apply seam_writes_parts. unfold ws in Hw.
    rewrite !in_app_iff in Hw. tauto.
  - destruct (even_resolution d Hd He)
      as [h [Hh [Hdh [Hn [HD [HP [HV [Ept [Epk [Epb [It [Ik [Ib Ic]]]]]]]]]]]]].
    assert (Hq : Z.of_nat (Z.to_nat (qtb d)) = h - 1)
      by (unfold qtb; rewrite Hn; lia).
    assert (Hq' : Z.of_nat (Z.to_nat (d - 1)) = d - 1) by lia.
    unfold ws, repair_top_writes, repair_back_writes, repair_bottom_writes.
    rewrite It, Ik, Ib, Ic, Hq, Hq'.
    repeat (apply Forall_app; split).
    + apply Forall_forall. intros [p v] Hin. apply in_top_writes in Hin.
      rewrite Hq in Hin. cbn [snd].
      destruct Hin as [j [Hj [[_ ->]|[_ ->]]]]; lia.
    + apply Forall_cons; [cbn [snd]; lia|apply Forall_nil].
    + apply Forall_cons; [cbn [snd]; lia|].
      apply Forall_app; split.
      * apply Forall_forall. intros [p v] Hin. apply in_back_writes in Hin.
        rewrite Hq' in Hin. cbn [snd].
        destruct Hin as [j [Hj [[_ ->]|[_ ->]]]]; lia.
      * apply Forall_cons; [cbn [snd]; lia|apply Forall_nil].
    + apply Forall_cons; [cbn [snd]; lia|].
      apply Forall_forall. intros [p v] Hin. apply in_bottom_writes in Hin.
      rewrite Hq in Hin. cbn [snd].
      destruct Hin as [j [Hj [[_ ->]|[_ ->]]]]; lia.
Qed.

(** An entry of the block after some of the stores of the repair. *)
Lemma sub_writes_entry (d : Z) (ws : list (Z * Z)) (f r c k : Z) :
  valid_divs d -> 2 <= d -> incl ws (seam_writes d) ->
  0 <= f < 6 -> 0 <= r < d -> 0 <= c < d -> 0 <= k < 4 ->
  let p := quad_slot d f r c k in
  let blk := apply_writes ws (index_builder d) in
  (forall v, In (p, v) ws -> repaired d f r c k = Some v)
  /\ (forall v, In (p, v) ws -> nth (Z.to_nat p) blk 0 = v)
  /\ ((forall v, ~ In (p, v) ws) ->
      nth (Z.to_nat p) blk 0 = corner d (r * dp1 d + c + f * ppf d) k).
Proof.
  intros Hd He Hincl Hf Hr Hc Hk p blk.
  assert (Hm : 1 <= d <= max_divs) by (destruct Hd; lia).
  destruct (index_builder_good d Hm) as [HL _].
  pose proof (seam_writes_cells d Hd He) as HC.
  rewrite Forall_forall in HC.
  pose proof (linewrds_val d Hd) as Hlw.
  assert (Hq : 0 < qpf d) by (unfold qpf; nia).
  assert (Hslot : forall f r c k,
             0 <= f < 6 -> 0 <= r < d -> 0 <= c < d -> 0 <= k < 4 ->
             0 <= quad_slot d f r c k < Z.of_nat (block_len d)).
  { intros f0 r0 c0 k0 Hf0 Hr0 Hc0 Hk0. unfold quad_slot, block_len.
    rewrite Hlw. unfold qpf in *. nia. }
  assert (Hpos : Forall (fun w => 0 <= fst w) ws).
  { apply Forall_forall. intros w Hw.
    destruct (HC w (Hincl w Hw))
      as [f0 [r0 [c0 [k0 [[? [? [? ?]]] [-> _]]]]]].
    apply Hslot; assumption. }
  assert (Huniq : forall v, In (p, v) ws -> repaired d f r c k = Some v).
  { intros v Hv.
    destruct (HC _ (Hincl _ Hv))
      as [f0 [r0 [c0 [k0 [[Hf0 [Hr0 [Hc0 Hk0]]] [E [_ [_ R]]]]]]]].
    cbn [fst snd] in E, R. unfold p in E.
    destruct (quad_slot_inj d f r c k f0 r0 c0 k0) as [-> [-> [-> ->]]];
      try assumption; lia. }
  split; [exact Huniq|]. split.
  - intros v Hv. apply apply_writes_value;
      [exact Hpos|exact Hv| |rewrite HL; apply Hslot; assumption].
    intros v' Hv'. pose proof (Huniq v Hv). pose proof (Huniq v' Hv').
    congruence.
  - intros Hn. unfold blk. rewrite (apply_writes_notin _ Hpos).
    + apply index_builder_entry; assumption.
    + apply Hslot; assumption.
    + exact Hn.
Qed.

(** The index block as the two centre macros find it: the seam
    parts of the repair have run before the first, the top-centre part
    as well before the second. *)
Lemma centre_blocks (d : Z) :
  valid_divs d -> 2 <= d ->
  exists h blk3 blk4,
    1 <= h /\ d = 2 * h
    /\ (b <- repair_top d (index_builder d) ;; b <- repair_back d b ;;
        repair_bottom d b) = Some blk3
    /\ repair_top_centre d blk3 = Some blk4
    /\ (let pt := quadidx_base d
                   + u32 (4 * u32 (qpf d + u32 (d * (d2 d - 1) + d2 d))) in
        ld blk3 (pt - 1) = Some (ipt d + (h - 1) * dp1 d)
        /\ ld blk3 (pt - 2) = Some (ppf d + h * dp1 d + h)
        /\ ld blk3 pt = Some (idt d + (h - 1))
        /\ ld blk3 (pt + 1) = Some (ppf d + h * dp1 d + h))
    /\ (let pb := quadidx_base d
                   + u32 (4 * u32 (4 * qpf d + u32 ((d + 1) * d2 d))) in
        ld blk4 (pb - 2) = Some (ipb d)
        /\ ld blk4 (pb - 1) = Some (4 * ppf d + h * dp1 d + h)
        /\ ld blk4 (pb + 1) = Some (idb d)
        /\ ld blk4 pb = Some (4 * ppf d + h * dp1 d + h)).
Proof.
  intros Hd He.
  destruct (even_resolution d Hd He)
    as [h [Hh [Hdh [Hn [HD [HP [HV [Ept [Epk [Epb [It [Ik [Ib Ic]]]]]]]]]]]]].
  assert (Hd2 : d2 d = h) by exact Hn.
  assert (Hm : 1 <= d <= max_divs) by (destruct Hd; lia).
  destruct (index_builder_good d Hm) as [HL _].
  pose proof (linewrds_val d Hd) as Hlw.
  assert (Hq : qpf d = d * d) by reflexivity.
  set (ws3 := repair_top_writes d ++ repair_back_writes d
              ++ repair_bottom_writes d).
  set (ws4 := ws3 ++ repair_top_centre_writes d).
  destruct (seam_part_writes d Hd He) as [Hi3 Hv3]. fold ws3 in Hi3, Hv3.
  assert (Hi4 : incl ws4 (seam_writes d)).
  { intros w Hw. unfold ws4 in Hw. apply in_app_iff in Hw.
    destruct Hw as [Hw|Hw]; [apply Hi3; exact Hw|].
    apply seam_writes_parts. tauto. }
  assert (Hv4 : Forall (fun w => snd w < idc d + 2) ws4).
  { unfold ws4. apply Forall_app. split.
    - eapply Forall_impl; [|exact Hv3]. cbn beta. intros; lia.
    - unfold repair_top_centre_writes. cbv zeta.
      repeat apply Forall_cons; cbn [snd]; try lia. apply Forall_nil. }
  rewrite Forall_forall in Hv3, Hv4.
  destruct (repaired_centre_cells d h ltac:(lia) Hd2)
    as [R1 [R2 [R3 [R4 [R5 [R6 [R7 R8]]]]]]].
  exists h, (apply_writes ws3 (index_builder d)),
    (apply_writes ws4 (index_builder d)).
  split; [lia|]. split; [exact Hdh|]. split.
  { rewrite (repair_top_exact d Hd) by exact HL. cbn [bind].
    rewrite (repair_back_exact d Hd)
      by (rewrite length_apply_writes; exact HL).
    cbn [bind].
    rewrite (repair_bottom_exact d Hd)
      by (rewrite !length_apply_writes; exact HL).
    unfold ws3. rewrite !apply_writes_app. reflexivity. }
  split.
  { rewrite (repair_top_centre_exact d Hd)
      by (rewrite length_apply_writes; exact HL).
    unfold ws4. rewrite apply_writes_app. reflexivity. }
  rewrite (top_centre_pq_val d Hd), (bottom_centre_pq_val d Hd), Hd2.
  assert (Hlen : forall ws, Z.of_nat (length (apply_writes ws (index_builder d)))
                            = 48 * qpf d).
  { intros ws. rewrite length_apply_writes, HL. unfold block_len. nia. }
  assert (Hcell : forall ws f r c k p v,
            incl ws (seam_writes d) ->
            0 <= f < 6 -> 0 <= r < d -> 0 <= c < d -> 0 <= k < 4 ->
            p = quad_slot d f r c k ->
            ((exists v', repaired d f r c k = Some v'
                         /\ In (quad_slot d f r c k, v) ws)
             \/ ((forall u, In (quad_slot d f r c k, u) ws ->
                            repaired d f r c k <> Some u)
                 /\ v = corner d (r * dp1 d + c + f * ppf d) k)) ->
            ld (apply_writes ws (index_builder d)) p = Some v).
  { intros ws f r c k p v Hi Hf Hr Hc Hk -> Hcase.
    destruct (sub_writes_entry d ws f r c k Hd He Hi Hf Hr Hc Hk)
      as [U [V N]].
    rewrite ld_spec.
    - f_equal. destruct Hcase as [[v' [_ Hin]]|[Hno ->]].
      + apply V. exact Hin.
      + apply N. intros u Hu. apply (Hno u Hu). apply U. exact Hu.
    - rewrite Hlen. unfold quad_slot. rewrite Hlw, Hq. nia. }
  split; cbv zeta.
  - repeat split.
    + apply (Hcell ws3 1 (h - 1) (h - 1) 3); try assumption; try lia.
      * unfold quad_slot. rewrite Hlw. lia.
      * right. split; [intros u _; rewrite R1; discriminate|].
        rewrite corner_3, Ept. lia.
    + apply (Hcell ws3 1 (h - 1) (h - 1) 2); try assumption; try lia.
      * unfold quad_slot. rewrite Hlw. lia.
      * right. split.
        -- intros u Hu E. rewrite R2 in E. apply some_inj in E.
           specialize (Hv3 _ Hu). cbn [snd] in Hv3. lia.
        -- rewrite corner_2. lia.
    + apply (Hcell ws3 1 (h - 1) h 0); try assumption; try lia.
      * unfold quad_slot. rewrite Hlw. lia.
      * left. exists (idt d + (h - 1)). split; [exact R3|].
        unfold ws3. apply in_app_iff. left.
        unfold repair_top_writes. cbv zeta. apply in_app_iff. right.
        left. rewrite (top_pq_val d Hd), Hd2.
        assert (Hqn : Z.of_nat (Z.to_nat (qtb d)) = h - 1)
          by (unfold qtb; rewrite Hn; lia).
        rewrite Hqn. apply pair_equal_spec. split; [|reflexivity].
        unfold quad_slot. rewrite Hlw. lia.
    + apply (Hcell ws3 1 (h - 1) h 1); try assumption; try lia.
      * unfold quad_slot. rewrite Hlw. lia.
      * right. split.
        -- intros u Hu E. rewrite R4 in E. apply some_inj in E.
           specialize (Hv3 _ Hu). cbn [snd] in Hv3. lia.
        -- rewrite corner_1. lia.
  - repeat split.
    + apply (Hcell ws4 4 h (h - 1) 2); try assumption; try lia.
      * unfold quad_slot. rewrite Hlw. lia.
      * right. split; [intros u _; rewrite R5; discriminate|].
        rewrite corner_2, Epb. lia.
    + apply (Hcell ws4 4 h (h - 1) 3); try assumption; try lia.
      * unfold quad_slot. rewrite Hlw. lia.
      * right. split.
        -- intros u Hu E. rewrite R6 in E. apply some_inj in E.
           specialize (Hv4 _ Hu). cbn [snd] in Hv4. lia.
        -- rewrite corner_3. lia.
    + apply (Hcell ws4 4 h h 1); try assumption; try lia.
      * unfold quad_slot. rewrite Hlw. lia.
      * left. exists (idb d + (h - h)). split; [exact R7|].
        unfold ws4, ws3. rewrite !in_app_iff. left. right. right.
        unfold repair_bottom_writes. cbv zeta. left.
        rewrite (bottom_pq_val d Hd), Hd2.
        apply pair_equal_spec. split; [|reflexivity].
        unfold quad_slot. rewrite Hlw. nia.
    + apply (Hcell ws4 4 h h 0); try assumption; try lia.
      * unfold quad_slot. rewrite Hlw. lia.
      * right. split.
        -- intros u Hu E. rewrite R8 in E. apply some_inj in E.
           specialize (Hv4 _ Hu). cbn [snd] in Hv4. lia.
        -- rewrite corner_0. lia.
Qed.
End CentreIndices.

Section FilledSets.

Lemma length_texcoord_loop (fovw : R) (vs : list (R * R * R)) :
  forall s, length (texcoord_loop fovw vs s) = length vs.
Proof.
  induction vs as [|v vs IH]; intros s; [reflexivity|].
  cbn [texcoord_loop length]. rewrite IH. reflexivity.
Qed.

Lemma length_pairs (sel : texcoords -> R * R) (ts : list texcoords) :
  length (flat_map (fun t => [Some (fst (sel t)); Some (snd (sel t))]) ts)
  = (2 * length ts)%nat.
Proof.
  induction ts as [|t ts IH]; [reflexivity|].
  cbn [flat_map length app]. rewrite IH. lia.
Qed.

Lemma length_fill (sel : texcoords -> R * R) (ts : list texcoords) (n : Z) :
  0 <= n ->
  Z.of_nat (length (fill sel ts n)) = 2 * Z.of_nat (length ts) + 2 * n.
Proof.
  intros Hn. unfold fill.
  rewrite length_app, length_pairs, repeat_length. lia.
Qed.

(** The two floats of vertex [i] in a set the loop has filled. *)
Lemma nth_pairs (sel : texcoords -> R * R) (ts : list texcoords) :
  forall i t,
    nth_error ts i = Some t ->
    nth (2 * i)
        (flat_map (fun t => [Some (fst (sel t)); Some (snd (sel t))]) ts)
        None = Some (fst (sel t))
    /\ nth (2 * i + 1)
           (flat_map (fun t => [Some (fst (sel t)); Some (snd (sel t))]) ts)
           None = Some (snd (sel t)).
Proof.
  induction ts as [|t0 ts IH]; intros i t Hi.
  - destruct i; discriminate.
  - destruct i as [|i].
    + cbn in Hi. injection Hi as ->. split; reflexivity.
    + cbn [nth_error] in Hi. destruct (IH i t Hi) as [A B].
      replace (2 * S i)%nat with (S (S (2 * i))) by lia.
      cbn [flat_map app nth Nat.add]. split; [exact A|exact B].
Qed.

Lemma rd_fill (sel : texcoords -> R * R) (ts : list texcoords) (n : Z)
      (i : Z) (t : texcoords) :
  0 <= n -> 0 <= i -> nth_error ts (Z.to_nat i) = Some t ->
  rd (fill sel ts n) (2 * i) = Some (fst (sel t))
  /\ rd (fill sel ts n) (2 * i + 1) = Some (snd (sel t)).
Proof.
  intros Hn Hi Ht.
  assert (Hlt : (Z.to_nat i < length ts)%nat)
    by (apply nth_error_Some; congruence).
  destruct (nth_pairs sel ts _ t Ht) as [A B].
  pose proof (length_fill sel ts n Hn) as HL.
  pose proof (length_pairs sel ts) as HP.
  unfold rd. rewrite HL.
  destruct (Z.leb_spec 0 (2 * i)); [|lia].
  destruct (Z.leb_spec 0 (2 * i + 1)); [|lia].
  destruct (Z.ltb_spec (2 * i) (2 * Z.of_nat (length ts) + 2 * n)); [|lia].
  destruct (Z.ltb_spec (2 * i + 1) (2 * Z.of_nat (length ts) + 2 * n));
    [|lia].
  cbn [andb]. unfold fill. rewrite !app_nth1 by (rewrite HP; lia).
  replace (Z.to_nat (2 * i)) with (2 * Z.to_nat i)%nat by lia.
  replace (Z.to_nat (2 * i + 1)) with (2 * Z.to_nat i + 1)%nat by lia.
  split; [exact A|exact B].
Qed.

Lemma rd_fill_stored (sel : texcoords -> R * R) (ts : list texcoords)
      (n p : Z) :
  0 <= n -> 0 <= p < 2 * Z.of_nat (length ts) ->
  rd (fill sel ts n) p <> None.
Proof.
  intros Hn Hp.
  destruct (nth_error ts (Z.to_nat (p / 2))) as [t|] eqn:E.
  - destruct (rd_fill sel ts n (p / 2) t Hn ltac:(lia) E) as [A B].
    assert (Hc : p = 2 * (p / 2) \/ p = 2 * (p / 2) + 1) by lia.
    destruct Hc as [Hc|Hc]; rewrite Hc; congruence.
  - apply nth_error_None in E. lia.
Qed.

Lemma rd_fill_empty (sel : texcoords -> R * R) (ts : list texcoords)
      (n p : Z) :
  2 * Z.of_nat (length ts) <= p -> rd (fill sel ts n) p = None.
Proof.
  intros Hp. unfold rd.
  destruct ((0 <=? p) && (p <? Z.of_nat (length (fill sel ts n))));
    [|reflexivity].
  unfold fill. rewrite app_nth2 by (rewrite length_pairs; lia).
  apply nth_repeat.
Qed.

(** A set when the loop over the vertices ends: the floats of the
    [6 * ppf] vertices of the faces are stored, those of the duplicates
    are not. *)
Lemma fill_cells (fovw : R) (d : Z) (sel : texcoords -> R * R) :
  valid_divs d ->
  let a := fill sel (texcoord_loop fovw (base_verts d) (1 / IZR d)%R)
                (dups d) in
  Z.of_nat (length a) = 2 * vertpnts d
  /\ (forall p, 0 <= p < 12 * ppf d -> rd a p <> None)
  /\ (forall p, 12 * ppf d <= p -> rd a p = None).
Proof.
  intros Hd a.
  pose proof (valid_divs_pos d Hd) as Hp.
  pose proof (length_base_verts d Hp) as HB. unfold base_vertices in HB.
  assert (Hn : 0 <= dups d).
  { destruct (valid_divs_half d Hd) as [h [Hh Hc]].
    unfold dups, ntb, dp1. rewrite Hh. lia. }
  assert (HT : Z.of_nat (length (texcoord_loop fovw (base_verts d)
                                   (1 / IZR d)%R)) = 6 * ppf d)
    by (rewrite length_texcoord_loop; exact HB).
  split; [|split].
  - unfold a. rewrite length_fill by exact Hn. rewrite HT.
    rewrite (vertpnts_val d Hd). unfold dups, ntb. lia.
  - intros p Hp'. apply rd_fill_stored; [exact Hn|lia].
  - intros p Hp'. apply rd_fill_empty. lia.
Qed.
End FilledSets.

Section SetRepair.
Variable d : Z.
Hypothesis Hd : valid_divs d.
Hypothesis He : 2 <= d.
Variables blk3 blk4 : list Z.
Hypothesis Hblk3 :
  (b <- repair_top d (index_builder d) ;; b <- repair_back d b ;;
   repair_bottom d b) = Some blk3.
Hypothesis Hblk4 : repair_top_centre d blk3 = Some blk4.

(** The two centre macros on a set in which every float below the
    centre duplicates is stored: the four duplicates take their first
    coordinate from the seam point next to the centre, or from its
    duplicate, and their second from the centre. *)
Lemma centre_sets_spec (a : cells) :
  Z.of_nat (length a) = 2 * vertpnts d ->
  (forall p, 0 <= p < 2 * idc d -> rd a p <> None) ->
  exists a',
    (a1 <- centre_top_set d blk3 a ;; centre_bot_set d blk4 a1) = Some a'
    /\ length a' = length a
    /\ (forall p, 0 <= p < 2 * idc d -> rd a' p = rd a p)
    /\ (forall p, 0 <= p < 2 * vertpnts d -> rd a' p <> None)
    /\ rd a' (2 * idc d) = rd a' (2 * (ipt d + (d2 d - 1) * dp1 d))
    /\ rd a' (2 * idc d + 1)
       = rd a' (2 * (ppf d + d2 d * dp1 d + d2 d) + 1)
    /\ rd a' (2 * idc d + 2) = rd a' (2 * (idt d + (d2 d - 1)))
    /\ rd a' (2 * idc d + 3)
       = rd a' (2 * (ppf d + d2 d * dp1 d + d2 d) + 1)
    /\ rd a' (2 * idc d + 4) = rd a' (2 * ipb d)
    /\ rd a' (2 * idc d + 5)
       = rd a' (2 * (4 * ppf d + d2 d * dp1 d + d2 d) + 1)
    /\ rd a' (2 * idc d + 6) = rd a' (2 * idb d)
    /\ rd a' (2 * idc d + 7)
       = rd a' (2 * (4 * ppf d + d2 d * dp1 d + d2 d) + 1).
Proof.
  intros HL Hinit.
  destruct (even_resolution d Hd He)
    as [h [Hh [Hdh [Hn [HD [HP [HV [Ept [Epk [Epb [It [Ik [Ib Ic]]]]]]]]]]]]].
  destruct (centre_blocks d Hd He)
    as [h' [b3 [b4 [Hh1 [Hdh' [E3 [E4 [T B]]]]]]]].
  assert (Eb3 : b3 = blk3) by congruence. rewrite Eb3 in *. clear Eb3 b3.
  assert (Eb4 : b4 = blk4) by congruence. rewrite Eb4 in *. clear Eb4 b4.
  assert (Eh : h' = h) by lia. rewrite Eh in T, B. clear Eh Hh1 Hdh' h'.
  assert (Hd2 : d2 d = h) by exact Hn.
  cbv zeta in T, B.
  destruct T as [T1 [T2 [T3 T4]]]. destruct B as [B1 [B2 [B3 B4]]].
  unfold centre_top_set, centre_bot_set. cbv zeta.
  rewrite Hd2 in *. rewrite HV in HL. rewrite HV.
  rewrite Ept in T1. rewrite It in T3. rewrite Epb in B1. rewrite Ib in B3.
  rewrite Ept, It, Epb, Ib. rewrite Ic in Hinit |- *.
  set (P := ppf d) in *. set (D := dp1 d) in *.
  assert (HPpos : 9 <= P) by nia.
  assert (HPmax : P <= 5351 * 5351) by nia.
  rewrite (u32_small (2 * (6 * P + 2 * h + D))) by lia.
  rewrite (u32_small (2 * (6 * P + 2 * h + D) + 4)) by lia.
  destruct (makeCTCtop_spec a (2 * (6 * P + 2 * h + D)) blk3 _ _ _ _ _
              T1 T2 T3 T4 ltac:(nia) ltac:(nia) ltac:(nia) ltac:(nia)
              ltac:(nia) ltac:(nia) ltac:(nia) ltac:(nia)
              ltac:(lia) ltac:(lia) Hinit)
    as [a1 [M1 [L1 [V1 [V2 [V3 [V4 F1]]]]]]].
  rewrite M1. cbn [bind]. clear M1.
  assert (I1 : forall p, 0 <= p < 2 * (6 * P + 2 * h + D) + 4 ->
                         rd a1 p <> None).
  { intros p Hp.
    assert (Hc : p < 2 * (6 * P + 2 * h + D)
                 \/ p = 2 * (6 * P + 2 * h + D)
                 \/ p = 2 * (6 * P + 2 * h + D) + 1
                 \/ p = 2 * (6 * P + 2 * h + D) + 2
                 \/ p = 2 * (6 * P + 2 * h + D) + 3) by lia.
    destruct Hc as [Hc | [-> | [-> | [-> | ->]]]].
    - rewrite F1 by lia. apply Hinit. lia.
    - rewrite V1. apply Hinit. nia.
    - rewrite V2. apply Hinit. nia.
    - rewrite V3. apply Hinit. nia.
    - rewrite V4. apply Hinit. nia. }
  destruct (makeCTCbot_spec a1 (2 * (6 * P + 2 * h + D) + 4) blk4 _ _ _ _ _
              B1 B2 B3 B4 ltac:(nia) ltac:(nia) ltac:(nia) ltac:(nia)
              ltac:(nia) ltac:(nia) ltac:(nia) ltac:(nia)
              ltac:(rewrite L1; lia) ltac:(lia) I1)
    as [a2 [M2 [L2 [W1 [W2 [W3 [W4 F2]]]]]]].
  rewrite M2. clear M2.
  exists a2. split; [reflexivity|]. split; [congruence|].
  assert (G : forall p, 0 <= p < 2 * (6 * P + 2 * h + D) + 4 ->
                        rd a2 p = rd a1 p)
    by (intros p Hp; apply F2; lia).
  assert (G' : forall p, 0 <= p < 2 * (6 * P + 2 * h + D) ->
                         rd a2 p = rd a p)
    by (intros p Hp; rewrite G, F1 by lia; reflexivity).
  split; [exact G'|]. split.
  { intros p Hp.
    assert (Hc : p < 2 * (6 * P + 2 * h + D) + 4
                 \/ p = 2 * (6 * P + 2 * h + D) + 4
                 \/ p = 2 * (6 * P + 2 * h + D) + 4 + 1
                 \/ p = 2 * (6 * P + 2 * h + D) + 4 + 2
                 \/ p = 2 * (6 * P + 2 * h + D) + 4 + 3) by lia.
    destruct Hc as [Hc | [-> | [-> | [-> | ->]]]].
    - rewrite G by lia. apply I1. lia.
    - rewrite W1. apply I1. nia.
    - rewrite W2. apply I1. nia.
    - rewrite W3. apply I1. nia.
    - rewrite W4. apply I1. nia. }
  replace (2 * (6 * P + 2 * h + D) + 5)
    with (2 * (6 * P + 2 * h + D) + 4 + 1) by ring.
  replace (2 * (6 * P + 2 * h + D) + 6)
    with (2 * (6 * P + 2 * h + D) + 4 + 2) by ring.
  replace (2 * (6 * P + 2 * h + D) + 7)
    with (2 * (6 * P + 2 * h + D) + 4 + 3) by ring.
  rewrite W1, W2, W3, W4.
  rewrite !(G (2 * (6 * P + 2 * h + D))) by lia.
  rewrite !(G (2 * (6 * P + 2 * h + D) + 1)) by lia.
  rewrite !(G (2 * (6 * P + 2 * h + D) + 2)) by lia.
  rewrite !(G (2 * (6 * P + 2 * h + D) + 3)) by lia.
  rewrite V1, V2, V3, V4.
  rewrite !G' by nia.
  rewrite !F1 by nia.
  repeat split; reflexivity.
Qed.

(** The centre macros after the seam loops, whichever of the two
    operations the loops used. *)
Lemma repair_set_centres (op : cells -> Z -> Z -> option cells)
      (a a1 : cells) :
  Z.of_nat (length a) = 2 * vertpnts d ->
  seam_set op d a = Some a1 -> length a1 = length a ->
  (forall p, 0 <= p < 2 * idc d -> rd a1 p <> None) ->
  exists a',
    repair_set op d blk3 blk4 a = Some a'
    /\ length a' = length a
    /\ (forall p, 0 <= p < 2 * idc d -> rd a' p = rd a1 p)
    /\ (forall p, 0 <= p < 2 * vertpnts d -> rd a' p <> None)
    /\ rd a' (2 * idc d) = rd a' (2 * (ipt d + (d2 d - 1) * dp1 d))
    /\ rd a' (2 * idc d + 1)
       = rd a' (2 * (ppf d + d2 d * dp1 d + d2 d) + 1)
    /\ rd a' (2 * idc d + 2) = rd a' (2 * (idt d + (d2 d - 1)))
    /\ rd a' (2 * idc d + 3)
       = rd a' (2 * (ppf d + d2 d * dp1 d + d2 d) + 1)
    /\ rd a' (2 * idc d + 4) = rd a' (2 * ipb d)
    /\ rd a' (2 * idc d + 5)
       = rd a' (2 * (4 * ppf d + d2 d * dp1 d + d2 d) + 1)
    /\ rd a' (2 * idc d + 6) = rd a' (2 * idb d)
    /\ rd a' (2 * idc d + 7)
       = rd a' (2 * (4 * ppf d + d2 d * dp1 d + d2 d) + 1).
Proof.
  intros HL HS L1 I1. unfold repair_set. rewrite HS. cbn [bind].
  destruct (centre_sets_spec a1 ltac:(rewrite L1; exact HL) I1)
    as [a' [C [L' R]]].
  exists a'. split; [exact C|]. split; [congruence|exact R].
Qed.

(** A float of a duplicate below the centre duplicates belongs to the
    duplicate of some seam point. *)
Lemma seam_duplicate_float (p : Z) :
  12 * ppf d <= p < 2 * idc d ->
  exists i k, In (i, k) (seam_pairs d)
              /\ 1 <= i /\ i + 1 < 6 * ppf d
              /\ (p = 2 * k \/ p = 2 * k + 1).
Proof.
  intros Hp. pose proof (idt_val d Hd) as It.
  destruct (seam_pairs_cover d (p / 2) Hd He ltac:(lia)) as [i Hin].
  destruct (seam_pairs_range d i (p / 2) Hd He Hin) as [Hi1 [Hi2 _]].
  exists i, (p / 2). split; [exact Hin|]. repeat split; try lia.
Qed.

Lemma seam_copy_stored (a : cells) :
  Z.of_nat (length a) = 2 * vertpnts d ->
  (forall p, 0 <= p < 12 * ppf d -> rd a p <> None) ->
  exists a1,
    seam_set copyTCs d a = Some a1 /\ length a1 = length a
    /\ (forall p, 0 <= p < 2 * idc d -> rd a1 p <> None)
    /\ (forall i k, In (i, k) (seam_pairs d) ->
          rd a1 (2 * k) = rd a (2 * i)
          /\ rd a1 (2 * k + 1) = rd a (2 * i + 1))
    /\ (forall p, 0 <= p < 12 * ppf d -> rd a1 p = rd a p).
Proof.
  intros HL Hinit.
  destruct (seam_copy_spec d a Hd He HL Hinit)
    as [a1 [S1 [L1 [P1 [F1 [G1 I1]]]]]].
  exists a1. split; [exact S1|]. split; [exact L1|].
  split; [|split; [exact P1|exact F1]].
  intros p Hp. destruct (Z.lt_ge_cases p (12 * ppf d)) as [Hlt|Hge].
  - apply I1. lia.
  - destruct (seam_duplicate_float p ltac:(lia))
      as [i [k [Hin [Hi1 [Hi2 Hc]]]]].
    destruct (P1 i k Hin) as [X1 X2].
    destruct Hc as [-> | ->]; [rewrite X1|rewrite X2]; apply Hinit; lia.
Qed.

Lemma seam_edge_stored (a : cells) :
  Z.of_nat (length a) = 2 * vertpnts d ->
  (forall p, 0 <= p < 12 * ppf d -> rd a p <> None) ->
  exists a1,
    seam_set setEdgeTCs d a = Some a1 /\ length a1 = length a
    /\ (forall p, 0 <= p < 2 * idc d -> rd a1 p <> None)
    /\ (forall i k, In (i, k) (seam_pairs d) ->
          rd a1 (2 * i) = option_map EVAL (rd a (2 * i - 2))
          /\ rd a1 (2 * k) = option_map EVAL (rd a (2 * i + 2))
          /\ rd a1 (2 * k + 1) = rd a (2 * i + 1))
    /\ (forall p, 0 <= p < 12 * ppf d ->
          (forall i k, In (i, k) (seam_pairs d) -> p <> 2 * i) ->
          rd a1 p = rd a p).
Proof.
  intros HL Hinit.
  destruct (seam_edge_spec d a Hd He HL Hinit)
    as [a1 [S1 [L1 [P1 [F1 [G1 I1]]]]]].
  exists a1. split; [exact S1|]. split; [exact L1|].
  split; [|split; [exact P1|exact F1]].
  intros p Hp. destruct (Z.lt_ge_cases p (12 * ppf d)) as [Hlt|Hge].
  - apply I1. lia.
  - destruct (seam_duplicate_float p ltac:(lia))
      as [i [k [Hin [Hi1 [Hi2 Hc]]]]].
    destruct (P1 i k Hin) as [_ [X1 X2]].
    destruct Hc as [-> | ->].
    + rewrite X1. destruct (rd a (2 * i + 2)) eqn:E; [discriminate|].
      exfalso. apply (Hinit (2 * i + 2)); [lia|exact E].
    + rewrite X2. apply Hinit. lia.
Qed.
End SetRepair.

(** The constructor's coordinate sets, set by set: each of the five
    sets it repairs is the result of [repair_set] on the set the loop
    over the vertices left, the other two are as that loop left them. *)
Lemma quadsphere_texcoords_parts (fovw : R) (divs_arg : Z) :
  1 <= divs_arg <= max_divs ->
  let d := round_divs divs_arg in
  let t0 := texcoord_sets fovw d in
  exists blk3 blk4 t,
    (b <- repair_top d (index_builder d) ;; b <- repair_back d b ;;
     repair_bottom d b) = Some blk3
    /\ repair_top_centre d blk3 = Some blk4
    /\ quadsphere_texcoords fovw divs_arg = Some t
    /\ repair_set copyTCs d blk3 blk4 (angls t0) = Some (angls t)
    /\ repair_set setEdgeTCs d blk3 blk4 (rects t0) = Some (rects t)
    /\ repair_set copyTCs d blk3 blk4 (fishs t0) = Some (fishs t)
    /\ repair_set setEdgeTCs d blk3 blk4 (cylis t0) = Some (cylis t)
    /\ repair_set setEdgeTCs d blk3 blk4 (equis t0) = Some (equis t)
    /\ sters t = sters t0 /\ mercs t = mercs t0.
Proof.
  intros Ha d t0.
  assert (Hd : valid_divs d) by (apply round_divs_valid; lia).
  assert (He : 2 <= d).
  { unfold d. rewrite round_divs_pos by lia. lia. }
  destruct (centre_blocks d Hd He)
    as [h [blk3 [blk4 [_ [_ [E3 [E4 _]]]]]]].
  exists blk3, blk4.
  rewrite (quadsphere_texcoords_sets fovw divs_arg blk3 blk4 E3 E4).
  fold d. fold t0. unfold on_sets.
  assert (Hc : forall sel a,
            a = fill sel (texcoord_loop fovw (base_verts d) (1 / IZR d)%R)
                     (dups d) ->
            exists a', repair_set copyTCs d blk3 blk4 a = Some a').
  { intros sel a ->. destruct (fill_cells fovw d sel Hd) as [L [I _]].
    destruct (seam_copy_stored d Hd He _ L I) as [a1 [S1 [L1 [I1 _]]]].
    destruct (repair_set_centres d Hd He blk3 blk4 E3 E4 copyTCs _ a1
                L S1 L1 I1) as [a' [R _]].
    exists a'. exact R. }
  assert (Hs : forall sel a,
            a = fill sel (texcoord_loop fovw (base_verts d) (1 / IZR d)%R)
                     (dups d) ->
            exists a', repair_set setEdgeTCs d blk3 blk4 a = Some a').
  { intros sel a ->. destruct (fill_cells fovw d sel Hd) as [L [I _]].
    destruct (seam_edge_stored d Hd He _ L I) as [a1 [S1 [L1 [I1 _]]]].
    destruct (repair_set_centres d Hd He blk3 blk4 E3 E4 setEdgeTCs _ a1
                L S1 L1 I1) as [a' [R _]].
    exists a'. exact R. }
  destruct (Hc tc_angl (angls t0) eq_refl) as [a Ea].
  destruct (Hs tc_rect (rects t0) eq_refl) as [r Er].
  destruct (Hc tc_fish (fishs t0) eq_refl) as [f Ef].
  destruct (Hs tc_cyli (cylis t0) eq_refl) as [c Ec].
  destruct (Hs tc_equi (equis t0) eq_refl) as [e Ee].
  rewrite Ea, Er, Ef, Ec, Ee. cbn [bind].
  eexists. split; [exact E3|]. split; [exact E4|].
  split; [reflexivity|]. cbn [angls rects fishs cylis equis sters mercs].
  repeat split.
Qed.

(** ** The coordinate sets after construction *)

Lemma some_cells_inj (a b : cells) : Some a = Some b -> a = b.
Proof. intros H. injection H as ->. reflexivity. Qed.

(** Runs the repair of the set [sel] and names what it leaves: [a1] after
    the seam loops, with [P1] for the seam points and [F1] for the other
    floats, and the final [sel t] with [F'] for the floats below the
    centre duplicates, [I'] for what is stored and [C'] for the centre
    duplicates. *)
Ltac run_set fovw d Hd He blk3 blk4 E3 E4 stored sel R a1 P1 F1 L' F' I' C' :=
  let L := fresh "L" in
  let I := fresh "I" in
  let S1 := fresh "S" in
  let L1 := fresh "L" in
  let I1 := fresh "I" in
  let a' := fresh "a" in
  let R' := fresh "R" in
  let X := fresh "X" in
  destruct (fill_cells fovw d sel Hd) as [L [I _]];
  destruct (stored d Hd He _ L I) as [a1 [S1 [L1 [I1 [P1 F1]]]]];
  destruct (repair_set_centres d Hd He blk3 blk4 E3 E4 _ _ a1 L S1 L1 I1)
    as [a' [R' [L' [F' [I' C']]]]];
  assert (X : Some a' = Some _) by (rewrite <- R'; exact R);
  apply some_cells_inj in X; rewrite X in L', F', I', C';
  apply (f_equal Z.of_nat) in L';
  apply (fun E => eq_trans E L) in L'; clear X R' S1 I1.

(** X14: When the construction ends, every float of the five sets the
    constructor repairs is stored, for every argument from 1 up: the
    construction of the sets runs through, without a read or a store
    outside a set and without a read of a float not yet stored, and the
    seam loops and centre macros between them store the coordinates of
    every duplicate. *)
Theorem repaired_sets_fully_stored (fovw : R) (divs_arg : Z) :
  1 <= divs_arg <= max_divs ->
  let d := round_divs divs_arg in
  exists t,
    quadsphere_texcoords fovw divs_arg = Some t
    /\ forall sel, In sel [rects; fishs; cylis; equis; angls] ->
         Z.of_nat (length (sel t)) = 2 * vertpnts d
         /\ forall p, 0 <= p < 2 * vertpnts d -> rd (sel t) p <> None.
Proof.
  intros Ha d.
  assert (Hd : valid_divs d) by (apply round_divs_valid; lia).
  assert (He : 2 <= d) by (unfold d; rewrite round_divs_pos by lia; lia).
  destruct (quadsphere_texcoords_parts fovw divs_arg Ha)
    as [blk3 [blk4 [t [E3 [E4 [Et [Ra [Rr [Rf [Rc [Re [Es Em]]]]]]]]]]]].
  fold d in E3, E4, Ra, Rr, Rf, Rc, Re, Es, Em.
  exists t. split; [exact Et|]. intros sel Hsel.
  cbn [In] in Hsel.
  destruct Hsel as [<- | [<- | [<- | [<- | [<- | []]]]]].
  - run_set fovw d Hd He blk3 blk4 E3 E4 seam_edge_stored tc_rect Rr
            a1 P1 F1 L' F' I' C'.
    split; [exact L'|exact I'].
  - run_set fovw d Hd He blk3 blk4 E3 E4 seam_copy_stored tc_fish Rf
            a1 P1 F1 L' F' I' C'.
    split; [exact L'|exact I'].
  - run_set fovw d Hd He blk3 blk4 E3 E4 seam_edge_stored tc_cyli Rc
            a1 P1 F1 L' F' I' C'.
    split; [exact L'|exact I'].
  - run_set fovw d Hd He blk3 blk4 E3 E4 seam_edge_stored tc_equi Re
            a1 P1 F1 L' F' I' C'.
    split; [exact L'|exact I'].
  - run_set fovw d Hd He blk3 blk4 E3 E4 seam_copy_stored tc_angl Ra
            a1 P1 F1 L' F' I' C'.
    split; [exact L'|exact I'].
Qed.

Lemma repaired_sets_fully_stored_witness :
  1 <= 2 <= max_divs
  /\ exists t,
       quadsphere_texcoords 90 2 = Some t /\ rd (rects t) 125 <> None.
Proof.
  assert (H : 1 <= 2 <= max_divs) by (unfold max_divs; lia).
  split; [exact H|].
  destruct (repaired_sets_fully_stored 90 2 H) as [t [E A]].
  exists t. split; [exact E|].
  apply (A rects); [left; reflexivity|].
  vm_compute. split; [discriminate|reflexivity].
Defined.

(** X15: The two sets the constructor does not repair, [sters] and [mercs],
    end as the loop over the vertices left them: the floats of the
    [6 * ppf] vertices of the faces are stored, and no float of any of
    the duplicates behind them ever is, for every argument from 1 up. *)
Theorem duplicates_lack_ster_and_merc (fovw : R) (divs_arg : Z) :
  1 <= divs_arg <= max_divs ->
  let d := round_divs divs_arg in
  exists t,
    quadsphere_texcoords fovw divs_arg = Some t
    /\ 6 * ppf d < vertpnts d
    /\ forall sel, In sel [sters; mercs] ->
         Z.of_nat (length (sel t)) = 2 * vertpnts d
         /\ (forall p, 0 <= p < 12 * ppf d -> rd (sel t) p <> None)
         /\ (forall p, 12 * ppf d <= p < 2 * vertpnts d ->
                       rd (sel t) p = None).
Proof.
  intros Ha d.
  assert (Hd : valid_divs d) by (apply round_divs_valid; lia).
  assert (He : 2 <= d) by (unfold d; rewrite round_divs_pos by lia; lia).
  destruct (quadsphere_texcoords_parts fovw divs_arg Ha)
    as [blk3 [blk4 [t [E3 [E4 [Et [Ra [Rr [Rf [Rc [Re [Es Em]]]]]]]]]]]].
  fold d in Es, Em.
  exists t. split; [exact Et|]. split.
  { destruct (even_resolution d Hd He)
      as [h [Hh [Hdh [Hn [HD [HP [HV _]]]]]]]. lia. }
  intros sel Hsel. cbn [In] in Hsel.
  destruct Hsel as [<- | [<- | []]].
  - rewrite Es. destruct (fill_cells fovw d tc_ster Hd) as [L [I N]].
    split; [exact L|]. split; [exact I|]. intros p Hp. apply N. lia.
  - rewrite Em. destruct (fill_cells fovw d tc_merc Hd) as [L [I N]].
    split; [exact L|]. split; [exact I|]. intros p Hp. apply N. lia.
Qed.

Lemma duplicates_lack_ster_and_merc_witness :
  1 <= 2 <= max_divs
  /\ exists t,
       quadsphere_texcoords 90 2 = Some t /\ rd (mercs t) 108 = None.
Proof.
  assert (H : 1 <= 2 <= max_divs) by (unfold max_divs; lia).
  split; [exact H|].
  destruct (duplicates_lack_ster_and_merc 90 2 H) as [t [E [_ A]]].
  exists t. split; [exact E|].
  apply (A mercs); [right; left; reflexivity|].
  vm_compute. split; [discriminate|reflexivity].
Defined.

(** X16: In the sets [rects], [cylis] and [equis], for every argument from 1
    up: the first coordinate of a seam point becomes [EVAL] of the first
    coordinate its left neighbour had, that of its duplicate [EVAL] of
    the one its right neighbour had; the duplicate takes the seam
    point's second coordinate; and no other float of a face vertex
    changes. *)
Theorem seam_edge_rule (fovw : R) (divs_arg : Z) :
  1 <= divs_arg <= max_divs ->
  let d := round_divs divs_arg in
  let t0 := texcoord_sets fovw d in
  exists t,
    quadsphere_texcoords fovw divs_arg = Some t
    /\ forall sel, In sel [rects; cylis; equis] ->
         (forall i k, In (i, k) (seam_pairs d) ->
            rd (sel t) (2 * i) = option_map EVAL (rd (sel t0) (2 * i - 2))
            /\ rd (sel t) (2 * k)
               = option_map EVAL (rd (sel t0) (2 * i + 2))
            /\ rd (sel t) (2 * k + 1) = rd (sel t0) (2 * i + 1))
         /\ (forall p, 0 <= p < 12 * ppf d ->
               (forall i k, In (i, k) (seam_pairs d) -> p <> 2 * i) ->
               rd (sel t) p = rd (sel t0) p).
Proof.
  intros Ha d t0.
  assert (Hd : valid_divs d) by (apply round_divs_valid; lia).
  assert (He : 2 <= d) by (unfold d; rewrite round_divs_pos by lia; lia).
  destruct (quadsphere_texcoords_parts fovw divs_arg Ha)
    as [blk3 [blk4 [t [E3 [E4 [Et [Ra [Rr [Rf [Rc [Re [Es Em]]]]]]]]]]]].
  fold d in E3, E4, Ra, Rr, Rf, Rc, Re.
  assert (Hidc : 6 * ppf d <= idc d).
  { destruct (even_resolution d Hd He)
      as [h [Hh [_ [_ [HD [_ [_ [_ [_ [_ [_ [_ [_ Ic]]]]]]]]]]]]]. lia. }
  pose proof (idt_val d Hd) as It.
  exists t. split; [exact Et|]. intros sel Hsel. cbn [In] in Hsel.
  assert (Hgen : forall a0 a a1,
            (forall i k, In (i, k) (seam_pairs d) ->
               rd a1 (2 * i) = option_map EVAL (rd a0 (2 * i - 2))
               /\ rd a1 (2 * k) = option_map EVAL (rd a0 (2 * i + 2))
               /\ rd a1 (2 * k + 1) = rd a0 (2 * i + 1)) ->
            (forall p, 0 <= p < 12 * ppf d ->
               (forall i k, In (i, k) (seam_pairs d) -> p <> 2 * i) ->
               rd a1 p = rd a0 p) ->
            (forall p, 0 <= p < 2 * idc d -> rd a p = rd a1 p) ->
            (forall i k, In (i, k) (seam_pairs d) ->
               rd a (2 * i) = option_map EVAL (rd a0 (2 * i - 2))
               /\ rd a (2 * k) = option_map EVAL (rd a0 (2 * i + 2))
               /\ rd a (2 * k + 1) = rd a0 (2 * i + 1))
            /\ (forall p, 0 <= p < 12 * ppf d ->
                  (forall i k, In (i, k) (seam_pairs d) -> p <> 2 * i) ->
                  rd a p = rd a0 p)).
  { intros a0 a a1 P1 F1 F'. split.
    - intros i k Hin.
      destruct (seam_pairs_range d i k Hd He Hin) as [Hi1 [Hi2 Hk]].
      rewrite !F' by lia. apply P1. exact Hin.
    - intros p Hp Hn. rewrite F' by lia. apply F1; assumption. }
  destruct Hsel as [<- | [<- | [<- | []]]].
  - run_set fovw d Hd He blk3 blk4 E3 E4 seam_edge_stored tc_rect Rr
            a1 P1 F1 L' F' I' C'.
    exact (Hgen _ _ a1 P1 F1 F').
  - run_set fovw d Hd He blk3 blk4 E3 E4 seam_edge_stored tc_cyli Rc
            a1 P1 F1 L' F' I' C'.
    exact (Hgen _ _ a1 P1 F1 F').
  - run_set fovw d Hd He blk3 blk4 E3 E4 seam_edge_stored tc_equi Re
            a1 P1 F1 L' F' I' C'.
    exact (Hgen _ _ a1 P1 F1 F').
Qed.

Lemma seam_edge_rule_witness :
  1 <= 2 <= max_divs
  /\ exists t,
       quadsphere_texcoords 90 2 = Some t
       /\ rd (equis t) 108
          = option_map EVAL (rd (equis (texcoord_sets 90 2)) 22).
Proof.
  assert (H : 1 <= 2 <= max_divs) by (unfold max_divs; lia).
  split; [exact H|].
  destruct (seam_edge_rule 90 2 H) as [t [E A]].
  exists t. split; [exact E|].
  destruct (A equis ltac:(right; right; left; reflexivity)) as [P _].
  destruct (P 10 54 ltac:(left; reflexivity)) as [_ [X _]].
  exact X.
Defined.

(** X17: In the sets [angls] and [fishs], for every argument from 1 up: the
    duplicate of a seam point takes both coordinates of the seam point,
    and no float of a face vertex changes. *)
Theorem seam_copy_rule (fovw : R) (divs_arg : Z) :
  1 <= divs_arg <= max_divs ->
  let d := round_divs divs_arg in
  let t0 := texcoord_sets fovw d in
  exists t,
    quadsphere_texcoords fovw divs_arg = Some t
    /\ forall sel, In sel [angls; fishs] ->
         (forall i k, In (i, k) (seam_pairs d) ->
            rd (sel t) (2 * k) = rd (sel t0) (2 * i)
            /\ rd (sel t) (2 * k + 1) = rd (sel t0) (2 * i + 1))
         /\ (forall p, 0 <= p < 12 * ppf d -> rd (sel t) p = rd (sel t0) p).
Proof.
  intros Ha d t0.
  assert (Hd : valid_divs d) by (apply round_divs_valid; lia).
  assert (He : 2 <= d) by (unfold d; rewrite round_divs_pos by lia; lia).
  destruct (quadsphere_texcoords_parts fovw divs_arg Ha)
    as [blk3 [blk4 [t [E3 [E4 [Et [Ra [Rr [Rf [Rc [Re [Es Em]]]]]]]]]]]].
  fold d in E3, E4, Ra, Rr, Rf, Rc, Re.
  assert (Hidc : 6 * ppf d <= idc d).
  { destruct (even_resolution d Hd He)
      as [h [Hh [_ [_ [HD [_ [_ [_ [_ [_ [_ [_ [_ Ic]]]]]]]]]]]]]. lia. }
  pose proof (idt_val d Hd) as It.
  exists t. split; [exact Et|]. intros sel Hsel. cbn [In] in Hsel.
  assert (Hgen : forall a0 a a1,
            (forall i k, In (i, k) (seam_pairs d) ->
               rd a1 (2 * k) = rd a0 (2 * i)
               /\ rd a1 (2 * k + 1) = rd a0 (2 * i + 1)) ->
            (forall p, 0 <= p < 12 * ppf d -> rd a1 p = rd a0 p) ->
            (forall p, 0 <= p < 2 * idc d -> rd a p = rd a1 p) ->
            (forall i k, In (i, k) (seam_pairs d) ->
               rd a (2 * k) = rd a0 (2 * i)
               /\ rd a (2 * k + 1) = rd a0 (2 * i + 1))
            /\ (forall p, 0 <= p < 12 * ppf d -> rd a p = rd a0 p)).
  { intros a0 a a1 P1 F1 F'. split.
    - intros i k Hin.
      destruct (seam_pairs_range d i k Hd He Hin) as [Hi1 [Hi2 Hk]].
      rewrite !F' by lia. apply P1. exact Hin.
    - intros p Hp. rewrite F' by lia. apply F1; assumption. }
  destruct Hsel as [<- | [<- | []]].
  - run_set fovw d Hd He blk3 blk4 E3 E4 seam_copy_stored tc_angl Ra
            a1 P1 F1 L' F' I' C'.
    exact (Hgen _ _ a1 P1 F1 F').
  - run_set fovw d Hd He blk3 blk4 E3 E4 seam_copy_stored tc_fish Rf
            a1 P1 F1 L' F' I' C'.
    exact (Hgen _ _ a1 P1 F1 F').
Qed.

Lemma seam_copy_rule_witness :
  1 <= 2 <= max_divs
  /\ exists t,
       quadsphere_texcoords 90 2 = Some t
       /\ rd (angls t) 108 = rd (angls (texcoord_sets 90 2)) 20.
Proof.
  assert (H : 1 <= 2 <= max_divs) by (unfold max_divs; lia).
  split; [exact H|].
  destruct (seam_copy_rule 90 2 H) as [t [E A]].
  exists t. split; [exact E|].
  destruct (A angls ltac:(left; reflexivity)) as [P _].
  destruct (P 10 54 ltac:(left; reflexivity)) as [X _].
  exact X.
Defined.

(** X18: In each of the five repaired sets, for every argument from 1 up, the
    four centre duplicates are no copies of a centre.  With [h] half the
    resolution: the two of the top centre take their second coordinate
    from the centre [ppf + h * dp1 + h] and their first from the seam
    point [ipt + (h - 1) * dp1] in the row before it, the one, and from
    that point's duplicate [idt + (h - 1)], the other; the two of the
    bottom centre take their second coordinate from the centre
    [4 * ppf + h * dp1 + h] and their first from the seam point [ipb] in
    the row after it and from its duplicate [idb]. *)
Theorem centre_duplicates_rule (fovw : R) (divs_arg : Z) :
  1 <= divs_arg <= max_divs ->
  let d := round_divs divs_arg in
  let h := d2 d in
  exists t,
    quadsphere_texcoords fovw divs_arg = Some t
    /\ forall sel, In sel [rects; fishs; cylis; equis; angls] ->
         let a := sel t in
         rd a (2 * idc d) = rd a (2 * (ipt d + (h - 1) * dp1 d))
         /\ rd a (2 * idc d + 1) = rd a (2 * (ppf d + h * dp1 d + h) + 1)
         /\ rd a (2 * idc d + 2) = rd a (2 * (idt d + (h - 1)))
         /\ rd a (2 * idc d + 3) = rd a (2 * (ppf d + h * dp1 d + h) + 1)
         /\ rd a (2 * idc d + 4) = rd a (2 * ipb d)
         /\ rd a (2 * idc d + 5)
            = rd a (2 * (4 * ppf d + h * dp1 d + h) + 1)
         /\ rd a (2 * idc d + 6) = rd a (2 * idb d)
         /\ rd a (2 * idc d + 7)
            = rd a (2 * (4 * ppf d + h * dp1 d + h) + 1).
Proof.
  intros Ha d h.
  assert (Hd : valid_divs d) by (apply round_divs_valid; lia).
  assert (He : 2 <= d) by (unfold d; rewrite round_divs_pos by lia; lia).
  destruct (quadsphere_texcoords_parts fovw divs_arg Ha)
    as [blk3 [blk4 [t [E3 [E4 [Et [Ra [Rr [Rf [Rc [Re [Es Em]]]]]]]]]]]].
  fold d in E3, E4, Ra, Rr, Rf, Rc, Re.
  exists t. split; [exact Et|]. intros sel Hsel. cbn [In] in Hsel.
  destruct Hsel as [<- | [<- | [<- | [<- | [<- | []]]]]].
  - run_set fovw d Hd He blk3 blk4 E3 E4 seam_edge_stored tc_rect Rr
            a1 P1 F1 L' F' I' C'.
    exact C'.
  - run_set fovw d Hd He blk3 blk4 E3 E4 seam_copy_stored tc_fish Rf
            a1 P1 F1 L' F' I' C'.
    exact C'.
  - run_set fovw d Hd He blk3 blk4 E3 E4 seam_edge_stored tc_cyli Rc
            a1 P1 F1 L' F' I' C'.
    exact C'.
  - run_set fovw d Hd He blk3 blk4 E3 E4 seam_edge_stored tc_equi Re
            a1 P1 F1 L' F' I' C'.
    exact C'.
  - run_set fovw d Hd He blk3 blk4 E3 E4 seam_copy_stored tc_angl Ra
            a1 P1 F1 L' F' I' C'.
    exact C'.
Qed.

Lemma centre_duplicates_rule_witness :
  1 <= 2 <= max_divs
  /\ exists t,
       quadsphere_texcoords 90 2 = Some t
       /\ rd (fishs t) 118 = rd (fishs t) 20
       /\ rd (fishs t) 119 = rd (fishs t) 27.
Proof.
  assert (H : 1 <= 2 <= max_divs) by (unfold max_divs; lia).
  split; [exact H|].
  destruct (centre_duplicates_rule 90 2 H) as [t [E A]].
  exists t. split; [exact E|].
  destruct (A fishs ltac:(right; left; reflexivity)) as [X [Y _]].
  split; [exact X|exact Y].
Defined.

Section EquirectSeam.

(** Each entry of the loop's result is the coordinates of the vertex in
    its place, for some value of the running [s]. *)
Lemma texcoord_loop_nth (fovw : R) (vs : list (R * R * R)) :
  forall s i t,
    nth_error (texcoord_loop fovw vs s) i = Some t ->
    exists v s', nth_error vs i = Some v
                 /\ t = fst (vertex_texcoords fovw v s').
Proof.
  induction vs as [|v vs IH]; intros s i t Hi.
  - destruct i; discriminate.
  - destruct i as [|i].
    + cbn in Hi. injection Hi as <-. exists v, s. split; reflexivity.
    + cbn [texcoord_loop nth_error] in Hi. apply (IH _ _ _ Hi).
Qed.

Lemma equi_first_unit (fovw : R) (v : R * R * R) (s : R) :
  (0 <= fst (tc_equi (fst (vertex_texcoords fovw v s))) <= 1)%R.
Proof.
  destruct v as [[ps0 ps1] ps2]. pose proof PI_RGT_0 as HP.
  destruct (vertex_texcoords_fields fovw ps0 ps1 ps2 s)
    as [_ [_ [He _]]].
  rewrite He. unfold equi_tc, Pi. cbn [fst].
  assert (Hi : (0 < / PI)%R) by (apply Rinv_0_lt_compat; lra).
  assert (H1 : (PI * / PI = 1)%R) by (apply Rinv_r; lra).
  pose proof (atan2_bound ps0 ps2) as Hb.
  assert (Hs : (0 <= 0.5 + 0.5 * xa_of ps0 ps2 / PI <= 1)%R)
    by (unfold xa_of, Rdiv; split; nra).
  rewrite CLIP_unit by assumption. exact Hs.
Qed.

Lemma EVAL_unit (x : R) : (0 <= x <= 1)%R -> EVAL x = 0%R \/ EVAL x = 1%R.
Proof.
  intros H. unfold EVAL.
  destruct (Rlt_dec x 0.5).
  - destruct (Rlt_dec x 0); [lra|left; reflexivity].
  - destruct (Rgt_dec x 1); [lra|right; reflexivity].
Qed.

(** The first coordinate of a face vertex in the equirectangular set
    the loop leaves. *)
Lemma rd_equis_first (fovw : R) (d j : Z) :
  valid_divs d -> 0 <= j < 6 * ppf d ->
  exists x, rd (equis (texcoord_sets fovw d)) (2 * j) = Some x
            /\ (0 <= x <= 1)%R.
Proof.
  intros Hd Hj. pose proof (valid_divs_pos d Hd) as Hp.
  pose proof (length_base_verts d Hp) as HB. unfold base_vertices in HB.
  assert (Hn : 0 <= dups d).
  { destruct (valid_divs_half d Hd) as [h [Hh Hc]].
    unfold dups, ntb, dp1. rewrite Hh. lia. }
  unfold texcoord_sets. cbv zeta. cbn [equis].
  destruct (nth_error (texcoord_loop fovw (base_verts d) (1 / IZR d)%R)
                      (Z.to_nat j)) as [t|] eqn:E.
  - destruct (texcoord_loop_nth _ _ _ _ _ E) as [v [s' [_ ->]]].
    destruct (rd_fill tc_equi _ (dups d) j _ Hn ltac:(lia) E) as [A _].
    eexists. split; [exact A|]. apply equi_first_unit.
  - exfalso. apply nth_error_None in E.
    rewrite length_texcoord_loop in E. apply Nat2Z.inj_le in E.
    change (Z.of_nat (length (base_verts d)) <= Z.of_nat (Z.to_nat j)) in E.
    rewrite HB in E. lia.
Qed.
End EquirectSeam.

(** X19: In the equirectangular set, for every argument from 1 up, the first
    coordinate of every seam point the loops visit and of every
    duplicate, the four centre duplicates included, ends as exactly 0
    or exactly 1. *)
Theorem equirect_seam_snapped (fovw : R) (divs_arg : Z) :
  1 <= divs_arg <= max_divs ->
  let d := round_divs divs_arg in
  exists t,
    quadsphere_texcoords fovw divs_arg = Some t
    /\ (forall i k, In (i, k) (seam_pairs d) ->
          rd (equis t) (2 * i) = Some 0%R \/ rd (equis t) (2 * i) = Some 1%R)
    /\ (forall k, 6 * ppf d <= k < vertpnts d ->
          rd (equis t) (2 * k) = Some 0%R \/ rd (equis t) (2 * k) = Some 1%R).
Proof.
  intros Ha d.
  assert (Hd : valid_divs d) by (apply round_divs_valid; lia).
  assert (He : 2 <= d) by (unfold d; rewrite round_divs_pos by lia; lia).
  destruct (quadsphere_texcoords_parts fovw divs_arg Ha)
    as [blk3 [blk4 [t [E3 [E4 [Et [Ra [Rr [Rf [Rc [Re [Es Em]]]]]]]]]]]].
  fold d in E3, E4, Ra, Rr, Rf, Rc, Re.
  destruct (even_resolution d Hd He)
    as [h [Hh [Hdh [Hn [HD [HP [HV [Ept [Epk [Epb [It [Ik [Ib Ic]]]]]]]]]]]]].
  assert (Hd2 : d2 d = h) by exact Hn.
  exists t. split; [exact Et|].
  run_set fovw d Hd He blk3 blk4 E3 E4 seam_edge_stored tc_equi Re
          a1 P1 F1 L' F' I' C'.
  assert (Hsnap : forall j, 0 <= j < 6 * ppf d ->
            option_map EVAL (rd (equis (texcoord_sets fovw d)) (2 * j))
            = Some 0%R
            \/ option_map EVAL (rd (equis (texcoord_sets fovw d)) (2 * j))
               = Some 1%R).
  { intros j Hj. destruct (rd_equis_first fovw d j Hd Hj) as [x [-> Hx]].
    cbn [option_map]. destruct (EVAL_unit x Hx) as [-> | ->]; tauto. }
  assert (Hpt : forall i k, In (i, k) (seam_pairs d) ->
            (rd (equis t) (2 * i) = Some 0%R
             \/ rd (equis t) (2 * i) = Some 1%R)
            /\ (rd (equis t) (2 * k) = Some 0%R
                \/ rd (equis t) (2 * k) = Some 1%R)).
  { intros i k Hin.
    destruct (seam_pairs_range d i k Hd He Hin) as [Hi1 [Hi2 Hk]].
    destruct (P1 i k Hin) as [X1 [X2 _]].
    rewrite !F' by lia. rewrite X1, X2.
    replace (2 * i - 2) with (2 * (i - 1)) by ring.
    replace (2 * i + 2) with (2 * (i + 1)) by ring.
    split; apply Hsnap; lia. }
  split; [intros i k Hin; apply (Hpt i k Hin)|].
  intros k Hk.
  destruct (Z.lt_ge_cases k (idc d)) as [Hlt|Hge].
  - destruct (seam_pairs_cover d k Hd He ltac:(lia)) as [i Hin].
    apply (Hpt i k Hin).
  - destruct C' as [C0 [_ [C2 [_ [C4 [_ [C6 _]]]]]]].
    rewrite Hd2 in C0, C2.
    destruct (seam_pairs_in d (h - 1)) as [T _].
    destruct (seam_pairs_in d 0) as [_ [_ B]].
    specialize (T ltac:(lia)). specialize (B ltac:(lia)).
    replace (ipb d + 0 * dp1 d) with (ipb d) in B by ring.
    replace (idb d + 0) with (idb d) in B by ring.
    assert (Hc : k = idc d \/ k = idc d + 1 \/ k = idc d + 2
                 \/ k = idc d + 3) by lia.
    destruct Hc as [-> | [-> | [-> | ->]]].
    + rewrite C0. apply (Hpt _ _ T).
    + replace (2 * (idc d + 1)) with (2 * idc d + 2) by ring.
      rewrite C2. apply (Hpt _ _ T).
    + replace (2 * (idc d + 2)) with (2 * idc d + 4) by ring.
      rewrite C4. apply (Hpt _ _ B).
    + replace (2 * (idc d + 3)) with (2 * idc d + 6) by ring.
      rewrite C6. apply (Hpt _ _ B).
Qed.

Lemma equirect_seam_snapped_witness :
  1 <= 2 <= max_divs
  /\ exists t,
       quadsphere_texcoords 90 2 = Some t
       /\ (rd (equis t) 124 = Some 0%R \/ rd (equis t) 124 = Some 1%R).
Proof.
  assert (H : 1 <= 2 <= max_divs) by (unfold max_divs; lia).
  split; [exact H|].
  destruct (equirect_seam_snapped 90 2 H) as [t [E [_ A]]].
  exists t. split; [exact E|].
  apply (A 62). vm_compute. split; [discriminate|reflexivity].
Defined.
